(** * tt-metal: host-side [Program] and device-side dispatch executor

    A shallow embedding of [tt_metal/impl/program.cpp] (kernel grouping,
    circular-buffer allocation, the compile gate) and of the command-queue
    dispatch kernel (buffer writes, program launch), followed by the
    properties the specification states about them.

    Conventions.
    - [u32]/[u64] values are integers in [Z]; every place where the C++
      arithmetic wraps is written with [wrap32]/[wrap64].
    - [std::map]/[std::unordered_map] keyed by a core coordinate is a [gmap];
      [kernel_by_id_], whose iteration order is visible, is an association
      list in the order of the visit, taken to be increasing key order (see
      [map_assign]).
    - A call that ends the computation ([log_fatal], a failed [TT_ASSERT] or
      [log_assert], an exception of the standard library, undefined
      behaviour) is a value of [failure] in the [result] monad. *)

From stdpp Require Import gmap list strings sorting.
From Stdlib Require Import ZArith Lia Ascii.

#[local] Open Scope Z_scope.
#[local] Set Warnings "-clear-no-such-hyp".

(* ===================================================================== *)
(** * Part I. Definitions                                                 *)
(* ===================================================================== *)

(** ** Failures and the [result] monad *)

Inductive failure : Type :=
  | Fatal              (* log_fatal, log_assert(false), TT_ASSERT(false) *)
  | OutOfRange         (* std::map::at on a missing key *)
  | BadOptionalAccess  (* std::optional::value on nullopt *)
  | Undefined.         (* undefined behaviour: back() of an empty vector,
                          a shift by the width of the type, an index past
                          the end of a bitset *)

Inductive result (A : Type) : Type :=
  | Ok (a : A)
  | Err (e : failure).
Arguments Ok {A} a.
Arguments Err {A} e.

#[global] Instance result_ret : MRet result := λ A a, Ok a.
#[global] Instance result_bind : MBind result :=
  λ A B f m, match m with Ok a => f a | Err e => Err e end.

Definition is_Ok {A} (r : result A) : Prop := ∃ a, r = Ok a.

(** Modelled from the spec: [log_fatal], [log_assert] and [TT_ASSERT] are
    macros of the logger and assert headers, which are not part of the
    sources read here.  Section 7 of the specification fixes what they do:
    every configuration error is fatal and ends the computation. *)
Definition log_fatal {A} : result A := Err Fatal.
Definition log_assert (cond : bool) : result unit :=
  if cond then Ok tt else Err Fatal.
Definition TT_ASSERT (cond : bool) : result unit :=
  if cond then Ok tt else Err Fatal.

(** A loop over a container whose body may fail: the first failure ends it. *)
Fixpoint foldlM {S A : Type} (f : S → A → result S) (l : list A) (s : S)
  : result S :=
  match l with
  | [] => Ok s
  | a :: l' => s' ← f s a; foldlM f l' s'
  end.

(** ** Machine integers *)

Definition wrap32 (z : Z) : Z := z mod 2 ^ 32.
Definition wrap64 (z : Z) : Z := z mod 2 ^ 64.
Definition is_u32 (z : Z) : Prop := 0 ≤ z < 2 ^ 32.
Definition is_u64 (z : Z) : Prop := 0 ≤ z < 2 ^ 64.

(** ** Geometry: [CoreCoord], [CoreRange], [CoreRangeSet] *)

(** A logical core coordinate [(x, y)].  Coordinates are [size_t] in the
    source; grid coordinates are far from [SIZE_MAX], so the counters of the
    [x]/[y] loops below never wrap and are natural numbers here. *)
Abbreviation CoreCoord := (nat * nat)%type.

Record CoreRange : Type := mkCoreRange {
  cr_start : CoreCoord;
  cr_end : CoreCoord;
}.

(** [CoreRangeSet::ranges()], in iteration order. *)
Abbreviation CoreRangeSet := (list CoreRange).

(** [for (x = start.x; x <= end.x; x++) for (y = start.y; y <= end.y; y++)] *)
Definition cores_of_range (r : CoreRange) : list CoreCoord :=
  x ← seq (cr_start r).1 (S (cr_end r).1 - (cr_start r).1)%nat;
  y ← seq (cr_start r).2 (S (cr_end r).2 - (cr_start r).2)%nat;
  [(x, y)].

(** [for (core_range : core_range_set.ranges()) for x ... for y ...] *)
Definition cores_of (crs : CoreRangeSet) : list CoreCoord :=
  r ← crs; cores_of_range r.

(** ** Constants of the host/device interface *)

(** [launch_msg_t] of dev_msgs.h, with the fields the sources name. *)
Record launch_msg_t : Type := mkLaunchMsg {
  kernel_group_id : Z;
  ncrisc_fw_size : Z;
  mode : Z;
  enable_brisc : bool;
  enable_ncrisc : bool;
  enable_triscs : bool;
  run : Z;
}.

(** The constants below come from headers that are not among the sources
    (hostdevcommon, dev_mem_map, dev_msgs, program.hpp); the model takes them
    as parameters.  [KernelGroup_launch_msg] is the value of the member
    [KernelGroup::launch_msg] when the body of [KernelGroup::KernelGroup()]
    starts: its declaration, and whatever initialises it, are in program.hpp
    and dev_msgs.h, so that nothing is assumed about it. *)
Class HostDevConstants : Type := {
  NUM_CIRCULAR_BUFFERS : Z;
  L1_UNRESERVED_BASE : Z;
  RUN_MSG_GO : Z;
  DISPATCH_MODE_DEV : Z;
  DEVICE_COMMAND_DATA_ADDR : Z;
  DISPATCH_MESSAGE_ADDR : Z;
  MAILBOX_ADDRESS_DEV_launch : Z;      (* GET_MAILBOX_ADDRESS_DEV(launch) *)
  launch_msg_addr : Z;                 (* (uint32_t)&launch_msg *)
  sizeof_launch_msg_t : Z;
  TT_METAL_DISPATCH_MAP_DUMP : bool;   (* the #ifdef of the dispatch kernel *)
  KernelGroup_launch_msg : launch_msg_t;
}.

(** ** [Program::CircularBufferAllocator] *)

(** [indices] is the [std::bitset<NUM_CIRCULAR_BUFFERS>] read as the integer
    of its bits ([to_ulong], for a bitset of at most 64 bits); [l1_regions]
    the vector of [[start, end)] pairs. *)
Record CircularBufferAllocator : Type := mkCBA {
  indices : Z;
  l1_regions : list (Z * Z);
}.

(** The value of the [int] expression [1 << index]; [None] where the shift is
    undefined (a count of 32 or more).  [1 << 31] is [INT_MIN]. *)
Definition int_shl1 (index : Z) : option Z :=
  if index <? 31 then Some (Z.shiftl 1 index)
  else if index =? 31 then Some (- 2 ^ 31)
  else None.

(** The usual arithmetic conversion of an [int] to [unsigned long]. *)
Definition to_unsigned_long (v : Z) : Z := v mod 2 ^ 64.

Section CircularBufferAllocator.
Context `{HostDevConstants}.

(** Modelled from the spec: the default member initialiser of [l1_regions]
    and [reset_available_addresses] live in program.hpp, which is not among
    the sources.  The occupied regions start "from a fixed reserved base", and
    a reset puts an allocator back in its pre-allocation state. *)
Definition initial_l1_regions : list (Z * Z) :=
  [(L1_UNRESERVED_BASE, L1_UNRESERVED_BASE)].

Definition default_allocator : CircularBufferAllocator :=
  {| indices := 0; l1_regions := initial_l1_regions |}.

Definition reset_available_addresses (a : CircularBufferAllocator)
  : CircularBufferAllocator :=
  {| indices := indices a; l1_regions := initial_l1_regions |}.

(** [Program::CircularBufferAllocator::add_index]. *)
Definition add_index (a : CircularBufferAllocator) (index : Z)
  : result CircularBufferAllocator :=
  if NUM_CIRCULAR_BUFFERS <? index then log_fatal
  else
    match int_shl1 index with
    | None => Err Undefined
    | Some bit =>
        if negb (Z.land (indices a) (to_unsigned_long bit) =? 0) then log_fatal
        else if index <? NUM_CIRCULAR_BUFFERS then
          (* this->indices[index] = 1 *)
          Ok {| indices := Z.lor (indices a) (Z.shiftl 1 index);
                l1_regions := l1_regions a |}
        else Err Undefined
    end.

(** [Program::CircularBufferAllocator::get_address_candidate]. *)
Definition get_address_candidate (a : CircularBufferAllocator) : result Z :=
  match last (l1_regions a) with
  | Some last_region => Ok last_region.2
  | None => Err Undefined
  end.

(** [Program::CircularBufferAllocator::mark_address]. *)
Definition mark_address (a : CircularBufferAllocator) (address size : Z)
  : result CircularBufferAllocator :=
  match last (l1_regions a) with
  | None => Err Undefined
  | Some last_region =>
      _ ← log_assert (last_region.2 <=? address);
      if address =? last_region.2 then
        Ok {| indices := indices a;
              l1_regions := removelast (l1_regions a)
                              ++ [(last_region.1, wrap64 (last_region.2 + size))] |}
      else
        Ok {| indices := indices a;
              l1_regions := l1_regions a ++ [(address, wrap64 (address + size))] |}
  end.

End CircularBufferAllocator.

(** ** Kernels and kernel groups *)

(** The processor a kernel targets.  [KernelGroup::update] handles three
    enumerators by name and sends every other one to its [default:] branch;
    [OtherRISCV] stands for those. *)
Inductive RISCV : Type :=
  | BRISC
  | NCRISC
  | COMPUTE
  | OtherRISCV (tag : nat).

#[global] Instance RISCV_eq_dec : EqDecision RISCV.
Proof. solve_decision. Defined.

Abbreviation KernelID := Z.

Record Kernel : Type := mkKernel {
  kernel_id : KernelID;
  kernel_name : string;
  processor : RISCV;
  core_range_set : CoreRangeSet;
  binary_path : option (string * Z);      (* name "/" hash, once compiled *)
  binaries_read : bool;
}.

(** Modelled from the spec: [Kernel::logical_cores] is defined in kernel.cpp,
    not among the sources; a kernel runs on the cores of its core range
    set. *)
Definition logical_cores (k : Kernel) : list CoreCoord :=
  cores_of (core_range_set k).

Record KernelGroup : Type := mkKernelGroup {
  riscv0_id : option KernelID;
  riscv1_id : option KernelID;
  compute_id : option KernelID;
  launch_msg : launch_msg_t;
}.

Definition set_run (m : launch_msg_t) (v : Z) : launch_msg_t :=
  mkLaunchMsg (kernel_group_id m) (ncrisc_fw_size m) (mode m)
              (enable_brisc m) (enable_ncrisc m) (enable_triscs m) v.
Definition set_enable_brisc (m : launch_msg_t) : launch_msg_t :=
  mkLaunchMsg (kernel_group_id m) (ncrisc_fw_size m) (mode m)
              true (enable_ncrisc m) (enable_triscs m) (run m).
Definition set_enable_ncrisc (m : launch_msg_t) : launch_msg_t :=
  mkLaunchMsg (kernel_group_id m) (ncrisc_fw_size m) (mode m)
              (enable_brisc m) true (enable_triscs m) (run m).
Definition set_enable_triscs (m : launch_msg_t) : launch_msg_t :=
  mkLaunchMsg (kernel_group_id m) (ncrisc_fw_size m) (mode m)
              (enable_brisc m) (enable_ncrisc m) true (run m).

(** [KernelGroup::update]. *)
Definition KernelGroup_update (g : KernelGroup) (kernel : Kernel)
  : result KernelGroup :=
  match processor kernel with
  | BRISC =>
      Ok (mkKernelGroup (Some (kernel_id kernel)) (riscv1_id g) (compute_id g)
                        (set_enable_brisc (launch_msg g)))
  | NCRISC =>
      Ok (mkKernelGroup (riscv0_id g) (Some (kernel_id kernel)) (compute_id g)
                        (set_enable_ncrisc (launch_msg g)))
  | COMPUTE =>
      Ok (mkKernelGroup (riscv0_id g) (riscv1_id g) (Some (kernel_id kernel))
                        (set_enable_triscs (launch_msg g)))
  | OtherRISCV _ => _ ← TT_ASSERT false; Ok g
  end.

(** ** Circular buffers *)

Abbreviation CircularBufferID := Z.

(** [buffer_indices_] lists the occupied slots in iteration order;
    [data_formats_] gives the format of a slot; [requested_address] is the
    [std::optional<uint32_t>] of the source. *)
Record CircularBufferConfig : Type := mkCBConfig {
  total_size : Z;
  buffer_indices_ : list Z;
  data_formats_ : gmap Z Z;
  requested_address : option Z;
}.

Record CircularBuffer : Type := mkCB {
  cb_id : CircularBufferID;
  core_ranges : CoreRangeSet;
  config : CircularBufferConfig;
  address : option Z;
}.

Definition buffer_indices (cb : CircularBuffer) : list Z :=
  buffer_indices_ (config cb).
Definition size_of (cb : CircularBuffer) : Z := total_size (config cb).
Definition set_address (a : Z) (cb : CircularBuffer) : CircularBuffer :=
  mkCB (cb_id cb) (core_ranges cb) (config cb) (Some a).

(** Modelled from the spec: [CircularBuffer::is_on_logical_core] is defined in
    circular_buffer.cpp, not among the sources; a circular buffer is placed on
    the cores of its core range set. *)
Definition is_on_logical_core (cb : CircularBuffer) (core : CoreCoord) : bool :=
  bool_decide (core ∈ cores_of (core_ranges cb)).

(** ** [Program] *)

(** [kernel_by_id_[id] = kernel].  The list is the container in the order a
    range-for visits it.  The type of [kernel_by_id_] is declared in
    program.hpp, which is not among the sources; it is taken here to be a
    [std::map<KernelID, Kernel *>], visited in increasing key order.  This is
    an assumption of the model: what is proved below of the loops over
    [kernel_by_id_] that depends on the order of the visit is stated for a
    list in any order. *)
Fixpoint map_assign {V : Type} (k : Z) (v : V) (m : list (Z * V))
  : list (Z * V) :=
  match m with
  | [] => [(k, v)]
  | (k', v') :: m' =>
      if k <? k' then (k, v) :: m
      else if k =? k' then (k, v) :: m'
      else (k', v') :: map_assign k v m'
  end.

Fixpoint map_find {V : Type} (k : Z) (m : list (Z * V)) : option V :=
  match m with
  | [] => None
  | (k', v') :: m' => if k =? k' then Some v' else map_find k m'
  end.

(** The fields of [Program] that the functions modelled here read or write.
    [circular_buffer_by_id_] indexes the objects [circular_buffers_] shares
    with it and [semaphores_] is only appended to; neither is read by these
    functions, and both are left out. *)
Record Program : Type := mkProgram {
  program_id : Z;
  kernel_ids_ : list KernelID;
  kernel_by_id_ : list (KernelID * Kernel);
  core_to_kernel_group_ : gmap CoreCoord KernelGroup;
  circular_buffers_ : list CircularBuffer;
  per_core_cb_allocator_ : gmap CoreCoord CircularBufferAllocator;
  worker_crs_ : CoreRangeSet;
  compile_needed_ : bool;
  circular_buffer_allocation_needed_ : bool;
}.

(** [Program::Program()]; [n] is the value of [program_counter++]. *)
Definition new_Program (n : Z) : Program :=
  mkProgram n [] [] ∅ [] ∅ [] false false.

Definition with_kernels (p : Program) (ids : list KernelID)
    (by_id : list (KernelID * Kernel)) : Program :=
  mkProgram (program_id p) ids by_id (core_to_kernel_group_ p)
            (circular_buffers_ p) (per_core_cb_allocator_ p) (worker_crs_ p)
            (compile_needed_ p) (circular_buffer_allocation_needed_ p).
Definition with_core_to_kernel_group (p : Program)
    (groups : gmap CoreCoord KernelGroup) : Program :=
  mkProgram (program_id p) (kernel_ids_ p) (kernel_by_id_ p) groups
            (circular_buffers_ p) (per_core_cb_allocator_ p) (worker_crs_ p)
            (compile_needed_ p) (circular_buffer_allocation_needed_ p).
Definition with_circular_buffers (p : Program) (cbs : list CircularBuffer)
  : Program :=
  mkProgram (program_id p) (kernel_ids_ p) (kernel_by_id_ p)
            (core_to_kernel_group_ p) cbs (per_core_cb_allocator_ p)
            (worker_crs_ p) (compile_needed_ p)
            (circular_buffer_allocation_needed_ p).
Definition with_cb_allocators (p : Program)
    (allocs : gmap CoreCoord CircularBufferAllocator) : Program :=
  mkProgram (program_id p) (kernel_ids_ p) (kernel_by_id_ p)
            (core_to_kernel_group_ p) (circular_buffers_ p) allocs
            (worker_crs_ p) (compile_needed_ p)
            (circular_buffer_allocation_needed_ p).
Definition with_worker_crs (p : Program) (crs : CoreRangeSet) : Program :=
  mkProgram (program_id p) (kernel_ids_ p) (kernel_by_id_ p)
            (core_to_kernel_group_ p) (circular_buffers_ p)
            (per_core_cb_allocator_ p) crs (compile_needed_ p)
            (circular_buffer_allocation_needed_ p).
Definition with_compile_needed (p : Program) (b : bool) : Program :=
  mkProgram (program_id p) (kernel_ids_ p) (kernel_by_id_ p)
            (core_to_kernel_group_ p) (circular_buffers_ p)
            (per_core_cb_allocator_ p) (worker_crs_ p) b
            (circular_buffer_allocation_needed_ p).
Definition with_allocation_needed (p : Program) (b : bool) : Program :=
  mkProgram (program_id p) (kernel_ids_ p) (kernel_by_id_ p)
            (core_to_kernel_group_ p) (circular_buffers_ p)
            (per_core_cb_allocator_ p) (worker_crs_ p) (compile_needed_ p) b.

(** Modelled from the spec: [Program::invalidate_compile] is an inline member
    of program.hpp, not among the sources; it sets the compile-dirty flag. *)
Definition invalidate_compile (p : Program) : Program :=
  with_compile_needed p true.

(** [Program::add_kernel]. *)
Definition add_kernel (p : Program) (kernel : Kernel) : Program :=
  let p := invalidate_compile p in
  let p := with_kernels p (kernel_ids_ p ++ [kernel_id kernel]) (kernel_by_id_ p) in
  let p := with_core_to_kernel_group p ∅ in
  with_kernels p (kernel_ids_ p)
               (map_assign (kernel_id kernel) kernel (kernel_by_id_ p)).

(** [Program::get_kernel]. *)
Definition get_kernel (p : Program) (id : KernelID) : result Kernel :=
  _ ← TT_ASSERT (bool_decide (is_Some (map_find id (kernel_by_id_ p))));
  match map_find id (kernel_by_id_ p) with
  | Some k => Ok k
  | None => Err OutOfRange
  end.

Section KernelGroups.
Context `{HostDevConstants}.

(** [KernelGroup::KernelGroup()]: only [launch_msg.run] is assigned; the
    other fields of the message keep the value they are declared with.  The
    three ids are [std::optional]s, which start empty. *)
Definition new_KernelGroup : KernelGroup :=
  mkKernelGroup None None None (set_run KernelGroup_launch_msg RUN_MSG_GO).

(** The body of the inner loop of [core_to_kernel_group]:
    [core_to_kernel_group_[core]] creates a fresh group when the core has
    none, and the group is then updated in place. *)
Definition update_core (kernel : Kernel)
    (groups : gmap CoreCoord KernelGroup) (core : CoreCoord)
  : result (gmap CoreCoord KernelGroup) :=
  let kernel_group := default new_KernelGroup (groups !! core) in
  g ← KernelGroup_update kernel_group kernel;
  Ok (<[core := g]> groups).

Definition update_kernel (groups : gmap CoreCoord KernelGroup)
    (entry : KernelID * Kernel) : result (gmap CoreCoord KernelGroup) :=
  foldlM (update_core entry.2) (logical_cores entry.2) groups.

Definition build_kernel_groups (kernels : list (KernelID * Kernel))
  : result (gmap CoreCoord KernelGroup) :=
  foldlM update_kernel kernels ∅.

(** [Program::core_to_kernel_group]: returns the program (whose cache may
    have been filled) and the map the returned reference designates. *)
Definition core_to_kernel_group (p : Program)
  : result (Program * gmap CoreCoord KernelGroup) :=
  if decide (size (core_to_kernel_group_ p) = 0%nat) then
    groups ← foldlM update_kernel (kernel_by_id_ p) (core_to_kernel_group_ p);
    Ok (with_core_to_kernel_group p groups, groups)
  else Ok (p, core_to_kernel_group_ p).

(** [Program::kernels_on_core]: [None] is the null pointer. *)
Definition kernels_on_core (p : Program) (core : CoreCoord)
  : result (Program * option KernelGroup) :=
  '(p, kernel_groups) ← core_to_kernel_group p;
  Ok (p, kernel_groups !! core).

(** Modelled from the spec: [CreateDataMovementKernel] and
    [CreateComputeKernel] are host-API functions of tt_metal.cpp, not among
    the sources.  They build a kernel for the given processor role on the
    given core range set and register it with [add_kernel]; the identity of
    the new kernel is [id]. *)
Definition CreateKernel (p : Program) (id : KernelID) (file : string)
    (crs : CoreRangeSet) (proc : RISCV) : Program :=
  add_kernel p (mkKernel id file proc crs None false).

Definition single_core_range (core : CoreCoord) : CoreRange :=
  mkCoreRange core core.

(** The cores of [groups] for which [role] is unassigned, each as the
    one-core range the source inserts in its [std::set<CoreRange>].  The set
    is ordered by the comparison of [CoreRange], declared outside the
    sources; the list here has the same elements, in the order of the map,
    and the properties below depend on its elements only. *)
Definition ranges_without (role : KernelGroup → option KernelID)
    (groups : gmap CoreCoord KernelGroup) : list CoreRange :=
  (λ e, single_core_range e.1) <$>
    filter (λ e : CoreCoord * KernelGroup, role e.2 = None) (map_to_list groups).

End KernelGroups.

Section BlankKernels.
Context `{HostDevConstants}.

(** [Program::add_blank_kernels].  [ids] are the identities the three kernels
    get if they are created (a kernel's id is its address in the source). *)
Definition add_blank_kernels (p : Program)
    (ids : KernelID * KernelID * KernelID) : result Program :=
  '(p, groups) ← core_to_kernel_group p;
  let unique_core_ranges_without_brisc_kernel := ranges_without riscv0_id groups in
  let unique_core_ranges_without_ncrisc_kernel := ranges_without riscv1_id groups in
  let unique_core_ranges_without_compute_kernel := ranges_without compute_id groups in
  let p :=
    if decide (unique_core_ranges_without_brisc_kernel = []) then p
    else CreateKernel p ids.1.1 "tt_metal/kernels/dataflow/blank.cpp"
                      unique_core_ranges_without_brisc_kernel BRISC in
  let p :=
    if decide (unique_core_ranges_without_ncrisc_kernel = []) then p
    else CreateKernel p ids.1.2 "tt_metal/kernels/dataflow/blank.cpp"
                      unique_core_ranges_without_ncrisc_kernel NCRISC in
  let p :=
    if decide (unique_core_ranges_without_compute_kernel = []) then p
    else CreateKernel p ids.2 "tt_metal/kernels/compute/blank.cpp"
                      unique_core_ranges_without_compute_kernel COMPUTE in
  Ok p.

End BlankKernels.

(** ** Circular-buffer registration and allocation *)

Definition optional_value {A : Type} (o : option A) : result A :=
  match o with
  | Some a => Ok a
  | None => Err BadOptionalAccess
  end.

Section CircularBuffers.
Context `{HostDevConstants}.

(** [Program::invalidate_circular_buffer_allocation]. *)
Definition invalidate_circular_buffer_allocation (p : Program) : Program :=
  if circular_buffer_allocation_needed_ p then p
  else
    let p := with_cb_allocators p
               (reset_available_addresses <$> per_core_cb_allocator_ p) in
    with_allocation_needed p true.

(** The body of the core loops of [add_circular_buffer]:
    [per_core_cb_allocator_[logical_core]] creates a default allocator when
    the core has none. *)
Definition add_indices_on_core (circular_buffer : CircularBuffer)
    (allocs : gmap CoreCoord CircularBufferAllocator) (logical_core : CoreCoord)
  : result (gmap CoreCoord CircularBufferAllocator) :=
  let cb_config := default default_allocator (allocs !! logical_core) in
  cb_config ← foldlM add_index (buffer_indices circular_buffer) cb_config;
  Ok (<[logical_core := cb_config]> allocs).

(** [Program::add_circular_buffer]; [id] is the identity of the new
    [CircularBuffer] object. *)
Definition add_circular_buffer (p : Program) (core_range_set : CoreRangeSet)
    (config : CircularBufferConfig) (id : CircularBufferID)
  : result (Program * CircularBufferID) :=
  let p := invalidate_compile p in
  let p := invalidate_circular_buffer_allocation p in
  let circular_buffer := mkCB id core_range_set config None in
  allocs ← foldlM (add_indices_on_core circular_buffer)
                  (cores_of core_range_set) (per_core_cb_allocator_ p);
  let p := with_cb_allocators p allocs in
  let p := with_circular_buffers p (circular_buffers_ p ++ [circular_buffer]) in
  Ok (p, cb_id circular_buffer).

(** First core loop of [allocate_circular_buffers]: the state is
    [computed_addr] and [cb_allocators]; the references to allocators are kept
    as the keys they designate in [per_core_cb_allocator_]. *)
Definition query_core (allocs : gmap CoreCoord CircularBufferAllocator)
    (st : option Z * list CoreCoord) (logical_core : CoreCoord)
  : result (option Z * list CoreCoord) :=
  match allocs !! logical_core with
  | None => Err OutOfRange
  | Some cb_allocator =>
      candidate_addr ← get_address_candidate cb_allocator;
      let computed_addr :=
        match st.1 with
        | None => candidate_addr
        | Some c => Z.max c candidate_addr
        end in
      Ok (Some computed_addr, st.2 ++ [logical_core])
  end.

(** [cb_allocator.get().mark_address(computed_addr.value(), size)] *)
Definition mark_core (computed_addr : option Z) (size : Z)
    (allocs : gmap CoreCoord CircularBufferAllocator) (core : CoreCoord)
  : result (gmap CoreCoord CircularBufferAllocator) :=
  address ← optional_value computed_addr;
  match allocs !! core with
  | None => Err OutOfRange
  | Some cb_allocator =>
      cb_allocator ← mark_address cb_allocator address size;
      Ok (<[core := cb_allocator]> allocs)
  end.

(** The body of the loop over [circular_buffers_]. *)
Definition allocate_circular_buffer
    (allocs : gmap CoreCoord CircularBufferAllocator)
    (circular_buffer : CircularBuffer)
  : result (gmap CoreCoord CircularBufferAllocator * CircularBuffer) :=
  '(computed_addr, cb_allocators) ←
     foldlM (query_core allocs) (cores_of (core_ranges circular_buffer)) (None, []);
  computed_addr ←
     match requested_address (config circular_buffer) with
     | Some requested =>
         computed ← optional_value computed_addr;
         if requested <? computed then log_fatal else Ok (Some requested)
     | None => Ok computed_addr
     end;
  allocs ← foldlM (mark_core computed_addr (size_of circular_buffer))
                  cb_allocators allocs;
  address ← optional_value computed_addr;
  Ok (allocs, set_address address circular_buffer).

Definition allocate_step
    (st : gmap CoreCoord CircularBufferAllocator * list CircularBuffer)
    (circular_buffer : CircularBuffer)
  : result (gmap CoreCoord CircularBufferAllocator * list CircularBuffer) :=
  '(allocs, circular_buffer) ← allocate_circular_buffer st.1 circular_buffer;
  Ok (allocs, st.2 ++ [circular_buffer]).

(** [Program::allocate_circular_buffers]. *)
Definition allocate_circular_buffers (p : Program) : result Program :=
  if negb (circular_buffer_allocation_needed_ p) then Ok p
  else
    '(allocs, cbs) ← foldlM allocate_step (circular_buffers_ p)
                            (per_core_cb_allocator_ p, []);
    let p := with_cb_allocators p allocs in
    let p := with_circular_buffers p cbs in
    Ok (with_allocation_needed p false).

End CircularBuffers.

(** ** The compile pipeline *)

Record Device : Type := mkDevice {
  device_id : Z;
  is_initialized : bool;
}.

Record build_kernel_for_riscv_options_t : Type := mkBuildOptions {
  bo_device_id : Z;
  bo_name : string;
  bo_cb_dataformat : gmap Z Z;
}.

(** What the pipeline calls outside the sources (the kernel classes, the
    build back end, [CoreRangeSet::merge], the standard hash): taken as
    parameters. *)
Class Toolchain : Type := {
  kernel_set_build_options :
    Kernel → build_kernel_for_riscv_options_t → build_kernel_for_riscv_options_t;
  hash_hlk_desc : build_kernel_for_riscv_options_t → Z;
  kernel_compute_hash : Kernel → string;
  std_to_string : Z → string;
  std_hash_string : string → Z;
  is_on_logical_corerange : CircularBuffer → CoreRange → bool;
  (* generate_descriptors or Kernel::generate_binaries throws runtime_error *)
  generate_binaries_throws : Kernel → build_kernel_for_riscv_options_t → bool;
  CoreRangeSet_merge : CoreRangeSet → CoreRangeSet → CoreRangeSet;
}.

(** The work the pipeline hands to its collaborators, in the order done. *)
Inductive work : Type :=
  | generated_blank (device : Z)
  | generated_binaries (kernel : KernelID) (path : string * Z)
  | read_kernel (kernel : KernelID) (device : Z)
  | reported_kernel_compile (kernel : KernelID) (cache_hit : bool) (hash : Z)
  | flushed_program_entry (program : Z) (persistent : bool)
  | flushed_program_memory_usage (program : Z) (device : Z).

(** The process-wide state the pipeline reads and writes. *)
Record World : Type := mkWorld {
  blank_compiled : bool;                  (* static bool compiled *)
  enable_persistent_kernel_cache : bool;
  device_profiler_state : bool;           (* getDeviceProfilerState() *)
  print_server_running : bool;            (* tt_is_print_server_running() *)
  profiler_state_for_debug_print : bool;
  hash_lookup : gset Z;                   (* detail::HashLookup::inst() *)
  disk : gset (string * Z);               (* paths present under outpath *)
  compilation_reporter_enabled : bool;
  memory_reporter_enabled : bool;
  work_log : list work;
}.

Definition with_blank_compiled (w : World) : World :=
  mkWorld true (enable_persistent_kernel_cache w) (device_profiler_state w)
          (print_server_running w) (profiler_state_for_debug_print w)
          (hash_lookup w) (disk w) (compilation_reporter_enabled w)
          (memory_reporter_enabled w) (work_log w).
Definition tt_set_profiler_state_for_debug_print (b : bool) (w : World) : World :=
  mkWorld (blank_compiled w) (enable_persistent_kernel_cache w)
          (device_profiler_state w) (print_server_running w) b
          (hash_lookup w) (disk w) (compilation_reporter_enabled w)
          (memory_reporter_enabled w) (work_log w).
Definition HashLookup_add (h : Z) (w : World) : World :=
  mkWorld (blank_compiled w) (enable_persistent_kernel_cache w)
          (device_profiler_state w) (print_server_running w)
          (profiler_state_for_debug_print w) ({[h]} ∪ hash_lookup w) (disk w)
          (compilation_reporter_enabled w) (memory_reporter_enabled w)
          (work_log w).
Definition with_path (path : string * Z) (w : World) : World :=
  mkWorld (blank_compiled w) (enable_persistent_kernel_cache w)
          (device_profiler_state w) (print_server_running w)
          (profiler_state_for_debug_print w) (hash_lookup w)
          ({[path]} ∪ disk w) (compilation_reporter_enabled w)
          (memory_reporter_enabled w) (work_log w).
Definition log_work (x : work) (w : World) : World :=
  mkWorld (blank_compiled w) (enable_persistent_kernel_cache w)
          (device_profiler_state w) (print_server_running w)
          (profiler_state_for_debug_print w) (hash_lookup w) (disk w)
          (compilation_reporter_enabled w) (memory_reporter_enabled w)
          (work_log w ++ [x]).

Definition set_binary_path (path : string * Z) (k : Kernel) : Kernel :=
  mkKernel (kernel_id k) (kernel_name k) (processor k) (core_range_set k)
           (Some path) (binaries_read k).
Definition read_binaries (k : Kernel) : Kernel :=
  mkKernel (kernel_id k) (kernel_name k) (processor k) (core_range_set k)
           (binary_path k) true.

Section Compile.
Context `{HostDevConstants} `{Toolchain}.

(** [detail::CompileBlankKernel]: the static flag makes every call after the
    first return at once. *)
Definition CompileBlankKernel (device : Device) (w : World) : World :=
  if blank_compiled w then w
  else with_blank_compiled (log_work (generated_blank (device_id device)) w).

(** [GenerateBinaries]: a [runtime_error] of the build is turned into
    [log_fatal]. *)
Definition GenerateBinaries (device : Device)
    (build_options : build_kernel_for_riscv_options_t)
    (op_path_suffix : string * Z) (kernel : Kernel) (w : World) : result World :=
  if generate_binaries_throws kernel build_options then log_fatal
  else Ok (with_path op_path_suffix
             (log_work (generated_binaries (kernel_id kernel) op_path_suffix) w)).

(** [KernelCompileHash]. *)
Definition KernelCompileHash (kernel : Kernel)
    (build_options : build_kernel_for_riscv_options_t) (device_id : Z) : Z :=
  let compile_hash_str :=
    (std_to_string (hash_hlk_desc build_options) +:+ kernel_compute_hash kernel)%string in
  std_hash_string compile_hash_str.

(** [Program::circular_buffers_on_corerange]. *)
Definition circular_buffers_on_corerange (p : Program) (cr : CoreRange)
  : list CircularBuffer :=
  filter (λ cb, is_on_logical_corerange cb cr = true) (circular_buffers_ p).

(** [Program::set_cb_data_fmt]: a slot without a recorded format keeps the
    options unchanged. *)
Definition set_cb_data_fmt (p : Program) (kernel : Kernel)
    (build_options : build_kernel_for_riscv_options_t)
  : build_kernel_for_riscv_options_t :=
  fold_left
    (λ bo logical_cr,
       fold_left
         (λ bo circular_buffer,
            fold_left
              (λ bo buffer_index,
                 match data_formats_ (config circular_buffer) !! buffer_index with
                 | Some fmt =>
                     mkBuildOptions (bo_device_id bo) (bo_name bo)
                                    (<[buffer_index := fmt]> (bo_cb_dataformat bo))
                 | None => bo
                 end)
              (buffer_indices circular_buffer) bo)
         (circular_buffers_on_corerange p logical_cr) bo)
    (core_range_set kernel) build_options.

(** The task the first loop of [compile] starts for one kernel.  The tasks
    run concurrently in the source and are joined before the next step; here
    they run one after the other in [kernel_ids_] order. *)
Definition compile_kernel (device : Device) (st : Program * World)
    (kernel_id : KernelID) : result (Program * World) :=
  let '(p, w) := st in
  kernel ← get_kernel p kernel_id;
  let build_options := mkBuildOptions (device_id device) (kernel_name kernel) ∅ in
  let build_options := kernel_set_build_options kernel build_options in
  let build_options := set_cb_data_fmt p kernel build_options in
  let kernel_hash := KernelCompileHash kernel build_options (device_id device) in
  let kernel_path_suffix := (kernel_name kernel, kernel_hash) in
  let path_exists := bool_decide (kernel_path_suffix ∈ disk w) in
  '(cache_hit, w) ←
     (if enable_persistent_kernel_cache w && path_exists then
        if bool_decide (kernel_hash ∈ hash_lookup w) then Ok (true, w)
        else Ok (true, HashLookup_add kernel_hash w)
      else if negb (bool_decide (kernel_hash ∈ hash_lookup w)) then
        w ← GenerateBinaries device build_options kernel_path_suffix kernel
                                (HashLookup_add kernel_hash w);
        Ok (false, w)
      else Ok (true, w));
  let w :=
    if compilation_reporter_enabled w
    then log_work (reported_kernel_compile kernel_id cache_hit kernel_hash) w
    else w in
  let kernel := set_binary_path kernel_path_suffix kernel in
  Ok (with_kernels p (kernel_ids_ p) (map_assign kernel_id kernel (kernel_by_id_ p)), w).

(** The task of the second loop of [compile]. *)
Definition read_kernel_binaries (device : Device) (st : Program * World)
    (kernel_id : KernelID) : result (Program * World) :=
  let '(p, w) := st in
  kernel ← get_kernel p kernel_id;
  Ok (with_kernels p (kernel_ids_ p)
        (map_assign kernel_id (read_binaries kernel) (kernel_by_id_ p)),
      log_work (read_kernel kernel_id (device_id device)) w).

(** [Program::construct_core_range_set_for_worker_cores]. *)
Definition construct_core_range_set_for_worker_cores (p : Program)
  : result Program :=
  let '(crs, found_kernels) :=
    fold_left (λ st (entry : KernelID * Kernel),
                 (CoreRangeSet_merge st.1 (core_range_set entry.2), true))
              (kernel_by_id_ p) (worker_crs_ p, false) in
  let p := with_worker_crs p crs in
  _ ← TT_ASSERT (negb found_kernels || bool_decide (1 ≤ length (worker_crs_ p))%nat);
  Ok p.

(** [Program::compile]. *)
Definition compile (p : Program) (device : Device) (w : World)
    (blank_ids : KernelID * KernelID * KernelID) : result (Program * World) :=
  if negb (compile_needed_ p) then Ok (p, w)
  else
    _ ← TT_ASSERT (is_initialized device);
    let w := CompileBlankKernel device w in
    let profile_kernel := device_profiler_state w in
    _ ← log_assert (negb (profile_kernel && print_server_running w));
    let w := tt_set_profiler_state_for_debug_print profile_kernel w in
    p ← add_blank_kernels p blank_ids;
    '(p, w) ← foldlM (compile_kernel device) (kernel_ids_ p) (p, w);
    '(p, w) ← foldlM (read_kernel_binaries device) (kernel_ids_ p) (p, w);
    p ← construct_core_range_set_for_worker_cores p;
    let w :=
      if compilation_reporter_enabled w
      then log_work (flushed_program_entry (program_id p) (enable_persistent_kernel_cache w)) w
      else w in
    let w :=
      if memory_reporter_enabled w
      then log_work (flushed_program_memory_usage (program_id p) (device_id device)) w
      else w in
    Ok (with_compile_needed p false, w).

End Compile.

(** ** The dispatch executor (device side) *)

(** What the dispatch core does on the interconnect and on its own L1, in
    program order.  [load_word] records a read of a [volatile] location
    together with the value the read returned. *)
Inductive noc_event : Type :=
  | noc_async_read (src_noc_addr dst_local_l1_addr size : Z)
  | noc_async_read_barrier
  | noc_async_write (src_local_l1_addr dst_noc_addr size : Z)
  | noc_async_write_multicast (src_local_l1_addr dst_noc_addr_multicast size num_dests : Z)
  | noc_async_write_barrier
  | store_word (addr value : Z)
  | load_word (addr value : Z)
  | DEBUG_STATUS (c1 c2 : ascii).

(** [InterleavedAddrGen<DRAM>]: the two fields [write_buffer] sets. *)
Record InterleavedAddrGen : Type := mkAddrGen {
  DRAM : bool;
  bank_base_address : Z;
  addr_gen_page_size : Z;
}.

(** [InterleavedAddrGen::get_noc_addr] is defined in dataflow_api.h, not among
    the sources: a parameter. *)
Class NocAddressing : Type := {
  get_noc_addr : InterleavedAddrGen → Z → Z;
}.

(** [(u64(noc) << 32) | addr] *)
Definition noc_addr64 (noc addr : Z) : Z := Z.lor (Z.shiftl noc 32) addr.

Section Dispatch.
Context `{HostDevConstants} `{NocAddressing}.

(** The page loop of [write_buffer],
    [for (u32 i = 0; i < read_size; i += padded_page_size)], from its state
    [(i, bank_id, local_addr)].  The counter wraps as a [u32] does, so the
    loop need not end: it runs on [fuel], and [None] is "still running". *)
Fixpoint send_pages (fuel : nat) (addr_gen : InterleavedAddrGen)
    (read_size page_size padded_page_size : Z) (i bank_id local_addr : Z)
  : option (Z * list noc_event) :=
  match fuel with
  | O => None
  | S fuel =>
      if i <? read_size then
        let dst_addr := get_noc_addr addr_gen bank_id in
        '(bank_id', evs) ←
           send_pages fuel addr_gen read_size page_size padded_page_size
                      (wrap32 (i + padded_page_size)) (wrap32 (bank_id + 1))
                      (wrap32 (local_addr + padded_page_size));
        Some (bank_id', noc_async_write local_addr dst_addr page_size :: evs)
      else Some (bank_id, [])
  end.

(** The [while (padded_buf_size > 0)] loop of [write_buffer]. *)
Fixpoint write_buffer_loop (fuel : nat) (addr_gen : InterleavedAddrGen)
    (src_noc burst_size page_size padded_page_size : Z)
    (src_addr padded_buf_size bank_id : Z) : option (list noc_event) :=
  match fuel with
  | O => None
  | S fuel =>
      if 0 <? padded_buf_size then
        let read_size := Z.min burst_size padded_buf_size in
        let src_noc_addr := noc_addr64 src_noc src_addr in
        '(bank_id', pages) ←
           send_pages fuel addr_gen read_size page_size padded_page_size
                      0 bank_id DEVICE_COMMAND_DATA_ADDR;
        rest ←
           write_buffer_loop fuel addr_gen src_noc burst_size page_size
                             padded_page_size (wrap32 (src_addr + read_size))
                             (wrap32 (padded_buf_size - read_size)) bank_id';
        Some (noc_async_read src_noc_addr DEVICE_COMMAND_DATA_ADDR read_size
              :: noc_async_read_barrier
              :: pages ++ noc_async_write_barrier :: rest)
      else Some []
  end.

(** [write_buffer]: the address generator is passed by reference and keeps
    the two fields set here. *)
Definition write_buffer (fuel : nat) (addr_gen : InterleavedAddrGen)
    (src_addr src_noc dst_addr padded_buf_size burst_size page_size
     padded_page_size : Z) : option (InterleavedAddrGen * list noc_event) :=
  let addr_gen := mkAddrGen (DRAM addr_gen) dst_addr padded_page_size in
  evs ← write_buffer_loop fuel addr_gen src_noc burst_size page_size
                          padded_page_size src_addr padded_buf_size 0;
  Some (addr_gen, evs).

(** [write_buffers]: [command] is the L1 the command pointer walks, by word
    index; the result carries the advanced pointer and both generators. *)
Fixpoint write_buffers_loop (fuel : nat) (n : nat) (command : Z → Z)
    (command_ptr : Z) (dram_addr_gen l1_addr_gen : InterleavedAddrGen)
  : option (Z * InterleavedAddrGen * InterleavedAddrGen * list noc_event) :=
  match n with
  | O => Some (command_ptr, dram_addr_gen, l1_addr_gen, [])
  | S n =>
      let src_addr := command command_ptr in
      let src_noc := command (command_ptr + 1) in
      let dst_addr := command (command_ptr + 2) in
      let padded_buf_size := command (command_ptr + 3) in
      let burst_size := command (command_ptr + 4) in
      let page_size := command (command_ptr + 5) in
      let padded_page_size := command (command_ptr + 6) in
      let buf_type := command (command_ptr + 7) in
      '(dram_addr_gen, l1_addr_gen, evs) ←
         (if buf_type =? 0 then
            '(g, evs) ← write_buffer fuel dram_addr_gen src_addr src_noc dst_addr
                          padded_buf_size burst_size page_size padded_page_size;
            Some (g, l1_addr_gen, evs)
          else if buf_type =? 1 then
            '(g, evs) ← write_buffer fuel l1_addr_gen src_addr src_noc dst_addr
                          padded_buf_size burst_size page_size padded_page_size;
            Some (dram_addr_gen, g, evs)
          else Some (dram_addr_gen, l1_addr_gen, []));
      '(command_ptr, dram_addr_gen, l1_addr_gen, rest) ←
         write_buffers_loop fuel n command (command_ptr + 8)
                            dram_addr_gen l1_addr_gen;
      Some (command_ptr, dram_addr_gen, l1_addr_gen, evs ++ rest)
  end.

Definition write_buffers (fuel : nat) (num_buffer_writes : Z) (command : Z → Z)
    (command_ptr : Z) (dram_addr_gen l1_addr_gen : InterleavedAddrGen)
  : option (Z * InterleavedAddrGen * InterleavedAddrGen * list noc_event) :=
  write_buffers_loop fuel (Z.to_nat num_buffer_writes) command command_ptr
                     dram_addr_gen l1_addr_gen.

(** The multicast loop of [launch_program],
    [for (u32 i = 0; i < num_multicast_messages * 2; i += 2)].  The bound is
    an even [u32] and [i] steps through the even numbers below it, so [i]
    never wraps: the loop visits [i = 0, 2, ...] below the bound. *)
Definition launch_multicasts (num_multicast_messages : Z) (command : Z → Z)
    (command_ptr : Z) : list noc_event :=
  (λ j,
     let i := 2 * j in
     let worker_core_noc_coord := Z.shiftl (command (command_ptr + i)) 32 in
     let num_messages := command (command_ptr + i + 1) in
     let launch_packet_dst_addr :=
       Z.lor worker_core_noc_coord MAILBOX_ADDRESS_DEV_launch in
     noc_async_write_multicast launch_msg_addr launch_packet_dst_addr
                               sizeof_launch_msg_t num_messages)
  <$> seqZ 0 (wrap32 (num_multicast_messages * 2) / 2).

(** The spin loop on the dispatch message word, [while (word != num_workers);].
    The location is written by
    the worker cores; [observed k] is the value the [k]-th read of it
    returns.  The loop runs on [fuel]. *)
Fixpoint busy_wait (fuel : nat) (observed : nat → Z) (k : nat) (num_workers : Z)
  : option (list noc_event) :=
  match fuel with
  | O => None
  | S fuel =>
      if negb (observed k =? num_workers) then
        evs ← busy_wait fuel observed (S k) num_workers;
        Some (load_word DISPATCH_MESSAGE_ADDR (observed k) :: evs)
      else Some [load_word DISPATCH_MESSAGE_ADDR (observed k)]
  end.

(** [launch_program]; [Some evs] is a return, after having done [evs]. *)
Definition launch_program (fuel : nat) (num_workers num_multicast_messages : Z)
    (command : Z → Z) (command_ptr : Z) (observed : nat → Z)
  : option (list noc_event) :=
  if TT_METAL_DISPATCH_MAP_DUMP then Some []
  else if num_workers =? 0 then Some []
  else
    waited ← busy_wait fuel observed 0 num_workers;
    Some (store_word DISPATCH_MESSAGE_ADDR 0
          :: launch_multicasts num_multicast_messages command command_ptr
          ++ noc_async_write_barrier
          :: DEBUG_STATUS "Q"%char "W"%char
          :: waited ++ [DEBUG_STATUS "Q"%char "D"%char]).

End Dispatch.

(** ** Well-formed inputs and the programs the interface builds *)

(** A [CoreRangeSet] never covers a coordinate twice. *)
Definition CoreRangeSet_valid (crs : CoreRangeSet) : Prop :=
  NoDup (cores_of crs).

(** The C++ types of a configuration: the byte size of a circular buffer and
    its requested address are 32-bit unsigned. *)
Definition CircularBufferConfig_typed (cfg : CircularBufferConfig) : Prop :=
  is_u32 (total_size cfg) ∧
  match requested_address cfg with
  | Some r => is_u32 r
  | None => True
  end.

(** A new kernel object never has the identity of a live one. *)
Definition fresh_kernel_id (p : Program) (id : KernelID) : Prop :=
  map_find id (kernel_by_id_ p) = None.
Definition fresh_blank_ids (p : Program)
    (ids : KernelID * KernelID * KernelID) : Prop :=
  NoDup [ids.1.1; ids.1.2; ids.2] ∧
  fresh_kernel_id p ids.1.1 ∧ fresh_kernel_id p ids.1.2 ∧ fresh_kernel_id p ids.2.

Section Reachable.
Context `{HostDevConstants} `{Toolchain}.

(** The programs that the constructor and the member functions modelled above
    produce.  A call that fails fatally produces none. *)
Inductive reachable : Program → Prop :=
  | reach_new n :
      reachable (new_Program n)
  | reach_add_kernel p kernel :
      reachable p →
      fresh_kernel_id p (kernel_id kernel) →
      reachable (add_kernel p kernel)
  | reach_core_to_kernel_group p p' groups :
      reachable p →
      core_to_kernel_group p = Ok (p', groups) →
      reachable p'
  | reach_add_blank_kernels p ids p' :
      reachable p →
      fresh_blank_ids p ids →
      add_blank_kernels p ids = Ok p' →
      reachable p'
  | reach_add_circular_buffer p crs cfg id p' :
      reachable p →
      CoreRangeSet_valid crs →
      CircularBufferConfig_typed cfg →
      add_circular_buffer p crs cfg id = Ok (p', id) →
      reachable p'
  | reach_invalidate_circular_buffer_allocation p :
      reachable p →
      reachable (invalidate_circular_buffer_allocation p)
  | reach_allocate_circular_buffers p p' :
      reachable p →
      allocate_circular_buffers p = Ok p' →
      reachable p'
  | reach_compile p device w ids p' w' :
      reachable p →
      fresh_blank_ids p ids →
      compile p device w ids = Ok (p', w') →
      reachable p'.

End Reachable.

(** ** Vocabulary of the properties *)

(** The byte ranges [[a1, a1 + s1)] and [[a2, a2 + s2)] do not overlap. *)
Definition byte_ranges_disjoint (a1 s1 a2 s2 : Z) : Prop :=
  a1 + s1 ≤ a2 ∨ a2 + s2 ≤ a1.

(** Regions in address order: each is a range [[start, end)] with
    [start ≤ end], and a later one starts above the end of an earlier one. *)
Definition regions_in_address_order (rs : list (Z * Z)) : Prop :=
  Forall (λ r, r.1 ≤ r.2) rs ∧ StronglySorted (λ r1 r2, r1.2 < r2.1) rs.

Definition regions_disjoint (rs : list (Z * Z)) : Prop :=
  ∀ i j r1 r2, i ≠ j → rs !! i = Some r1 → rs !! j = Some r2 →
    byte_ranges_disjoint r1.1 (r1.2 - r1.1) r2.1 (r2.2 - r2.1).

(** The slot of a kernel group that belongs to a processor role. *)
Definition role_slot (role : RISCV) (g : KernelGroup) : option KernelID :=
  match role with
  | BRISC => riscv0_id g
  | NCRISC => riscv1_id g
  | COMPUTE => compute_id g
  | OtherRISCV _ => None
  end.

Definition supported (role : RISCV) : Prop :=
  role = BRISC ∨ role = NCRISC ∨ role = COMPUTE.

(** [core] is one of the cores some registered kernel runs on. *)
Definition covered (kernels : list (KernelID * Kernel)) (core : CoreCoord) : Prop :=
  ∃ entry, entry ∈ kernels ∧ core ∈ logical_cores entry.2.

(** The kernels of [role] that run on [core], in [kernel_by_id_] order. *)
Definition kernels_with (role : RISCV) (core : CoreCoord)
    (kernels : list (KernelID * Kernel)) : list KernelID :=
  (λ e : KernelID * Kernel, kernel_id e.2) <$>
    filter (λ e : KernelID * Kernel,
              processor e.2 = role ∧ core ∈ logical_cores e.2) kernels.

(** The slot of [role] in the group of [core], if the core has a group. *)
Definition slot_at (role : RISCV) (groups : gmap CoreCoord KernelGroup)
    (core : CoreCoord) : option KernelID :=
  groups !! core ≫= role_slot role.

Section Invariants.
Context `{HostDevConstants}.

(** The cached map is empty (to be rebuilt at the next query) or is the one
    the kernels registered now give. *)
Definition kernel_cache_consistent (p : Program) : Prop :=
  core_to_kernel_group_ p = ∅ ∨
  build_kernel_groups (kernel_by_id_ p) = Ok (core_to_kernel_group_ p).

(** The blank kernel [add_blank_kernels] creates for [role], given the groups
    it has read. *)
Definition blank_file (role : RISCV) : string :=
  match role with
  | COMPUTE => "tt_metal/kernels/compute/blank.cpp"
  | _ => "tt_metal/kernels/dataflow/blank.cpp"
  end.
Definition blank_kernel (groups : gmap CoreCoord KernelGroup) (role : RISCV)
    (id : KernelID) : Kernel :=
  mkKernel id (blank_file role) role (ranges_without (role_slot role) groups)
           None false.
Definition with_blank (groups : gmap CoreCoord KernelGroup) (role : RISCV)
    (id : KernelID) (kernels : list (KernelID * Kernel))
  : list (KernelID * Kernel) :=
  if decide (ranges_without (role_slot role) groups = []) then kernels
  else map_assign id (blank_kernel groups role id) kernels.

(** [M] is the maximum of [get_address_candidate] over the allocators of
    [cores]. *)
Definition is_max_candidate (allocs : gmap CoreCoord CircularBufferAllocator)
    (cores : list CoreCoord) (M : Z) : Prop :=
  (∃ c a, c ∈ cores ∧ allocs !! c = Some a ∧ get_address_candidate a = Ok M) ∧
  (∀ c a v, c ∈ cores → allocs !! c = Some a →
            get_address_candidate a = Ok v → v ≤ M).

(** [allocs'] is [allocs] with [address] marked, for [size] bytes, in the
    allocator of each of [cores], and nothing else changed. *)
Definition marked_on (allocs allocs' : gmap CoreCoord CircularBufferAllocator)
    (cores : list CoreCoord) (address size : Z) : Prop :=
  (∀ c, c ∈ cores →
     ∃ a a', allocs !! c = Some a ∧ mark_address a address size = Ok a' ∧
             allocs' !! c = Some a') ∧
  (∀ c, c ∉ cores → allocs' !! c = allocs !! c).

(** The loop body resolves [cb] to [address]: it succeeds, stamps [address]
    on the buffer and marks it in the allocator of every core of the buffer. *)
Definition resolves_to (allocs : gmap CoreCoord CircularBufferAllocator)
    (cb : CircularBuffer) (address : Z) : Prop :=
  ∃ allocs',
    allocate_circular_buffer allocs cb = Ok (allocs', set_address address cb) ∧
    marked_on allocs allocs' (cores_of (core_ranges cb)) address (size_of cb).

(** Every core of every circular buffer has an allocator, and every
    allocator has a last region. *)
Definition allocators_present (cbs : list CircularBuffer)
    (allocs : gmap CoreCoord CircularBufferAllocator) : Prop :=
  (∀ cb c, cb ∈ cbs → c ∈ cores_of (core_ranges cb) → is_Some (allocs !! c)) ∧
  (∀ c a, allocs !! c = Some a → l1_regions a ≠ []).

(** All allocators are in their pre-allocation state. *)
Definition allocators_reset (allocs : gmap CoreCoord CircularBufferAllocator)
  : Prop :=
  ∀ c a, allocs !! c = Some a → l1_regions a = initial_l1_regions.

(** What the allocation loop keeps true of the allocators and of the
    buffers [done] it has resolved so far: an allocator's regions are in
    address order and its candidate is bounded (so that no 64-bit sum wraps);
    a resolved buffer ends at or below the candidate of each of its cores;
    of two resolved buffers that share a core, the later one starts at or
    above the end of the earlier one. *)
Definition layout_invariant (allocs : gmap CoreCoord CircularBufferAllocator)
    (done : list CircularBuffer) : Prop :=
  (∀ c a, allocs !! c = Some a →
     regions_in_address_order (l1_regions a) ∧
     ∃ v, get_address_candidate a = Ok v ∧
          0 ≤ v < 2 ^ 32 * (Z.of_nat (length done) + 1)) ∧
  (∀ cb c, cb ∈ done → c ∈ cores_of (core_ranges cb) →
     ∃ A a v, address cb = Some A ∧ 0 ≤ A ∧ allocs !! c = Some a ∧
              get_address_candidate a = Ok v ∧ A + size_of cb ≤ v) ∧
  (∀ i j cbi cbj Ai Aj c,
     (i < j)%nat → done !! i = Some cbi → done !! j = Some cbj →
     address cbi = Some Ai → address cbj = Some Aj →
     c ∈ cores_of (core_ranges cbi) → c ∈ cores_of (core_ranges cbj) →
     Ai + size_of cbi ≤ Aj).

(** The circular-buffer side of what holds of every reachable program:
    buffers are well formed and have their allocators; while the dirty flag
    is set the allocators are reset; once it is clear, the buffers and the
    allocators are what one run of the allocation loop from reset allocators
    produces. *)
Definition circular_buffers_consistent (p : Program) : Prop :=
  (∀ cb, cb ∈ circular_buffers_ p →
     CoreRangeSet_valid (core_ranges cb) ∧ CircularBufferConfig_typed (config cb)) ∧
  allocators_present (circular_buffers_ p) (per_core_cb_allocator_ p) ∧
  (circular_buffer_allocation_needed_ p = true →
     allocators_reset (per_core_cb_allocator_ p)) ∧
  (circular_buffer_allocation_needed_ p = false →
     foldlM allocate_step (circular_buffers_ p)
            (reset_available_addresses <$> per_core_cb_allocator_ p, [])
     = Ok (per_core_cb_allocator_ p, circular_buffers_ p)).

End Invariants.

(** [kernel_by_id_] is in increasing key order. *)
Definition kernels_sorted (kernels : list (KernelID * Kernel)) : Prop :=
  StronglySorted (λ e1 e2 : KernelID * Kernel, e1.1 < e2.1) kernels.

(** Two records of the same kernel: they differ at most in what compilation
    adds (the binary path and the binaries). *)
Definition same_kernel (k1 k2 : Kernel) : Prop :=
  kernel_id k1 = kernel_id k2 ∧ processor k1 = processor k2 ∧
  core_range_set k1 = core_range_set k2.

(** Frames: an operation on kernels leaves the circular-buffer state alone,
    and conversely. *)
Definition same_circular_buffer_state (p p' : Program) : Prop :=
  circular_buffers_ p' = circular_buffers_ p ∧
  per_core_cb_allocator_ p' = per_core_cb_allocator_ p ∧
  circular_buffer_allocation_needed_ p' = circular_buffer_allocation_needed_ p.

Definition same_kernel_state (p p' : Program) : Prop :=
  kernel_by_id_ p' = kernel_by_id_ p ∧
  core_to_kernel_group_ p' = core_to_kernel_group_ p.

(** What the compile and load loops keep. *)
Definition kernels_kept (p p' : Program) : Prop :=
  Forall2 (λ e1 e2 : KernelID * Kernel, e1.1 = e2.1 ∧ same_kernel e1.2 e2.2)
          (kernel_by_id_ p) (kernel_by_id_ p') ∧
  core_to_kernel_group_ p' = core_to_kernel_group_ p ∧
  same_circular_buffer_state p p'.

Section ProgramConsistent.
Context `{HostDevConstants}.

(** What holds of every reachable program. *)
Definition Program_consistent (p : Program) : Prop :=
  kernel_cache_consistent p ∧ kernels_sorted (kernel_by_id_ p) ∧
  circular_buffers_consistent p.

End ProgramConsistent.

(** Two records of the same circular buffer: they differ at most in the
    resolved address. *)
Definition same_buffer (cb1 cb2 : CircularBuffer) : Prop :=
  cb_id cb1 = cb_id cb2 ∧ core_ranges cb1 = core_ranges cb2 ∧
  config cb1 = config cb2.

(** The loop body of [allocate_circular_buffers] resolves [cb] to
    [resolved]: it returns, with [resolved] as the address of the buffer,
    which is otherwise as it was, and with [resolved] marked for the size of
    the buffer in the allocator of every core of the buffer, whose last
    region then ends where the buffer ends. *)
Definition resolved_at (allocs : gmap CoreCoord CircularBufferAllocator)
    (cb : CircularBuffer) (resolved : Z) : Prop :=
  ∃ allocs' cb',
    allocate_circular_buffer allocs cb = Ok (allocs', cb') ∧
    address cb' = Some resolved ∧ same_buffer cb' cb ∧
    marked_on allocs allocs' (cores_of (core_ranges cb)) resolved (size_of cb) ∧
    ∀ c, c ∈ cores_of (core_ranges cb) →
      ∃ a' region, allocs' !! c = Some a' ∧
                   last (l1_regions a') = Some region ∧
                   region.2 = wrap64 (resolved + size_of cb).

(** If the allocation of [p] completes, the [i]-th circular buffer of the
    program is [cb] with [resolved] as its address. *)
Definition placed_at (p : Program) (i : nat) (cb : CircularBuffer)
    (resolved : Z) : Prop :=
  ∀ p', allocate_circular_buffers p = Ok p' →
        ∃ cb', circular_buffers_ p' !! i = Some cb' ∧
               address cb' = Some resolved ∧ same_buffer cb' cb.

(** ** Vocabulary of the dispatch properties *)

Section DispatchVocabulary.
Context `{HostDevConstants} `{NocAddressing}.

(** The content of the static [launch_msg] of the dispatch kernel, which
    [launch_msg_addr] designates and nothing in the kernel writes. *)
Definition dispatch_launch_msg : launch_msg_t :=
  mkLaunchMsg 0 0 DISPATCH_MODE_DEV true true true RUN_MSG_GO.

(** The number of padded pages that a burst of [read_size] bytes holds. *)
Definition pages_in (padded_page_size read_size : Z) : nat :=
  Z.to_nat ((read_size + padded_page_size - 1) / padded_page_size).

(** The bank id after [n] uses of [bank_id++]. *)
Definition bank_after (n : nat) (bank_id : Z) : Z :=
  Nat.iter n (λ b, wrap32 (b + 1)) bank_id.

(** [n] page transfers: page [k] goes from its place in the staging region
    to the address its bank id gives. *)
Fixpoint page_writes (addr_gen : InterleavedAddrGen)
    (page_size padded_page_size : Z) (n : nat) (bank_id local_addr : Z)
  : list noc_event :=
  match n with
  | O => []
  | S n =>
      noc_async_write local_addr (get_noc_addr addr_gen bank_id) page_size
      :: page_writes addr_gen page_size padded_page_size n
                     (wrap32 (bank_id + 1)) (wrap32 (local_addr + padded_page_size))
  end.

(** A transfer streamed in bursts, from [remaining] bytes still to move: each
    burst reads [min burst_size remaining] bytes into the staging region,
    waits, sends one transfer per padded page of the burst, waits, and the
    trace ends when nothing remains. *)
Inductive burst_trace (addr_gen : InterleavedAddrGen)
    (src_noc burst_size page_size padded_page_size : Z)
  : Z → Z → Z → list noc_event → Prop :=
  | burst_trace_done src_addr bank_id :
      burst_trace addr_gen src_noc burst_size page_size padded_page_size
                  0 src_addr bank_id []
  | burst_trace_burst remaining src_addr bank_id rest :
      0 < remaining →
      burst_trace addr_gen src_noc burst_size page_size padded_page_size
                  (remaining - Z.min burst_size remaining)
                  (wrap32 (src_addr + Z.min burst_size remaining))
                  (bank_after (pages_in padded_page_size (Z.min burst_size remaining))
                              bank_id)
                  rest →
      burst_trace addr_gen src_noc burst_size page_size padded_page_size
                  remaining src_addr bank_id
                  (noc_async_read (noc_addr64 src_noc src_addr)
                                  DEVICE_COMMAND_DATA_ADDR
                                  (Z.min burst_size remaining)
                   :: noc_async_read_barrier
                   :: page_writes addr_gen page_size padded_page_size
                        (pages_in padded_page_size (Z.min burst_size remaining))
                        bank_id DEVICE_COMMAND_DATA_ADDR
                   ++ noc_async_write_barrier :: rest).

(** The sizes of the staging reads of a trace, in order. *)
Definition read_sizes (evs : list noc_event) : list Z :=
  omap (λ e, match e with
             | noc_async_read _ _ size => Some size
             | _ => None
             end) evs.

(** The multicast of the launch descriptor to group [i] of a launch record:
    the group's NOC coordinate is word [2 i] after [command_ptr] and its
    receiver count word [2 i + 1]. *)
Definition launch_multicast (command : Z → Z) (command_ptr i : Z) : noc_event :=
  noc_async_write_multicast
    launch_msg_addr
    (Z.lor (Z.shiftl (command (command_ptr + 2 * i)) 32) MAILBOX_ADDRESS_DEV_launch)
    sizeof_launch_msg_t
    (command (command_ptr + 2 * i + 1)).

(** The reads of the completion counter up to and including read [k]. *)
Definition counter_reads (observed : nat → Z) (k : nat) : list noc_event :=
  (λ j, load_word DISPATCH_MESSAGE_ADDR (observed j)) <$> seq 0 (S k).

End DispatchVocabulary.

(** ** Concrete instances, to run the model on examples *)

Definition example_constants : HostDevConstants := {|
  NUM_CIRCULAR_BUFFERS := 32;
  L1_UNRESERVED_BASE := 122880;
  RUN_MSG_GO := 128;
  DISPATCH_MODE_DEV := 0;
  DEVICE_COMMAND_DATA_ADDR := 151552;
  DISPATCH_MESSAGE_ADDR := 110720;
  MAILBOX_ADDRESS_DEV_launch := 16;
  launch_msg_addr := 110736;
  sizeof_launch_msg_t := 16;
  TT_METAL_DISPATCH_MAP_DUMP := false;
  KernelGroup_launch_msg := mkLaunchMsg 0 0 0 false false false 0;
|}.

Definition example_toolchain : Toolchain := {|
  kernel_set_build_options := λ _ bo, bo;
  hash_hlk_desc := λ bo, bo_device_id bo;
  kernel_compute_hash := kernel_name;
  std_to_string := λ _, EmptyString;
  std_hash_string := λ s, Z.of_nat (String.length s);
  is_on_logical_corerange := λ cb cr,
    bool_decide (Exists (λ c, c ∈ cores_of (core_ranges cb)) (cores_of_range cr));
  generate_binaries_throws := λ _ _, false;
  CoreRangeSet_merge := λ a b, a ++ b;
|}.

(** A program with two data-movement kernels of the same role on core
    (0, 0), registered one after the other. *)
Definition example_kernel (id : KernelID) (role : RISCV) (crs : CoreRangeSet)
  : Kernel :=
  mkKernel id "kernel" role crs None false.
Definition two_brisc_program : Program :=
  add_kernel
    (add_kernel (new_Program 0)
       (example_kernel 1 BRISC [mkCoreRange (0%nat, 0%nat) (0%nat, 0%nat)]))
    (example_kernel 2 BRISC [mkCoreRange (0%nat, 0%nat) (0%nat, 0%nat)]).

(** The same two kernels, held by a container that visits the kernel of id 2
    first. *)
Definition two_brisc_program_reversed : Program :=
  with_kernels two_brisc_program (kernel_ids_ two_brisc_program)
               (reverse (kernel_by_id_ two_brisc_program)).

(** A program with one compute kernel on the cores (0, 0) and (0, 1). *)
Definition one_compute_program : Program :=
  add_kernel (new_Program 0)
    (example_kernel 7 COMPUTE [mkCoreRange (0%nat, 0%nat) (0%nat, 1%nat)]).

(** Two circular buffers: 100 bytes on cores (0, 0) and (0, 1), then 50 bytes
    on cores (0, 1) and (1, 1), neither with a requested address. *)
Definition example_config (size index : Z) (requested : option Z)
  : CircularBufferConfig :=
  mkCBConfig size [index] ∅ requested.
Definition program_of (r : result (Program * CircularBufferID)) : Program :=
  match r with
  | Ok (p, _) => p
  | Err _ => new_Program 0
  end.
Definition one_buffer_program : Program :=
  program_of
    (@add_circular_buffer example_constants (new_Program 0)
       [mkCoreRange (0%nat, 0%nat) (0%nat, 1%nat)] (example_config 100 0 None) 1000).
Definition two_buffer_program : Program :=
  program_of
    (@add_circular_buffer example_constants one_buffer_program
       [mkCoreRange (0%nat, 1%nat) (1%nat, 1%nat)] (example_config 50 1 None) 2000).
(** A circular buffer registered with a core range set that has no range. *)
Definition no_core_buffer_program : Program :=
  program_of
    (@add_circular_buffer example_constants (new_Program 0) []
       (example_config 100 0 None) 1000).
Definition allocated (r : result Program) : Program :=
  match r with
  | Ok p => p
  | Err _ => new_Program 0
  end.
Definition two_buffer_program_allocated : Program :=
  allocated (allocate_circular_buffers two_buffer_program).

Definition one_compute_program_with_blanks : Program :=
  allocated (@add_blank_kernels example_constants one_compute_program (100, 101, 102)).

(** A launch record with two multicast groups, of 3 and of 5 receivers, and
    a completion counter that the workers bring from 0 to 8 one by one. *)
Definition example_launch_command (i : Z) : Z :=
  if i =? 0 then 257 else if i =? 1 then 3
  else if i =? 2 then 514 else if i =? 3 then 5 else 0.
Definition example_counter (k : nat) : Z := Z.of_nat k.

Definition example_device : Device := mkDevice 0 true.
Definition example_world : World :=
  mkWorld false false false false false ∅ ∅ false false [].

Definition example_noc : NocAddressing := {|
  get_noc_addr := λ g bank_id, bank_base_address g + bank_id * addr_gen_page_size g;
|}.


(** ** The rest of [Program]: queries over kernels and circular buffers *)

(** [Program::logical_cores]: the cores of the registered kernels, each
    once, in the order the kernels (by increasing id) first reach them.  The
    state of the loops is [(cores_in_program, unique_cores)].  The name
    [logical_cores] is taken by the member of [Kernel]. *)
Definition Program_logical_cores (p : Program) : list CoreCoord :=
  (fold_left
     (λ (st : list CoreCoord * gset CoreCoord) (entry : KernelID * Kernel),
        fold_left
          (λ (st : list CoreCoord * gset CoreCoord) (core : CoreCoord),
             if decide (core ∈ st.2) then st
             else (st.1 ++ [core], {[core]} ∪ st.2))
          (logical_cores entry.2) st)
     (kernel_by_id_ p) ([], ∅)).1.

(** [Program::cores_to_ops]. *)
Definition cores_to_ops (p : Program) : result (list string) :=
  foldlM
    (λ ops core,
       foldlM
         (λ ops kernel_id,
            kernel ← get_kernel p kernel_id;
            let cores := logical_cores kernel in
            if decide (core ∈ cores) then Ok (ops ++ [kernel_name kernel])
            else Ok ops)
         (kernel_ids_ p) ops)
    (Program_logical_cores p) [].

(** [Program::circular_buffers_on_core]. *)
Definition circular_buffers_on_core (p : Program) (core : CoreCoord)
  : list CircularBuffer :=
  filter (λ cb, is_on_logical_core cb core = true) (circular_buffers_ p).

(** What [validate_circular_buffer_region] asks of the device: the size of
    L1, the banks of a logical core, and
    [allocator::lowest_occupied_l1_address] of a bank; none is among the
    sources. *)
Class DeviceMemory : Type := {
  l1_size : Device → Z;
  bank_ids_from_logical_core : Device → CoreCoord → list Z;
  lowest_occupied_l1_address : Device → Z → option Z;
}.

Section ValidateCircularBufferRegion.
Context `{HostDevConstants} `{DeviceMemory}.

(** The lambda [highest_cb_l1_region] of
    [validate_circular_buffer_region]. *)
Definition highest_cb_l1_region (p : Program) (core : CoreCoord)
  : result (Z * Z) :=
  match per_core_cb_allocator_ p !! core with
  | None => Ok (L1_UNRESERVED_BASE, L1_UNRESERVED_BASE)
  | Some cb_allocator =>
      match last (l1_regions cb_allocator) with
      | Some region => Ok region
      | None => Err Undefined
      end
  end.

(** The lambda [validate_cb_space_and_l1_buffer_space_disjoint]. *)
Definition validate_cb_space_and_l1_buffer_space_disjoint (device : Device)
    (core : CoreCoord) (cb_space : Z * Z) : result unit :=
  _ ← (if l1_size device <? cb_space.2 then log_fatal else Ok tt);
  let bank_ids := bank_ids_from_logical_core device core in
  _ ← (if negb (length bank_ids =? 1)%nat then log_fatal else Ok tt);
  bank_id ← match bank_ids !! 0%nat with
            | Some bank_id => Ok bank_id
            | None => Err OutOfRange
            end;
  match lowest_occupied_l1_address device bank_id with
  | Some lowest_address =>
      if lowest_address <? cb_space.2 then log_fatal else Ok tt
  | None => Ok tt
  end.

Definition validate_core (p : Program) (device : Device) (core : CoreCoord)
  : result unit :=
  cb_space ← highest_cb_l1_region p core;
  validate_cb_space_and_l1_buffer_space_disjoint device core cb_space.

(** [Program::validate_circular_buffer_region].  Without a core it visits
    every allocator; the order of the visit only decides which failure is
    reported first. *)
Definition validate_circular_buffer_region (p : Program) (device : Device)
    (logical_core : option CoreCoord) : result unit :=
  match logical_core with
  | Some core => validate_core p device core
  | None =>
      foldlM (λ _ (entry : CoreCoord * CircularBufferAllocator),
                validate_core p device entry.1)
             (map_to_list (per_core_cb_allocator_ p)) tt
  end.

End ValidateCircularBufferRegion.

(** ** Semaphores *)

(** A semaphore: a core range set, an address and an initial value, all
    supplied by the caller. *)
Record Semaphore : Type := mkSemaphore {
  sem_core_range_set : CoreRangeSet;
  sem_address : Z;
  sem_initial_value : Z;
}.

(** [Semaphore::initialized_on_logical_core] is defined in semaphore.cpp and
    [Device::worker_core_from_logical_core] in device.cpp; neither is among
    the sources. *)
Class SemaphorePlacement : Type := {
  initialized_on_logical_core : Semaphore → CoreCoord → bool;
  worker_core_from_logical_core : Device → CoreCoord → CoreCoord;
}.

(** [Program] with its field [semaphores_], which the record [Program] above
    leaves out. *)
Record ProgramSemaphores : Type := mkProgramSemaphores {
  sem_program : Program;
  semaphores_ : list Semaphore;
}.

(** One call of [llrt::write_hex_vec_to_core]. *)
Record hex_vec_write : Type := mkHexVecWrite {
  hw_device : Z;
  hw_core : CoreCoord;
  hw_words : list Z;
  hw_address : Z;
}.

Section Semaphores.
Context `{SemaphorePlacement}.

(** [Program::semaphores_on_core]. *)
Definition semaphores_on_core (ps : ProgramSemaphores) (core : CoreCoord)
  : list Semaphore :=
  filter (λ s, initialized_on_logical_core s core = true) (semaphores_ ps).

(** [Program::num_semaphores(const CoreCoord &)]. *)
Definition num_semaphores_on (ps : ProgramSemaphores) (core : CoreCoord) : nat :=
  length (semaphores_on_core ps core).

(** [Program::num_semaphores()]. *)
Definition num_semaphores (ps : ProgramSemaphores) : nat :=
  length (semaphores_ ps).

(** [Program::semaphore_address]: [sem_idx] is unsigned, and
    [std::vector::at] throws on an index past the end. *)
Definition semaphore_address (ps : ProgramSemaphores) (sem_idx : Z) : result Z :=
  match semaphores_ ps !! Z.to_nat sem_idx with
  | Some s => Ok (sem_address s)
  | None => Err OutOfRange
  end.

(** [Program::init_semaphores]: the writes to the device, in order. *)
Definition init_semaphores (ps : ProgramSemaphores) (device : Device)
    (logical_core : CoreCoord) : list hex_vec_write :=
  (λ semaphore,
     mkHexVecWrite (device_id device)
                   (worker_core_from_logical_core device logical_core)
                   [sem_initial_value semaphore] (sem_address semaphore))
  <$> semaphores_on_core ps logical_core.

(** [Program::add_semaphore]. *)
Definition add_semaphore (ps : ProgramSemaphores) (crs : CoreRangeSet)
    (address init_value : Z) : ProgramSemaphores :=
  mkProgramSemaphores (invalidate_compile (sem_program ps))
                      (semaphores_ ps ++ [mkSemaphore crs address init_value]).

End Semaphores.

(** ** The persistent kernel cache switch *)

Definition with_persistent_kernel_cache (b : bool) (w : World) : World :=
  mkWorld (blank_compiled w) b (device_profiler_state w)
          (print_server_running w) (profiler_state_for_debug_print w)
          (hash_lookup w) (disk w) (compilation_reporter_enabled w)
          (memory_reporter_enabled w) (work_log w).

(** [detail::EnablePersistentKernelCache] and
    [detail::DisablePersistentKernelCache]. *)
Definition EnablePersistentKernelCache (w : World) : World :=
  with_persistent_kernel_cache true w.
Definition DisablePersistentKernelCache (w : World) : World :=
  with_persistent_kernel_cache false w.

(** ** The dispatch executor: buffer reads, program relays, finish *)

(** Constants of the command-queue interface used by [finish_program]
    ([get_cq_finish_ptr()], [NOC_XY_ENCODING(PCIE_NOC_X, PCIE_NOC_Y)],
    [HOST_CQ_FINISH_PTR]); their headers are not among the sources. *)
Class FinishConstants : Type := {
  cq_finish_ptr : Z;
  PCIE_NOC_XY_ENCODING : Z;
  HOST_CQ_FINISH_PTR : Z;
}.

Section DispatchReads.
Context `{HostDevConstants} `{NocAddressing}.

(** The page loop of [read_buffer],
    [for (u32 i = 0; i < write_size; i += padded_page_size)], from its state
    [(i, bank_id, local_addr)]; it runs on [fuel] as [send_pages] does. *)
Fixpoint fetch_pages (fuel : nat) (addr_gen : InterleavedAddrGen)
    (write_size page_size padded_page_size : Z) (i bank_id local_addr : Z)
  : option (Z * list noc_event) :=
  match fuel with
  | O => None
  | S fuel =>
      if i <? write_size then
        let src_addr := get_noc_addr addr_gen bank_id in
        '(bank_id', evs) ←
           fetch_pages fuel addr_gen write_size page_size padded_page_size
                       (wrap32 (i + padded_page_size)) (wrap32 (bank_id + 1))
                       (wrap32 (local_addr + padded_page_size));
        Some (bank_id', noc_async_read src_addr local_addr page_size :: evs)
      else Some (bank_id, [])
  end.

(** The [while (padded_buf_size > 0)] loop of [read_buffer]. *)
Fixpoint read_buffer_loop (fuel : nat) (addr_gen : InterleavedAddrGen)
    (dst_noc burst_size page_size padded_page_size : Z)
    (dst_addr padded_buf_size bank_id : Z) : option (list noc_event) :=
  match fuel with
  | O => None
  | S fuel =>
      if 0 <? padded_buf_size then
        let write_size := Z.min burst_size padded_buf_size in
        let dst_noc_addr := noc_addr64 dst_noc dst_addr in
        '(bank_id', pages) ←
           fetch_pages fuel addr_gen write_size page_size padded_page_size
                       0 bank_id DEVICE_COMMAND_DATA_ADDR;
        rest ←
           read_buffer_loop fuel addr_gen dst_noc burst_size page_size
                            padded_page_size (wrap32 (dst_addr + write_size))
                            (wrap32 (padded_buf_size - write_size)) bank_id';
        Some (pages ++ noc_async_read_barrier
              :: noc_async_write DEVICE_COMMAND_DATA_ADDR dst_noc_addr write_size
              :: noc_async_write_barrier :: rest)
      else Some []
  end.

(** [read_buffer]. *)
Definition read_buffer (fuel : nat) (addr_gen : InterleavedAddrGen)
    (dst_addr dst_noc src_addr padded_buf_size burst_size page_size
     padded_page_size : Z) : option (InterleavedAddrGen * list noc_event) :=
  let addr_gen := mkAddrGen (DRAM addr_gen) src_addr padded_page_size in
  evs ← read_buffer_loop fuel addr_gen dst_noc burst_size page_size
                         padded_page_size dst_addr padded_buf_size 0;
  Some (addr_gen, evs).

(** [read_buffers]. *)
Fixpoint read_buffers_loop (fuel : nat) (n : nat) (command : Z → Z)
    (command_ptr : Z) (dram_addr_gen l1_addr_gen : InterleavedAddrGen)
  : option (Z * InterleavedAddrGen * InterleavedAddrGen * list noc_event) :=
  match n with
  | O => Some (command_ptr, dram_addr_gen, l1_addr_gen, [])
  | S n =>
      let dst_addr := command command_ptr in
      let dst_noc := command (command_ptr + 1) in
      let src_addr := command (command_ptr + 2) in
      let padded_buf_size := command (command_ptr + 3) in
      let burst_size := command (command_ptr + 4) in
      let page_size := command (command_ptr + 5) in
      let padded_page_size := command (command_ptr + 6) in
      let buf_type := command (command_ptr + 7) in
      '(dram_addr_gen, l1_addr_gen, evs) ←
         (if buf_type =? 0 then
            '(g, evs) ← read_buffer fuel dram_addr_gen dst_addr dst_noc src_addr
                          padded_buf_size burst_size page_size padded_page_size;
            Some (g, l1_addr_gen, evs)
          else if buf_type =? 1 then
            '(g, evs) ← read_buffer fuel l1_addr_gen dst_addr dst_noc src_addr
                          padded_buf_size burst_size page_size padded_page_size;
            Some (dram_addr_gen, g, evs)
          else Some (dram_addr_gen, l1_addr_gen, []));
      '(command_ptr, dram_addr_gen, l1_addr_gen, rest) ←
         read_buffers_loop fuel n command (command_ptr + 8)
                           dram_addr_gen l1_addr_gen;
      Some (command_ptr, dram_addr_gen, l1_addr_gen, evs ++ rest)
  end.

Definition read_buffers (fuel : nat) (num_buffer_reads : Z) (command : Z → Z)
    (command_ptr : Z) (dram_addr_gen l1_addr_gen : InterleavedAddrGen)
  : option (Z * InterleavedAddrGen * InterleavedAddrGen * list noc_event) :=
  read_buffers_loop fuel (Z.to_nat num_buffer_reads) command command_ptr
                    dram_addr_gen l1_addr_gen.

(** The loop that stands for a multicast when the dispatch map is dumped,
    [for (u32 i = 0; i < transfer_size; i += sizeof(u32))], whose body is
    empty.  Its counter wraps as a [u32] does, so it runs on [fuel]. *)
Fixpoint dump_chunk (fuel : nat) (transfer_size i : Z) : option unit :=
  match fuel with
  | O => None
  | S fuel =>
      if i <? transfer_size then dump_chunk fuel transfer_size (wrap32 (i + 4))
      else Some tt
  end.

(** The loop [for (u32 write = 0; write < num_writes; write++)] of
    [write_program_section]. *)
Fixpoint program_section_writes (fuel : nat) (n : nat) (command : Z → Z)
    (command_ptr : Z) : option (Z * list noc_event) :=
  match n with
  | O => Some (command_ptr, [])
  | S n =>
      let src := command command_ptr in
      let dst := command (command_ptr + 1) in
      let dst_noc := command (command_ptr + 2) in
      let transfer_size := command (command_ptr + 3) in
      let num_receivers := command (command_ptr + 4) in
      let command_ptr := command_ptr + 5 in
      evs ←
        (if TT_METAL_DISPATCH_MAP_DUMP then
           _ ← dump_chunk fuel transfer_size 0; Some []
         else
           Some [noc_async_write_multicast src (noc_addr64 dst_noc dst)
                                           transfer_size num_receivers]);
      '(command_ptr, rest) ← program_section_writes fuel n command command_ptr;
      Some (command_ptr, evs ++ rest)
  end.

(** [write_program_section]: the result carries the advanced pointer. *)
Definition write_program_section (fuel : nat)
    (src src_noc transfer_size num_writes : Z) (command : Z → Z)
    (command_ptr : Z) : option (Z * list noc_event) :=
  '(command_ptr, writes) ←
     program_section_writes fuel (Z.to_nat num_writes) command command_ptr;
  Some (command_ptr,
        noc_async_read (noc_addr64 src_noc src) DEVICE_COMMAND_DATA_ADDR
                       transfer_size
        :: noc_async_read_barrier
        :: writes
        ++ (if TT_METAL_DISPATCH_MAP_DUMP then [] else [noc_async_write_barrier])).

(** [write_program]. *)
Fixpoint write_program_loop (fuel : nat) (n : nat) (command : Z → Z)
    (command_ptr : Z) : option (Z * list noc_event) :=
  match n with
  | O => Some (command_ptr, [])
  | S n =>
      let src := command command_ptr in
      let src_noc := command (command_ptr + 1) in
      let transfer_size := command (command_ptr + 2) in
      let num_writes := command (command_ptr + 3) in
      let command_ptr := command_ptr + 4 in
      '(command_ptr, evs) ←
         write_program_section fuel src src_noc transfer_size num_writes
                               command command_ptr;
      '(command_ptr, rest) ← write_program_loop fuel n command command_ptr;
      Some (command_ptr, evs ++ rest)
  end.

Definition write_program (fuel : nat) (num_program_relays : Z)
    (command : Z → Z) (command_ptr : Z) : option (Z * list noc_event) :=
  write_program_loop fuel (Z.to_nat num_program_relays) command command_ptr.

End DispatchReads.

Section Finish.
Context `{FinishConstants}.

(** [finish_program]. *)
Definition finish_program (finish : Z) : list noc_event :=
  if finish =? 0 then []
  else
    let finish_noc_addr := Z.lor (Z.shiftl PCIE_NOC_XY_ENCODING 32) HOST_CQ_FINISH_PTR in
    [store_word cq_finish_ptr 1;
     noc_async_write cq_finish_ptr finish_noc_addr 4;
     noc_async_write_barrier;
     store_word cq_finish_ptr 0].

End Finish.

(** ** Vocabulary of the further properties *)

(** [kernel_ids_] lists, each once, the keys of [kernel_by_id_], and a kernel
    is filed under its own id. *)
Definition kernel_ids_consistent (p : Program) : Prop :=
  NoDup (kernel_ids_ p) ∧
  (∀ id, id ∈ kernel_ids_ p ↔ is_Some (map_find id (kernel_by_id_ p))) ∧
  (∀ id k, map_find id (kernel_by_id_ p) = Some k → kernel_id k = id).

Section CircularBufferVocabulary.
Context `{HostDevConstants}.

(** Every buffer index of a registered buffer is a slot number, and is
    marked in the bitset of each core of the buffer.  Indices are unsigned
    in the source; the condition [0 ≤ k] is their type. *)
Definition indices_marked (cbs : list CircularBuffer)
    (allocs : gmap CoreCoord CircularBufferAllocator) : Prop :=
  ∀ cb c k, cb ∈ cbs → c ∈ cores_of (core_ranges cb) → k ∈ buffer_indices cb →
    0 ≤ k →
    k < NUM_CIRCULAR_BUFFERS ∧
    ∃ a, allocs !! c = Some a ∧ Z.testbit (indices a) k = true.

(** No two registered buffers use the same buffer index on the same core. *)
Definition indices_exclusive (cbs : list CircularBuffer) : Prop :=
  ∀ i j cbi cbj c k,
    i ≠ j → cbs !! i = Some cbi → cbs !! j = Some cbj →
    c ∈ cores_of (core_ranges cbi) → c ∈ cores_of (core_ranges cbj) →
    k ∈ buffer_indices cbi → k ∈ buffer_indices cbj → 0 ≤ k → False.

(** Nothing is placed below the reserved base: the candidate of every
    allocator and the address of every resolved buffer are at or above
    it. *)
Definition above_base (allocs : gmap CoreCoord CircularBufferAllocator)
    (done : list CircularBuffer) : Prop :=
  (∀ c a, allocs !! c = Some a →
     ∃ v, get_address_candidate a = Ok v ∧ L1_UNRESERVED_BASE ≤ v) ∧
  (∀ cb, cb ∈ done → ∃ A, address cb = Some A ∧ L1_UNRESERVED_BASE ≤ A).

End CircularBufferVocabulary.

(** Every allocator of [allocs1] is in [allocs2] with the same regions. *)
Definition regions_kept (allocs1 allocs2 : gmap CoreCoord CircularBufferAllocator)
  : Prop :=
  ∀ c a, allocs1 !! c = Some a →
    ∃ b, allocs2 !! c = Some b ∧ l1_regions b = l1_regions a.

(** A buffer with an address ends at or below the start of the next one. *)
Definition placed_before (cb1 cb2 : CircularBuffer) : Prop :=
  ∃ a1 a2, address cb1 = Some a1 ∧ address cb2 = Some a2 ∧
           a1 + size_of cb1 ≤ a2.

(** The launch message of a group: the flag of a processor whose slot is
    taken is set, the flag of a processor whose slot is empty is the one of
    [KernelGroup_launch_msg], and so are the fields the sources never
    assign. *)
Definition launch_msg_matches `{HostDevConstants} (g : KernelGroup) : Prop :=
  enable_brisc (launch_msg g)
    = bool_decide (is_Some (riscv0_id g)) || enable_brisc KernelGroup_launch_msg ∧
  enable_ncrisc (launch_msg g)
    = bool_decide (is_Some (riscv1_id g)) || enable_ncrisc KernelGroup_launch_msg ∧
  enable_triscs (launch_msg g)
    = bool_decide (is_Some (compute_id g)) || enable_triscs KernelGroup_launch_msg ∧
  kernel_group_id (launch_msg g) = kernel_group_id KernelGroup_launch_msg ∧
  ncrisc_fw_size (launch_msg g) = ncrisc_fw_size KernelGroup_launch_msg ∧
  mode (launch_msg g) = mode KernelGroup_launch_msg.

(** The [i]-th eight-word buffer record at [command_ptr] can be streamed: if
    its buffer type is 0 (DRAM) or 1 (L1), so that a transfer is made for
    it, its burst size and padded page size are positive, their sum is at
    most [2^32] (the page counter does not wrap), and its padded buffer size
    is a [u32]. *)
Definition record_streams (command : Z → Z) (command_ptr i : Z) : Prop :=
  command (command_ptr + 8 * i + 7) = 0 ∨ command (command_ptr + 8 * i + 7) = 1 →
  0 < command (command_ptr + 8 * i + 4) ∧
  0 < command (command_ptr + 8 * i + 6) ∧
  command (command_ptr + 8 * i + 4) + command (command_ptr + 8 * i + 6) ≤ 2 ^ 32 ∧
  0 ≤ command (command_ptr + 8 * i + 3) < 2 ^ 32.

(** The items of work of a kind in a log. *)
Definition generated_hashes (log : list work) : list Z :=
  omap (λ x, match x with
             | generated_binaries _ path => Some path.2
             | _ => None
             end) log.
Definition blank_generations (log : list work) : list Z :=
  omap (λ x, match x with
             | generated_blank device => Some device
             | _ => None
             end) log.

Section DispatchVocabulary2.
Context `{HostDevConstants} `{NocAddressing}.

(** [n] page fetches: page [k] comes from the address its bank id gives to
    its place in the staging region. *)
Fixpoint page_reads (addr_gen : InterleavedAddrGen)
    (page_size padded_page_size : Z) (n : nat) (bank_id local_addr : Z)
  : list noc_event :=
  match n with
  | O => []
  | S n =>
      noc_async_read (get_noc_addr addr_gen bank_id) local_addr page_size
      :: page_reads addr_gen page_size padded_page_size n
                    (wrap32 (bank_id + 1)) (wrap32 (local_addr + padded_page_size))
  end.

(** A read-back streamed in bursts, from [remaining] bytes still to move:
    each burst fetches one transfer per padded page into the staging region,
    waits, writes [min burst_size remaining] bytes back to the host, waits,
    and the trace ends when nothing remains. *)
Inductive read_burst_trace (addr_gen : InterleavedAddrGen)
    (dst_noc burst_size page_size padded_page_size : Z)
  : Z → Z → Z → list noc_event → Prop :=
  | read_burst_trace_done dst_addr bank_id :
      read_burst_trace addr_gen dst_noc burst_size page_size padded_page_size
                       0 dst_addr bank_id []
  | read_burst_trace_burst remaining dst_addr bank_id rest :
      0 < remaining →
      read_burst_trace addr_gen dst_noc burst_size page_size padded_page_size
                       (remaining - Z.min burst_size remaining)
                       (wrap32 (dst_addr + Z.min burst_size remaining))
                       (bank_after (pages_in padded_page_size (Z.min burst_size remaining))
                                   bank_id)
                       rest →
      read_burst_trace addr_gen dst_noc burst_size page_size padded_page_size
                       remaining dst_addr bank_id
                       (page_reads addr_gen page_size padded_page_size
                          (pages_in padded_page_size (Z.min burst_size remaining))
                          bank_id DEVICE_COMMAND_DATA_ADDR
                        ++ noc_async_read_barrier
                        :: noc_async_write DEVICE_COMMAND_DATA_ADDR
                                           (noc_addr64 dst_noc dst_addr)
                                           (Z.min burst_size remaining)
                        :: noc_async_write_barrier :: rest).

End DispatchVocabulary2.

(** The sizes of the writes of a trace, in order. *)
Definition write_sizes (evs : list noc_event) : list Z :=
  omap (λ e, match e with
             | noc_async_write _ _ size => Some size
             | _ => None
             end) evs.

(** The same transfer in the opposite direction. *)
Definition mirror (e : noc_event) : noc_event :=
  match e with
  | noc_async_read src dst size => noc_async_write dst src size
  | noc_async_write src dst size => noc_async_read dst src size
  | noc_async_read_barrier => noc_async_write_barrier
  | noc_async_write_barrier => noc_async_read_barrier
  | e => e
  end.

Definition is_noc_read (e : noc_event) : bool :=
  match e with noc_async_read _ _ _ => true | _ => false end.
Definition is_noc_write (e : noc_event) : bool :=
  match e with
  | noc_async_write _ _ _ | noc_async_write_multicast _ _ _ _ => true
  | _ => false
  end.

(** Transfers in flight.  The state is (reads in flight, writes in flight);
    a barrier retires the transfers of its direction.  Starting a read while
    a write is in flight, or a write while a read is, is a hazard on the
    staging region, [None]. *)
Definition in_flight_step (st : bool * bool) (e : noc_event)
  : option (bool * bool) :=
  match e with
  | noc_async_read _ _ _ => if st.2 then None else Some (true, st.2)
  | noc_async_read_barrier => Some (false, st.2)
  | noc_async_write _ _ _ | noc_async_write_multicast _ _ _ _ =>
      if st.1 then None else Some (st.1, true)
  | noc_async_write_barrier => Some (st.1, false)
  | _ => Some st
  end.

Fixpoint in_flight (evs : list noc_event) (st : bool * bool)
  : option (bool * bool) :=
  match evs with
  | [] => Some st
  | e :: evs => st ← in_flight_step st e; in_flight evs st
  end.

(** A trace that starts and ends with nothing in flight and has no hazard. *)
Definition fenced (evs : list noc_event) : Prop :=
  in_flight evs (false, false) = Some (false, false).

(** The word index the command pointer has after [n] program relays read
    from [command_ptr]: a relay is four words followed by five words per
    write, the count of writes being the fourth word. *)
Fixpoint relays_end (n : nat) (command : Z → Z) (command_ptr : Z) : Z :=
  match n with
  | O => command_ptr
  | S n =>
      let num_writes := Z.to_nat (command (command_ptr + 3)) in
      relays_end n command (command_ptr + 4 + 5 * Z.of_nat num_writes)
  end.

(** The number of multicasts [n] program relays ask for. *)
Fixpoint relays_writes (n : nat) (command : Z → Z) (command_ptr : Z) : nat :=
  match n with
  | O => 0%nat
  | S n =>
      let num_writes := Z.to_nat (command (command_ptr + 3)) in
      Nat.add num_writes
              (relays_writes n command (command_ptr + 4 + 5 * Z.of_nat num_writes))
  end.

(** ** Further concrete instances *)

(** A device with 1 MiB of L1, one bank per core (numbered by the core's
    column), and an L1 buffer at 512 KiB in every bank. *)
Definition example_device_memory : DeviceMemory := {|
  l1_size := λ _, 1048576;
  bank_ids_from_logical_core := λ _ core, [Z.of_nat core.1];
  lowest_occupied_l1_address := λ _ _, Some 524288;
|}.

Definition example_semaphore_placement : SemaphorePlacement := {|
  initialized_on_logical_core := λ s core,
    bool_decide (core ∈ cores_of (sem_core_range_set s));
  worker_core_from_logical_core := λ _ core, (S core.1, S core.2);
|}.

Definition example_finish_constants : FinishConstants := {|
  cq_finish_ptr := 110592;
  PCIE_NOC_XY_ENCODING := 256;
  HOST_CQ_FINISH_PTR := 64;
|}.

(** A program with a BRISC kernel on cores (0, 0) and (0, 1) and a compute
    kernel on core (0, 1). *)
Definition two_kernel_program : Program :=
  add_kernel
    (add_kernel (new_Program 0)
       (mkKernel 1 "reader" BRISC [mkCoreRange (0%nat, 0%nat) (0%nat, 1%nat)]
                 None false))
    (mkKernel 2 "matmul" COMPUTE [mkCoreRange (0%nat, 1%nat) (0%nat, 1%nat)]
              None false).

(** A buffer-transfer record of 96 bytes in bursts of 64 and pages of 32
    (of which 24 are payload), and a stream holding it at word 0 for an L1
    buffer. *)
Definition example_transfer_command (i : Z) : Z :=
  if i =? 0 then 4096 else if i =? 1 then 3
  else if i =? 2 then 8192 else if i =? 3 then 96
  else if i =? 4 then 64 else if i =? 5 then 24
  else if i =? 6 then 32 else if i =? 7 then 1 else 0.

(** The same record followed by a record of buffer type 5, whose other words
    are all zero. *)
Definition example_two_record_command (i : Z) : Z :=
  if i <? 8 then example_transfer_command i
  else if i =? 15 then 5 else 0.

(** A stream with two program relays: the first with two writes, the second
    with none. *)
Definition example_relay_command (i : Z) : Z :=
  if i =? 0 then 4096 else if i =? 1 then 3
  else if i =? 2 then 256 else if i =? 3 then 2
  else if i =? 4 then 151552 else if i =? 5 then 1024
  else if i =? 6 then 257 else if i =? 7 then 128 else if i =? 8 then 4
  else if i =? 9 then 151680 else if i =? 10 then 2048
  else if i =? 11 then 514 else if i =? 12 then 128 else if i =? 13 then 6
  else if i =? 14 then 8192 else if i =? 15 then 3
  else if i =? 16 then 64 else 0.

(** The kernel groups of [two_kernel_program]. *)
Definition groups_of (r : result (Program * gmap CoreCoord KernelGroup))
  : gmap CoreCoord KernelGroup :=
  match r with
  | Ok (_, groups) => groups
  | Err _ => ∅
  end.
Definition two_kernel_groups : gmap CoreCoord KernelGroup :=
  groups_of (@core_to_kernel_group example_constants two_kernel_program).

(** [two_buffer_program_allocated] with a third buffer, 30 bytes on core
    (1, 1), before and after its allocation. *)
Definition three_buffer_program : Program :=
  program_of
    (@add_circular_buffer example_constants two_buffer_program_allocated
       [mkCoreRange (1%nat, 1%nat) (1%nat, 1%nat)] (example_config 30 2 None) 3000).
Definition three_buffer_program_allocated : Program :=
  allocated (allocate_circular_buffers three_buffer_program).

(** [one_compute_program] after a compile in a fresh process. *)
Definition compiled (r : result (Program * World)) : Program * World :=
  match r with
  | Ok pw => pw
  | Err _ => (new_Program 0, example_world)
  end.
Definition one_compute_program_compiled : Program * World :=
  compiled
    (@compile example_constants example_toolchain one_compute_program
              example_device example_world (100, 101, 102)).

(** The constants of a dispatch kernel built to dump the dispatch map. *)
Definition example_dump_constants : HostDevConstants := {|
  NUM_CIRCULAR_BUFFERS := 32;
  L1_UNRESERVED_BASE := 122880;
  RUN_MSG_GO := 128;
  DISPATCH_MODE_DEV := 0;
  DEVICE_COMMAND_DATA_ADDR := 151552;
  DISPATCH_MESSAGE_ADDR := 110720;
  MAILBOX_ADDRESS_DEV_launch := 16;
  launch_msg_addr := 110736;
  sizeof_launch_msg_t := 16;
  TT_METAL_DISPATCH_MAP_DUMP := true;
  KernelGroup_launch_msg := mkLaunchMsg 0 0 0 false false false 0;
|}.

(* ===================================================================== *)
(** * Part II. Properties                                                 *)
(* ===================================================================== *)

(** ** The [result] monad and monadic loops *)

Lemma bind_Ok {A B : Type} (m : result A) (f : A → result B) (b : B) :
  m ≫= f = Ok b ↔ ∃ a, m = Ok a ∧ f a = Ok b.
Proof.
  destruct m as [a|e]; simpl; split.
  - intros Hf. by exists a.
  - by intros (a' & [= <-] & Hf).
  - intros [=].
  - by intros (a' & [=] & _).
Qed.

Lemma bind_Err {A B : Type} (m : result A) (f : A → result B) (e : failure) :
  m ≫= f = Err e ↔ m = Err e ∨ ∃ a, m = Ok a ∧ f a = Err e.
Proof.
  destruct m as [a|e']; simpl; split.
  - intros Hf. right. by exists a.
  - intros [Hm | (a' & Hm & Hf)]; congruence.
  - intros [= ->]. by left.
  - intros [[= ->] | (a' & Hm & Hf)]; congruence.
Qed.

(** Splits every successful bind among the hypotheses. *)
Ltac inv_bind :=
  repeat match goal with
  | Hb : _ ≫= _ = Ok _ |- _ =>
      let a := fresh "r" in
      let Ha := fresh "Hr" in
      apply bind_Ok in Hb as (a & Ha & Hb)
  | Hb : Ok _ = Ok _ |- _ => injection Hb as Hb
  | Hb : Err _ = Ok _ |- _ => discriminate Hb
  | Hb : log_fatal = Ok _ |- _ => discriminate Hb
  end.

Lemma foldlM_app {S A : Type} (f : S → A → result S) (l1 l2 : list A) (s : S) :
  foldlM f (l1 ++ l2) s = foldlM f l1 s ≫= foldlM f l2.
Proof.
  revert s. induction l1 as [|a l1 IH]; intros s; simpl; [done|].
  destruct (f s a) as [s'|e]; simpl; [apply IH | done].
Qed.

Lemma foldlM_snoc {S A : Type} (f : S → A → result S) (l : list A) (a : A) (s : S) :
  foldlM f (l ++ [a]) s = foldlM f l s ≫= λ s', f s' a.
Proof.
  rewrite foldlM_app. destruct (foldlM f l s) as [s'|e]; simpl; [|done].
  by destruct (f s' a).
Qed.

(** A property kept by every successful step is kept by the loop. *)
Lemma foldlM_invariant {S A : Type} (P : S → Prop) (f : S → A → result S)
    (l : list A) (s s' : S) :
  (∀ s1 a s2, a ∈ l → P s1 → f s1 a = Ok s2 → P s2) →
  P s → foldlM f l s = Ok s' → P s'.
Proof.
  revert s. induction l as [|a l IH]; intros s Hstep Hs Hfold; simpl in Hfold.
  - by injection Hfold as <-.
  - inv_bind. eapply IH; [|eapply Hstep; [|done..]|done].
    + intros s1 a' s2 Ha'. apply Hstep. by right.
    + by left.
Qed.

(** Two loops whose bodies agree on the elements visited agree. *)
Lemma foldlM_ext {S A : Type} (f g : S → A → result S) (l : list A) (s : S) :
  (∀ s1 a, a ∈ l → f s1 a = g s1 a) → foldlM f l s = foldlM g l s.
Proof.
  revert s. induction l as [|a l IH]; intros s Hfg; simpl; [done|].
  rewrite Hfg by (by left). destruct (g s a) as [s'|e]; simpl; [|done].
  apply IH. intros s1 a' Ha'. apply Hfg. by right.
Qed.

(** ** [CircularBufferAllocator::add_index] *)

Section AddIndex.
Context `{HostDevConstants}.

Lemma land_pow2_zero (x i : Z) :
  0 ≤ i → (Z.land x (2 ^ i) =? 0) = negb (Z.testbit x i).
Proof.
  intros Hi. destruct (Z.testbit x i) eqn:Hb; simpl.
  - apply Z.eqb_neq. intros Hz.
    assert (Z.testbit (Z.land x (2 ^ i)) i = false) as Hf
      by (rewrite Hz; apply Z.bits_0).
    rewrite Z.land_spec, Hb, Z.pow2_bits_true in Hf by done. done.
  - apply Z.eqb_eq, Z.bits_inj'. intros n Hn.
    rewrite Z.land_spec, Z.bits_0.
    destruct (decide (n = i)) as [->|Hne].
    + by rewrite Hb.
    + rewrite Z.pow2_bits_false by done. apply andb_false_r.
Qed.

Lemma land_int_min_zero (x : Z) :
  0 ≤ x < 2 ^ 32 →
  (Z.land x (to_unsigned_long (- 2 ^ 31)) =? 0) = negb (Z.testbit x 31).
Proof.
  intros Hx.
  assert (to_unsigned_long (- 2 ^ 31) = Z.shiftl (Z.ones 33) 31) as -> by done.
  assert (∀ n, 32 ≤ n → Z.testbit x n = false) as Hhigh.
  { intros n Hn. destruct (decide (x = 0)) as [->|Hx0]; [apply Z.bits_0|].
    apply Z.bits_above_log2; [lia|].
    assert (Z.log2 x < 32) by (apply Z.log2_lt_pow2; lia). lia. }
  destruct (Z.testbit x 31) eqn:Hb; simpl.
  - apply Z.eqb_neq. intros Hz.
    assert (Z.testbit (Z.land x (Z.shiftl (Z.ones 33) 31)) 31 = false) as Hf
      by (rewrite Hz; apply Z.bits_0).
    rewrite Z.land_spec, Hb, Z.shiftl_spec in Hf by lia. done.
  - apply Z.eqb_eq, Z.bits_inj'. intros n Hn.
    rewrite Z.land_spec, Z.bits_0, Z.shiftl_spec by done.
    destruct (decide (n < 31)) as [Hlt|Hge].
    + rewrite (Z.testbit_neg_r _ (n - 31)) by lia. apply andb_false_r.
    + destruct (decide (n = 31)) as [->|Hne]; [by rewrite Hb|].
      rewrite Hhigh by lia. done.
Qed.

(** Inside the slot range [add_index] does what its contract says: it fails
    fatally on an occupied slot and marks a free one. *)
Lemma add_index_in_range (a : CircularBufferAllocator) (index : Z) :
  NUM_CIRCULAR_BUFFERS ≤ 32 →
  0 ≤ indices a < 2 ^ 32 →
  0 ≤ index < NUM_CIRCULAR_BUFFERS →
  add_index a index =
    if Z.testbit (indices a) index then Err Fatal
    else Ok {| indices := Z.lor (indices a) (Z.shiftl 1 index);
               l1_regions := l1_regions a |}.
Proof.
  intros HN Ha Hi. unfold add_index, int_shl1, log_fatal.
  rewrite (proj2 (Z.ltb_ge _ _)) by lia.
  destruct (index <? 31) eqn:H31.
  - apply Z.ltb_lt in H31.
    assert (to_unsigned_long (Z.shiftl 1 index) = 2 ^ index) as ->.
    { unfold to_unsigned_long. rewrite Z.shiftl_1_l.
      apply Z.mod_small. split; [lia|]. apply Z.pow_lt_mono_r; lia. }
    rewrite land_pow2_zero, negb_involutive by lia.
    destruct (Z.testbit (indices a) index); [done|].
    rewrite (proj2 (Z.ltb_lt _ _)) by lia. done.
  - apply Z.ltb_ge in H31. assert (index = 31) as -> by lia.
    rewrite Z.eqb_refl, land_int_min_zero, negb_involutive by done.
    destruct (Z.testbit (indices a) 31); [done|].
    rewrite (proj2 (Z.ltb_lt _ _)) by lia. done.
Qed.

Lemma add_index_above (a : CircularBufferAllocator) (index : Z) :
  NUM_CIRCULAR_BUFFERS < index → add_index a index = Err Fatal.
Proof.
  intros Hi. unfold add_index. rewrite (proj2 (Z.ltb_lt _ _)) by lia. done.
Qed.

Lemma testbit_above (x n : Z) : 0 ≤ x < 2 ^ n → Z.testbit x n = false.
Proof.
  intros Hx. destruct (decide (x = 0)) as [->|Hx0]; [apply Z.bits_0|].
  destruct (decide (0 ≤ n)) as [Hn|Hn].
  - apply Z.bits_above_log2; [lia|]. apply Z.log2_lt_pow2; lia.
  - apply Z.testbit_neg_r. lia.
Qed.

(** The index one past the last slot is not rejected, whatever the number of
    slots: the range test lets it through, and the code goes on to undefined
    behaviour. *)
Lemma add_index_at_slot_count (a : CircularBufferAllocator) :
  0 ≤ indices a < 2 ^ NUM_CIRCULAR_BUFFERS →
  add_index a NUM_CIRCULAR_BUFFERS = Err Undefined.
Proof.
  intros Ha. unfold add_index, int_shl1. rewrite Z.ltb_irrefl.
  pose proof (testbit_above _ _ Ha) as Hbit.
  destruct (NUM_CIRCULAR_BUFFERS <? 31) eqn:H31.
  - apply Z.ltb_lt in H31.
    destruct (decide (0 ≤ NUM_CIRCULAR_BUFFERS)) as [Hn|Hn].
    + assert (to_unsigned_long (Z.shiftl 1 NUM_CIRCULAR_BUFFERS)
              = 2 ^ NUM_CIRCULAR_BUFFERS) as ->.
      { unfold to_unsigned_long. rewrite Z.shiftl_1_l.
        apply Z.mod_small. split; [lia|]. apply Z.pow_lt_mono_r; lia. }
      by rewrite land_pow2_zero, Hbit by done.
    + rewrite Z.pow_neg_r in Ha by lia. lia.
  - apply Z.ltb_ge in H31.
    destruct (NUM_CIRCULAR_BUFFERS =? 31) eqn:Heq; [|done].
    apply Z.eqb_eq in Heq. rewrite Heq in Ha, Hbit.
    rewrite land_int_min_zero, Hbit by lia. done.
Qed.

(** A successful [add_index] leaves the occupied regions alone. *)
Lemma add_index_l1_regions (a a' : CircularBufferAllocator) (index : Z) :
  add_index a index = Ok a' → l1_regions a' = l1_regions a.
Proof.
  unfold add_index, log_fatal. intros Hadd.
  repeat case_match; simplify_eq; done.
Qed.

End AddIndex.

(** C5 (the code departs from the claim): [add_index] is called with the
    index [NUM_CIRCULAR_BUFFERS], one past the last slot.  The range test of
    the source is [index > NUM_CIRCULAR_BUFFERS], so the call is not rejected
    as the contract demands; it goes on to shift by the width of [int] and to
    index the bitset past its end, which the model records as [Undefined]. *)
Theorem add_index_accepts_slot_past_the_end :
  @add_index example_constants (@default_allocator example_constants)
             (@NUM_CIRCULAR_BUFFERS example_constants) = Err Undefined.
Proof. reflexivity. Qed.


(** ** The sorted association list [kernel_by_id_] *)

Section MapAssign.
Context {V : Type}.
Implicit Types (m : list (Z * V)) (k : Z) (v : V).

Lemma elem_of_map_assign m k v e :
  e ∈ map_assign k v m → e = (k, v) ∨ e ∈ m.
Proof.
  induction m as [|[k' v'] m IH]; simpl.
  - rewrite list_elem_of_singleton. by left.
  - repeat case_match; rewrite !elem_of_cons; naive_solver.
Qed.

Lemma map_assign_elem_of m k v : (k, v) ∈ map_assign k v m.
Proof.
  induction m as [|[k' v'] m IH]; simpl.
  - by apply list_elem_of_singleton.
  - repeat case_match; rewrite !elem_of_cons; naive_solver.
Qed.

Lemma map_assign_elem_of_ne m k v e :
  e ∈ m → e.1 ≠ k → e ∈ map_assign k v m.
Proof.
  intros He Hne. induction m as [|[k' v'] m IH]; simpl.
  - by apply elem_of_nil in He.
  - apply elem_of_cons in He as [->|He].
    + simpl in Hne. destruct (k <? k'); [by right; left|].
      destruct (k =? k') eqn:Hk; [apply Z.eqb_eq in Hk; congruence|by left].
    + destruct (k <? k'); [by right; right|].
      destruct (k =? k'); [by right|]. right. by apply IH.
Qed.

Lemma map_find_None m k e : map_find k m = None → e ∈ m → e.1 ≠ k.
Proof.
  induction m as [|[k' v'] m IH]; simpl; intros Hf He.
  - by apply elem_of_nil in He.
  - destruct (k =? k') eqn:Hk; [done|]. apply Z.eqb_neq in Hk.
    apply elem_of_cons in He as [->|He]; [simpl; congruence|by apply IH].
Qed.

Lemma map_find_assign m k v k' :
  map_find k' (map_assign k v m) = if decide (k' = k) then Some v else map_find k' m.
Proof.
  induction m as [|[k1 v1] m IH]; simpl.
  - case_decide as Hk; [subst; by rewrite Z.eqb_refl|].
    by rewrite (proj2 (Z.eqb_neq _ _) Hk).
  - destruct (k <? k1) eqn:Hlt; simpl.
    + case_decide as Hk; [subst; by rewrite Z.eqb_refl|].
      by rewrite (proj2 (Z.eqb_neq _ _) Hk).
    + destruct (k =? k1) eqn:Heq; simpl.
      * apply Z.eqb_eq in Heq as <-.
        case_decide as Hk; [subst; by rewrite Z.eqb_refl|].
        by rewrite (proj2 (Z.eqb_neq _ _) Hk).
      * apply Z.eqb_neq in Heq. rewrite IH.
        destruct (k' =? k1) eqn:Hk1; [|done].
        apply Z.eqb_eq in Hk1 as ->. by rewrite decide_False by done.
Qed.

End MapAssign.

(** ** Kernel groups *)

Section KernelGroupProps.
Context `{HostDevConstants}.

Lemma role_slot_new_KernelGroup role : role_slot role new_KernelGroup = None.
Proof. by destruct role. Qed.

Lemma KernelGroup_update_Ok g kernel g' :
  KernelGroup_update g kernel = Ok g' → supported (processor kernel).
Proof.
  unfold KernelGroup_update, supported. destruct (processor kernel); naive_solver.
Qed.

Lemma KernelGroup_update_Err g kernel e :
  KernelGroup_update g kernel = Err e → e = Fatal ∧ ¬ supported (processor kernel).
Proof.
  unfold KernelGroup_update, supported.
  destruct (processor kernel); simpl; intros [=]; naive_solver.
Qed.

(** The update never looks at what the slot held: it overwrites it. *)
Lemma KernelGroup_update_slot g kernel g' role :
  KernelGroup_update g kernel = Ok g' →
  role_slot role g' =
    if decide (processor kernel = role) then Some (kernel_id kernel)
    else role_slot role g.
Proof.
  unfold KernelGroup_update.
  destruct (processor kernel) eqn:Hp; intros [= <-]; destruct role;
    simpl; by repeat case_decide.
Qed.

Lemma update_core_lookup kernel groups core groups' c :
  update_core kernel groups core = Ok groups' →
  (groups' !! c = None ↔ groups !! c = None ∧ c ≠ core) ∧
  (∀ role, slot_at role groups' c =
     if decide (c = core ∧ processor kernel = role) then Some (kernel_id kernel)
     else slot_at role groups c).
Proof.
  unfold update_core. intros Hu. inv_bind. subst groups'.
  destruct (decide (c = core)) as [->|Hne].
  - rewrite lookup_insert_eq. split; [naive_solver|].
    intros role. unfold slot_at. rewrite lookup_insert_eq. simpl.
    rewrite (KernelGroup_update_slot _ _ _ role Hr).
    destruct (decide (processor kernel = role)).
    + by rewrite decide_True.
    + rewrite decide_False by naive_solver.
      destruct (groups !! core); simpl; [done|apply role_slot_new_KernelGroup].
  - rewrite lookup_insert_ne by done. split; [naive_solver|].
    intros role. unfold slot_at. rewrite lookup_insert_ne by done.
    by rewrite decide_False by naive_solver.
Qed.

Lemma update_cores_lookup kernel cores groups groups' c :
  foldlM (update_core kernel) cores groups = Ok groups' →
  (groups' !! c = None ↔ groups !! c = None ∧ c ∉ cores) ∧
  (∀ role, slot_at role groups' c =
     if decide (c ∈ cores ∧ processor kernel = role) then Some (kernel_id kernel)
     else slot_at role groups c).
Proof.
  revert groups. induction cores as [|core cores IH]; intros groups Hf; simpl in Hf.
  - injection Hf as <-. split; [set_solver|]. intros role.
    rewrite decide_False; [done|]. intros [Hc _]. by apply elem_of_nil in Hc.
  - inv_bind. destruct (IH _ Hf) as [IHn IHs].
    destruct (update_core_lookup _ _ _ _ c Hr) as [Hn Hs]. split.
    + rewrite IHn, Hn, not_elem_of_cons. naive_solver.
    + intros role. rewrite IHs, Hs.
      repeat case_decide; try done; exfalso; set_solver.
Qed.

Lemma kernels_with_cons role core entry kernels :
  kernels_with role core (entry :: kernels) =
    (if decide (processor entry.2 = role ∧ core ∈ logical_cores entry.2)
     then [kernel_id entry.2] else []) ++ kernels_with role core kernels.
Proof.
  unfold kernels_with. rewrite filter_cons. by case_decide.
Qed.

Lemma elem_of_kernels_with role core kernels id :
  id ∈ kernels_with role core kernels →
  ∃ entry, entry ∈ kernels ∧ processor entry.2 = role ∧
           core ∈ logical_cores entry.2 ∧ kernel_id entry.2 = id.
Proof.
  unfold kernels_with. rewrite list_elem_of_fmap.
  intros (entry & -> & He). apply list_elem_of_filter in He as [[? ?] ?].
  by exists entry.
Qed.

Lemma kernels_with_elem_of role core kernels entry :
  entry ∈ kernels → processor entry.2 = role → core ∈ logical_cores entry.2 →
  kernel_id entry.2 ∈ kernels_with role core kernels.
Proof.
  intros He Hp Hc. unfold kernels_with. apply list_elem_of_fmap.
  exists entry. split; [done|]. by apply list_elem_of_filter.
Qed.

(** What the loop over [kernel_by_id_] leaves in the map, core by core: an
    entry exists exactly for the covered cores, and each slot holds the id of
    the last kernel of that role that runs on the core. *)
Lemma update_kernels_lookup kernels groups groups' c :
  foldlM update_kernel kernels groups = Ok groups' →
  (groups' !! c = None ↔ groups !! c = None ∧ ¬ covered kernels c) ∧
  (∀ role, slot_at role groups' c =
     match last (kernels_with role c kernels) with
     | Some id => Some id
     | None => slot_at role groups c
     end).
Proof.
  revert groups. induction kernels as [|entry kernels IH]; intros groups Hf;
    simpl in Hf.
  - injection Hf as <-. split; [|done]. unfold covered. set_solver.
  - inv_bind. destruct (IH _ Hf) as [IHn IHs].
    destruct (update_cores_lookup _ _ _ _ c Hr) as [Hn Hs]. split.
    + rewrite IHn, Hn. unfold covered. split.
      * intros [[? ?] Hnc]. split; [done|]. intros (e & He & Hc).
        apply elem_of_cons in He as [->|He]; [done|]. apply Hnc. by exists e.
      * intros [? Hnc]. repeat split; [done|..].
        -- intros Hc. apply Hnc. exists entry. split; [by left|done].
        -- intros (e & He & Hc). apply Hnc. exists e. split; [by right|done].
    + intros role. rewrite IHs, kernels_with_cons, last_app.
      destruct (last (kernels_with role c kernels)); [done|].
      rewrite Hs.
      destruct (decide (c ∈ logical_cores entry.2 ∧ processor entry.2 = role))
        as [[? ?]|Hd].
      * rewrite decide_True by (by split). done.
      * rewrite decide_False; [done|]. intros [? ?]. by apply Hd.
Qed.

Lemma update_cores_total kernel cores groups :
  supported (processor kernel) →
  is_Ok (foldlM (update_core kernel) cores groups).
Proof.
  intros Hs. revert groups. induction cores as [|core cores IH]; intros groups.
  - by eexists.
  - simpl. destruct (update_core kernel groups core) as [g1|e] eqn:Hu; simpl;
      [apply IH|].
    unfold update_core in Hu.
    destruct (KernelGroup_update _ kernel) as [g|e'] eqn:Hk; simpl in Hu; [done|].
    by apply KernelGroup_update_Err in Hk as [_ ?].
Qed.

(** The only failure of the loop is the assertion of [KernelGroup::update],
    reached for a kernel of an unsupported role that runs on some core. *)
Lemma update_kernels_result kernels groups :
  match foldlM update_kernel kernels groups with
  | Ok _ =>
      ∀ entry, entry ∈ kernels → logical_cores entry.2 ≠ [] →
               supported (processor entry.2)
  | Err e =>
      e = Fatal ∧
      ∃ entry, entry ∈ kernels ∧ ¬ supported (processor entry.2) ∧
               logical_cores entry.2 ≠ []
  end.
Proof.
  revert groups. induction kernels as [|entry kernels IH]; intros groups; simpl.
  - intros entry He. by apply elem_of_nil in He.
  - destruct (update_kernel groups entry) as [groups1|e] eqn:Hu; simpl.
    + specialize (IH groups1). destruct (foldlM update_kernel kernels groups1).
      * intros e He Hne. apply elem_of_cons in He as [->|He]; [|by apply IH].
        unfold update_kernel in Hu.
        destruct (logical_cores entry.2) as [|core cores]; [done|].
        simpl in Hu. inv_bind. unfold update_core in Hr. inv_bind.
        by eapply KernelGroup_update_Ok.
      * destruct IH as (-> & e' & He' & ?). split; [done|].
        exists e'. split; [by right|done].
    + unfold update_kernel in Hu.
      destruct (decide (supported (processor entry.2))) as [Hs|Hs].
      { destruct (update_cores_total entry.2 (logical_cores entry.2) groups Hs)
          as [? Hok]. congruence. }
      assert (e = Fatal ∧ logical_cores entry.2 ≠ []) as [-> ?].
      { destruct (logical_cores entry.2) as [|core cores]; [done|].
        simpl in Hu.
        destruct (update_core entry.2 groups core) as [g1|e1] eqn:Hc; simpl in Hu.
        - unfold update_core in Hc. inv_bind.
          by apply KernelGroup_update_Ok in Hr.
        - injection Hu as <-. unfold update_core in Hc.
          destruct (KernelGroup_update _ entry.2) as [g|e'] eqn:Hk; simpl in Hc;
            [done|].
          injection Hc as <-. by apply KernelGroup_update_Err in Hk as [-> _]. }
      split; [done|]. exists entry. split; [by left|done].
Qed.

(** [core_to_kernel_group] on a program whose cache is consistent returns
    the groups built from [kernel_by_id_], and caches them. *)
Lemma core_to_kernel_group_spec p :
  kernel_cache_consistent p →
  core_to_kernel_group p =
    groups ← build_kernel_groups (kernel_by_id_ p);
    Ok (with_core_to_kernel_group p groups, groups).
Proof.
  intros Hc. unfold core_to_kernel_group. case_decide as Hsz.
  - apply map_size_empty_iff in Hsz. rewrite Hsz. done.
  - destruct Hc as [Hc|Hc].
    + rewrite Hc in Hsz. by rewrite map_size_empty in Hsz.
    + rewrite Hc. simpl. by destruct p.
Qed.

Lemma core_to_kernel_group_consistent p p' groups :
  kernel_cache_consistent p →
  core_to_kernel_group p = Ok (p', groups) →
  kernel_cache_consistent p' ∧ kernel_by_id_ p' = kernel_by_id_ p ∧
  build_kernel_groups (kernel_by_id_ p) = Ok groups.
Proof.
  intros Hc Hk. rewrite core_to_kernel_group_spec in Hk by done.
  inv_bind. subst. split; [by right|done].
Qed.

End KernelGroupProps.

(** ** Blank kernels *)

Section BlankKernelProps.
Context `{HostDevConstants}.

Lemma cores_of_range_single core : cores_of_range (single_core_range core) = [core].
Proof.
  unfold cores_of_range, single_core_range. simpl.
  replace (S core.1 - core.1)%nat with 1%nat by lia.
  replace (S core.2 - core.2)%nat with 1%nat by lia.
  by destruct core.
Qed.

Lemma elem_of_cores_of (crs : CoreRangeSet) core :
  core ∈ cores_of crs ↔ ∃ r, r ∈ crs ∧ core ∈ cores_of_range r.
Proof. unfold cores_of. rewrite list_elem_of_bind. naive_solver. Qed.

Lemma elem_of_cores_of_ranges_without role groups core :
  core ∈ cores_of (ranges_without role groups) ↔
  ∃ g, groups !! core = Some g ∧ role g = None.
Proof.
  rewrite elem_of_cores_of. unfold ranges_without. split.
  - intros (r & Hr & Hc). apply list_elem_of_fmap in Hr as ([c g] & -> & He).
    apply list_elem_of_filter in He as [Hn He]. simpl in *.
    rewrite cores_of_range_single in Hc. apply list_elem_of_singleton in Hc as ->.
    apply elem_of_map_to_list in He. by exists g.
  - intros (g & Hg & Hn). exists (single_core_range core). split.
    + apply list_elem_of_fmap. exists (core, g). split; [done|].
      apply list_elem_of_filter. split; [done|]. by apply elem_of_map_to_list.
    + rewrite cores_of_range_single. by apply list_elem_of_singleton.
Qed.

Lemma elem_of_with_blank groups role id kernels e :
  e ∈ with_blank groups role id kernels →
  e ∈ kernels ∨
  (e = (id, blank_kernel groups role id) ∧
   ranges_without (role_slot role) groups ≠ []).
Proof.
  unfold with_blank. case_decide; [by left|].
  intros [->|?]%elem_of_map_assign; [by right|by left].
Qed.

Lemma with_blank_elem_of_old groups role id kernels e :
  e ∈ kernels → map_find id kernels = None →
  e ∈ with_blank groups role id kernels.
Proof.
  intros He Hf. unfold with_blank. case_decide; [done|].
  apply map_assign_elem_of_ne; [done|]. by eapply map_find_None.
Qed.

Lemma with_blank_elem_of_new groups role id kernels :
  ranges_without (role_slot role) groups ≠ [] →
  (id, blank_kernel groups role id) ∈ with_blank groups role id kernels.
Proof.
  intros Hne. unfold with_blank. rewrite decide_False by done.
  apply map_assign_elem_of.
Qed.

Lemma map_find_with_blank groups role id kernels id' :
  id' ≠ id → map_find id' (with_blank groups role id kernels) = map_find id' kernels.
Proof.
  intros Hne. unfold with_blank. case_decide; [done|].
  rewrite map_find_assign. by rewrite decide_False.
Qed.

(** What [add_blank_kernels] leaves in [kernel_by_id_]. *)
Lemma add_blank_kernels_unfold p ids p' :
  kernel_cache_consistent p →
  add_blank_kernels p ids = Ok p' →
  ∃ groups,
    build_kernel_groups (kernel_by_id_ p) = Ok groups ∧
    kernel_by_id_ p' =
      with_blank groups COMPUTE ids.2
        (with_blank groups NCRISC ids.1.2
           (with_blank groups BRISC ids.1.1 (kernel_by_id_ p))) ∧
    kernel_cache_consistent p'.
Proof.
  intros Hc Hadd. unfold add_blank_kernels in Hadd.
  rewrite core_to_kernel_group_spec in Hadd by done.
  apply bind_Ok in Hadd as ([p0 groups] & Hb & Hadd).
  apply bind_Ok in Hb as (groups0 & Hb & [= <- <-]).
  exists groups0. split; [done|]. injection Hadd as <-.
  unfold with_blank, blank_kernel, kernel_cache_consistent.
  change (ranges_without (role_slot BRISC) groups0)
    with (ranges_without riscv0_id groups0).
  change (ranges_without (role_slot NCRISC) groups0)
    with (ranges_without riscv1_id groups0).
  change (ranges_without (role_slot COMPUTE) groups0)
    with (ranges_without compute_id groups0).
  destruct (decide (ranges_without riscv0_id groups0 = []));
    destruct (decide (ranges_without riscv1_id groups0 = []));
    destruct (decide (ranges_without compute_id groups0 = []));
    simpl; (split; [done|]); first [by left | by right].
Qed.

(** After [add_blank_kernels], the groups can be rebuilt, and every covered
    core has a kernel of each of the three roles. *)
Lemma add_blank_kernels_all_roles p ids p' :
  kernel_cache_consistent p →
  fresh_blank_ids p ids →
  add_blank_kernels p ids = Ok p' →
  kernel_cache_consistent p' ∧
  (∀ e, e ∈ kernel_by_id_ p → e ∈ kernel_by_id_ p') ∧
  ∃ groups',
    build_kernel_groups (kernel_by_id_ p') = Ok groups' ∧
    ∀ core, covered (kernel_by_id_ p') core →
      ∃ g, groups' !! core = Some g ∧
           ∀ role, supported role → is_Some (role_slot role g).
Proof.
  intros Hc (Hnd & Hf0 & Hf1 & Hf2) Hadd.
  destruct (add_blank_kernels_unfold _ _ _ Hc Hadd) as (groups & Hb & Hks & Hc').
  split; [done|]. unfold fresh_kernel_id in *.
  apply NoDup_cons in Hnd as [Hn0 Hnd]. apply NoDup_cons in Hnd as [Hn1 _].
  rewrite !elem_of_cons, elem_of_nil in Hn0.
  rewrite !elem_of_cons, elem_of_nil in Hn1.
  set (ks := kernel_by_id_ p) in *. set (ks' := kernel_by_id_ p') in *.
  (* every entry is an old one or a blank kernel *)
  assert (∀ e, e ∈ ks' → e ∈ ks ∨ ∃ role id, supported role ∧
            e = (id, blank_kernel groups role id) ∧
            ranges_without (role_slot role) groups ≠ []) as Hfrom.
  { intros e He. rewrite Hks in He.
    apply elem_of_with_blank in He as [He|[-> ?]];
      [|right; exists COMPUTE, ids.2; unfold supported; naive_solver].
    apply elem_of_with_blank in He as [He|[-> ?]];
      [|right; exists NCRISC, ids.1.2; unfold supported; naive_solver].
    apply elem_of_with_blank in He as [He|[-> ?]];
      [by left|right; exists BRISC, ids.1.1; unfold supported; naive_solver]. }
  (* old entries are kept *)
  assert (∀ e, e ∈ ks → e ∈ ks') as Hold.
  { intros e He. rewrite Hks.
    apply with_blank_elem_of_old;
      [|rewrite !map_find_with_blank by naive_solver; done].
    apply with_blank_elem_of_old;
      [|rewrite !map_find_with_blank by naive_solver; done].
    by apply with_blank_elem_of_old. }
  (* a role with an empty slot somewhere gets its blank kernel *)
  assert (∀ role, supported role →
            ranges_without (role_slot role) groups ≠ [] →
            ∃ id, (id, blank_kernel groups role id) ∈ ks') as Hnew.
  { intros role [-> | [-> | ->]] Hne; rewrite Hks.
    - exists ids.1.1. apply with_blank_elem_of_old;
        [|rewrite !map_find_with_blank by naive_solver; done].
      apply with_blank_elem_of_old;
        [|rewrite !map_find_with_blank by naive_solver; done].
      by apply with_blank_elem_of_new.
    - exists ids.1.2. apply with_blank_elem_of_old;
        [|rewrite !map_find_with_blank by naive_solver; done].
      by apply with_blank_elem_of_new.
    - exists ids.2. by apply with_blank_elem_of_new. }
  split; [done|]. clearbody ks ks'. clear Hks.
  pose proof (update_kernels_result ks ∅) as Hres.
  unfold build_kernel_groups in Hb. rewrite Hb in Hres.
  (* the groups can be rebuilt *)
  pose proof (update_kernels_result ks' ∅) as Hres'.
  unfold build_kernel_groups.
  destruct (foldlM update_kernel ks' ∅) as [groups'|e] eqn:Hb'.
  2:{ destruct Hres' as (_ & e' & He' & Hns & Hne). exfalso. apply Hns.
      destruct (Hfrom _ He') as [?|(role & id & ? & -> & ?)]; [by apply Hres|done]. }
  exists groups'. split; [done|]. intros core Hcov.
  (* the core had a group before the insertion *)
  assert (∃ g0, groups !! core = Some g0) as [g0 Hg0].
  { destruct Hcov as (e & He & Hcore).
    destruct (Hfrom _ He) as [?|(role & id & _ & -> & _)].
    - destruct (groups !! core) as [g0|] eqn:Hg; [by eexists|].
      apply (update_kernels_lookup _ _ _ core Hb) in Hg as [_ Hg].
      destruct Hg. by exists e.
    - apply elem_of_cores_of_ranges_without in Hcore as (g0 & ? & _).
      by exists g0. }
  assert (∀ role, supported role → is_Some (slot_at role groups' core)) as Hall.
  { intros role Hrole.
    destruct (update_kernels_lookup _ _ _ core Hb') as [_ Hs'].
    rewrite Hs'. clear Hs'.
    assert (∃ id, id ∈ kernels_with role core ks') as [id Hid].
    { destruct (role_slot role g0) as [id|] eqn:Hslot.
      - destruct (update_kernels_lookup _ _ _ core Hb) as [_ Hs].
        specialize (Hs role). unfold slot_at in Hs at 1.
        rewrite Hg0 in Hs. simpl in Hs. rewrite Hslot in Hs.
        destruct (last (kernels_with role core ks)) as [id'|] eqn:Hl;
          [|unfold slot_at in Hs; by rewrite lookup_empty in Hs].
        apply last_Some_elem_of, elem_of_kernels_with in Hl
          as (e & He & Hp & Hcore & Hi).
        exists (kernel_id e.2). apply kernels_with_elem_of; auto.
      - assert (core ∈ cores_of (ranges_without (role_slot role) groups)) as Hin
          by (apply elem_of_cores_of_ranges_without; by exists g0).
        destruct (Hnew role Hrole) as [id Hid].
        { intros Hnil. rewrite Hnil in Hin. by apply elem_of_nil in Hin. }
        exists id.
        by apply (kernels_with_elem_of role core ks' (id, blank_kernel groups role id)). }
    destruct (last (kernels_with role core ks')) as [id'|] eqn:Hl; [by eexists|].
    apply last_None in Hl. rewrite Hl in Hid. by apply elem_of_nil in Hid. }
  destruct (groups' !! core) as [g|] eqn:Hg.
  - exists g. split; [done|]. intros role Hrole.
    specialize (Hall role Hrole). unfold slot_at in Hall. by rewrite Hg in Hall.
  - specialize (Hall BRISC (or_introl eq_refl)). unfold slot_at in Hall.
    rewrite Hg in Hall. by destruct Hall.
Qed.

End BlankKernelProps.


(** ** The per-core allocator: candidates and marks *)

Section AllocatorProps.
Context `{HostDevConstants}.

Lemma get_address_candidate_Ok a v :
  get_address_candidate a = Ok v ↔ ∃ rs s, l1_regions a = rs ++ [(s, v)].
Proof.
  unfold get_address_candidate. split.
  - destruct (last (l1_regions a)) as [[s e]|] eqn:Hl; [|done].
    intros [= <-]. apply last_Some in Hl as [rs ->]. by exists rs, s.
  - intros (rs & s & ->). by rewrite last_snoc.
Qed.

Lemma get_address_candidate_total a :
  l1_regions a ≠ [] → ∃ v, get_address_candidate a = Ok v.
Proof.
  intros Hne. unfold get_address_candidate.
  destruct (last (l1_regions a)) as [r|] eqn:Hl; [by eexists|].
  by apply last_None in Hl.
Qed.

(** [mark_address] on an allocator whose last region is [(s, e)]. *)
Lemma mark_address_snoc a rs s e address size :
  l1_regions a = rs ++ [(s, e)] →
  mark_address a address size =
    if address <? e then Err Fatal
    else if address =? e then
      Ok {| indices := indices a; l1_regions := rs ++ [(s, wrap64 (e + size))] |}
    else
      Ok {| indices := indices a;
            l1_regions := (rs ++ [(s, e)]) ++ [(address, wrap64 (address + size))] |}.
Proof.
  intros Hrs. unfold mark_address, log_assert. rewrite Hrs, last_snoc. simpl.
  rewrite removelast_last.
  destruct (address <? e) eqn:Hlt.
  - apply Z.ltb_lt in Hlt. by rewrite (proj2 (Z.leb_gt _ _)) by lia.
  - apply Z.ltb_ge in Hlt. by rewrite (proj2 (Z.leb_le _ _)) by lia.
Qed.

Lemma mark_address_Ok a address size a' :
  mark_address a address size = Ok a' →
  indices a' = indices a ∧
  ∃ rs s e,
    l1_regions a = rs ++ [(s, e)] ∧ e ≤ address ∧
    l1_regions a' =
      if decide (address = e) then rs ++ [(s, wrap64 (e + size))]
      else (rs ++ [(s, e)]) ++ [(address, wrap64 (address + size))].
Proof.
  intros Hm.
  destruct (last (l1_regions a)) as [[s e]|] eqn:Hl;
    [|by unfold mark_address in Hm; rewrite Hl in Hm].
  apply last_Some in Hl as [rs Hrs].
  rewrite (mark_address_snoc _ _ _ _ _ _ Hrs) in Hm.
  destruct (address <? e) eqn:Hlt; [done|]. apply Z.ltb_ge in Hlt.
  destruct (address =? e) eqn:Heq; injection Hm as <-; simpl.
  - apply Z.eqb_eq in Heq. split; [done|]. exists rs, s, e.
    by rewrite decide_True.
  - apply Z.eqb_neq in Heq. split; [done|]. exists rs, s, e.
    by rewrite decide_False.
Qed.

(** After a mark the next candidate is the end of the marked range. *)
Lemma mark_address_candidate a address size a' :
  mark_address a address size = Ok a' →
  get_address_candidate a' = Ok (wrap64 (address + size)).
Proof.
  intros (_ & rs & s & e & _ & _ & Hrs)%mark_address_Ok.
  apply get_address_candidate_Ok. case_decide; subst; eauto.
Qed.

Lemma mark_address_nonempty a address size a' :
  mark_address a address size = Ok a' → l1_regions a' ≠ [].
Proof.
  intros (_ & rs & s & e & _ & _ & Hrs)%mark_address_Ok. rewrite Hrs.
  case_decide; intros Hnil; by apply app_eq_nil in Hnil as [_ ?].
Qed.

(** ** The two core loops of [allocate_circular_buffers] *)

Lemma query_cores_spec allocs cores o l o' l' :
  foldlM (query_core allocs) cores (o, l) = Ok (o', l') →
  l' = l ++ cores ∧
  (∀ c, c ∈ cores →
     ∃ a v m, allocs !! c = Some a ∧ get_address_candidate a = Ok v ∧
              o' = Some m ∧ v ≤ m) ∧
  (∀ m, o = Some m → ∃ m', o' = Some m' ∧ m ≤ m') ∧
  (∀ m', o' = Some m' →
     o = Some m' ∨
     ∃ c a, c ∈ cores ∧ allocs !! c = Some a ∧ get_address_candidate a = Ok m') ∧
  (cores = [] → o' = o).
Proof.
  revert o l. induction cores as [|core cores IH]; intros o l Hq; simpl in Hq.
  - injection Hq as <- <-. rewrite app_nil_r. repeat split; try done.
    + intros c Hc. by apply elem_of_nil in Hc.
    + intros m ->. exists m. split; [done|lia].
    + intros m' ->. by left.
  - apply bind_Ok in Hq as ([o1 l1] & Hstep & Hq).
    unfold query_core in Hstep. simpl in Hstep.
    destruct (allocs !! core) as [a|] eqn:Ha; [|done].
    apply bind_Ok in Hstep as (v & Hv & [= <- <-]).
    destruct (IH _ _ Hq) as (-> & Hall & Hmono & Hfrom & _).
    destruct (Hmono _ eq_refl) as (m1 & -> & Hm1).
    split; [by rewrite <- app_assoc|]. split; [|split; [|split; [|done]]].
    + intros c [->|Hc]%elem_of_cons; [|by apply Hall].
      exists a, v, m1. repeat split; try done. destruct o; lia.
    + intros m ->. exists m1. split; [done|lia].
    + intros m' [= <-]. destruct (Hfrom _ eq_refl) as [[= Hm]|(c & a' & ? & ? & ?)].
      * destruct o as [m|]; [destruct (Z.max_spec m v) as [[? Hmax]|[? Hmax]]|].
        -- right. exists core, a. rewrite <- Hm, Hmax. split; [by left|done].
        -- left. by rewrite <- Hm, Hmax.
        -- right. exists core, a. rewrite <- Hm. split; [by left|done].
      * right. exists c, a'. split; [by right|done].
Qed.

Lemma query_cores_max allocs cores o l :
  cores ≠ [] →
  foldlM (query_core allocs) cores (None, []) = Ok (o, l) →
  l = cores ∧ ∃ M, o = Some M ∧ is_max_candidate allocs cores M.
Proof.
  intros Hne Hq. destruct (query_cores_spec _ _ _ _ _ _ Hq)
    as (-> & Hall & _ & Hfrom & _).
  split; [done|]. destruct cores as [|core cores]; [done|].
  destruct (Hall core) as (a & v & M & Ha & Hv & -> & _); [by left|].
  exists M. split; [done|]. split.
  - destruct (Hfrom _ eq_refl) as [?|(c & a' & ? & ? & ?)]; [done|].
    by exists c, a'.
  - intros c a' v' Hc Ha' Hv'.
    destruct (Hall c Hc) as (a2 & v2 & m & Ha2 & Hv2 & [= <-] & ?). congruence.
Qed.

Lemma query_cores_total allocs cores st :
  (∀ c, c ∈ cores → ∃ a, allocs !! c = Some a ∧ l1_regions a ≠ []) →
  is_Ok (foldlM (query_core allocs) cores st).
Proof.
  revert st. induction cores as [|core cores IH]; intros st Hall; simpl.
  - by eexists.
  - destruct (Hall core) as (a & Ha & Hne); [by left|].
    destruct (get_address_candidate_total a Hne) as [v Hv].
    assert (∃ st', query_core allocs st core = Ok st') as [st' ->].
    { unfold query_core. rewrite Ha, Hv. simpl. by eexists. }
    simpl. apply IH. intros c Hc. apply Hall. by right.
Qed.

Lemma mark_core_Ok addr size allocs core allocs1 :
  mark_core addr size allocs core = Ok allocs1 →
  ∃ address a a',
    addr = Some address ∧ allocs !! core = Some a ∧
    mark_address a address size = Ok a' ∧ allocs1 = <[core := a']> allocs.
Proof.
  unfold mark_core. destruct addr as [address|]; [|done]. simpl.
  destruct (allocs !! core) as [a|]; [|done].
  intros (a' & Hm & [= <-])%bind_Ok. by exists address, a, a'.
Qed.

(** The marking loop changes, in each allocator, the regions only. *)
Lemma mark_cores_indices addr size cores allocs allocs' c :
  foldlM (mark_core addr size) cores allocs = Ok allocs' →
  indices <$> allocs' !! c = indices <$> allocs !! c.
Proof.
  revert allocs. induction cores as [|core cores IH]; intros allocs Hm;
    simpl in Hm.
  - by injection Hm as <-.
  - apply bind_Ok in Hm as (allocs1 & Hstep & Hm). rewrite (IH _ Hm).
    apply mark_core_Ok in Hstep as (address & a & a' & _ & Ha & Hmk & ->).
    destruct (decide (c = core)) as [->|Hne].
    + rewrite lookup_insert_eq, Ha. simpl.
      by apply mark_address_Ok in Hmk as [-> _].
    + by rewrite lookup_insert_ne.
Qed.

Lemma mark_cores_nonempty addr size cores allocs allocs' :
  (∀ c a, allocs !! c = Some a → l1_regions a ≠ []) →
  foldlM (mark_core addr size) cores allocs = Ok allocs' →
  ∀ c a, allocs' !! c = Some a → l1_regions a ≠ [].
Proof.
  intros Hne Hm.
  eapply (foldlM_invariant (λ al, ∀ c a, al !! c = Some a → l1_regions a ≠ []));
    [|exact Hne|exact Hm].
  intros s1 core s2 _ Hs1 Hstep c a.
  apply mark_core_Ok in Hstep as (address & a1 & a' & _ & Ha & Hmk & ->).
  destruct (decide (c = core)) as [->|Hc].
  - rewrite lookup_insert_eq. intros [= <-]. by eapply mark_address_nonempty.
  - rewrite lookup_insert_ne by done. apply Hs1.
Qed.

(** On distinct cores the marking loop marks each allocator once. *)
Lemma mark_cores_spec address size cores allocs allocs' :
  NoDup cores →
  foldlM (mark_core (Some address) size) cores allocs = Ok allocs' →
  marked_on allocs allocs' cores address size.
Proof.
  revert allocs. induction cores as [|core cores IH]; intros allocs Hnd Hm;
    simpl in Hm.
  - injection Hm as <-. split; [|done]. intros c Hc. by apply elem_of_nil in Hc.
  - apply NoDup_cons in Hnd as [Hnotin Hnd].
    apply bind_Ok in Hm as (allocs1 & Hstep & Hm).
    destruct (IH _ Hnd Hm) as [Hin Hout].
    apply mark_core_Ok in Hstep as (? & a & a' & [= <-] & Ha & Hmk & ->). split.
    + intros c [->|Hc]%elem_of_cons.
      * exists a, a'. rewrite (Hout _ Hnotin), lookup_insert_eq. done.
      * destruct (Hin c Hc) as (a1 & a2 & Ha1 & Hmk2 & Ha2).
        rewrite lookup_insert_ne in Ha1 by (intros ->; done).
        by exists a1, a2.
    + intros c [Hne Hc]%not_elem_of_cons.
      rewrite (Hout _ Hc). by rewrite lookup_insert_ne.
Qed.

Lemma mark_cores_total address size cores allocs :
  NoDup cores →
  (∀ c, c ∈ cores →
     ∃ a v, allocs !! c = Some a ∧ get_address_candidate a = Ok v ∧ v ≤ address) →
  is_Ok (foldlM (mark_core (Some address) size) cores allocs).
Proof.
  revert allocs. induction cores as [|core cores IH]; intros allocs Hnd Hall;
    simpl.
  - by eexists.
  - apply NoDup_cons in Hnd as [Hnotin Hnd].
    destruct (Hall core) as (a & v & Ha & Hv & Hle); [by left|].
    apply get_address_candidate_Ok in Hv as (rs & s & Hrs).
    assert (∃ a', mark_core (Some address) size allocs core
                  = Ok (<[core := a']> allocs)) as [a' ->].
    { unfold mark_core. simpl. rewrite Ha.
      rewrite (mark_address_snoc _ _ _ _ _ _ Hrs).
      rewrite (proj2 (Z.ltb_ge _ _)) by lia.
      destruct (address =? v); simpl; by eexists. }
    simpl. apply IH; [done|]. intros c Hc.
    rewrite lookup_insert_ne by (intros ->; done). apply Hall. by right.
Qed.

End AllocatorProps.


(** ** One circular buffer: the body of the allocation loop *)

Section AllocateOne.
Context `{HostDevConstants}.

Lemma optional_value_Ok {A : Type} (o : option A) (a : A) :
  optional_value o = Ok a ↔ o = Some a.
Proof. destruct o; simpl; split; congruence. Qed.

(** The parts of a successful run of the loop body. *)
Lemma allocate_circular_buffer_parts allocs cb allocs' cb' :
  allocate_circular_buffer allocs cb = Ok (allocs', cb') →
  ∃ o A,
    foldlM (query_core allocs) (cores_of (core_ranges cb)) (None, [])
      = Ok (o, cores_of (core_ranges cb)) ∧
    match requested_address (config cb) with
    | Some r => ∃ M, o = Some M ∧ M ≤ r ∧ A = r
    | None => o = Some A
    end ∧
    foldlM (mark_core (Some A) (size_of cb)) (cores_of (core_ranges cb)) allocs
      = Ok allocs' ∧
    cb' = set_address A cb.
Proof.
  unfold allocate_circular_buffer. intros Ha.
  apply bind_Ok in Ha as ([o l] & Hq & Ha).
  destruct (query_cores_spec _ _ _ _ _ _ Hq) as (Hl & _). simpl in Hl. subst l.
  apply bind_Ok in Ha as (computed & Hreq & Ha).
  apply bind_Ok in Ha as (allocs1 & Hmark & Ha).
  apply bind_Ok in Ha as (A & HA & [= <- <-]).
  apply optional_value_Ok in HA as ->.
  exists o, A. split; [done|]. split; [|done].
  destruct (requested_address (config cb)) as [r|].
  - apply bind_Ok in Hreq as (M & HM & Hreq). apply optional_value_Ok in HM as ->.
    destruct (r <? M) eqn:Hlt; [done|]. apply Z.ltb_ge in Hlt.
    injection Hreq as <-. by exists M.
  - by injection Hreq as ->.
Qed.

Lemma allocate_circular_buffer_Ok allocs cb allocs' cb' :
  NoDup (cores_of (core_ranges cb)) →
  allocate_circular_buffer allocs cb = Ok (allocs', cb') →
  ∃ M A,
    is_max_candidate allocs (cores_of (core_ranges cb)) M ∧ M ≤ A ∧
    match requested_address (config cb) with
    | Some r => A = r
    | None => A = M
    end ∧
    cb' = set_address A cb ∧
    marked_on allocs allocs' (cores_of (core_ranges cb)) A (size_of cb).
Proof.
  intros Hnd (o & A & Hq & Hreq & Hmark & ->)%allocate_circular_buffer_parts.
  assert (∃ M, o = Some M ∧ M ≤ A ∧
               match requested_address (config cb) with
               | Some r => A = r
               | None => A = M
               end) as (M & -> & HMA & HA).
  { destruct (requested_address (config cb)) as [r|].
    - destruct Hreq as (M & -> & ? & ->). by exists M.
    - subst o. exists A. split; [done|]. split; [lia|done]. }
  assert (cores_of (core_ranges cb) ≠ []) as Hne.
  { intros Hnil. destruct (query_cores_spec _ _ _ _ _ _ Hq) as (_ & _ & _ & _ & Ho).
    by specialize (Ho Hnil). }
  destruct (query_cores_max _ _ _ _ Hne Hq) as (_ & M' & [= <-] & Hmax).
  exists M, A. do 4 (split; [done|]). by apply mark_cores_spec.
Qed.

(** The loop body once the candidates have been read. *)
Lemma allocate_circular_buffer_after_query allocs cb M :
  foldlM (query_core allocs) (cores_of (core_ranges cb)) (None, [])
    = Ok (Some M, cores_of (core_ranges cb)) →
  allocate_circular_buffer allocs cb =
    match requested_address (config cb) with
    | Some r =>
        if r <? M then Err Fatal
        else
          allocs' ← foldlM (mark_core (Some r) (size_of cb))
                           (cores_of (core_ranges cb)) allocs;
          Ok (allocs', set_address r cb)
    | None =>
        allocs' ← foldlM (mark_core (Some M) (size_of cb))
                         (cores_of (core_ranges cb)) allocs;
        Ok (allocs', set_address M cb)
    end.
Proof.
  intros Hq. unfold allocate_circular_buffer. rewrite Hq. simpl.
  destruct (requested_address (config cb)) as [r|]; simpl.
  - destruct (r <? M); simpl; [done|].
    by destruct (foldlM (mark_core (Some r) (size_of cb)) _ allocs).
  - by destruct (foldlM (mark_core (Some M) (size_of cb)) _ allocs).
Qed.

(** The loop body, for a buffer that covers at least one core, on distinct
    cores that all have an allocator. *)
Lemma allocate_circular_buffer_spec allocs cb :
  cores_of (core_ranges cb) ≠ [] →
  NoDup (cores_of (core_ranges cb)) →
  (∀ c, c ∈ cores_of (core_ranges cb) →
     ∃ a, allocs !! c = Some a ∧ l1_regions a ≠ []) →
  ∃ M,
    is_max_candidate allocs (cores_of (core_ranges cb)) M ∧
    match requested_address (config cb) with
    | Some r =>
        if r <? M then allocate_circular_buffer allocs cb = Err Fatal
        else resolves_to allocs cb r
    | None => resolves_to allocs cb M
    end.
Proof.
  intros Hne Hnd Hall.
  destruct (query_cores_total allocs _ (None, []) Hall) as [[o l] Hq].
  destruct (query_cores_max _ _ _ _ Hne Hq) as (-> & M & -> & Hmax).
  exists M. split; [done|].
  pose proof (allocate_circular_buffer_after_query _ _ _ Hq) as Hrun.
  assert (∀ A, M ≤ A →
            ∃ allocs',
              foldlM (mark_core (Some A) (size_of cb))
                     (cores_of (core_ranges cb)) allocs = Ok allocs' ∧
              marked_on allocs allocs' (cores_of (core_ranges cb)) A (size_of cb))
    as Hmark.
  { intros A HMA.
    destruct (mark_cores_total A (size_of cb) (cores_of (core_ranges cb)) allocs Hnd)
      as [allocs' Hmark].
    { intros c Hc. destruct (Hall c Hc) as (a & Ha & Hrs).
      destruct (get_address_candidate_total a Hrs) as [v Hv].
      exists a, v. do 2 (split; [done|]).
      destruct Hmax as [_ Hle]. specialize (Hle c a v Hc Ha Hv). lia. }
    exists allocs'. split; [done|]. by apply mark_cores_spec. }
  destruct (requested_address (config cb)) as [r|] eqn:Hreq.
  - destruct (r <? M) eqn:Hlt; [done|]. apply Z.ltb_ge in Hlt.
    destruct (Hmark r Hlt) as (allocs' & Hm & Hon).
    exists allocs'. split; [|done]. by rewrite Hrun, Hm.
  - destruct (Hmark M) as (allocs' & Hm & Hon); [lia|].
    exists allocs'. split; [|done]. by rewrite Hrun, Hm.
Qed.

(** The loop body reads nothing of the address a buffer already has. *)
Lemma allocate_circular_buffer_same allocs cb1 cb2 :
  same_buffer cb1 cb2 →
  allocate_circular_buffer allocs cb1 = allocate_circular_buffer allocs cb2.
Proof.
  destruct cb1, cb2. unfold same_buffer. simpl. by intros (-> & -> & ->).
Qed.

Lemma same_buffer_set_address A cb : same_buffer cb (set_address A cb).
Proof. done. Qed.

(** What the loop body keeps, whatever the cores are. *)
Lemma allocate_circular_buffer_keeps allocs cb allocs' cb' :
  allocate_circular_buffer allocs cb = Ok (allocs', cb') →
  same_buffer cb cb' ∧
  (∀ c, indices <$> allocs' !! c = indices <$> allocs !! c) ∧
  ((∀ c a, allocs !! c = Some a → l1_regions a ≠ []) →
   ∀ c a, allocs' !! c = Some a → l1_regions a ≠ []).
Proof.
  intros (o & A & Hq & Hreq & Hmark & ->)%allocate_circular_buffer_parts.
  split; [done|]. split.
  - intros c. by eapply mark_cores_indices.
  - intros Hne. by eapply mark_cores_nonempty.
Qed.

(** ** The loop over [circular_buffers_] *)

Lemma allocate_step_Ok allocs done cb st :
  allocate_step (allocs, done) cb = Ok st ↔
  ∃ allocs' cb', allocate_circular_buffer allocs cb = Ok (allocs', cb') ∧
                 st = (allocs', done ++ [cb']).
Proof.
  unfold allocate_step. simpl. rewrite bind_Ok. split.
  - intros ([allocs' cb'] & Ha & [= <-]). by exists allocs', cb'.
  - intros (allocs' & cb' & Ha & ->). by exists (allocs', cb').
Qed.

Lemma allocate_loop_keeps cbs allocs done allocs' done' :
  foldlM allocate_step cbs (allocs, done) = Ok (allocs', done') →
  ∃ cbs',
    done' = done ++ cbs' ∧ Forall2 same_buffer cbs cbs' ∧
    (∀ c, indices <$> allocs' !! c = indices <$> allocs !! c) ∧
    ((∀ c a, allocs !! c = Some a → l1_regions a ≠ []) →
     ∀ c a, allocs' !! c = Some a → l1_regions a ≠ []).
Proof.
  revert allocs done. induction cbs as [|cb cbs IH]; intros allocs done Hl;
    simpl in Hl.
  - injection Hl as <- <-. exists []. rewrite app_nil_r. by repeat split.
  - apply bind_Ok in Hl as (st & Hstep & Hl).
    apply allocate_step_Ok in Hstep as (allocs1 & cb' & Ha & ->).
    destruct (IH _ _ Hl) as (cbs' & -> & Hsame & Hidx & Hne).
    destruct (allocate_circular_buffer_keeps _ _ _ _ Ha) as (Hs1 & Hidx1 & Hne1).
    exists (cb' :: cbs'). rewrite <- app_assoc. repeat split; try done.
    + by constructor.
    + intros c. by rewrite Hidx, Hidx1.
    + intros Hall. by apply Hne, Hne1.
Qed.

Lemma allocate_loop_same cbs1 cbs2 st :
  Forall2 same_buffer cbs1 cbs2 →
  foldlM allocate_step cbs1 st = foldlM allocate_step cbs2 st.
Proof.
  intros Hsame. revert st. induction Hsame as [|cb1 cb2 cbs1 cbs2 Hs _ IH];
    intros st; simpl; [done|].
  assert (allocate_step st cb1 = allocate_step st cb2) as ->.
  { unfold allocate_step. by rewrite (allocate_circular_buffer_same _ _ _ Hs). }
  destruct (allocate_step st cb2); simpl; [apply IH|done].
Qed.

End AllocateOne.


(** ** The layout the allocation loop builds *)

Section Layout.
Context `{HostDevConstants}.

Lemma regions_in_address_order_initial :
  0 ≤ L1_UNRESERVED_BASE → regions_in_address_order initial_l1_regions.
Proof.
  intros Hb. split.
  - by repeat constructor.
  - repeat constructor.
Qed.

(** Extending the last region, or appending a region above it, keeps the
    regions in address order. *)
Lemma regions_in_address_order_mark a address size a' :
  0 ≤ size → address + size < 2 ^ 64 →
  (∃ v, get_address_candidate a = Ok v ∧ 0 ≤ v) →
  regions_in_address_order (l1_regions a) →
  mark_address a address size = Ok a' →
  regions_in_address_order (l1_regions a').
Proof.
  intros Hsz Hfit (v & Hv & Hv0) [Hle Hsorted] Hm.
  apply mark_address_Ok in Hm as (_ & rs & s & e & Hrs & Hea & Hrs').
  unfold get_address_candidate in Hv. rewrite Hrs in Hv, Hle, Hsorted.
  rewrite last_snoc in Hv.
  injection Hv as <-. simpl in *.
  apply Forall_app in Hle as [Hle_rs Hle_last].
  rewrite Forall_singleton in Hle_last. simpl in Hle_last.
  apply StronglySorted_app in Hsorted as (Hcross & Hs_rs & _).
  assert (wrap64 (address + size) = address + size) as Hw
    by (unfold wrap64; apply Z.mod_small; lia).
  rewrite Hrs'. case_decide as Heq.
  - subst address. rewrite Hw. split.
    + apply Forall_app. split; [done|]. apply Forall_singleton. simpl. lia.
    + apply StronglySorted_app. split; [|split; [done|repeat constructor]].
      intros x1 x2 Hx1 ->%list_elem_of_singleton. simpl.
      apply (Hcross x1 (s, e)); [done|by apply list_elem_of_singleton].
  - rewrite Hw. split.
    + rewrite !Forall_app, !Forall_singleton. simpl. repeat split; [done|lia..].
    + apply StronglySorted_app. split; [|split; [|repeat constructor]].
      * intros x1 x2 Hx1 ->%list_elem_of_singleton. simpl.
        apply elem_of_app in Hx1 as [Hx1 | ->%list_elem_of_singleton]; simpl; [|lia].
        specialize (Hcross x1 (s, e) Hx1). simpl in Hcross.
        rewrite list_elem_of_singleton in Hcross. specialize (Hcross eq_refl). lia.
      * apply StronglySorted_app. split; [done|split; [done|repeat constructor]].
Qed.

Lemma layout_invariant_reset allocs :
  is_u32 L1_UNRESERVED_BASE →
  layout_invariant (reset_available_addresses <$> allocs) [].
Proof.
  intros [Hb0 Hb1]. split; [|split].
  - intros c a. rewrite lookup_fmap.
    destruct (allocs !! c) as [a0|]; [|done]. intros [= <-]. simpl. split.
    + by apply regions_in_address_order_initial.
    + exists L1_UNRESERVED_BASE. split; [done|]. simpl. lia.
  - intros cb c Hcb. by apply elem_of_nil in Hcb.
  - intros i j cbi cbj Ai Aj c _ Hi. by rewrite lookup_nil in Hi.
Qed.

(** One step of the loop keeps the layout invariant. *)
Lemma layout_invariant_step allocs done cb allocs' cb' :
  layout_invariant allocs done →
  CoreRangeSet_valid (core_ranges cb) →
  CircularBufferConfig_typed (config cb) →
  Z.of_nat (length done) + 2 ≤ 2 ^ 32 →
  allocate_circular_buffer allocs cb = Ok (allocs', cb') →
  layout_invariant allocs' (done ++ [cb']).
Proof.
  intros (Hregions & Hends & Hpairs) Hvalid [Hsize Hreq] Hbound Halloc.
  destruct (allocate_circular_buffer_Ok _ _ _ _ Hvalid Halloc)
    as (M & A & [Hmax_in Hmax_le] & HMA & HA & -> & Hin & Hout).
  set (k := Z.of_nat (length done)) in *.
  unfold is_u32 in Hsize. fold (size_of cb) in Hsize.
  (* the resolved address is bounded *)
  assert (0 ≤ M < 2 ^ 32 * (k + 1)) as HM.
  { destruct Hmax_in as (c & a & _ & Ha & Hv).
    destruct (Hregions _ _ Ha) as (_ & v & Hv' & ?). congruence. }
  assert (0 ≤ A < 2 ^ 32 * (k + 1)) as HAb.
  { destruct (requested_address (config cb)) as [r|]; subst A; [|done].
    unfold is_u32 in Hreq. nia. }
  assert (A + size_of cb < 2 ^ 32 * (k + 2)) as Hend by nia.
  assert (wrap64 (A + size_of cb) = A + size_of cb) as Hw
    by (unfold wrap64; apply Z.mod_small; nia).
  (* the candidate of a core of the buffer after the step *)
  assert (∀ c, c ∈ cores_of (core_ranges cb) →
            ∃ a a' v, allocs !! c = Some a ∧ get_address_candidate a = Ok v ∧
                      v ≤ M ∧ mark_address a A (size_of cb) = Ok a' ∧
                      allocs' !! c = Some a' ∧
                      get_address_candidate a' = Ok (A + size_of cb)) as Hcore.
  { intros c Hc. destruct (Hin c Hc) as (a & a' & Ha & Hmk & Ha').
    destruct (Hregions _ _ Ha) as (_ & v & Hv & _).
    exists a, a', v. do 2 (split; [done|]). split; [by eapply Hmax_le|].
    do 2 (split; [done|]). rewrite <- Hw. by eapply mark_address_candidate. }
  unfold layout_invariant. rewrite length_app. simpl length.
  replace (Z.of_nat (length done + 1)) with (k + 1) by lia.
  split; [|split].
  - intros c a' Ha'.
    destruct (decide (c ∈ cores_of (core_ranges cb))) as [Hc|Hc].
    + destruct (Hcore c Hc) as (a & a2 & v & Ha & Hv & HvM & Hmk & Ha2 & Hv2).
      assert (a2 = a') as -> by congruence.
      destruct (Hregions _ _ Ha) as (Hord & v' & Hv' & ?). split.
      * eapply regions_in_address_order_mark; [..|exact Hmk]; try done; [lia..|].
        exists v'. split; [done|lia].
      * exists (A + size_of cb). split; [done|]. nia.
    + rewrite (Hout _ Hc) in Ha'.
      destruct (Hregions _ _ Ha') as (Hord & v & Hv & ?). split; [done|].
      exists v. split; [done|]. nia.
  - intros cb0 c [Hcb0 | ->%list_elem_of_singleton]%elem_of_app Hc.
    + destruct (Hends _ _ Hcb0 Hc) as (A0 & a & v & HA0 & ? & Ha & Hv & Hle).
      destruct (decide (c ∈ cores_of (core_ranges cb))) as [Hcb|Hcb].
      * destruct (Hcore c Hcb) as (a1 & a2 & v1 & Ha1 & Hv1 & HvM & _ & Ha2 & Hv2).
        exists A0, a2, (A + size_of cb). do 4 (split; [done|]).
        assert (v1 = v) as -> by congruence. lia.
      * exists A0, a, v. rewrite (Hout _ Hcb). done.
    + destruct (Hcore c Hc) as (a1 & a2 & v1 & _ & _ & _ & _ & Ha2 & Hv2).
      exists A, a2, (A + size_of cb). split; [done|]. split; [lia|].
      do 2 (split; [done|]). unfold size_of. simpl. lia.
  - intros i j cbi cbj Ai Aj c Hij Hi Hj HAi HAj Hci Hcj.
    apply lookup_snoc_Some in Hj as [[Hjlt Hj]|[Hjeq <-]].
    + rewrite lookup_app_l in Hi by lia.
      by apply (Hpairs i j cbi cbj Ai Aj c).
    + rewrite lookup_app_l in Hi by lia. simpl in HAj. injection HAj as <-.
      assert (cbi ∈ done) as Hin_done by (by eapply list_elem_of_lookup_2).
      destruct (Hends _ _ Hin_done Hci) as (A0 & a & v & HA0 & _ & Ha & Hv & Hle).
      assert (A0 = Ai) as -> by congruence.
      destruct (Hcore c Hcj) as (a1 & _ & v1 & Ha1 & Hv1 & HvM & _).
      assert (v1 = v) as -> by congruence. lia.
Qed.

(** The whole loop keeps it, as long as the number of buffers leaves room
    in the 64-bit address arithmetic. *)
Lemma layout_invariant_loop cbs allocs done allocs' done' :
  layout_invariant allocs done →
  (∀ cb, cb ∈ cbs →
     CoreRangeSet_valid (core_ranges cb) ∧ CircularBufferConfig_typed (config cb)) →
  Z.of_nat (length done + length cbs) + 1 ≤ 2 ^ 32 →
  foldlM allocate_step cbs (allocs, done) = Ok (allocs', done') →
  layout_invariant allocs' done'.
Proof.
  revert allocs done. induction cbs as [|cb cbs IH];
    intros allocs done Hinv Hwf Hbound Hloop; simpl in Hloop.
  - by injection Hloop as <- <-.
  - apply bind_Ok in Hloop as (st & Hstep & Hloop).
    apply allocate_step_Ok in Hstep as (allocs1 & cb' & Ha & ->).
    destruct (Hwf cb) as [Hvalid Htyped]; [by left|].
    simpl in Hbound. eapply IH; [..|exact Hloop].
    + eapply layout_invariant_step; [done..| |done]. lia.
    + intros cb0 Hcb0. apply Hwf. by right.
    + rewrite length_app. simpl. lia.
Qed.

Lemma regions_in_address_order_disjoint rs :
  regions_in_address_order rs → regions_disjoint rs.
Proof.
  intros [Hle Hsorted].
  assert (∀ i j r1 r2, (i < j)%nat → rs !! i = Some r1 → rs !! j = Some r2 →
            r1.2 < r2.1) as Hlt.
  { clear Hle. induction Hsorted as [|r rs Hs IH Hall]; intros i j r1 r2 Hij Hi Hj.
    - by rewrite lookup_nil in Hi.
    - destruct j as [|j]; [lia|]. simpl in Hj. destruct i as [|i].
      + injection Hi as <-. rewrite Forall_forall in Hall.
        apply Hall. by eapply list_elem_of_lookup_2.
      + simpl in Hi. eapply IH; [|done..]. lia. }
  intros i j r1 r2 Hne Hi Hj. unfold byte_ranges_disjoint.
  destruct (decide (i < j)%nat).
  - left. specialize (Hlt i j r1 r2 ltac:(lia) Hi Hj). lia.
  - right. specialize (Hlt j i r2 r1 ltac:(lia) Hj Hi). lia.
Qed.

End Layout.


(** ** What every reachable program satisfies *)

Section SortedKernels.

Lemma map_assign_sorted kernels id kernel :
  kernels_sorted kernels → kernels_sorted (map_assign id kernel kernels).
Proof.
  unfold kernels_sorted. induction 1 as [|[k1 v1] m Hs IH Hall]; simpl.
  - repeat constructor.
  - destruct (id <? k1) eqn:Hlt.
    + apply Z.ltb_lt in Hlt. constructor; [by constructor|].
      constructor; [done|]. eapply Forall_impl; [exact Hall|].
      intros e He. simpl in *. lia.
    + apply Z.ltb_ge in Hlt. destruct (id =? k1) eqn:Heq.
      * apply Z.eqb_eq in Heq as ->. by constructor.
      * apply Z.eqb_neq in Heq. constructor; [done|].
        apply Forall_forall. intros e [->|He]%elem_of_map_assign; simpl; [lia|].
        rewrite Forall_forall in Hall. by apply Hall.
Qed.

Lemma map_find_Some_elem_of {V : Type} (m : list (Z * V)) k v :
  map_find k m = Some v → (k, v) ∈ m.
Proof.
  induction m as [|[k1 v1] m IH]; simpl; [done|].
  destruct (k =? k1) eqn:Heq.
  - apply Z.eqb_eq in Heq as ->. intros [= ->]. by left.
  - intros Hf. right. by apply IH.
Qed.

(** Assigning to a key that is present replaces its value in place. *)
Lemma map_assign_present kernels id k k' :
  kernels_sorted kernels → map_find id kernels = Some k → same_kernel k k' →
  Forall2 (λ e1 e2 : KernelID * Kernel, e1.1 = e2.1 ∧ same_kernel e1.2 e2.2)
          kernels (map_assign id k' kernels).
Proof.
  unfold kernels_sorted. intros Hs Hf Hsame.
  induction Hs as [|[k1 v1] m Hs IH Hall]; simpl in *; [done|].
  destruct (id =? k1) eqn:Heq.
  - apply Z.eqb_eq in Heq as ->. injection Hf as ->.
    rewrite Z.ltb_irrefl. constructor; [done|].
    apply Forall2_same_length_lookup. split; [done|].
    intros i e1 e2 He1 He2. assert (e1 = e2) as -> by congruence. done.
  - apply Z.eqb_neq in Heq. apply map_find_Some_elem_of in Hf as Hin.
    rewrite Forall_forall in Hall. specialize (Hall _ Hin). simpl in Hall.
    rewrite (proj2 (Z.ltb_ge _ _)) by lia.
    constructor; [done|]. by apply IH.
Qed.

End SortedKernels.

Section ReachableConsistent.
Context `{HostDevConstants} `{Toolchain}.

Lemma update_kernel_same groups e1 e2 :
  same_kernel e1.2 e2.2 → update_kernel groups e1 = update_kernel groups e2.
Proof.
  intros (Hid & Hp & Hcrs). unfold update_kernel, logical_cores. rewrite Hcrs.
  apply foldlM_ext. intros g core _. unfold update_core, KernelGroup_update.
  by rewrite Hid, Hp.
Qed.

Lemma build_kernel_groups_same kernels1 kernels2 :
  Forall2 (λ e1 e2 : KernelID * Kernel, e1.1 = e2.1 ∧ same_kernel e1.2 e2.2)
          kernels1 kernels2 →
  build_kernel_groups kernels1 = build_kernel_groups kernels2.
Proof.
  unfold build_kernel_groups. generalize (∅ : gmap CoreCoord KernelGroup).
  intros groups Hsame. revert groups.
  induction Hsame as [|e1 e2 l1 l2 [_ He] _ IH]; intros groups; simpl; [done|].
  rewrite (update_kernel_same _ _ _ He).
  destruct (update_kernel groups e2); simpl; [apply IH|done].
Qed.

Lemma kernels_sorted_same kernels1 kernels2 :
  Forall2 (λ e1 e2 : KernelID * Kernel, e1.1 = e2.1 ∧ same_kernel e1.2 e2.2)
          kernels1 kernels2 →
  kernels_sorted kernels1 → kernels_sorted kernels2.
Proof.
  unfold kernels_sorted. intros Hsame.
  induction Hsame as [|e1 e2 l1 l2 [Hk _] Hrest IH]; [done|].
  intros [Hall Hs]%StronglySorted_cons. constructor; [by apply IH|].
  rewrite Forall_forall in Hall. apply Forall_forall. intros e Hin.
  apply list_elem_of_lookup in Hin as [i Hi].
  destruct (Forall2_lookup_r _ _ _ _ _ Hrest Hi) as (e' & Hi' & [Hk' _]).
  rewrite <- Hk, <- Hk'. apply Hall. by eapply list_elem_of_lookup_2.
Qed.

(** *** Frames: what an operation does not touch *)

Lemma circular_buffers_consistent_frame p p' :
  same_circular_buffer_state p p' →
  circular_buffers_consistent p → circular_buffers_consistent p'.
Proof.
  unfold circular_buffers_consistent. by intros (-> & -> & ->).
Qed.

Lemma kernels_consistent_frame p p' :
  same_kernel_state p p' →
  kernel_cache_consistent p ∧ kernels_sorted (kernel_by_id_ p) →
  kernel_cache_consistent p' ∧ kernels_sorted (kernel_by_id_ p').
Proof.
  unfold kernel_cache_consistent. by intros (-> & ->).
Qed.

Lemma core_to_kernel_group_program p p' groups :
  core_to_kernel_group p = Ok (p', groups) →
  p' = with_core_to_kernel_group p groups.
Proof.
  unfold core_to_kernel_group. case_decide.
  - intros (g & _ & [= <- <-])%bind_Ok. done.
  - intros [= <- <-]. by destruct p.
Qed.

Lemma add_blank_kernels_frame p ids p' :
  add_blank_kernels p ids = Ok p' → same_circular_buffer_state p p'.
Proof.
  unfold add_blank_kernels. intros ([p0 groups] & Hg & Hp)%bind_Ok.
  apply core_to_kernel_group_program in Hg as ->. injection Hp as <-.
  by repeat case_decide.
Qed.

Lemma get_kernel_Ok p id k :
  get_kernel p id = Ok k → map_find id (kernel_by_id_ p) = Some k.
Proof.
  unfold get_kernel.
  destruct (map_find id (kernel_by_id_ p)) as [k'|];
    intros (_ & _ & Hk)%bind_Ok; congruence.
Qed.

Lemma kernels_kept_refl p : kernels_kept p p.
Proof.
  split; [|done]. apply Forall2_same_length_lookup. split; [done|].
  intros i e1 e2 He1 He2. assert (e1 = e2) as -> by congruence. done.
Qed.

Lemma kernels_kept_trans p1 p2 p3 :
  kernels_kept p1 p2 → kernels_kept p2 p3 → kernels_kept p1 p3.
Proof.
  intros (Hk1 & Hc1 & Ha1 & Hb1 & Hd1) (Hk2 & Hc2 & Ha2 & Hb2 & Hd2).
  split; [|split; [congruence|repeat split; congruence]].
  eapply Forall2_trans; [|exact Hk1|exact Hk2].
  intros e1 e2 e3 [? (? & ? & ?)] [? (? & ? & ?)].
  repeat split; congruence.
Qed.

Lemma kernels_kept_assign p id k k' :
  kernels_sorted (kernel_by_id_ p) →
  map_find id (kernel_by_id_ p) = Some k → same_kernel k k' →
  kernels_kept p (with_kernels p (kernel_ids_ p)
                               (map_assign id k' (kernel_by_id_ p))).
Proof.
  intros Hs Hf Hsame. split; [|done]. simpl. by eapply map_assign_present.
Qed.

Lemma compile_kernel_kept device p w id p' w' :
  kernels_sorted (kernel_by_id_ p) →
  compile_kernel device (p, w) id = Ok (p', w') → kernels_kept p p'.
Proof.
  intros Hs. unfold compile_kernel.
  intros (k & Hk%get_kernel_Ok & Hc)%bind_Ok.
  apply bind_Ok in Hc as ([cache_hit w1] & _ & [= <- _]).
  by eapply kernels_kept_assign.
Qed.

Lemma read_kernel_binaries_kept device p w id p' w' :
  kernels_sorted (kernel_by_id_ p) →
  read_kernel_binaries device (p, w) id = Ok (p', w') → kernels_kept p p'.
Proof.
  intros Hs. unfold read_kernel_binaries.
  intros (k & Hk%get_kernel_Ok & [= <- _])%bind_Ok.
  by eapply kernels_kept_assign.
Qed.

Lemma kernels_kept_loop (f : Program * World → KernelID → result (Program * World))
    ids p w p' w' :
  (∀ p w id p' w', kernels_sorted (kernel_by_id_ p) →
                   f (p, w) id = Ok (p', w') → kernels_kept p p') →
  kernels_sorted (kernel_by_id_ p) →
  foldlM f ids (p, w) = Ok (p', w') → kernels_kept p p'.
Proof.
  intros Hf. revert p w. induction ids as [|id ids IH]; intros p w Hs Hl;
    simpl in Hl.
  - injection Hl as <- <-. apply kernels_kept_refl.
  - apply bind_Ok in Hl as ([p1 w1] & Hstep & Hl).
    pose proof (Hf _ _ _ _ _ Hs Hstep) as Hk1.
    eapply kernels_kept_trans; [exact Hk1|]. eapply IH; [|exact Hl].
    destruct Hk1 as [Hk1 _]. by eapply kernels_sorted_same.
Qed.

Lemma construct_core_range_set_for_worker_cores_kept p p' :
  construct_core_range_set_for_worker_cores p = Ok p' → kernels_kept p p'.
Proof.
  unfold construct_core_range_set_for_worker_cores.
  destruct (fold_left _ _ _) as [crs found].
  intros (_ & _ & [= <-])%bind_Ok. apply (kernels_kept_refl p).
Qed.

(** [compile] is [add_blank_kernels] followed by steps that keep the
    kernels, the cache and the circular buffers. *)
Lemma compile_kept p device w ids p' w' :
  kernel_cache_consistent p → kernels_sorted (kernel_by_id_ p) →
  compile p device w ids = Ok (p', w') →
  p' = p ∨
  ∃ p1, add_blank_kernels p ids = Ok p1 ∧ kernels_kept p1 p'.
Proof.
  intros Hc Hs. unfold compile.
  destruct (compile_needed_ p); simpl; [|intros [= <- _]; by left].
  intros (_ & _ & Hrun)%bind_Ok. apply bind_Ok in Hrun as (_ & _ & Hrun).
  apply bind_Ok in Hrun as (p1 & Hblank & Hrun).
  apply bind_Ok in Hrun as ([p2 w2] & Hcomp & Hrun).
  apply bind_Ok in Hrun as ([p3 w3] & Hread & Hrun).
  apply bind_Ok in Hrun as (p4 & Hcrs & [= <- _]).
  right. exists p1. split; [done|].
  destruct (add_blank_kernels_unfold _ _ _ Hc Hblank) as (groups & _ & Hks & _).
  assert (kernels_sorted (kernel_by_id_ p1)) as Hs1.
  { rewrite Hks. unfold with_blank.
    repeat case_decide; repeat apply map_assign_sorted; done. }
  pose proof (kernels_kept_loop _ _ _ _ _ _ (compile_kernel_kept device) Hs1 Hcomp)
    as Hk2.
  assert (kernels_sorted (kernel_by_id_ p2)) as Hs2
    by (destruct Hk2 as [Hk2 _]; by eapply kernels_sorted_same).
  pose proof (kernels_kept_loop _ _ _ _ _ _ (read_kernel_binaries_kept device) Hs2 Hread)
    as Hk3.
  pose proof (construct_core_range_set_for_worker_cores_kept _ _ Hcrs) as Hk4.
  eapply kernels_kept_trans; [exact Hk2|].
  eapply kernels_kept_trans; [exact Hk3|].
  eapply kernels_kept_trans; [exact Hk4|]. apply (kernels_kept_refl p4).
Qed.

End ReachableConsistent.

Section CircularBuffersConsistent.
Context `{HostDevConstants}.

Lemma initial_l1_regions_nonempty : initial_l1_regions ≠ [].
Proof. done. Qed.

Lemma invalidate_circular_buffer_allocation_needed p :
  circular_buffer_allocation_needed_ (invalidate_circular_buffer_allocation p) = true.
Proof.
  unfold invalidate_circular_buffer_allocation.
  by destruct (circular_buffer_allocation_needed_ p) eqn:Hf.
Qed.

Lemma invalidate_circular_buffer_allocation_consistent p :
  circular_buffers_consistent p →
  circular_buffers_consistent (invalidate_circular_buffer_allocation p).
Proof.
  intros Hcons. unfold invalidate_circular_buffer_allocation.
  destruct (circular_buffer_allocation_needed_ p) eqn:Hf; [done|].
  destruct Hcons as (Hwf & [Hdom Hne] & Hreset & Hclean).
  split; [done|]. split; [split|split; [|done]]; simpl.
  - intros cb c Hcb Hc. rewrite lookup_fmap.
    destruct (Hdom cb c Hcb Hc) as [a ->]. by eexists.
  - intros c a. rewrite lookup_fmap.
    destruct (per_core_cb_allocator_ p !! c); [|done]. by intros [= <-].
  - intros _ c a. rewrite lookup_fmap.
    destruct (per_core_cb_allocator_ p !! c); [|done]. by intros [= <-].
Qed.

Lemma add_indices_l1_regions idxs a a' :
  foldlM add_index idxs a = Ok a' → l1_regions a' = l1_regions a.
Proof.
  revert a. induction idxs as [|i idxs IH]; intros a Hf; simpl in Hf.
  - by injection Hf as <-.
  - apply bind_Ok in Hf as (a1 & Ha1 & Hf).
    rewrite (IH _ Hf). by eapply add_index_l1_regions.
Qed.

Lemma add_indices_on_cores_spec cb cores allocs allocs' :
  allocators_reset allocs →
  foldlM (add_indices_on_core cb) cores allocs = Ok allocs' →
  allocators_reset allocs' ∧
  (∀ c, is_Some (allocs !! c) → is_Some (allocs' !! c)) ∧
  (∀ c, c ∈ cores → is_Some (allocs' !! c)).
Proof.
  revert allocs. induction cores as [|core cores IH]; intros allocs Hreset Hf;
    simpl in Hf.
  - injection Hf as <-. repeat split; [done..|].
    intros c Hc. by apply elem_of_nil in Hc.
  - apply bind_Ok in Hf as (allocs1 & Hstep & Hf).
    unfold add_indices_on_core in Hstep.
    apply bind_Ok in Hstep as (a' & Ha' & [= <-]).
    apply add_indices_l1_regions in Ha'.
    assert (l1_regions a' = initial_l1_regions) as Hinit.
    { rewrite Ha'. destruct (allocs !! core) as [a|] eqn:Ha; simpl; [|done].
      by eapply Hreset. }
    destruct (IH (<[core := a']> allocs)) as (Hr & Hkeep & Hin); [|done|].
    { intros c a. destruct (decide (c = core)) as [->|Hc].
      - rewrite lookup_insert_eq. by intros [= <-].
      - rewrite lookup_insert_ne by done. apply Hreset. }
    split; [done|]. split.
    + intros c Hc. apply Hkeep. destruct (decide (c = core)) as [->|Hne].
      * rewrite lookup_insert_eq. by eexists.
      * by rewrite lookup_insert_ne.
    + intros c [->|Hc]%elem_of_cons; [|by apply Hin].
      apply Hkeep. rewrite lookup_insert_eq. by eexists.
Qed.

Lemma add_circular_buffer_program p crs cfg id p' id' :
  add_circular_buffer p crs cfg id = Ok (p', id') →
  ∃ allocs,
    foldlM (add_indices_on_core (mkCB id crs cfg None)) (cores_of crs)
      (per_core_cb_allocator_
         (invalidate_circular_buffer_allocation (invalidate_compile p)))
      = Ok allocs ∧
    p' = with_circular_buffers
           (with_cb_allocators
              (invalidate_circular_buffer_allocation (invalidate_compile p)) allocs)
           (circular_buffers_ p ++ [mkCB id crs cfg None]).
Proof.
  unfold add_circular_buffer. intros (allocs & Hf & [= <- _])%bind_Ok.
  exists allocs. split; [done|].
  assert (circular_buffers_ (invalidate_circular_buffer_allocation (invalidate_compile p))
          = circular_buffers_ p) as Hcbs.
  { unfold invalidate_circular_buffer_allocation.
    by destruct (circular_buffer_allocation_needed_ (invalidate_compile p)). }
  simpl. by rewrite Hcbs.
Qed.

Lemma add_circular_buffer_consistent p crs cfg id p' id' :
  circular_buffers_consistent p →
  CoreRangeSet_valid crs → CircularBufferConfig_typed cfg →
  add_circular_buffer p crs cfg id = Ok (p', id') →
  circular_buffers_consistent p'.
Proof.
  intros Hcons Hvalid Htyped (allocs & Hf & ->)%add_circular_buffer_program.
  assert (circular_buffers_consistent
            (invalidate_circular_buffer_allocation (invalidate_compile p))) as Hc1.
  { apply invalidate_circular_buffer_allocation_consistent.
    by apply (circular_buffers_consistent_frame p). }
  pose proof (invalidate_circular_buffer_allocation_needed (invalidate_compile p))
    as Hflag.
  set (p1 := invalidate_circular_buffer_allocation (invalidate_compile p)) in *.
  assert (circular_buffers_ p1 = circular_buffers_ p) as Hcbs.
  { unfold p1, invalidate_circular_buffer_allocation.
    by destruct (circular_buffer_allocation_needed_ (invalidate_compile p)). }
  destruct Hc1 as (Hwf & [Hdom Hne] & Hreset & _).
  destruct (add_indices_on_cores_spec _ _ _ _ (Hreset Hflag) Hf)
    as (Hreset' & Hkeep & Hin).
  rewrite Hcbs in Hwf, Hdom.
  split; [|split; [split|split]]; simpl.
  - intros cb [Hcb | ->%list_elem_of_singleton]%elem_of_app; [by apply Hwf|done].
  - intros cb c [Hcb | ->%list_elem_of_singleton]%elem_of_app Hc.
    + apply Hkeep. by eapply Hdom.
    + by apply Hin.
  - intros c a Ha. rewrite (Hreset' _ _ Ha). done.
  - done.
  - by rewrite Hflag.
Qed.

Lemma reset_available_addresses_after allocs allocs' :
  allocators_reset allocs →
  (∀ c, indices <$> allocs' !! c = indices <$> allocs !! c) →
  reset_available_addresses <$> allocs' = allocs.
Proof.
  intros Hreset Hidx. apply map_eq. intros c. rewrite lookup_fmap.
  specialize (Hidx c). specialize (Hreset c).
  destruct (allocs' !! c) as [a'|], (allocs !! c) as [a|]; simpl in *;
    try done.
  injection Hidx as Hidx. specialize (Hreset a eq_refl).
  destruct a as [i rs]. simpl in *. subst. done.
Qed.

Lemma allocate_circular_buffers_consistent p p' :
  circular_buffers_consistent p →
  allocate_circular_buffers p = Ok p' →
  circular_buffers_consistent p'.
Proof.
  intros Hcons. unfold allocate_circular_buffers.
  destruct (circular_buffer_allocation_needed_ p) eqn:Hflag; simpl;
    [|by intros [= <-]].
  destruct Hcons as (Hwf & [Hdom Hne] & Hreset & Hclean).
  intros ([allocs' cbs'] & Hloop & [= <-])%bind_Ok.
  destruct (allocate_loop_keeps _ _ _ _ _ Hloop)
    as (cbs'' & Hcbs & Hsame & Hidx & Hne').
  simpl in Hcbs. subst cbs''.
  assert (∀ cb', cb' ∈ cbs' → ∃ cb, cb ∈ circular_buffers_ p ∧ same_buffer cb cb')
    as Hfrom.
  { intros cb' [i Hi]%list_elem_of_lookup.
    destruct (Forall2_lookup_r _ _ _ _ _ Hsame Hi) as (cb & Hcb & Hs).
    exists cb. split; [by eapply list_elem_of_lookup_2|done]. }
  split; [|split; [split|split]]; simpl.
  - intros cb' (cb & Hcb & _ & <- & <-)%Hfrom. by apply Hwf.
  - intros cb' c (cb & Hcb & _ & <- & _)%Hfrom Hc.
    destruct (Hdom cb c Hcb Hc) as [a Ha]. specialize (Hidx c).
    rewrite Ha in Hidx. destruct (allocs' !! c); [by eexists|done].
  - by apply Hne'.
  - done.
  - intros _. rewrite (reset_available_addresses_after _ _ (Hreset Hflag) Hidx).
    rewrite (allocate_loop_same cbs' (circular_buffers_ p)); [done|].
    apply Forall2_flip. eapply Forall2_impl; [exact Hsame|].
    intros cb cb' (? & ? & ?). by repeat split.
Qed.

End CircularBuffersConsistent.

Section ReachableInvariant.
Context `{HostDevConstants} `{Toolchain}.

Lemma new_Program_consistent n : Program_consistent (new_Program n).
Proof.
  split; [by left|]. split; [constructor|].
  split; [|split; [split|split]]; simpl; try done.
  - intros cb Hcb. by apply elem_of_nil in Hcb.
  - intros cb c Hcb. by apply elem_of_nil in Hcb.
Qed.

(** Every reachable program is consistent. *)
Lemma reachable_consistent p : reachable p → Program_consistent p.
Proof.
  induction 1 as [n | p kernel _ IH Hfresh | p p' groups _ IH Hg
                 | p ids p' _ IH Hfresh Hblank
                 | p crs cfg id p' _ IH Hvalid Htyped Hadd
                 | p _ IH | p p' _ IH Halloc
                 | p device w ids p' w' _ IH Hfresh Hcompile].
  - apply new_Program_consistent.
  - destruct IH as (Hc & Hs & Hcb). split; [by left|]. split.
    + by apply map_assign_sorted.
    + by apply (circular_buffers_consistent_frame p).
  - destruct IH as (Hc & Hs & Hcb).
    destruct (core_to_kernel_group_consistent _ _ _ Hc Hg) as (Hc' & Hks & _).
    split; [done|]. split; [by rewrite Hks|].
    apply core_to_kernel_group_program in Hg as ->.
    by apply (circular_buffers_consistent_frame p).
  - destruct IH as (Hc & Hs & Hcb).
    destruct (add_blank_kernels_unfold _ _ _ Hc Hblank) as (g & _ & Hks & Hc').
    split; [done|]. split.
    + rewrite Hks. unfold with_blank.
      repeat case_decide; repeat apply map_assign_sorted; done.
    + eapply circular_buffers_consistent_frame; [|exact Hcb].
      by eapply add_blank_kernels_frame.
  - destruct IH as (Hc & Hs & Hcb).
    pose proof (add_circular_buffer_consistent _ _ _ _ _ _ Hcb Hvalid Htyped Hadd)
      as Hcb'.
    apply add_circular_buffer_program in Hadd as (allocs & _ & ->).
    assert (same_kernel_state p
              (invalidate_circular_buffer_allocation (invalidate_compile p))) as Hk.
    { unfold invalidate_circular_buffer_allocation.
      by destruct (circular_buffer_allocation_needed_ (invalidate_compile p)). }
    split; [|split; [|done]]; by apply (kernels_consistent_frame p).
  - destruct IH as (Hc & Hs & Hcb).
    assert (same_kernel_state p (invalidate_circular_buffer_allocation p)) as Hk.
    { unfold invalidate_circular_buffer_allocation.
      by destruct (circular_buffer_allocation_needed_ p). }
    split; [|split]; [by apply (kernels_consistent_frame p)..|].
    by apply invalidate_circular_buffer_allocation_consistent.
  - destruct IH as (Hc & Hs & Hcb).
    pose proof (allocate_circular_buffers_consistent _ _ Hcb Halloc) as Hcb'.
    assert (same_kernel_state p p') as Hk.
    { unfold allocate_circular_buffers in Halloc.
      destruct (circular_buffer_allocation_needed_ p); simpl in Halloc;
        [|by injection Halloc as <-].
      by apply bind_Ok in Halloc as ([allocs cbs] & _ & [= <-]). }
    split; [|split; [|done]]; by apply (kernels_consistent_frame p).
  - destruct IH as (Hc & Hs & Hcb).
    destruct (compile_kept _ _ _ _ _ _ Hc Hs Hcompile)
      as [->|(p1 & Hblank & Hkept & Hcache & Hframe)]; [done|].
    destruct (add_blank_kernels_unfold _ _ _ Hc Hblank) as (g & _ & Hks & Hc1).
    assert (kernels_sorted (kernel_by_id_ p1)) as Hs1.
    { rewrite Hks. unfold with_blank.
      repeat case_decide; repeat apply map_assign_sorted; done. }
    split; [|split].
    + destruct Hc1 as [Hc1|Hc1]; [left; congruence|right].
      rewrite Hcache, <- Hc1. symmetry. by apply build_kernel_groups_same.
    + by eapply kernels_sorted_same.
    + eapply circular_buffers_consistent_frame; [exact Hframe|].
      eapply circular_buffers_consistent_frame; [|exact Hcb].
      by eapply add_blank_kernels_frame.
Qed.

End ReachableInvariant.


(** ** Kernel grouping: the properties of the specification *)

Section KernelClaims.
Context `{HostDevConstants} `{Toolchain}.

(** C10. [kernels_on_core] on a reachable program either fails on the
    assertion of [KernelGroup::update] (some kernel of an unsupported role
    runs on a core), or returns; then it returns the null pointer exactly for
    a core that no registered kernel covers, and the core-to-group map it
    leaves in the program has an entry exactly for the covered cores. *)
Theorem kernels_on_core_null_iff_uncovered (p : Program) (core : CoreCoord) :
  reachable p →
  match kernels_on_core p core with
  | Ok (p', group) =>
      (group = None ↔ ¬ covered (kernel_by_id_ p) core) ∧
      (∀ c, core_to_kernel_group_ p' !! c = None ↔
            ¬ covered (kernel_by_id_ p) c)
  | Err e =>
      e = Fatal ∧
      ∃ entry, entry ∈ kernel_by_id_ p ∧ ¬ supported (processor entry.2) ∧
               logical_cores entry.2 ≠ []
  end.
Proof.
  intros (Hc & _ & _)%reachable_consistent. unfold kernels_on_core.
  rewrite core_to_kernel_group_spec by done.
  pose proof (update_kernels_result (kernel_by_id_ p) ∅) as Hres.
  unfold build_kernel_groups.
  destruct (foldlM update_kernel (kernel_by_id_ p) ∅) as [groups|e] eqn:Hb;
    simpl; [|done].
  assert (∀ c, groups !! c = None ↔ ¬ covered (kernel_by_id_ p) c) as Hdom.
  { intros c. destruct (update_kernels_lookup _ _ _ c Hb) as [-> _].
    rewrite lookup_empty. naive_solver. }
  split; [apply Hdom|done].
Qed.

(** C6, as amended.  [core_to_kernel_group] has no check for a role that is
    already taken.  Here [kernel_by_id_ p] is the sequence in which the loop
    visits the registered kernels, in any order whatever (the container is
    declared outside the sources), and the cached map is empty or up to
    date.  The call fails only on the assertion for an unsupported processor
    role.  Otherwise each role slot of each core holds the id of the kernel
    of that role on the core that the loop visits last, an earlier kernel of
    the same role being overwritten; so the slot holds a registered kernel
    of that role that runs on the core, and is empty only when there is no
    such kernel. *)
Theorem core_to_kernel_group_last_kernel_wins (p : Program) :
  kernel_cache_consistent p →
  match core_to_kernel_group p with
  | Ok (p', groups) =>
      (∀ core role, supported role →
         slot_at role groups core = last (kernels_with role core (kernel_by_id_ p))) ∧
      (∀ core role id, supported role → slot_at role groups core = Some id →
         ∃ entry, entry ∈ kernel_by_id_ p ∧ kernel_id entry.2 = id ∧
                  processor entry.2 = role ∧ core ∈ logical_cores entry.2) ∧
      (∀ core role entry, supported role → entry ∈ kernel_by_id_ p →
         processor entry.2 = role → core ∈ logical_cores entry.2 →
         is_Some (slot_at role groups core)) ∧
      (∀ entry, entry ∈ kernel_by_id_ p → logical_cores entry.2 ≠ [] →
                supported (processor entry.2))
  | Err e =>
      e = Fatal ∧
      ∃ entry, entry ∈ kernel_by_id_ p ∧ ¬ supported (processor entry.2) ∧
               logical_cores entry.2 ≠ []
  end.
Proof.
  intros Hc.
  rewrite core_to_kernel_group_spec by done.
  pose proof (update_kernels_result (kernel_by_id_ p) ∅) as Hres.
  unfold build_kernel_groups.
  destruct (foldlM update_kernel (kernel_by_id_ p) ∅) as [groups|e] eqn:Hb;
    simpl; [|done].
  assert (∀ core role,
            slot_at role groups core
            = last (kernels_with role core (kernel_by_id_ p))) as Hlast.
  { intros core role.
    destruct (update_kernels_lookup _ _ _ core Hb) as [_ ->].
    unfold slot_at. rewrite lookup_empty. simpl.
    by destruct (last (kernels_with role core (kernel_by_id_ p))). }
  split; [by intros core role _|]. split; [|split; [|done]].
  - intros core role id _. rewrite Hlast. intros Hid.
    apply last_Some_elem_of, elem_of_kernels_with in Hid
      as (entry & He & Hrole & Hcore & Hid).
    by exists entry.
  - intros core role entry _ He Hrole Hcore. rewrite Hlast.
    pose proof (kernels_with_elem_of role core _ entry He Hrole Hcore) as Hin.
    destruct (last (kernels_with role core (kernel_by_id_ p))) eqn:Hl; [done|].
    apply last_None in Hl. rewrite Hl in Hin. by apply elem_of_nil in Hin.
Qed.

(** C3. After [add_blank_kernels] on a reachable program (the new kernels
    having fresh identities), the kernel groups can be computed, and in them
    every core that some kernel of the program runs on has all three roles
    assigned.  Every kernel registered before is still registered. *)
Theorem add_blank_kernels_fills_every_role (p : Program)
    (ids : KernelID * KernelID * KernelID) (p' : Program) :
  reachable p →
  fresh_blank_ids p ids →
  add_blank_kernels p ids = Ok p' →
  (∀ entry, entry ∈ kernel_by_id_ p → entry ∈ kernel_by_id_ p') ∧
  ∃ p'' groups,
    core_to_kernel_group p' = Ok (p'', groups) ∧
    ∀ core, covered (kernel_by_id_ p') core →
      ∃ g, groups !! core = Some g ∧
           is_Some (riscv0_id g) ∧ is_Some (riscv1_id g) ∧ is_Some (compute_id g).
Proof.
  intros (Hc & _ & _)%reachable_consistent Hfresh Hadd.
  destruct (add_blank_kernels_all_roles _ _ _ Hc Hfresh Hadd)
    as (Hc' & Hold & groups & Hb & Hall).
  split; [done|].
  exists (with_core_to_kernel_group p' groups), groups. split.
  - rewrite core_to_kernel_group_spec by done. by rewrite Hb.
  - intros core Hcov. destruct (Hall core Hcov) as (g & Hg & Hroles).
    exists g. split; [done|]. unfold supported in Hroles.
    split; [apply (Hroles BRISC); auto|].
    split; [apply (Hroles NCRISC); auto|apply (Hroles COMPUTE); auto].
Qed.

End KernelClaims.

(** C10, on an example: in [one_compute_program] the core (0, 1) has a group
    and the core (5, 5) has none. *)
Lemma kernels_on_core_null_iff_uncovered_witness :
  match @kernels_on_core example_constants one_compute_program (5%nat, 5%nat) with
  | Ok (p', group) =>
      (group = None ↔ ¬ covered (kernel_by_id_ one_compute_program) (5%nat, 5%nat)) ∧
      (∀ c, core_to_kernel_group_ p' !! c = None ↔
            ¬ covered (kernel_by_id_ one_compute_program) c)
  | Err e =>
      e = Fatal ∧
      ∃ entry, entry ∈ kernel_by_id_ one_compute_program ∧
               ¬ supported (processor entry.2) ∧ logical_cores entry.2 ≠ []
  end.
Proof.
  apply (@kernels_on_core_null_iff_uncovered example_constants example_toolchain).
  apply reach_add_kernel; [apply reach_new|reflexivity].
Defined.

(** C6, the claim as stated fails: two kernels of the BRISC role on core
    (0, 0), with ids 1 and 2.  [core_to_kernel_group] does not fail; the slot
    holds the second kernel. *)
Lemma core_to_kernel_group_accepts_duplicate_role :
  ∃ p' groups g,
    @core_to_kernel_group example_constants two_brisc_program = Ok (p', groups) ∧
    groups !! (0%nat, 0%nat) = Some g ∧ riscv0_id g = Some 2.
Proof. by eexists _, _, _. Qed.

(** C6, on an example: the two BRISC kernels of [two_brisc_program] visited
    in the opposite order, the kernel of id 2 first. *)
Lemma core_to_kernel_group_last_kernel_wins_witness :
  match @core_to_kernel_group example_constants two_brisc_program_reversed with
  | Ok (p', groups) =>
      (∀ core role, supported role →
         slot_at role groups core
         = last (kernels_with role core
                   (kernel_by_id_ two_brisc_program_reversed))) ∧
      (∀ core role id, supported role → slot_at role groups core = Some id →
         ∃ entry, entry ∈ kernel_by_id_ two_brisc_program_reversed ∧
                  kernel_id entry.2 = id ∧
                  processor entry.2 = role ∧ core ∈ logical_cores entry.2) ∧
      (∀ core role entry, supported role →
         entry ∈ kernel_by_id_ two_brisc_program_reversed →
         processor entry.2 = role → core ∈ logical_cores entry.2 →
         is_Some (slot_at role groups core)) ∧
      (∀ entry, entry ∈ kernel_by_id_ two_brisc_program_reversed →
                logical_cores entry.2 ≠ [] → supported (processor entry.2))
  | Err e =>
      e = Fatal ∧
      ∃ entry, entry ∈ kernel_by_id_ two_brisc_program_reversed ∧
               ¬ supported (processor entry.2) ∧ logical_cores entry.2 ≠ []
  end.
Proof.
  apply (@core_to_kernel_group_last_kernel_wins example_constants
           two_brisc_program_reversed).
  left. reflexivity.
Defined.

(** The slot of the BRISC role on core (0, 0) follows the order of the
    visit: the kernel of id 2 when the kernels are visited by increasing
    id, the kernel of id 1 when they are visited the other way round. *)
Example core_to_kernel_group_follows_the_visit :
  (r ← @core_to_kernel_group example_constants two_brisc_program;
   Ok (slot_at BRISC r.2 (0%nat, 0%nat))) = Ok (Some 2) ∧
  (r ← @core_to_kernel_group example_constants two_brisc_program_reversed;
   Ok (slot_at BRISC r.2 (0%nat, 0%nat))) = Ok (Some 1).
Proof. split; reflexivity. Qed.

(** C3, on an example: [one_compute_program] has only a compute kernel on
    its two cores; after the insertion both cores have the three roles. *)
Lemma add_blank_kernels_fills_every_role_witness :
  (∀ entry, entry ∈ kernel_by_id_ one_compute_program →
            entry ∈ kernel_by_id_ one_compute_program_with_blanks) ∧
  ∃ p'' groups,
    @core_to_kernel_group example_constants one_compute_program_with_blanks
      = Ok (p'', groups) ∧
    ∀ core, covered (kernel_by_id_ one_compute_program_with_blanks) core →
      ∃ g, groups !! core = Some g ∧
           is_Some (riscv0_id g) ∧ is_Some (riscv1_id g) ∧ is_Some (compute_id g).
Proof.
  apply (@add_blank_kernels_fills_every_role example_constants example_toolchain
           one_compute_program (100, 101, 102)).
  - apply reach_add_kernel; [apply reach_new|reflexivity].
  - split; [|by repeat split]. apply (bool_decide_unpack _). by vm_compute.
  - by vm_compute.
Defined.


(** ** Circular-buffer allocation: the properties of the specification *)

Section CircularBufferClaims.
Context `{HostDevConstants} `{Toolchain}.

Lemma allocate_circular_buffers_loop p :
  circular_buffer_allocation_needed_ p = true →
  allocate_circular_buffers p =
    st ← foldlM allocate_step (circular_buffers_ p) (per_core_cb_allocator_ p, []);
    Ok (with_allocation_needed
          (with_circular_buffers (with_cb_allocators p st.1) st.2) false).
Proof.
  intros Hflag. unfold allocate_circular_buffers. rewrite Hflag. simpl.
  by destruct (foldlM allocate_step _ _) as [[allocs cbs]|e].
Qed.

Lemma bind_Ok_l {A B : Type} (a : A) (f : A → result B) : Ok a ≫= f = f a.
Proof. done. Qed.

Lemma bind_Err_l {A B : Type} (e : failure) (f : A → result B) :
  Err e ≫= f = Err e.
Proof. done. Qed.

Lemma allocate_circular_buffers_at p pre cb post :
  circular_buffer_allocation_needed_ p = true →
  circular_buffers_ p = pre ++ cb :: post →
  allocate_circular_buffers p =
    st ← foldlM allocate_step pre (per_core_cb_allocator_ p, []);
    st ← allocate_step st cb;
    st ← foldlM allocate_step post st;
    Ok (with_allocation_needed
          (with_circular_buffers (with_cb_allocators p st.1) st.2) false).
Proof.
  intros Hflag Hcbs. rewrite allocate_circular_buffers_loop by done.
  rewrite Hcbs, foldlM_app.
  destruct (foldlM allocate_step pre _) as [st|e]; simpl; [|done].
  by destruct (allocate_step st cb).
Qed.

(** C1, as amended.  In a reachable program whose allocation is pending,
    take a circular buffer [cb] that covers at least one core, with the
    buffers [pre] registered before it and [post] after it.  The loop first
    processes [pre]; if that fails, the allocation fails the same way.
    Otherwise, with [allocs] the allocators as [pre] has left them, there is
    a maximum [M] of [get_address_candidate] over the cores of [cb], and: a
    requested address below [M] makes the allocation fail fatally; a
    requested address at or above [M] is the resolved address; without a
    requested address [M] is.  The loop body returns with the resolved
    address marked in the allocator of every core of [cb] and as the address
    of the buffer, and this is the address the buffer has in the program
    once the allocation completes. *)
Theorem allocate_circular_buffers_resolves_to_max (p : Program)
    (pre : list CircularBuffer) (cb : CircularBuffer) (post : list CircularBuffer) :
  reachable p →
  circular_buffer_allocation_needed_ p = true →
  circular_buffers_ p = pre ++ cb :: post →
  cores_of (core_ranges cb) ≠ [] →
  match foldlM allocate_step pre (per_core_cb_allocator_ p, []) with
  | Err e => allocate_circular_buffers p = Err e
  | Ok (allocs, _) =>
      ∃ M,
        is_max_candidate allocs (cores_of (core_ranges cb)) M ∧
        match requested_address (config cb) with
        | Some requested =>
            if requested <? M then allocate_circular_buffers p = Err Fatal
            else resolved_at allocs cb requested ∧
                 placed_at p (length pre) cb requested
        | None => resolved_at allocs cb M ∧ placed_at p (length pre) cb M
        end
  end.
Proof.
  intros (_ & _ & Hwf & [Hdom Hne] & _)%reachable_consistent Hflag Hcbs Hcores.
  rewrite (allocate_circular_buffers_at p pre cb post) by done.
  destruct (foldlM allocate_step pre (per_core_cb_allocator_ p, []))
    as [[allocs pre']|e] eqn:Hpre; [|done].
  destruct (allocate_loop_keeps _ _ _ _ _ Hpre) as (pre'' & Hpre' & Hsame & Hidx & Hne').
  simpl in Hpre'. subst pre''.
  assert (cb ∈ circular_buffers_ p) as Hin
    by (rewrite Hcbs; apply elem_of_app; right; by left).
  destruct (Hwf cb Hin) as [Hvalid _].
  destruct (allocate_circular_buffer_spec allocs cb Hcores Hvalid) as (M & Hmax & Hres).
  { intros c Hc. destruct (Hdom cb c Hin Hc) as [a Ha].
    specialize (Hidx c). rewrite Ha in Hidx.
    destruct (allocs !! c) as [a'|] eqn:Ha'; [|done].
    exists a'. split; [done|]. by eapply Hne'. }
  exists M. split; [done|]. rewrite bind_Ok_l.
  assert (∀ A, resolves_to allocs cb A →
               resolved_at allocs cb A ∧ placed_at p (length pre) cb A) as Hplaced.
  { intros A (allocs' & Halloc & Hmarked). split.
    { exists allocs', (set_address A cb). do 4 (split; [done|]).
      intros c Hc. destruct Hmarked as [Hm _].
      destruct (Hm c Hc) as (a & a' & _ & Hmark%mark_address_candidate & Ha').
      unfold get_address_candidate in Hmark.
      destruct (last (l1_regions a')) as [region|] eqn:Hlast; [|done].
      injection Hmark as Hend. by exists a', region. }
    intros p'.
    rewrite (allocate_circular_buffers_at p pre cb post), Hpre, bind_Ok_l by done.
    assert (allocate_step (allocs, pre') cb = Ok (allocs', pre' ++ [set_address A cb]))
      as -> by (apply allocate_step_Ok; eauto).
    rewrite bind_Ok_l.
    intros ([allocs3 done3] & Hpost & [= <-])%bind_Ok.
    destruct (allocate_loop_keeps _ _ _ _ _ Hpost) as (post' & -> & _).
    exists (set_address A cb). split; [|done].
    simpl. rewrite <- app_assoc. simpl.
    apply Forall2_length in Hsame. rewrite Hsame.
    by apply list_lookup_middle. }
  destruct (requested_address (config cb)) as [r|].
  - destruct (r <? M); [|by apply Hplaced].
    unfold allocate_step. simpl. by rewrite Hres.
  - by apply Hplaced.
Qed.

Lemma allocate_circular_buffers_needed p p' :
  allocate_circular_buffers p = Ok p' →
  circular_buffer_allocation_needed_ p' = false ∧
  length (circular_buffers_ p') = length (circular_buffers_ p).
Proof.
  unfold allocate_circular_buffers.
  destruct (circular_buffer_allocation_needed_ p) eqn:Hflag; simpl;
    [|by intros [= <-]].
  intros ([allocs cbs] & Hloop & [= <-])%bind_Ok. split; [done|]. simpl.
  destruct (allocate_loop_keeps _ _ _ _ _ Hloop) as (cbs' & -> & Hsame & _).
  simpl. symmetry. by eapply Forall2_length.
Qed.

(** C2. After [allocate_circular_buffers] completes on a reachable program
    (with the reserved base a 32-bit address, and fewer than [2^32 - 1]
    buffers, as the 64-bit address arithmetic needs), two distinct circular
    buffers placed on a common core have addresses, and their byte ranges
    [[address, address + size)] do not overlap; every per-core allocator has
    its regions in address order and mutually disjoint, and the end of its
    last region is the next candidate address. *)
Theorem allocate_circular_buffers_no_overlap (p p' : Program) :
  reachable p →
  is_u32 L1_UNRESERVED_BASE →
  Z.of_nat (length (circular_buffers_ p)) + 1 ≤ 2 ^ 32 →
  allocate_circular_buffers p = Ok p' →
  (∀ i j cb1 cb2 core,
     i ≠ j →
     circular_buffers_ p' !! i = Some cb1 →
     circular_buffers_ p' !! j = Some cb2 →
     is_on_logical_core cb1 core = true →
     is_on_logical_core cb2 core = true →
     ∃ a1 a2, address cb1 = Some a1 ∧ address cb2 = Some a2 ∧
              byte_ranges_disjoint a1 (size_of cb1) a2 (size_of cb2)) ∧
  (∀ core a,
     per_core_cb_allocator_ p' !! core = Some a →
     regions_in_address_order (l1_regions a) ∧
     regions_disjoint (l1_regions a) ∧
     ∃ last_region, last (l1_regions a) = Some last_region ∧
                    get_address_candidate a = Ok last_region.2).
Proof.
  intros Hreach Hbase Hcount Halloc.
  destruct (allocate_circular_buffers_needed _ _ Halloc) as [Hflag Hlen].
  assert (reachable p') as Hreach' by (by eapply reach_allocate_circular_buffers).
  apply reachable_consistent in Hreach' as (_ & _ & Hwf & _ & _ & Hclean).
  specialize (Hclean Hflag).
  assert (layout_invariant (per_core_cb_allocator_ p') (circular_buffers_ p'))
    as (Hregions & Hends & Hpairs).
  { eapply layout_invariant_loop; [|exact Hwf| |exact Hclean].
    - by apply layout_invariant_reset.
    - simpl. lia. }
  split.
  - intros i j cb1 cb2 core Hij Hi Hj Hc1%bool_decide_eq_true Hc2%bool_decide_eq_true.
    destruct (Hends cb1 core) as (a1 & _ & _ & Ha1 & _);
      [by eapply list_elem_of_lookup_2|done|].
    destruct (Hends cb2 core) as (a2 & _ & _ & Ha2 & _);
      [by eapply list_elem_of_lookup_2|done|].
    exists a1, a2. do 2 (split; [done|]). unfold byte_ranges_disjoint.
    destruct (decide (i < j)%nat).
    + left. by apply (Hpairs i j cb1 cb2 a1 a2 core).
    + right. apply (Hpairs j i cb2 cb1 a2 a1 core); [lia|done..].
  - intros core a Ha. destruct (Hregions _ _ Ha) as (Hord & v & Hv & _).
    split; [done|]. split; [by apply regions_in_address_order_disjoint|].
    unfold get_address_candidate in *.
    destruct (last (l1_regions a)) as [r|]; [|done]. by exists r.
Qed.

(** C9. In a reachable program whose allocation is not pending (nothing
    about its circular buffers has changed since the allocation completed),
    [invalidate_circular_buffer_allocation] re-arms the dirty flag and puts
    every allocator back in its pre-allocation state, and running
    [allocate_circular_buffers] again gives back the very same program: every
    circular buffer has the address it had, and every allocator the regions
    it had. *)
Theorem invalidate_then_allocate_is_identity (p : Program) :
  reachable p →
  circular_buffer_allocation_needed_ p = false →
  circular_buffer_allocation_needed_ (invalidate_circular_buffer_allocation p) = true ∧
  allocators_reset (per_core_cb_allocator_ (invalidate_circular_buffer_allocation p)) ∧
  allocate_circular_buffers (invalidate_circular_buffer_allocation p) = Ok p.
Proof.
  intros Hreach Hflag.
  pose proof (reach_invalidate_circular_buffer_allocation _ Hreach) as Hreach1.
  apply reachable_consistent in Hreach1 as (_ & _ & _ & _ & Hreset & _).
  apply reachable_consistent in Hreach as (_ & _ & _ & _ & _ & Hclean).
  pose proof (invalidate_circular_buffer_allocation_needed p) as Hflag1.
  split; [done|]. split; [by apply Hreset|].
  rewrite allocate_circular_buffers_loop by done.
  unfold invalidate_circular_buffer_allocation. rewrite Hflag. simpl.
  rewrite (Hclean Hflag). simpl. destruct p. simpl in *. by subst.
Qed.

End CircularBufferClaims.


(** ** The compile gate *)

Section CompileClaims.
Context `{HostDevConstants} `{Toolchain}.

Lemma CompileBlankKernel_profiler device w :
  device_profiler_state (CompileBlankKernel device w) = device_profiler_state w ∧
  print_server_running (CompileBlankKernel device w) = print_server_running w.
Proof. unfold CompileBlankKernel. by destruct (blank_compiled w). Qed.

Lemma compile_clears_flag p device w ids p' w' :
  compile p device w ids = Ok (p', w') → compile_needed_ p' = false.
Proof.
  unfold compile. destruct (compile_needed_ p) eqn:Hflag; simpl;
    [|by intros [= <- _]].
  intros (_ & _ & Hrun)%bind_Ok. apply bind_Ok in Hrun as (_ & _ & Hrun).
  apply bind_Ok in Hrun as (p1 & _ & Hrun).
  apply bind_Ok in Hrun as ([p2 w2] & _ & Hrun).
  apply bind_Ok in Hrun as ([p3 w3] & _ & Hrun).
  by apply bind_Ok in Hrun as (p4 & _ & [= <- _]).
Qed.

(** C4. [compile] with the compile-dirty flag clear returns at once: the
    program and the process-wide state (with its log of generation work) are
    unchanged.  With the flag set it fails fatally on a device that is not
    initialized, and it fails fatally when the profiler is active while the
    debug-print server runs.  A compile that completes leaves the flag clear,
    so compiling again does nothing. *)
Theorem compile_gate (p : Program) (device : Device) (w : World)
    (ids : KernelID * KernelID * KernelID) :
  (compile_needed_ p = false → compile p device w ids = Ok (p, w)) ∧
  (compile_needed_ p = true → is_initialized device = false →
   compile p device w ids = Err Fatal) ∧
  (compile_needed_ p = true →
   device_profiler_state w = true → print_server_running w = true →
   compile p device w ids = Err Fatal) ∧
  (∀ p' w', compile p device w ids = Ok (p', w') →
     ∀ ids', compile p' device w' ids' = Ok (p', w')).
Proof.
  split; [|split; [|split]].
  - intros Hflag. unfold compile. by rewrite Hflag.
  - intros Hflag Hinit. unfold compile. by rewrite Hflag, Hinit.
  - intros Hflag Hprof Hprint. unfold compile. rewrite Hflag. simpl.
    destruct (is_initialized device); simpl; [|done].
    destruct (CompileBlankKernel_profiler device w) as [-> ->].
    by rewrite Hprof, Hprint.
  - intros p' w' Hc ids'. apply compile_clears_flag in Hc.
    unfold compile. by rewrite Hc.
Qed.

End CompileClaims.

(** A run of the pipeline on [one_compute_program]: six items of work on the first compile (the blank image, two
    generations, three loads; the second blank kernel hits the hash ledger), nothing on the second. *)
Example compile_twice :
  ∃ p' w',
    @compile example_constants example_toolchain one_compute_program
             example_device example_world (100, 101, 102) = Ok (p', w') ∧
    length (work_log w') = 6%nat ∧
    @compile example_constants example_toolchain p' example_device w'
             (200, 201, 202) = Ok (p', w').
Proof. eexists _, _. split; [by vm_compute|]. split; by vm_compute. Qed.


(** ** The dispatch executor: launch and buffer writes *)

Section LaunchClaims.
Context `{HostDevConstants} `{NocAddressing}.

Lemma busy_wait_Some fuel observed k num_workers evs :
  busy_wait fuel observed k num_workers = Some evs →
  ∃ n, (n < fuel)%nat ∧
       evs = (λ j, load_word DISPATCH_MESSAGE_ADDR (observed j)) <$> seq k (S n) ∧
       observed (k + n)%nat = num_workers ∧
       ∀ j, (k ≤ j < k + n)%nat → observed j ≠ num_workers.
Proof.
  revert k evs. induction fuel as [|fuel IH]; intros k evs; simpl; [done|].
  destruct (observed k =? num_workers) eqn:Heq; simpl.
  - apply Z.eqb_eq in Heq. intros [= <-]. exists 0%nat.
    rewrite Nat.add_0_r. split; [lia|]. split; [done|]. split; [done|].
    intros j Hj. lia.
  - apply Z.eqb_neq in Heq.
    destruct (busy_wait fuel observed (S k) num_workers) as [evs'|] eqn:Hw;
      simpl; [|done].
    intros [= <-]. destruct (IH _ _ Hw) as (n & Hn & -> & Hobs & Hbefore).
    exists (S n). replace (k + S n)%nat with (S k + n)%nat by lia.
    split; [lia|]. split; [done|]. split; [done|].
    intros j Hj. destruct (decide (j = k)) as [->|Hne]; [done|].
    apply Hbefore. lia.
Qed.

Lemma busy_wait_reaches fuel observed k n num_workers :
  observed (k + n)%nat = num_workers →
  (∀ j, (k ≤ j < k + n)%nat → observed j ≠ num_workers) →
  (n < fuel)%nat →
  busy_wait fuel observed k num_workers
  = Some ((λ j, load_word DISPATCH_MESSAGE_ADDR (observed j)) <$> seq k (S n)).
Proof.
  revert k n. induction fuel as [|fuel IH]; intros k n Hobs Hbefore Hfuel;
    [lia|]. simpl. destruct n as [|n].
  - rewrite Nat.add_0_r in Hobs. by rewrite (proj2 (Z.eqb_eq _ _) Hobs).
  - rewrite (proj2 (Z.eqb_neq _ _)) by (apply Hbefore; lia). simpl.
    rewrite (IH (S k) n); [done|..|lia].
    + by replace (S k + n)%nat with (k + S n)%nat by lia.
    + intros j Hj. apply Hbefore. lia.
Qed.

Lemma busy_wait_never fuel observed k num_workers :
  (∀ j, (k ≤ j)%nat → observed j ≠ num_workers) →
  busy_wait fuel observed k num_workers = None.
Proof.
  revert k. induction fuel as [|fuel IH]; intros k Hnever; [done|]. simpl.
  rewrite (proj2 (Z.eqb_neq _ _)) by (apply Hnever; lia). simpl.
  rewrite IH; [done|]. intros j Hj. apply Hnever. lia.
Qed.

Lemma launch_multicasts_groups num_multicast_messages command command_ptr :
  0 ≤ num_multicast_messages < 2 ^ 31 →
  launch_multicasts num_multicast_messages command command_ptr
  = launch_multicast command command_ptr <$> seqZ 0 num_multicast_messages.
Proof.
  intros Hn. unfold launch_multicasts, wrap32.
  rewrite Z.mod_small by lia.
  replace (num_multicast_messages * 2 / 2) with num_multicast_messages
    by (symmetry; apply Z.div_mul; lia).
  done.
Qed.

(** C7. In the firmware build (the dispatch-map dump tool is off), for a
    launch record with a nonzero worker count and fewer than [2^31] multicast
    groups: whenever [launch_program] returns, what it has done is, in this
    order, the store of zero to the completion counter, one multicast of the
    launch descriptor per group to the mailbox address of the group with the
    group's receiver count, the write barrier, and reads of the counter of
    which the last one, and no earlier one, saw the worker count.  It does
    return once a read sees the worker count, and it never returns if none
    does.  The descriptor has the three enable flags set and the "go" run
    value. *)
Theorem launch_program_waits_for_workers (num_workers num_multicast_messages : Z)
    (command : Z → Z) (command_ptr : Z) (observed : nat → Z) :
  TT_METAL_DISPATCH_MAP_DUMP = false →
  num_workers ≠ 0 →
  0 ≤ num_multicast_messages < 2 ^ 31 →
  (∀ fuel evs,
     launch_program fuel num_workers num_multicast_messages command command_ptr
                    observed = Some evs →
     ∃ k,
       evs = store_word DISPATCH_MESSAGE_ADDR 0
             :: (launch_multicast command command_ptr
                   <$> seqZ 0 num_multicast_messages)
             ++ noc_async_write_barrier
             :: DEBUG_STATUS "Q" "W"
             :: counter_reads observed k ++ [DEBUG_STATUS "Q" "D"] ∧
       observed k = num_workers ∧
       ∀ j, (j < k)%nat → observed j ≠ num_workers) ∧
  (∀ k, observed k = num_workers →
        (∀ j, (j < k)%nat → observed j ≠ num_workers) →
        ∀ fuel, (k < fuel)%nat →
          is_Some (launch_program fuel num_workers num_multicast_messages
                                  command command_ptr observed)) ∧
  ((∀ j, observed j ≠ num_workers) →
   ∀ fuel, launch_program fuel num_workers num_multicast_messages
                          command command_ptr observed = None) ∧
  (enable_brisc dispatch_launch_msg = true ∧
   enable_ncrisc dispatch_launch_msg = true ∧
   enable_triscs dispatch_launch_msg = true ∧
   run dispatch_launch_msg = RUN_MSG_GO).
Proof.
  intros Hdump Hnw Hnm. unfold launch_program. rewrite Hdump.
  rewrite (proj2 (Z.eqb_neq _ _) Hnw).
  rewrite launch_multicasts_groups by done.
  split; [|split; [|split; [|done]]].
  - intros fuel evs.
    destruct (busy_wait fuel observed 0 num_workers) as [waited|] eqn:Hw;
      simpl; [|done].
    intros [= <-].
    destruct (busy_wait_Some _ _ _ _ _ Hw) as (k & _ & -> & Hobs & Hbefore).
    exists k. split; [done|]. split; [done|]. intros j Hj. apply Hbefore. lia.
  - intros k Hobs Hbefore fuel Hfuel.
    rewrite (busy_wait_reaches fuel observed 0 k); [by eexists|done| |done].
    intros j Hj. apply Hbefore. lia.
  - intros Hnever fuel. rewrite busy_wait_never; [done|]. intros j _. apply Hnever.
Qed.

End LaunchClaims.

#[local] Arguments bank_after : simpl never.
#[local] Arguments pages_in : simpl never.
#[local] Arguments wrap32 : simpl never.

Section WriteBufferClaims.
Context `{HostDevConstants} `{NocAddressing}.

Lemma bank_after_succ n bank_id :
  bank_after (S n) bank_id = bank_after n (wrap32 (bank_id + 1)).
Proof. unfold bank_after. by rewrite Nat.iter_succ_r. Qed.

(** The page loop, while its counter cannot wrap, runs once per padded page
    of the burst. *)
Lemma send_pages_spec addr_gen read_size page_size padded_page_size n :
  0 < padded_page_size → read_size + padded_page_size ≤ 2 ^ 32 →
  ∀ i bank_id local_addr fuel,
    0 ≤ i < read_size + padded_page_size →
    Z.of_nat n = (read_size - i + padded_page_size - 1) / padded_page_size →
    (n < fuel)%nat →
    send_pages fuel addr_gen read_size page_size padded_page_size i bank_id local_addr
    = Some (bank_after n bank_id,
            page_writes addr_gen page_size padded_page_size n bank_id local_addr).
Proof.
  intros Hpps Hfit. induction n as [|n IH]; intros i bank_id local_addr fuel Hi Hn Hfuel;
    (destruct fuel as [|fuel]; [lia|]); simpl.
  - assert (read_size ≤ i) as Hle.
    { symmetry in Hn. apply Z.div_small_iff in Hn; lia. }
    by rewrite (proj2 (Z.ltb_ge _ _) Hle).
  - assert (i < read_size) as Hlt.
    { destruct (decide (i < read_size)) as [|Hge]; [done|].
      assert ((read_size - i + padded_page_size - 1) / padded_page_size = 0)
        by (apply Z.div_small; lia). lia. }
    rewrite (proj2 (Z.ltb_lt _ _) Hlt).
    assert (wrap32 (i + padded_page_size) = i + padded_page_size) as ->
      by (unfold wrap32; apply Z.mod_small; lia).
    rewrite (IH (i + padded_page_size)); [by rewrite bank_after_succ|lia| |lia].
    replace (read_size - (i + padded_page_size) + padded_page_size - 1)
      with (read_size - i + padded_page_size - 1 + (-1) * padded_page_size) by lia.
    rewrite Z.div_add by lia. lia.
Qed.

Lemma pages_in_spec padded_page_size read_size :
  0 < padded_page_size → 0 ≤ read_size →
  Z.of_nat (pages_in padded_page_size read_size)
  = (read_size - 0 + padded_page_size - 1) / padded_page_size.
Proof.
  intros Hpps Hr. unfold pages_in. rewrite Z.sub_0_r.
  apply Z2Nat.id. apply Z.div_pos; lia.
Qed.

Lemma pages_in_mono padded_page_size r1 r2 :
  0 < padded_page_size → 0 ≤ r1 ≤ r2 →
  (pages_in padded_page_size r1 ≤ pages_in padded_page_size r2)%nat.
Proof.
  intros Hpps Hr. unfold pages_in. apply Z2Nat.inj_le.
  - apply Z.div_pos; lia.
  - apply Z.div_pos; lia.
  - apply Z.div_le_mono; lia.
Qed.

(** The burst loop, with a positive burst size, runs once per burst. *)
Lemma write_buffer_loop_spec addr_gen src_noc burst_size page_size
    padded_page_size m :
  0 < burst_size → 0 < padded_page_size →
  burst_size + padded_page_size ≤ 2 ^ 32 →
  ∀ remaining src_addr bank_id fuel,
    0 ≤ remaining < 2 ^ 32 →
    Z.of_nat m = (remaining + burst_size - 1) / burst_size →
    (m + pages_in padded_page_size burst_size < fuel)%nat →
    ∃ evs,
      write_buffer_loop fuel addr_gen src_noc burst_size page_size
                        padded_page_size src_addr remaining bank_id = Some evs ∧
      burst_trace addr_gen src_noc burst_size page_size padded_page_size
                  remaining src_addr bank_id evs.
Proof.
  intros Hburst Hpps Hfit.
  induction m as [|m IH]; intros remaining src_addr bank_id fuel Hrem Hm Hfuel;
    (destruct fuel as [|fuel]; [lia|]); simpl.
  - assert (remaining = 0) as ->.
    { symmetry in Hm. apply Z.div_small_iff in Hm; lia. }
    simpl. eexists. split; [done|]. constructor.
  - assert (0 < remaining) as Hpos.
    { destruct (decide (0 < remaining)) as [|Hz]; [done|].
      assert ((remaining + burst_size - 1) / burst_size = 0)
        by (apply Z.div_small; lia). lia. }
    rewrite (proj2 (Z.ltb_lt _ _) Hpos).
    set (r := Z.min burst_size remaining).
    assert (0 < r ≤ burst_size ∧ r ≤ remaining) as (Hr0 & Hrb) by (unfold r; lia).
    rewrite (send_pages_spec addr_gen r page_size padded_page_size
               (pages_in padded_page_size r)); [|lia..| | ].
    2:{ apply pages_in_spec; lia. }
    2:{ pose proof (pages_in_mono padded_page_size r burst_size). lia. }
    simpl.
    assert (wrap32 (remaining - r) = remaining - r) as ->
      by (unfold wrap32; apply Z.mod_small; lia).
    destruct (IH (remaining - r) (wrap32 (src_addr + r))
                 (bank_after (pages_in padded_page_size r) bank_id) fuel)
      as (rest & -> & Hrest); [lia| |lia|].
    { destruct (decide (remaining ≤ burst_size)) as [Hle|Hgt].
      - assert (r = remaining) as -> by (unfold r; lia).
        assert ((remaining + burst_size - 1) / burst_size = 1) as Hone.
        { symmetry. apply (Z.div_unique _ _ 1 (remaining - 1)); lia. }
        replace (remaining - remaining + burst_size - 1) with (burst_size - 1)
          by lia.
        rewrite Z.div_small by lia. lia.
      - assert (r = burst_size) as -> by (unfold r; lia).
        replace (remaining - burst_size + burst_size - 1)
          with (remaining + burst_size - 1 + (-1) * burst_size) by lia.
        rewrite Z.div_add by lia. lia. }
    simpl. eexists. split; [done|]. by constructor.
Qed.

Lemma read_sizes_app evs1 evs2 :
  read_sizes (evs1 ++ evs2) = read_sizes evs1 ++ read_sizes evs2.
Proof. apply omap_app. Qed.

Lemma read_sizes_page_writes addr_gen page_size padded_page_size n bank_id local_addr :
  read_sizes (page_writes addr_gen page_size padded_page_size n bank_id local_addr) = [].
Proof.
  revert bank_id local_addr. induction n as [|n IH]; intros bank_id local_addr;
    [done|]. apply IH.
Qed.

Lemma read_sizes_burst src dst size pages rest :
  read_sizes pages = [] →
  read_sizes (noc_async_read src dst size :: noc_async_read_barrier
              :: pages ++ noc_async_write_barrier :: rest)
  = size :: read_sizes rest.
Proof.
  intros Hpages.
  change (read_sizes (noc_async_read src dst size :: noc_async_read_barrier
                      :: pages ++ noc_async_write_barrier :: rest))
    with (size :: read_sizes (pages ++ noc_async_write_barrier :: rest)).
  by rewrite read_sizes_app, Hpages.
Qed.

Lemma burst_trace_reads addr_gen src_noc burst_size page_size padded_page_size
    remaining src_addr bank_id evs :
  0 < burst_size →
  burst_trace addr_gen src_noc burst_size page_size padded_page_size
              remaining src_addr bank_id evs →
  foldr Z.add 0 (read_sizes evs) = remaining ∧
  Forall (λ size, 0 < size ≤ burst_size) (read_sizes evs).
Proof.
  intros Hburst. induction 1 as [|remaining src_addr bank_id rest Hpos _ [IHsum IHall]].
  - done.
  - rewrite read_sizes_burst by apply read_sizes_page_writes. split.
    + cbn [foldr]. rewrite IHsum. lia.
    + constructor; [lia|done].
Qed.

(** C8, as amended.  For a buffer-write record whose burst size and padded
    page size are positive (and small enough for the page counter not to
    wrap), [write_buffer] returns.  Its trace is a sequence of bursts: each
    reads [min burst_size remaining] bytes into the staging region and then
    sends one transfer per padded page of the burst, until nothing remains.
    The sizes of the staging reads add up to the padded buffer size, and none
    exceeds the burst size. *)
Theorem write_buffer_streams_in_bursts (addr_gen : InterleavedAddrGen)
    (src_addr src_noc dst_addr padded_buf_size burst_size page_size
     padded_page_size : Z) :
  0 < burst_size → 0 < padded_page_size →
  burst_size + padded_page_size ≤ 2 ^ 32 →
  0 ≤ padded_buf_size < 2 ^ 32 →
  ∃ fuel evs,
    write_buffer fuel addr_gen src_addr src_noc dst_addr padded_buf_size
                 burst_size page_size padded_page_size
    = Some (mkAddrGen (DRAM addr_gen) dst_addr padded_page_size, evs) ∧
    burst_trace (mkAddrGen (DRAM addr_gen) dst_addr padded_page_size)
                src_noc burst_size page_size padded_page_size
                padded_buf_size src_addr 0 evs ∧
    foldr Z.add 0 (read_sizes evs) = padded_buf_size ∧
    Forall (λ size, 0 < size ≤ burst_size) (read_sizes evs).
Proof.
  intros Hburst Hpps Hfit Hpadded.
  set (m := Z.to_nat ((padded_buf_size + burst_size - 1) / burst_size)).
  destruct (write_buffer_loop_spec
              (mkAddrGen (DRAM addr_gen) dst_addr padded_page_size)
              src_noc burst_size page_size padded_page_size m Hburst Hpps Hfit
              padded_buf_size src_addr 0
              (S (m + pages_in padded_page_size burst_size)))
    as (evs & Hrun & Htrace); [done| |lia|].
  { unfold m. apply Z2Nat.id. apply Z.div_pos; lia. }
  exists (S (m + pages_in padded_page_size burst_size)), evs.
  split; [|split; [done|by eapply burst_trace_reads]].
  unfold write_buffer. by rewrite Hrun.
Qed.

(** [write_buffers] decodes a record of eight words and calls [write_buffer]
    with the generator its bank kind selects, 0 for the interleaved DRAM
    banks and 1 for L1. *)
Lemma write_buffers_one_record fuel command command_ptr dram_addr_gen l1_addr_gen :
  command (command_ptr + 7) = 0 ∨ command (command_ptr + 7) = 1 →
  write_buffers fuel 1 command command_ptr dram_addr_gen l1_addr_gen =
    '(g, evs) ←
       write_buffer fuel
         (if command (command_ptr + 7) =? 0 then dram_addr_gen else l1_addr_gen)
         (command command_ptr) (command (command_ptr + 1))
         (command (command_ptr + 2)) (command (command_ptr + 3))
         (command (command_ptr + 4)) (command (command_ptr + 5))
         (command (command_ptr + 6));
    Some (command_ptr + 8,
          (if command (command_ptr + 7) =? 0 then g else dram_addr_gen),
          (if command (command_ptr + 7) =? 0 then l1_addr_gen else g),
          evs ++ []).
Proof.
  intros [Hk|Hk]; unfold write_buffers; simpl; rewrite Hk; simpl;
    by destruct (write_buffer _ _ _ _ _ _ _ _ _) as [[g evs]|].
Qed.

(** A record of any other bank kind transfers nothing. *)
Lemma write_buffers_other_kind fuel command command_ptr dram_addr_gen l1_addr_gen :
  command (command_ptr + 7) ≠ 0 → command (command_ptr + 7) ≠ 1 →
  write_buffers fuel 1 command command_ptr dram_addr_gen l1_addr_gen
  = Some (command_ptr + 8, dram_addr_gen, l1_addr_gen, []).
Proof.
  intros Hk0 Hk1. unfold write_buffers. simpl.
  by rewrite (proj2 (Z.eqb_neq _ _) Hk0), (proj2 (Z.eqb_neq _ _) Hk1).
Qed.

End WriteBufferClaims.

Lemma write_buffer_loop_zero_burst fuel addr_gen src_addr bank_id :
  @write_buffer_loop example_constants example_noc fuel addr_gen 0 0 1 1
                     src_addr 1 bank_id = None.
Proof.
  revert src_addr bank_id. induction fuel as [|fuel IH]; intros src_addr bank_id;
    [done|].
  cbn [write_buffer_loop]. change (0 <? 1) with true. cbn iota.
  destruct (send_pages fuel addr_gen (Z.min 0 1) 1 1 0 bank_id
                       DEVICE_COMMAND_DATA_ADDR) as [[b evs]|]; [|done].
  change (wrap32 (1 - Z.min 0 1)) with 1. simpl. by rewrite IH.
Qed.

(** C8, the claim as stated fails: a buffer-write record with one byte to
    move and a burst size of zero.  Every iteration reads zero bytes and
    nothing is consumed, so [write_buffer] never returns. *)
Lemma write_buffer_zero_burst_never_returns :
  ¬ ∃ fuel r,
      @write_buffer example_constants example_noc fuel (mkAddrGen true 0 0)
                    0 0 0 1 0 1 1 = Some r.
Proof.
  intros (fuel & r & Hr). unfold write_buffer in Hr.
  by rewrite write_buffer_loop_zero_burst in Hr.
Qed.


(** ** The properties on concrete programs *)

Lemma one_buffer_program_reachable :
  @reachable example_constants example_toolchain one_buffer_program.
Proof.
  eapply (reach_add_circular_buffer (new_Program 0)
            [mkCoreRange (0%nat, 0%nat) (0%nat, 1%nat)] (example_config 100 0 None) 1000).
  - apply reach_new.
  - apply (bool_decide_unpack _). by vm_compute.
  - split; [|done]. unfold is_u32. simpl. lia.
  - by vm_compute.
Qed.

Lemma two_buffer_program_reachable :
  @reachable example_constants example_toolchain two_buffer_program.
Proof.
  eapply (reach_add_circular_buffer one_buffer_program
            [mkCoreRange (0%nat, 1%nat) (1%nat, 1%nat)] (example_config 50 1 None) 2000).
  - apply one_buffer_program_reachable.
  - apply (bool_decide_unpack _). by vm_compute.
  - split; [|done]. unfold is_u32. simpl. lia.
  - by vm_compute.
Qed.

Lemma two_buffer_program_allocated_reachable :
  @reachable example_constants example_toolchain two_buffer_program_allocated.
Proof.
  eapply reach_allocate_circular_buffers;
    [apply two_buffer_program_reachable|by vm_compute].
Qed.

(** The scenario of the specification: the first buffer resolves to the
    reserved base; the second, which shares core (0, 1) with it, to the base
    plus the size of the first. *)
Example two_buffer_program_addresses :
  address <$> circular_buffers_ two_buffer_program_allocated
  = [Some (@L1_UNRESERVED_BASE example_constants);
     Some (@L1_UNRESERVED_BASE example_constants + 100)].
Proof. by vm_compute. Qed.

(** C1, on an example: the second buffer of [two_buffer_program]. *)
Lemma allocate_circular_buffers_resolves_to_max_witness :
  match foldlM allocate_step
          [mkCB 1000 [mkCoreRange (0%nat, 0%nat) (0%nat, 1%nat)]
                (example_config 100 0 None) None]
          (per_core_cb_allocator_ two_buffer_program, []) with
  | Err e => allocate_circular_buffers two_buffer_program = Err e
  | Ok (allocs, _) =>
      ∃ M,
        is_max_candidate allocs
          (cores_of (core_ranges
             (mkCB 2000 [mkCoreRange (0%nat, 1%nat) (1%nat, 1%nat)]
                   (example_config 50 1 None) None))) M ∧
        match requested_address
                (config (mkCB 2000 [mkCoreRange (0%nat, 1%nat) (1%nat, 1%nat)]
                              (example_config 50 1 None) None)) with
        | Some requested =>
            if requested <? M
            then allocate_circular_buffers two_buffer_program = Err Fatal
            else resolved_at allocs
                   (mkCB 2000 [mkCoreRange (0%nat, 1%nat) (1%nat, 1%nat)]
                         (example_config 50 1 None) None) requested ∧
                 placed_at two_buffer_program
                   (length [mkCB 1000 [mkCoreRange (0%nat, 0%nat) (0%nat, 1%nat)]
                                 (example_config 100 0 None) None])
                   (mkCB 2000 [mkCoreRange (0%nat, 1%nat) (1%nat, 1%nat)]
                         (example_config 50 1 None) None) requested
        | None =>
            resolved_at allocs
              (mkCB 2000 [mkCoreRange (0%nat, 1%nat) (1%nat, 1%nat)]
                    (example_config 50 1 None) None) M ∧
            placed_at two_buffer_program
              (length [mkCB 1000 [mkCoreRange (0%nat, 0%nat) (0%nat, 1%nat)]
                            (example_config 100 0 None) None])
              (mkCB 2000 [mkCoreRange (0%nat, 1%nat) (1%nat, 1%nat)]
                    (example_config 50 1 None) None) M
        end
  end.
Proof.
  apply (@allocate_circular_buffers_resolves_to_max
           example_constants example_toolchain two_buffer_program
           [mkCB 1000 [mkCoreRange (0%nat, 0%nat) (0%nat, 1%nat)]
                 (example_config 100 0 None) None]
           (mkCB 2000 [mkCoreRange (0%nat, 1%nat) (1%nat, 1%nat)]
                 (example_config 50 1 None) None) []).
  - apply two_buffer_program_reachable.
  - reflexivity.
  - reflexivity.
  - discriminate.
Defined.

(** C1, the claim as stated fails: [no_core_buffer_program] is reachable
    and holds one circular buffer, whose core range set covers no core.  No
    core yields a candidate address, so that there is no maximum, and the
    allocation ends on the value of an empty optional: the buffer gets no
    address. *)
Lemma allocate_circular_buffers_fails_without_cores :
  @reachable example_constants example_toolchain no_core_buffer_program ∧
  circular_buffer_allocation_needed_ no_core_buffer_program = true ∧
  circular_buffers_ no_core_buffer_program
  = [mkCB 1000 [] (example_config 100 0 None) None] ∧
  allocate_circular_buffers no_core_buffer_program
  = Err BadOptionalAccess ∧
  ¬ ∃ M, is_max_candidate (per_core_cb_allocator_ no_core_buffer_program)
           (cores_of (core_ranges (mkCB 1000 [] (example_config 100 0 None) None)))
           M.
Proof.
  split; [|split; [done|split; [done|split; [done|]]]].
  - eapply (reach_add_circular_buffer (new_Program 0) []
              (example_config 100 0 None) 1000).
    + apply reach_new.
    + apply NoDup_nil_2.
    + split; [|done]. unfold is_u32. simpl. lia.
    + by vm_compute.
  - intros (M & (c & a & Hc & _) & _). simpl in Hc. by apply elem_of_nil in Hc.
Qed.

(** C2, on an example. *)
Lemma allocate_circular_buffers_no_overlap_witness :
  (∀ i j cb1 cb2 core,
     i ≠ j →
     circular_buffers_ two_buffer_program_allocated !! i = Some cb1 →
     circular_buffers_ two_buffer_program_allocated !! j = Some cb2 →
     is_on_logical_core cb1 core = true →
     is_on_logical_core cb2 core = true →
     ∃ a1 a2, address cb1 = Some a1 ∧ address cb2 = Some a2 ∧
              byte_ranges_disjoint a1 (size_of cb1) a2 (size_of cb2)) ∧
  (∀ core a,
     per_core_cb_allocator_ two_buffer_program_allocated !! core = Some a →
     regions_in_address_order (l1_regions a) ∧
     regions_disjoint (l1_regions a) ∧
     ∃ last_region, last (l1_regions a) = Some last_region ∧
                    get_address_candidate a = Ok last_region.2).
Proof.
  apply (@allocate_circular_buffers_no_overlap
           example_constants example_toolchain two_buffer_program).
  - apply two_buffer_program_reachable.
  - unfold is_u32. simpl. lia.
  - by vm_compute.
  - by vm_compute.
Defined.

(** C9, on an example. *)
Lemma invalidate_then_allocate_is_identity_witness :
  circular_buffer_allocation_needed_
    (@invalidate_circular_buffer_allocation example_constants
       two_buffer_program_allocated) = true ∧
  @allocators_reset example_constants
    (per_core_cb_allocator_
       (@invalidate_circular_buffer_allocation example_constants
          two_buffer_program_allocated)) ∧
  allocate_circular_buffers
    (@invalidate_circular_buffer_allocation example_constants
       two_buffer_program_allocated)
  = Ok two_buffer_program_allocated.
Proof.
  apply (@invalidate_then_allocate_is_identity example_constants example_toolchain).
  - apply two_buffer_program_allocated_reachable.
  - reflexivity.
Defined.

(** C7, on the scenario of the specification: two groups, of 3 and of 5
    receivers, and 8 expected workers. *)
Lemma launch_program_waits_for_workers_witness :
  (∀ fuel evs,
     @launch_program example_constants fuel 8 2 example_launch_command 0
                     example_counter = Some evs →
     ∃ k,
       evs = store_word (@DISPATCH_MESSAGE_ADDR example_constants) 0
             :: (@launch_multicast example_constants example_launch_command 0
                   <$> seqZ 0 2)
             ++ noc_async_write_barrier
             :: DEBUG_STATUS "Q" "W"
             :: @counter_reads example_constants example_counter k
                ++ [DEBUG_STATUS "Q" "D"] ∧
       example_counter k = 8 ∧
       ∀ j, (j < k)%nat → example_counter j ≠ 8) ∧
  (∀ k, example_counter k = 8 →
        (∀ j, (j < k)%nat → example_counter j ≠ 8) →
        ∀ fuel, (k < fuel)%nat →
          is_Some (@launch_program example_constants fuel 8 2
                                   example_launch_command 0 example_counter)) ∧
  ((∀ j, example_counter j ≠ 8) →
   ∀ fuel, @launch_program example_constants fuel 8 2 example_launch_command 0
                           example_counter = None) ∧
  (enable_brisc (@dispatch_launch_msg example_constants) = true ∧
   enable_ncrisc (@dispatch_launch_msg example_constants) = true ∧
   enable_triscs (@dispatch_launch_msg example_constants) = true ∧
   run (@dispatch_launch_msg example_constants) = @RUN_MSG_GO example_constants).
Proof.
  apply (@launch_program_waits_for_workers example_constants 8 2
           example_launch_command 0 example_counter).
  - reflexivity.
  - discriminate.
  - lia.
Defined.

(** The same scenario, run: the dispatcher returns at the ninth read of the
    counter, the first one to see 8, after multicasts to 3 and to 5
    receivers. *)
Example launch_program_two_groups :
  @launch_program example_constants 9 8 2 example_launch_command 0 example_counter
  = Some (store_word 110720 0
          :: noc_async_write_multicast 110736 (Z.lor (Z.shiftl 257 32) 16) 16 3
          :: noc_async_write_multicast 110736 (Z.lor (Z.shiftl 514 32) 16) 16 5
          :: noc_async_write_barrier
          :: DEBUG_STATUS "Q" "W"
          :: ((λ v, load_word 110720 v) <$> [0; 1; 2; 3; 4; 5; 6; 7; 8])
          ++ [DEBUG_STATUS "Q" "D"]) ∧
  @launch_program example_constants 8 8 2 example_launch_command 0 example_counter
  = None.
Proof. split; reflexivity. Qed.

(** C8 as amended, on an example: 100 bytes in bursts of 64, pages of 32. *)
Lemma write_buffer_streams_in_bursts_witness :
  ∃ fuel evs,
    @write_buffer example_constants example_noc fuel (mkAddrGen true 0 0)
                  4096 1 8192 100 64 32 32
    = Some (mkAddrGen (DRAM (mkAddrGen true 0 0)) 8192 32, evs) ∧
    @burst_trace example_constants example_noc
                 (mkAddrGen (DRAM (mkAddrGen true 0 0)) 8192 32)
                 1 64 32 32 100 4096 0 evs ∧
    foldr Z.add 0 (read_sizes evs) = 100 ∧
    Forall (λ size, 0 < size ≤ 64) (read_sizes evs).
Proof.
  apply (@write_buffer_streams_in_bursts example_constants example_noc
           (mkAddrGen true 0 0) 4096 1 8192 100 64 32 32); lia.
Defined.

(** The same transfer, run: a burst of 64 bytes (two pages), then one of 36
    bytes (two pages, the second one partial). *)
Example write_buffer_two_bursts :
  read_sizes
    (default []
       (snd <$> @write_buffer example_constants example_noc 10 (mkAddrGen true 0 0)
                              4096 1 8192 100 64 32 32))
  = [64; 36] ∧
  length
    (default []
       (snd <$> @write_buffer example_constants example_noc 10 (mkAddrGen true 0 0)
                              4096 1 8192 100 64 32 32))
  = 10%nat.
Proof. split; reflexivity. Qed.


(* ===================================================================== *)
(** * Part III. Further properties of the code                            *)
(* ===================================================================== *)

(** ** Kernel registration: [kernel_ids_] and [kernel_by_id_] *)

Section KernelIds.
Context `{HostDevConstants} `{Toolchain}.

Lemma get_kernel_found p id k :
  map_find id (kernel_by_id_ p) = Some k → get_kernel p id = Ok k.
Proof. intros Hk. unfold get_kernel. rewrite Hk. by rewrite bool_decide_eq_true_2. Qed.

Lemma get_kernel_missing p id :
  map_find id (kernel_by_id_ p) = None → get_kernel p id = Err Fatal.
Proof.
  intros Hk. unfold get_kernel. rewrite Hk.
  rewrite bool_decide_eq_false_2; [done|]. by intros [? ?].
Qed.

Lemma add_kernel_ids_consistent p kernel :
  kernel_ids_consistent p → fresh_kernel_id p (kernel_id kernel) →
  kernel_ids_consistent (add_kernel p kernel).
Proof.
  intros (Hnd & Hiff & Hid) Hfresh. unfold fresh_kernel_id in Hfresh.
  split; [|split]; simpl.
  - apply NoDup_app. split; [done|]. split; [|apply NoDup_singleton].
    intros id Hin ->%list_elem_of_singleton.
    apply Hiff in Hin as [k Hk]. congruence.
  - intros id. rewrite map_find_assign, elem_of_app, list_elem_of_singleton, Hiff.
    destruct (decide (id = kernel_id kernel)) as [-> | Hne]; [|naive_solver].
    split; [by eexists|by right].
  - intros id k. rewrite map_find_assign.
    destruct (decide (id = kernel_id kernel)) as [-> | Hne]; [|by apply Hid].
    by intros [= <-].
Qed.

Lemma add_kernel_fresh p kernel id :
  fresh_kernel_id p id → id ≠ kernel_id kernel →
  fresh_kernel_id (add_kernel p kernel) id.
Proof.
  unfold fresh_kernel_id. simpl. intros Hf Hne. rewrite map_find_assign.
  by destruct (decide (id = kernel_id kernel)).
Qed.

Lemma add_blank_kernels_ids_consistent p ids p' :
  kernel_ids_consistent p → fresh_blank_ids p ids →
  add_blank_kernels p ids = Ok p' → kernel_ids_consistent p'.
Proof.
  intros Hcons (Hnd & Hf1 & Hf2 & Hf3).
  apply NoDup_cons in Hnd as [Hn1 Hnd]. apply NoDup_cons in Hnd as [Hn2 _].
  rewrite !elem_of_cons, elem_of_nil in Hn1.
  rewrite elem_of_cons, elem_of_nil in Hn2.
  unfold add_blank_kernels. intros ([p0 groups] & Hg & Hp)%bind_Ok.
  apply core_to_kernel_group_program in Hg as ->. injection Hp as <-.
  assert (∀ q id, fresh_kernel_id q id ↔
                  fresh_kernel_id (with_core_to_kernel_group q groups) id) as Hsame
    by done.
  assert (kernel_ids_consistent (with_core_to_kernel_group p groups)) as Hc0 by done.
  unfold CreateKernel.
  destruct (decide (ranges_without riscv0_id groups = []));
    destruct (decide (ranges_without riscv1_id groups = []));
    destruct (decide (ranges_without compute_id groups = []));
    repeat first
      [ done
      | apply add_kernel_ids_consistent
      | apply add_kernel_fresh
      | simpl; naive_solver ].
Qed.

Lemma assign_present_ids_consistent p id k k' :
  kernel_ids_consistent p →
  map_find id (kernel_by_id_ p) = Some k → kernel_id k' = kernel_id k →
  kernel_ids_consistent
    (with_kernels p (kernel_ids_ p) (map_assign id k' (kernel_by_id_ p))).
Proof.
  intros (Hnd & Hiff & Hid) Hk Hsame. split; [done|]. split; simpl.
  - intros id'. rewrite map_find_assign, Hiff.
    destruct (decide (id' = id)) as [-> | Hne]; [|done].
    rewrite Hk. split; by eexists.
  - intros id' k''. rewrite map_find_assign.
    destruct (decide (id' = id)) as [-> | Hne]; [|by apply Hid].
    intros [= <-]. rewrite Hsame. by apply Hid.
Qed.

Lemma compile_kernel_program device p w id p' w' :
  compile_kernel device (p, w) id = Ok (p', w') →
  ∃ k hash,
    map_find id (kernel_by_id_ p) = Some k ∧
    p' = with_kernels p (kernel_ids_ p)
           (map_assign id (set_binary_path (kernel_name k, hash) k)
                       (kernel_by_id_ p)).
Proof.
  unfold compile_kernel. intros (k & Hk%get_kernel_Ok & Hc)%bind_Ok.
  apply bind_Ok in Hc as ([cache_hit w1] & _ & [= <- _]). by eexists _, _.
Qed.

Lemma read_kernel_binaries_program device p w id p' w' :
  read_kernel_binaries device (p, w) id = Ok (p', w') →
  ∃ k,
    map_find id (kernel_by_id_ p) = Some k ∧
    p' = with_kernels p (kernel_ids_ p)
           (map_assign id (read_binaries k) (kernel_by_id_ p)).
Proof.
  unfold read_kernel_binaries.
  intros (k & Hk%get_kernel_Ok & [= <- _])%bind_Ok. by eexists.
Qed.

Lemma construct_core_range_set_for_worker_cores_program p p' :
  construct_core_range_set_for_worker_cores p = Ok p' →
  ∃ crs, p' = with_worker_crs p crs.
Proof.
  unfold construct_core_range_set_for_worker_cores.
  destruct (fold_left _ _ _) as [crs found].
  intros (_ & _ & [= <-])%bind_Ok. by eexists.
Qed.

(** The stages of a compile that runs. *)
Lemma compile_stages p device w ids p' w' :
  compile_needed_ p = true →
  compile p device w ids = Ok (p', w') →
  ∃ p1 p2 w2 p3 w3 crs,
    is_initialized device = true ∧
    add_blank_kernels p ids = Ok p1 ∧
    foldlM (compile_kernel device) (kernel_ids_ p1)
           (p1, tt_set_profiler_state_for_debug_print
                  (device_profiler_state (CompileBlankKernel device w))
                  (CompileBlankKernel device w)) = Ok (p2, w2) ∧
    foldlM (read_kernel_binaries device) (kernel_ids_ p2) (p2, w2) = Ok (p3, w3) ∧
    p' = with_compile_needed (with_worker_crs p3 crs) false ∧
    ∃ reports,
      work_log w' = work_log w3 ++ reports ∧
      Forall (λ x, match x with
                   | flushed_program_entry _ _
                   | flushed_program_memory_usage _ _ => True
                   | _ => False
                   end) reports ∧
      hash_lookup w' = hash_lookup w3 ∧ blank_compiled w' = blank_compiled w3.
Proof.
  intros Hflag. unfold compile. rewrite Hflag. simpl.
  intros (u & Hinit & Hrun)%bind_Ok. apply bind_Ok in Hrun as (_ & _ & Hrun).
  apply bind_Ok in Hrun as (p1 & Hblank & Hrun).
  apply bind_Ok in Hrun as ([p2 w2] & Hcomp & Hrun).
  apply bind_Ok in Hrun as ([p3 w3] & Hread & Hrun).
  apply bind_Ok in Hrun as (p4 & Hcrs & [= <- <-]).
  apply construct_core_range_set_for_worker_cores_program in Hcrs as [crs ->].
  exists p1, p2, w2, p3, w3, crs.
  split; [by destruct (is_initialized device)|].
  do 4 (split; [done|]).
  destruct (compilation_reporter_enabled w3) eqn:Hrep;
    destruct (memory_reporter_enabled w3) eqn:Hmem; simpl; rewrite ?Hmem;
    unfold log_work; simpl.
  - eexists [_; _]. split; [by rewrite <- app_assoc|].
    split; [|done]. by repeat constructor.
  - eexists [_]. split; [done|]. split; [|done]. by repeat constructor.
  - eexists [_]. split; [done|]. split; [|done]. by repeat constructor.
  - exists []. rewrite app_nil_r. by repeat split.
Qed.

Lemma kernel_loop_ids_consistent
    (f : Program * World → KernelID → result (Program * World)) ids p w p' w' :
  (∀ p w id p' w', kernel_ids_consistent p → f (p, w) id = Ok (p', w') →
                   kernel_ids_consistent p' ∧ kernel_ids_ p' = kernel_ids_ p) →
  kernel_ids_consistent p →
  foldlM f ids (p, w) = Ok (p', w') →
  kernel_ids_consistent p' ∧ kernel_ids_ p' = kernel_ids_ p.
Proof.
  intros Hf. revert p w. induction ids as [|id ids IH]; intros p w Hc Hl;
    simpl in Hl.
  - by injection Hl as <- <-.
  - apply bind_Ok in Hl as ([p1 w1] & Hstep & Hl).
    destruct (Hf _ _ _ _ _ Hc Hstep) as [Hc1 Hids1].
    destruct (IH _ _ Hc1 Hl) as [Hc' Hids']. split; [done|congruence].
Qed.

Lemma compile_kernel_ids_consistent device p w id p' w' :
  kernel_ids_consistent p → compile_kernel device (p, w) id = Ok (p', w') →
  kernel_ids_consistent p' ∧ kernel_ids_ p' = kernel_ids_ p.
Proof.
  intros Hc (k & hash & Hk & ->)%compile_kernel_program. split; [|done].
  by eapply assign_present_ids_consistent.
Qed.

Lemma read_kernel_binaries_ids_consistent device p w id p' w' :
  kernel_ids_consistent p → read_kernel_binaries device (p, w) id = Ok (p', w') →
  kernel_ids_consistent p' ∧ kernel_ids_ p' = kernel_ids_ p.
Proof.
  intros Hc (k & Hk & ->)%read_kernel_binaries_program. split; [|done].
  by eapply assign_present_ids_consistent.
Qed.

Lemma compile_needed_cases p device w ids p' w' :
  compile p device w ids = Ok (p', w') →
  (compile_needed_ p = false ∧ p' = p ∧ w' = w) ∨ compile_needed_ p = true.
Proof.
  unfold compile. destruct (compile_needed_ p); simpl; [by right|].
  intros [= <- <-]. by left.
Qed.

Lemma allocate_circular_buffers_kernels p p' :
  allocate_circular_buffers p = Ok p' →
  kernel_ids_ p' = kernel_ids_ p ∧ kernel_by_id_ p' = kernel_by_id_ p ∧
  compile_needed_ p' = compile_needed_ p.
Proof.
  unfold allocate_circular_buffers.
  destruct (circular_buffer_allocation_needed_ p); simpl;
    [|by intros [= <-]].
  by intros ([allocs cbs] & _ & [= <-])%bind_Ok.
Qed.

Lemma invalidate_circular_buffer_allocation_kernels p :
  kernel_ids_ (invalidate_circular_buffer_allocation p) = kernel_ids_ p ∧
  kernel_by_id_ (invalidate_circular_buffer_allocation p) = kernel_by_id_ p ∧
  compile_needed_ (invalidate_circular_buffer_allocation p) = compile_needed_ p.
Proof.
  unfold invalidate_circular_buffer_allocation.
  by destruct (circular_buffer_allocation_needed_ p).
Qed.

Lemma kernel_ids_consistent_frame p p' :
  kernel_ids_ p' = kernel_ids_ p → kernel_by_id_ p' = kernel_by_id_ p →
  kernel_ids_consistent p → kernel_ids_consistent p'.
Proof. unfold kernel_ids_consistent. by intros -> ->. Qed.

Lemma reachable_kernel_ids p : reachable p → kernel_ids_consistent p.
Proof.
  induction 1 as [n | p kernel _ IH Hfresh | p p' groups _ IH Hg
                 | p ids p' _ IH Hfresh Hblank
                 | p crs cfg id p' _ IH Hvalid Htyped Hadd
                 | p _ IH | p p' _ IH Halloc
                 | p device w ids p' w' _ IH Hfresh Hcompile].
  - split; [apply NoDup_nil_2|]. split; simpl.
    + intros id. rewrite elem_of_nil. split; [done|by intros [? ?]].
    + done.
  - by apply add_kernel_ids_consistent.
  - by apply core_to_kernel_group_program in Hg as ->.
  - by eapply add_blank_kernels_ids_consistent.
  - apply add_circular_buffer_program in Hadd as (allocs & _ & ->).
    destruct (invalidate_circular_buffer_allocation_kernels (invalidate_compile p))
      as (Hids & Hks & _).
    by eapply kernel_ids_consistent_frame; [| |exact IH].
  - destruct (invalidate_circular_buffer_allocation_kernels p) as (Hids & Hks & _).
    by eapply kernel_ids_consistent_frame; [| |exact IH].
  - apply allocate_circular_buffers_kernels in Halloc as (Hids & Hks & _).
    by eapply kernel_ids_consistent_frame; [| |exact IH].
  - destruct (compile_needed_cases _ _ _ _ _ _ Hcompile)
      as [(_ & -> & _)|Hflag]; [done|].
    destruct (compile_stages _ _ _ _ _ _ Hflag Hcompile)
      as (p1 & p2 & w2 & p3 & w3 & crs & _ & Hblank & Hcomp & Hread & -> & _).
    pose proof (add_blank_kernels_ids_consistent _ _ _ IH Hfresh Hblank) as Hc1.
    destruct (kernel_loop_ids_consistent _ _ _ _ _ _
                (compile_kernel_ids_consistent device) Hc1 Hcomp) as [Hc2 _].
    by destruct (kernel_loop_ids_consistent _ _ _ _ _ _
                   (read_kernel_binaries_ids_consistent device) Hc2 Hread) as [Hc3 _].
Qed.

(** [add_kernel] then [get_kernel]: the kernel registered last under an id
    is the one found, every other id finds what it found before, and an id
    that was never registered fails the assertion of [get_kernel]. *)
Theorem get_kernel_after_add_kernel (p : Program) (kernel : Kernel)
    (id : KernelID) :
  get_kernel (add_kernel p kernel) id =
    (if decide (id = kernel_id kernel) then Ok kernel else get_kernel p id) ∧
  (map_find id (kernel_by_id_ p) = None → get_kernel p id = Err Fatal) ∧
  get_kernel (new_Program 0) id = Err Fatal.
Proof.
  split; [|split; [apply get_kernel_missing|done]].
  unfold get_kernel at 1. simpl. rewrite map_find_assign.
  destruct (decide (id = kernel_id kernel)) as [-> | Hne].
  - by rewrite bool_decide_eq_true_2.
  - done.
Qed.

(** In every program the interface builds, [kernel_ids()] has no duplicate
    and lists exactly the keys of [kernel_by_id_]; [get_kernel] succeeds on
    each of them, with a kernel of that id. *)
Theorem reachable_kernel_ids_resolve (p : Program) :
  reachable p →
  NoDup (kernel_ids_ p) ∧
  (∀ id, id ∈ kernel_ids_ p ↔ is_Some (map_find id (kernel_by_id_ p))) ∧
  (∀ id, id ∈ kernel_ids_ p →
     ∃ kernel, get_kernel p id = Ok kernel ∧ kernel_id kernel = id).
Proof.
  intros (Hnd & Hiff & Hid)%reachable_kernel_ids. do 2 (split; [done|]).
  intros id [k Hk]%Hiff. exists k. split; [by apply get_kernel_found|by apply Hid].
Qed.

End KernelIds.

(** ** The cores and the operations of a program *)

Section ProgramQueries.
Context `{HostDevConstants} `{Toolchain}.

Lemma unique_cores_step (cores l l' : list CoreCoord) (s s' : gset CoreCoord) :
  fold_left
    (λ (st : list CoreCoord * gset CoreCoord) (core : CoreCoord),
       if decide (core ∈ st.2) then st else (st.1 ++ [core], {[core]} ∪ st.2))
    cores (l, s) = (l', s') →
  NoDup l → (∀ c, c ∈ s ↔ c ∈ l) →
  NoDup l' ∧ (∀ c, c ∈ s' ↔ c ∈ l') ∧ (∀ c, c ∈ l' ↔ c ∈ l ∨ c ∈ cores).
Proof.
  revert l s. induction cores as [|core cores IH]; intros l s Hf Hnd Hs;
    simpl in Hf.
  - injection Hf as <- <-. split; [done|]. split; [done|].
    intros c. rewrite elem_of_nil. naive_solver.
  - destruct (decide (core ∈ s)) as [Hin|Hnin]; simpl in Hf.
    + destruct (IH _ _ Hf Hnd Hs) as (Hnd' & Hs' & Hl'). do 2 (split; [done|]).
      intros c. rewrite Hl', elem_of_cons.
      split; [naive_solver|]. intros [?|[->|?]]; [by left| |by right].
      left. by apply Hs.
    + destruct (IH _ _ Hf) as (Hnd' & Hs' & Hl').
      * apply NoDup_app. split; [done|]. split; [|apply NoDup_singleton].
        intros c Hc ->%list_elem_of_singleton. apply Hnin. by apply Hs.
      * intros c. rewrite elem_of_union, elem_of_singleton, elem_of_app,
          list_elem_of_singleton, Hs. naive_solver.
      * do 2 (split; [done|]). intros c.
        rewrite Hl', elem_of_app, list_elem_of_singleton, elem_of_cons.
        naive_solver.
Qed.

Lemma unique_cores_loop (kernels : list (KernelID * Kernel))
    (l l' : list CoreCoord) (s s' : gset CoreCoord) :
  fold_left
    (λ (st : list CoreCoord * gset CoreCoord) (entry : KernelID * Kernel),
       fold_left
         (λ (st : list CoreCoord * gset CoreCoord) (core : CoreCoord),
            if decide (core ∈ st.2) then st else (st.1 ++ [core], {[core]} ∪ st.2))
         (logical_cores entry.2) st)
    kernels (l, s) = (l', s') →
  NoDup l → (∀ c, c ∈ s ↔ c ∈ l) →
  NoDup l' ∧ (∀ c, c ∈ l' ↔ c ∈ l ∨ covered kernels c).
Proof.
  revert l s. induction kernels as [|entry kernels IH]; intros l s Hf Hnd Hs;
    simpl in Hf.
  - injection Hf as <- <-. split; [done|]. intros c. split; [by left|].
    intros [?|(e & He & _)]; [done|]. by apply elem_of_nil in He.
  - destruct (fold_left _ (logical_cores entry.2) (l, s)) as [l1 s1] eqn:Hin.
    destruct (unique_cores_step _ _ _ _ _ Hin Hnd Hs) as (Hnd1 & Hs1 & Hl1).
    destruct (IH _ _ Hf Hnd1 Hs1) as (Hnd' & Hl'). split; [done|].
    intros c. rewrite Hl', Hl1. unfold covered. split.
    + intros [[?|?]|(e & He & Hc)]; [by left| |].
      * right. exists entry. split; [by left|done].
      * right. exists e. split; [by right|done].
    + intros [?|(e & [-> | He]%elem_of_cons & Hc)]; [by left; left|by left; right|].
      right. by exists e.
Qed.

Lemma Program_logical_cores_spec p :
  NoDup (Program_logical_cores p) ∧
  (∀ core, core ∈ Program_logical_cores p ↔ covered (kernel_by_id_ p) core).
Proof.
  unfold Program_logical_cores.
  destruct (fold_left _ (kernel_by_id_ p) ([], ∅)) as [l s] eqn:Hf.
  destruct (unique_cores_loop _ _ _ _ _ Hf) as (Hnd & Hl).
  - apply NoDup_nil_2.
  - intros c. by rewrite elem_of_empty, elem_of_nil.
  - split; [done|]. intros c. rewrite Hl, elem_of_nil. naive_solver.
Qed.

(** [Program::logical_cores] lists each core once, and lists exactly the
    cores some registered kernel runs on; on a program the interface builds,
    these are the cores for which [kernels_on_core] returns a group. *)
Theorem Program_logical_cores_are_the_covered_cores (p : Program) :
  NoDup (Program_logical_cores p) ∧
  (∀ core, core ∈ Program_logical_cores p ↔ covered (kernel_by_id_ p) core) ∧
  (reachable p →
   ∀ core p' group, kernels_on_core p core = Ok (p', group) →
     (is_Some group ↔ core ∈ Program_logical_cores p)).
Proof.
  destruct (Program_logical_cores_spec p) as [Hnd Hcov].
  do 2 (split; [done|]).
  intros (Hc & _ & _)%reachable_consistent core p' group. unfold kernels_on_core.
  rewrite core_to_kernel_group_spec by done. unfold build_kernel_groups.
  destruct (foldlM update_kernel (kernel_by_id_ p) ∅) as [groups|e] eqn:Hb;
    simpl; [|done].
  intros [= _ <-]. destruct (update_kernels_lookup _ _ _ core Hb) as [Hnone _].
  rewrite lookup_empty in Hnone. rewrite <- not_eq_None_Some, Hnone.
  split; [|rewrite Hcov; naive_solver]. intros Hn.
  destruct (decide (core ∈ Program_logical_cores p)) as [|Hnin]; [done|].
  rewrite Hcov in Hnin. naive_solver.
Qed.

Lemma elem_of_sorted_map_find {V : Type} (m : list (Z * V)) e :
  StronglySorted (λ e1 e2 : Z * V, e1.1 < e2.1) m →
  e ∈ m → map_find e.1 m = Some e.2.
Proof.
  induction 1 as [|[k v] m Hs IH Hlt]; intros Hin; [by apply elem_of_nil in Hin|].
  apply elem_of_cons in Hin as [-> | Hin]; simpl.
  - by rewrite Z.eqb_refl.
  - rewrite Forall_forall in Hlt. specialize (Hlt _ Hin). simpl in Hlt.
    destruct (e.1 =? k) eqn:Heq; [lia|]. by apply IH.
Qed.

Lemma cores_to_ops_inner p core ops :
  kernel_ids_consistent p →
  ∀ ids, (∀ id, id ∈ ids → id ∈ kernel_ids_ p) →
  ∃ ops',
    foldlM
      (λ ops kernel_id,
         kernel ← get_kernel p kernel_id;
         if decide (core ∈ logical_cores kernel)
         then Ok (ops ++ [kernel_name kernel]) else Ok ops)
      ids ops = Ok ops' ∧
    ∀ name, name ∈ ops' ↔
      name ∈ ops ∨
      ∃ id k, id ∈ ids ∧ map_find id (kernel_by_id_ p) = Some k ∧
              core ∈ logical_cores k ∧ kernel_name k = name.
Proof.
  intros (_ & Hiff & _) ids. revert ops.
  induction ids as [|id ids IH]; intros ops Hids; simpl.
  - exists ops. split; [done|]. intros name. split; [by left|].
    intros [?|(id & k & Hin & _)]; [done|]. by apply elem_of_nil in Hin.
  - destruct (proj1 (Hiff id)) as [k Hk]; [apply Hids; by left|].
    rewrite (get_kernel_found _ _ _ Hk). simpl.
    destruct (decide (core ∈ logical_cores k)) as [Hc|Hc]; simpl.
    + destruct (IH (ops ++ [kernel_name k])) as (ops' & -> & Hops').
      { intros id' Hin. apply Hids. by right. }
      exists ops'. split; [done|]. intros name.
      rewrite Hops', elem_of_app, list_elem_of_singleton. split.
      * intros [[? | ->] | (id' & k' & Hin & ?)]; [by left| |].
        -- right. exists id, k. split; [by left|done].
        -- right. exists id', k'. split; [by right|done].
      * intros [?|(id' & k' & [-> | Hin]%elem_of_cons & Hk' & Hc' & Hn)];
          [by left; left| |].
        -- left. right. congruence.
        -- right. by exists id', k'.
    + destruct (IH ops) as (ops' & -> & Hops').
      { intros id' Hin. apply Hids. by right. }
      exists ops'. split; [done|]. intros name. rewrite Hops'. split.
      * intros [?|(id' & k' & Hin & ?)]; [by left|].
        right. exists id', k'. split; [by right|done].
      * intros [?|(id' & k' & [-> | Hin]%elem_of_cons & Hk' & Hc' & Hn)];
          [by left| |].
        -- congruence.
        -- right. by exists id', k'.
Qed.

Lemma cores_to_ops_outer p :
  kernel_ids_consistent p →
  ∀ cores ops,
  ∃ ops',
    foldlM
      (λ ops core,
         foldlM
           (λ ops kernel_id,
              kernel ← get_kernel p kernel_id;
              if decide (core ∈ logical_cores kernel)
              then Ok (ops ++ [kernel_name kernel]) else Ok ops)
           (kernel_ids_ p) ops)
      cores ops = Ok ops' ∧
    ∀ name, name ∈ ops' ↔
      name ∈ ops ∨
      ∃ core id k, core ∈ cores ∧ id ∈ kernel_ids_ p ∧
                   map_find id (kernel_by_id_ p) = Some k ∧
                   core ∈ logical_cores k ∧ kernel_name k = name.
Proof.
  intros Hcons cores. induction cores as [|core cores IH]; intros ops; simpl.
  - exists ops. split; [done|]. intros name. split; [by left|].
    intros [?|(c & id & k & Hin & _)]; [done|]. by apply elem_of_nil in Hin.
  - destruct (cores_to_ops_inner p core ops Hcons (kernel_ids_ p))
      as (ops1 & -> & Hops1); [done|]. simpl.
    destruct (IH ops1) as (ops' & -> & Hops'). exists ops'. split; [done|].
    intros name. rewrite Hops', Hops1. split.
    + intros [[?|(id & k & ?)]|(c & id & k & Hin & ?)]; [by left| |].
      * right. exists core, id, k. split; [by left|done].
      * right. exists c, id, k. split; [by right|done].
    + intros [?|(c & id & k & [-> | Hin]%elem_of_cons & ?)]; [by left; left| |].
      * left. right. by exists id, k.
      * right. by exists c, id, k.
Qed.

(** On a program the interface builds, [cores_to_ops] never trips the
    assertion of [get_kernel], and the names it returns are the names of the
    registered kernels that run on at least one core. *)
Theorem cores_to_ops_names_the_placed_kernels (p : Program) :
  reachable p →
  ∃ ops,
    cores_to_ops p = Ok ops ∧
    ∀ name, name ∈ ops ↔
      ∃ entry, entry ∈ kernel_by_id_ p ∧ kernel_name entry.2 = name ∧
               logical_cores entry.2 ≠ [].
Proof.
  intros Hreach. pose proof (reachable_kernel_ids _ Hreach) as Hcons.
  apply reachable_consistent in Hreach as (_ & Hsorted & _).
  destruct (cores_to_ops_outer p Hcons (Program_logical_cores p) [])
    as (ops & Hops & Hnames).
  exists ops. split; [done|]. intros name. rewrite Hnames, elem_of_nil.
  destruct (Program_logical_cores_spec p) as [_ Hcov].
  destruct Hcons as (_ & Hiff & _). split.
  - intros [[]|(core & id & k & _ & _ & Hk & Hc & Hn)].
    exists (id, k). split; [by apply map_find_Some_elem_of|]. split; [done|].
    simpl. intros Hnil. rewrite Hnil in Hc. by apply elem_of_nil in Hc.
  - intros ([id k] & Hin & Hn & Hne). simpl in *. right.
    destruct (logical_cores k) as [|core cores] eqn:Hcores; [done|].
    pose proof (elem_of_sorted_map_find _ _ Hsorted Hin) as Hfind. simpl in Hfind.
    exists core, id, k. rewrite Hcores. split; [|split; [|split; [done|]]].
    + apply Hcov. exists (id, k). split; [done|]. simpl. rewrite Hcores. by left.
    + apply Hiff. by eexists.
    + split; [by left|done].
Qed.

End ProgramQueries.

(** ** The launch message of a kernel group *)

Section LaunchMessage.
Context `{HostDevConstants} `{Toolchain}.

Lemma KernelGroup_update_launch_msg g kernel g' :
  launch_msg_matches g ∧ run (launch_msg g) = RUN_MSG_GO →
  KernelGroup_update g kernel = Ok g' →
  launch_msg_matches g' ∧ run (launch_msg g') = RUN_MSG_GO.
Proof.
  intros [(Hb & Hn & Ht & Hid & Hfw & Hmode) Hrun].
  unfold KernelGroup_update, launch_msg_matches.
  destruct (processor kernel); simpl; [..|done]; intros [= <-]; simpl;
    by rewrite ?Hb, ?Hn, ?Ht.
Qed.

Lemma new_KernelGroup_launch_msg :
  launch_msg_matches new_KernelGroup ∧ run (launch_msg new_KernelGroup) = RUN_MSG_GO.
Proof. by repeat split. Qed.

Lemma update_kernel_launch_msg groups entry groups' :
  (∀ c g, groups !! c = Some g →
     launch_msg_matches g ∧ run (launch_msg g) = RUN_MSG_GO) →
  update_kernel groups entry = Ok groups' →
  ∀ c g, groups' !! c = Some g →
    launch_msg_matches g ∧ run (launch_msg g) = RUN_MSG_GO.
Proof.
  unfold update_kernel. intros Hinv Hl.
  eapply (foldlM_invariant
            (λ gs, ∀ c g, gs !! c = Some g →
               launch_msg_matches g ∧ run (launch_msg g) = RUN_MSG_GO));
    [|exact Hinv|exact Hl].
  intros gs core gs' _ Hgs. unfold update_core.
  intros (g1 & Hup & [= <-])%bind_Ok c g.
  destruct (decide (c = core)) as [-> | Hne].
  - rewrite lookup_insert_eq. intros [= <-].
    eapply KernelGroup_update_launch_msg; [|exact Hup].
    destruct (gs !! core) as [g0|] eqn:Hg0; simpl; [by eapply Hgs|].
    apply new_KernelGroup_launch_msg.
  - rewrite lookup_insert_ne by done. apply Hgs.
Qed.

(** In the groups [core_to_kernel_group] returns on a program the interface
    builds, the launch message of every group has the run state
    [RUN_MSG_GO] and enables every processor that has a kernel in the group.
    The flag of a processor without a kernel is never assigned: it has the
    value [launch_msg] is declared with, which the sources do not show. *)
Theorem core_to_kernel_group_enables_the_placed_kernels (p p' : Program)
    (groups : gmap CoreCoord KernelGroup) :
  reachable p →
  core_to_kernel_group p = Ok (p', groups) →
  ∀ core g, groups !! core = Some g →
    run (launch_msg g) = RUN_MSG_GO ∧
    (is_Some (riscv0_id g) → enable_brisc (launch_msg g) = true) ∧
    (is_Some (riscv1_id g) → enable_ncrisc (launch_msg g) = true) ∧
    (is_Some (compute_id g) → enable_triscs (launch_msg g) = true) ∧
    (riscv0_id g = None →
     enable_brisc (launch_msg g) = enable_brisc KernelGroup_launch_msg) ∧
    (riscv1_id g = None →
     enable_ncrisc (launch_msg g) = enable_ncrisc KernelGroup_launch_msg) ∧
    (compute_id g = None →
     enable_triscs (launch_msg g) = enable_triscs KernelGroup_launch_msg).
Proof.
  intros (Hc & _ & _)%reachable_consistent Hg.
  destruct (core_to_kernel_group_consistent _ _ _ Hc Hg) as (_ & _ & Hb).
  unfold build_kernel_groups in Hb. intros core g Hcore.
  enough (launch_msg_matches g ∧ run (launch_msg g) = RUN_MSG_GO)
    as [(Hb0 & Hn0 & Ht0 & _) Hrun].
  { split; [done|]. rewrite Hb0, Hn0, Ht0.
    repeat split; try (intros [? ->]; by rewrite bool_decide_true by done);
      intros ->; by rewrite bool_decide_false by (by intros [? ?]). }
  revert core g Hcore.
  eapply (foldlM_invariant
            (λ gs, ∀ c g, gs !! c = Some g →
               launch_msg_matches g ∧ run (launch_msg g) = RUN_MSG_GO));
    [|..|exact Hb].
  - intros gs entry gs' _ Hgs Hup. by eapply update_kernel_launch_msg.
  - intros c g. by rewrite lookup_empty.
Qed.

End LaunchMessage.


(** ** Buffer indices: the per-core bitsets *)

Section IndexBits.
Context `{HostDevConstants}.

Lemma add_index_Ok a k a' :
  add_index a k = Ok a' → 0 ≤ k →
  k < NUM_CIRCULAR_BUFFERS ∧ Z.testbit (indices a) k = false ∧
  Z.testbit (indices a') k = true.
Proof.
  unfold add_index. intros Hadd Hk.
  destruct (NUM_CIRCULAR_BUFFERS <? k); [done|].
  unfold int_shl1 in Hadd.
  assert (∀ bit, Z.testbit (to_unsigned_long bit) k = true →
     (if negb (Z.land (indices a) (to_unsigned_long bit) =? 0) then log_fatal
      else if k <? NUM_CIRCULAR_BUFFERS
           then Ok {| indices := Z.lor (indices a) (Z.shiftl 1 k);
                      l1_regions := l1_regions a |}
           else Err Undefined) = Ok a' →
     k < NUM_CIRCULAR_BUFFERS ∧ Z.testbit (indices a) k = false ∧
     Z.testbit (indices a') k = true) as Hcase.
  { intros bit Hbit Hres.
    destruct (Z.land (indices a) (to_unsigned_long bit) =? 0) eqn:Hland;
      simpl in Hres; [|done].
    destruct (k <? NUM_CIRCULAR_BUFFERS) eqn:Hlt; [|done].
    injection Hres as <-. simpl. split; [lia|]. split.
    - apply Z.eqb_eq in Hland.
      pose proof (Z.land_spec (indices a) (to_unsigned_long bit) k) as Hs.
      rewrite Hland, Z.bits_0, Hbit, andb_true_r in Hs. done.
    - rewrite Z.lor_spec, Z.shiftl_spec, Z.sub_diag by lia.
      by rewrite orb_true_r. }
  destruct (k <? 31) eqn:Hlt.
  - apply (Hcase (Z.shiftl 1 k)); [|exact Hadd]. unfold to_unsigned_long.
    rewrite Z.shiftl_1_l, Z.mod_small.
    + by apply Z.pow2_bits_true.
    + split; [lia|]. apply Z.pow_lt_mono_r; lia.
  - destruct (k =? 31) eqn:Heq; [|done].
    apply Z.eqb_eq in Heq as ->. by apply (Hcase (- 2 ^ 31)); [|exact Hadd].
Qed.

Lemma add_index_keeps_bits a k a' j :
  add_index a k = Ok a' → Z.testbit (indices a) j = true →
  Z.testbit (indices a') j = true.
Proof.
  unfold add_index. intros Hadd Hj.
  destruct (NUM_CIRCULAR_BUFFERS <? k); [done|].
  destruct (int_shl1 k) as [bit|]; [|done].
  destruct (negb _); [done|].
  destruct (k <? NUM_CIRCULAR_BUFFERS); [|done].
  injection Hadd as <-. simpl. rewrite Z.lor_spec, Hj. done.
Qed.

Lemma add_index_Err a k e :
  NUM_CIRCULAR_BUFFERS ≤ 32 → 0 ≤ k < NUM_CIRCULAR_BUFFERS →
  add_index a k = Err e → e = Fatal.
Proof.
  unfold add_index, int_shl1. intros Hnum Hk.
  destruct (NUM_CIRCULAR_BUFFERS <? k) eqn:Hgt; [lia|].
  assert ((k <? NUM_CIRCULAR_BUFFERS) = true) as Hlt by lia.
  destruct (k <? 31) eqn:Hlt31.
  - rewrite Hlt. destruct (negb _); [by intros [= <-]|done].
  - assert ((k =? 31) = true) as -> by lia. rewrite Hlt.
    destruct (negb _); [by intros [= <-]|done].
Qed.

Lemma add_indices_Ok idxs a a' :
  foldlM add_index idxs a = Ok a' →
  (∀ j, Z.testbit (indices a) j = true → Z.testbit (indices a') j = true) ∧
  (∀ k, k ∈ idxs → 0 ≤ k →
     k < NUM_CIRCULAR_BUFFERS ∧ Z.testbit (indices a) k = false ∧
     Z.testbit (indices a') k = true).
Proof.
  revert a. induction idxs as [|k0 idxs IH]; intros a Hl; simpl in Hl.
  - injection Hl as <-. split; [done|]. intros k Hk. by apply elem_of_nil in Hk.
  - apply bind_Ok in Hl as (a1 & Hadd & Hl). destruct (IH _ Hl) as [Hkeep Hset].
    split.
    + intros j Hj. apply Hkeep. by eapply add_index_keeps_bits.
    + intros k [->|Hin]%elem_of_cons Hk.
      * destruct (add_index_Ok _ _ _ Hadd Hk) as (Hlt & Hclear & Hbit).
        do 2 (split; [done|]). by apply Hkeep.
      * destruct (Hset k Hin Hk) as (Hlt & Hclear & Hbit).
        split; [done|]. split; [|done].
        destruct (Z.testbit (indices a) k) eqn:Hb; [|done].
        rewrite (add_index_keeps_bits _ _ _ _ Hadd Hb) in Hclear. done.
Qed.

Lemma add_indices_Err idxs a e :
  NUM_CIRCULAR_BUFFERS ≤ 32 →
  Forall (λ k, 0 ≤ k < NUM_CIRCULAR_BUFFERS) idxs →
  foldlM add_index idxs a = Err e → e = Fatal.
Proof.
  intros Hnum Hidxs. revert a.
  induction Hidxs as [|k idxs Hk _ IH]; intros a; simpl; [done|].
  intros [Hadd|(a1 & _ & Hl)]%bind_Err; [by eapply add_index_Err|by eapply IH].
Qed.

Lemma add_indices_on_core_Ok cb allocs core allocs' :
  add_indices_on_core cb allocs core = Ok allocs' →
  ∃ a',
    foldlM add_index (buffer_indices cb)
           (default default_allocator (allocs !! core)) = Ok a' ∧
    allocs' = <[core := a']> allocs.
Proof.
  unfold add_indices_on_core. intros (a' & Ha' & [= <-])%bind_Ok. by exists a'.
Qed.

Lemma add_indices_on_cores_bits cb cores allocs allocs' :
  foldlM (add_indices_on_core cb) cores allocs = Ok allocs' →
  (∀ c a j, allocs !! c = Some a → Z.testbit (indices a) j = true →
     ∃ a', allocs' !! c = Some a' ∧ Z.testbit (indices a') j = true) ∧
  (∀ c k, c ∈ cores → k ∈ buffer_indices cb → 0 ≤ k →
     k < NUM_CIRCULAR_BUFFERS ∧
     (∃ a', allocs' !! c = Some a' ∧ Z.testbit (indices a') k = true) ∧
     (∀ a, allocs !! c = Some a → Z.testbit (indices a) k = false)).
Proof.
  revert allocs. induction cores as [|c0 cores IH]; intros allocs Hl;
    simpl in Hl.
  - injection Hl as <-. split; [by eauto|].
    intros c k Hc. by apply elem_of_nil in Hc.
  - apply bind_Ok in Hl as (allocs1 & Hstep & Hl).
    apply add_indices_on_core_Ok in Hstep as (a1 & Ha1 & ->).
    destruct (add_indices_Ok _ _ _ Ha1) as [Hkeep1 Hset1].
    destruct (IH _ Hl) as [Hkeep Hset].
    assert (∀ c a j, allocs !! c = Some a → Z.testbit (indices a) j = true →
              ∃ a', allocs' !! c = Some a' ∧ Z.testbit (indices a') j = true)
      as Hmono.
    { intros c a j Ha Hj. destruct (decide (c = c0)) as [->|Hne].
      - apply (Hkeep c0 a1 j); [by rewrite lookup_insert_eq|].
        apply Hkeep1. by rewrite Ha.
      - apply (Hkeep c a j); [by rewrite lookup_insert_ne|done]. }
    split; [done|]. intros c k Hc Hk Hk0.
    destruct (decide (c = c0)) as [->|Hne].
    + destruct (Hset1 k Hk Hk0) as (Hlt & Hclear & Hbit). split; [done|]. split.
      * apply (Hkeep c0 a1 k); [by rewrite lookup_insert_eq|done].
      * intros a Ha. by rewrite Ha in Hclear.
    + apply elem_of_cons in Hc as [->|Hc]; [done|].
      destruct (Hset c k Hc Hk Hk0) as (Hlt & Hbit & Hclear).
      do 2 (split; [done|]). intros a Ha. apply Hclear.
      by rewrite lookup_insert_ne.
Qed.

Lemma add_indices_on_cores_Err cb cores allocs e :
  NUM_CIRCULAR_BUFFERS ≤ 32 →
  Forall (λ k, 0 ≤ k < NUM_CIRCULAR_BUFFERS) (buffer_indices cb) →
  foldlM (add_indices_on_core cb) cores allocs = Err e → e = Fatal.
Proof.
  intros Hnum Hidxs. revert allocs.
  induction cores as [|c0 cores IH]; intros allocs; simpl; [done|].
  intros [Hstep|(allocs1 & _ & Hl)]%bind_Err; [|by eapply IH].
  unfold add_indices_on_core in Hstep.
  apply bind_Err in Hstep as [Hadd|(a' & _ & ?)]; [|done].
  by eapply add_indices_Err.
Qed.

Lemma invalidated_indices p c :
  indices <$> per_core_cb_allocator_
                (invalidate_circular_buffer_allocation p) !! c
  = indices <$> per_core_cb_allocator_ p !! c.
Proof.
  unfold invalidate_circular_buffer_allocation.
  destruct (circular_buffer_allocation_needed_ p); [done|]. simpl.
  rewrite lookup_fmap. by destruct (per_core_cb_allocator_ p !! c).
Qed.

Lemma invalidated_circular_buffers p :
  circular_buffers_ (invalidate_circular_buffer_allocation p) = circular_buffers_ p.
Proof.
  unfold invalidate_circular_buffer_allocation.
  by destruct (circular_buffer_allocation_needed_ p).
Qed.

Lemma indices_frame cbs cbs' allocs allocs' :
  Forall2 same_buffer cbs cbs' →
  (∀ c, indices <$> allocs' !! c = indices <$> allocs !! c) →
  indices_exclusive cbs ∧ indices_marked cbs allocs →
  indices_exclusive cbs' ∧ indices_marked cbs' allocs'.
Proof.
  intros Hsame Hidx [Hex Hmk]. split.
  - intros i j cbi cbj c k Hij Hi Hj Hci Hcj Hki Hkj Hk.
    destruct (Forall2_lookup_r _ _ _ _ _ Hsame Hi) as (cbi0 & Hi0 & _ & Hri & Hfi).
    destruct (Forall2_lookup_r _ _ _ _ _ Hsame Hj) as (cbj0 & Hj0 & _ & Hrj & Hfj).
    apply (Hex i j cbi0 cbj0 c k); try done.
    + by rewrite Hri.
    + by rewrite Hrj.
    + unfold buffer_indices. by rewrite Hfi.
    + unfold buffer_indices. by rewrite Hfj.
  - intros cb' c k [i Hi]%list_elem_of_lookup Hc Hk Hk0.
    destruct (Forall2_lookup_r _ _ _ _ _ Hsame Hi) as (cb & Hcb & _ & Hr & Hf).
    destruct (Hmk cb c k) as (Hlt & a & Ha & Hbit); try done.
    + by eapply list_elem_of_lookup_2.
    + by rewrite Hr.
    + unfold buffer_indices. by rewrite Hf.
    + split; [done|]. specialize (Hidx c). rewrite Ha in Hidx.
      destruct (allocs' !! c) as [a'|]; [|done]. injection Hidx as Hidx.
      exists a'. by rewrite Hidx.
Qed.

Lemma Forall2_same_buffer_refl cbs : Forall2 same_buffer cbs cbs.
Proof. apply Forall2_same_length_lookup. split; [done|].
  intros i cb1 cb2 H1 H2. assert (cb1 = cb2) as -> by congruence. done. Qed.

Lemma add_circular_buffer_indices p crs cfg id p' id' :
  indices_exclusive (circular_buffers_ p) ∧
    indices_marked (circular_buffers_ p) (per_core_cb_allocator_ p) →
  add_circular_buffer p crs cfg id = Ok (p', id') →
  indices_exclusive (circular_buffers_ p') ∧
    indices_marked (circular_buffers_ p') (per_core_cb_allocator_ p') ∧
  (∀ cb c k, cb ∈ circular_buffers_ p → c ∈ cores_of (core_ranges cb) →
     c ∈ cores_of crs → k ∈ buffer_indices cb → k ∈ buffer_indices_ cfg →
     0 ≤ k → False).
Proof.
  intros [Hex Hmk] (allocs & Hl & ->)%add_circular_buffer_program. simpl.
  destruct (add_indices_on_cores_bits _ _ _ _ Hl) as [Hkeep Hset].
  assert (∀ cb c k, cb ∈ circular_buffers_ p → c ∈ cores_of (core_ranges cb) →
            k ∈ buffer_indices cb → 0 ≤ k →
            ∃ a, per_core_cb_allocator_
                   (invalidate_circular_buffer_allocation (invalidate_compile p))
                 !! c = Some a ∧ Z.testbit (indices a) k = true) as Hold.
  { intros cb c k Hcb Hc Hk Hk0.
    destruct (Hmk cb c k Hcb Hc Hk Hk0) as (_ & a & Ha & Hbit).
    pose proof (invalidated_indices (invalidate_compile p) c) as Hidx.
    simpl in Hidx. rewrite Ha in Hidx.
    destruct (per_core_cb_allocator_
                (invalidate_circular_buffer_allocation (invalidate_compile p))
              !! c) as [a0|]; [|done].
    injection Hidx as Hidx. exists a0. by rewrite Hidx. }
  assert (∀ cb c k, cb ∈ circular_buffers_ p → c ∈ cores_of (core_ranges cb) →
     c ∈ cores_of crs → k ∈ buffer_indices cb → k ∈ buffer_indices_ cfg →
     0 ≤ k → False) as Hclash.
  { intros cb c k Hcb Hc Hc' Hk Hk' Hk0.
    destruct (Hold cb c k Hcb Hc Hk Hk0) as (a & Ha & Hbit).
    destruct (Hset c k Hc' Hk' Hk0) as (_ & _ & Hclear).
    rewrite (Hclear a Ha) in Hbit. done. }
  split; [|split; [|done]].
  - intros i j cbi cbj c k Hij Hi Hj Hci Hcj Hki Hkj Hk0.
    apply lookup_snoc_Some in Hi as [[Hli Hi]|[Hli <-]];
      apply lookup_snoc_Some in Hj as [[Hlj Hj]|[Hlj <-]].
    + by apply (Hex i j cbi cbj c k).
    + apply (Hclash cbi c k); try done. by eapply list_elem_of_lookup_2.
    + apply (Hclash cbj c k); try done. by eapply list_elem_of_lookup_2.
    + lia.
  - intros cb c k [Hcb | ->%list_elem_of_singleton]%elem_of_app Hc Hk Hk0.
    + destruct (Hmk cb c k Hcb Hc Hk Hk0) as (Hlt & _). split; [done|].
      destruct (Hold cb c k Hcb Hc Hk Hk0) as (a & Ha & Hbit).
      by apply (Hkeep c a k).
    + destruct (Hset c k Hc Hk Hk0) as (Hlt & Hbit & _). done.
Qed.

End IndexBits.

Section IndexInvariant.
Context `{HostDevConstants} `{Toolchain}.

Lemma reachable_indices p :
  reachable p →
  indices_exclusive (circular_buffers_ p) ∧
  indices_marked (circular_buffers_ p) (per_core_cb_allocator_ p).
Proof.
  induction 1 as [n | p kernel _ IH Hfresh | p p' groups _ IH Hg
                 | p ids p' Hreach IH Hfresh Hblank
                 | p crs cfg id p' _ IH Hvalid Htyped Hadd
                 | p _ IH | p p' _ IH Halloc
                 | p device w ids p' w' Hreach IH Hfresh Hcompile].
  - split.
    + intros i j cbi cbj c k _ Hi. simpl in Hi. by rewrite lookup_nil in Hi.
    + intros cb c k Hcb. simpl in Hcb. by apply elem_of_nil in Hcb.
  - done.
  - by apply core_to_kernel_group_program in Hg as ->.
  - apply add_blank_kernels_frame in Hblank as (-> & -> & _). done.
  - destruct (add_circular_buffer_indices _ _ _ _ _ _ IH Hadd) as (? & ? & _).
    done.
  - eapply indices_frame; [| |exact IH].
    + rewrite invalidated_circular_buffers. apply Forall2_same_buffer_refl.
    + apply invalidated_indices.
  - unfold allocate_circular_buffers in Halloc.
    destruct (circular_buffer_allocation_needed_ p); simpl in Halloc;
      [|by injection Halloc as <-].
    apply bind_Ok in Halloc as ([allocs cbs] & Hloop & [= <-]). simpl.
    destruct (allocate_loop_keeps _ _ _ _ _ Hloop) as (cbs' & -> & Hsame & Hidx & _).
    simpl. by eapply indices_frame; [| |exact IH].
  - pose proof (reachable_consistent _ Hreach) as (Hc & Hs & _).
    destruct (compile_kept _ _ _ _ _ _ Hc Hs Hcompile)
      as [->|(p1 & Hblank & _ & _ & (-> & -> & _))]; [done|].
    apply add_blank_kernels_frame in Hblank as (-> & -> & _). done.
Qed.

(** In every program the interface builds, two different circular buffers
    placed on a common core never use the same buffer index, every buffer
    index in use is below [NUM_CIRCULAR_BUFFERS], and it is marked in the
    bitset of each core of its buffer. *)
Theorem circular_buffers_never_share_an_index (p : Program) :
  reachable p →
  (∀ i j cb1 cb2 core index,
     i ≠ j →
     circular_buffers_ p !! i = Some cb1 →
     circular_buffers_ p !! j = Some cb2 →
     is_on_logical_core cb1 core = true →
     is_on_logical_core cb2 core = true →
     index ∈ buffer_indices cb1 → index ∈ buffer_indices cb2 →
     0 ≤ index → False) ∧
  (∀ cb core index,
     cb ∈ circular_buffers_ p → is_on_logical_core cb core = true →
     index ∈ buffer_indices cb → 0 ≤ index →
     index < NUM_CIRCULAR_BUFFERS ∧
     ∃ a, per_core_cb_allocator_ p !! core = Some a ∧
          Z.testbit (indices a) index = true).
Proof.
  intros [Hex Hmk]%reachable_indices. split.
  - intros i j cb1 cb2 core index Hij Hi Hj Hc1%bool_decide_eq_true
      Hc2%bool_decide_eq_true. by apply (Hex i j cb1 cb2 core index).
  - intros cb core index Hcb Hc%bool_decide_eq_true. by apply Hmk.
Qed.

(** Registering a circular buffer with a buffer index that a registered
    buffer already uses on one of the same cores fails; with at most 32
    slots and every index of the new buffer a slot number, the failure is
    the fatal error of [add_index]. *)
Theorem add_circular_buffer_rejects_index_in_use (p : Program)
    (crs : CoreRangeSet) (cfg : CircularBufferConfig) (id : CircularBufferID)
    (cb : CircularBuffer) (core : CoreCoord) (index : Z) :
  reachable p →
  cb ∈ circular_buffers_ p →
  is_on_logical_core cb core = true → core ∈ cores_of crs →
  index ∈ buffer_indices cb → index ∈ buffer_indices_ cfg → 0 ≤ index →
  (∃ e, add_circular_buffer p crs cfg id = Err e) ∧
  (NUM_CIRCULAR_BUFFERS ≤ 32 →
   Forall (λ k, 0 ≤ k < NUM_CIRCULAR_BUFFERS) (buffer_indices_ cfg) →
   add_circular_buffer p crs cfg id = Err Fatal).
Proof.
  intros Hinv%reachable_indices Hcb Hc%bool_decide_eq_true Hc' Hk Hk' Hk0.
  destruct (add_circular_buffer p crs cfg id) as [[p' id']|e] eqn:Hadd.
  - destruct (add_circular_buffer_indices _ _ _ _ _ _ Hinv Hadd) as (_ & _ & Hclash).
    destruct (Hclash cb core index); done.
  - split; [by exists e|]. intros Hnum Hidxs. f_equal.
    unfold add_circular_buffer in Hadd.
    apply bind_Err in Hadd as [Hl|(allocs & _ & ?)]; [|done].
    by eapply (add_indices_on_cores_Err (mkCB id crs cfg None)).
Qed.

End IndexInvariant.


(** ** Allocation: what a buffer without cores does *)

Section EmptyCoreRangeSet.
Context `{HostDevConstants}.

Lemma foldlM_fails {S A : Type} (f : S → A → result S) (l : list A) (s : S) (x : A) :
  x ∈ l → (∀ s, ∃ e, f s x = Err e) → ∃ e, foldlM f l s = Err e.
Proof.
  intros Hin Hx. revert s. induction l as [|a l IH]; intros s;
    [by apply elem_of_nil in Hin|]. simpl.
  destruct (f s a) as [s1|e] eqn:Hf; simpl; [|by exists e].
  apply elem_of_cons in Hin as [->|Hin]; [|by apply IH].
  destruct (Hx s) as [e He]. congruence.
Qed.

Lemma allocate_circular_buffer_no_cores allocs cb :
  cores_of (core_ranges cb) = [] →
  allocate_circular_buffer allocs cb = Err BadOptionalAccess.
Proof.
  intros Hcores. unfold allocate_circular_buffer. rewrite Hcores. simpl.
  by destruct (requested_address (config cb)).
Qed.

(** A circular buffer whose core range set covers no core is accepted by
    [add_circular_buffer]; the loop body of [allocate_circular_buffers] then
    reads the value of an empty optional for it, so that the allocation of
    the program fails from then on. *)
Theorem circular_buffer_without_cores_breaks_allocation (p : Program)
    (crs : CoreRangeSet) (cfg : CircularBufferConfig) (id : CircularBufferID) :
  cores_of crs = [] →
  (∀ allocs address,
     allocate_circular_buffer allocs (mkCB id crs cfg address)
     = Err BadOptionalAccess) ∧
  ∃ p', add_circular_buffer p crs cfg id = Ok (p', id) ∧
        circular_buffers_ p' = circular_buffers_ p ++ [mkCB id crs cfg None] ∧
        ∃ e, allocate_circular_buffers p' = Err e.
Proof.
  intros Hcores. split.
  { intros allocs address. by apply allocate_circular_buffer_no_cores. }
  assert (∃ p', add_circular_buffer p crs cfg id = Ok (p', id)) as [p' Hadd].
  { unfold add_circular_buffer. rewrite Hcores. simpl. by eexists. }
  exists p'. split; [done|].
  apply add_circular_buffer_program in Hadd as (allocs & _ & ->).
  split; [done|].
  rewrite allocate_circular_buffers_loop
    by apply (invalidate_circular_buffer_allocation_needed (invalidate_compile p)).
  destruct (foldlM_fails allocate_step
              (circular_buffers_ p ++ [mkCB id crs cfg None]) (allocs, [])
              (mkCB id crs cfg None)) as [e He].
  - apply elem_of_app. right. by left.
  - intros [allocs0 done]. exists BadOptionalAccess. unfold allocate_step. simpl.
    by rewrite allocate_circular_buffer_no_cores.
  - exists e.
    match goal with
    | |- ?m ≫= _ = _ =>
        change m with (foldlM allocate_step
                         (circular_buffers_ p ++ [mkCB id crs cfg None])
                         (allocs, []))
    end.
    by rewrite He.
Qed.

End EmptyCoreRangeSet.

(** ** Allocation: the layout of a program whose allocation is complete *)

Section Layout2.
Context `{HostDevConstants} `{Toolchain}.

Lemma above_base_step allocs done cb allocs' cb' :
  layout_invariant allocs' (done ++ [cb']) →
  above_base allocs done →
  NoDup (cores_of (core_ranges cb)) → 0 ≤ size_of cb →
  allocate_circular_buffer allocs cb = Ok (allocs', cb') →
  above_base allocs' (done ++ [cb']).
Proof.
  intros (_ & Hends & _) [Hcand Haddr] Hnd Hsize Halloc.
  destruct (allocate_circular_buffer_Ok _ _ _ _ Hnd Halloc)
    as (M & A & [(c0 & a0 & Hc0 & Ha0 & HM) _] & HMA & _ & -> & Hmark & Hrest).
  destruct (Hcand _ _ Ha0) as (v0 & Hv0 & Hbase).
  assert (v0 = M) as -> by congruence.
  split.
  - intros c a' Ha'. destruct (decide (c ∈ cores_of (core_ranges cb))) as [Hc|Hc].
    + destruct (Hends (set_address A cb) c) as (A0 & a1 & v & HA0 & _ & Ha1 & Hv & Hle).
      { apply elem_of_app. right. by left. }
      { done. }
      simpl in HA0. injection HA0 as <-. exists v. split; [congruence|].
      unfold size_of in *. simpl in Hle. lia.
    + rewrite (Hrest c Hc) in Ha'. by eapply Hcand.
  - intros cb0 [Hin | ->%list_elem_of_singleton]%elem_of_app; [by apply Haddr|].
    exists A. split; [done|lia].
Qed.

Lemma above_base_loop cbs allocs done allocs' done' :
  layout_invariant allocs done → above_base allocs done →
  (∀ cb, cb ∈ cbs →
     CoreRangeSet_valid (core_ranges cb) ∧ CircularBufferConfig_typed (config cb)) →
  Z.of_nat (length done + length cbs) + 1 ≤ 2 ^ 32 →
  foldlM allocate_step cbs (allocs, done) = Ok (allocs', done') →
  layout_invariant allocs' done' ∧ above_base allocs' done'.
Proof.
  revert allocs done. induction cbs as [|cb cbs IH];
    intros allocs done Hlay Hbase Hwf Hcount Hl; simpl in Hl.
  - by injection Hl as <- <-.
  - apply bind_Ok in Hl as ([allocs1 done1] & Hstep & Hl).
    apply allocate_step_Ok in Hstep as (allocs2 & cb' & Halloc & [= -> ->]).
    destruct (Hwf cb) as [Hvalid Htyped]; [by left|].
    assert (layout_invariant allocs2 (done ++ [cb'])) as Hlay'.
    { eapply layout_invariant_step; [exact Hlay|done..| |done].
      simpl in Hcount. lia. }
    eapply IH; [exact Hlay'| | | |exact Hl].
    + eapply above_base_step; [exact Hlay'|done|done| |done].
      destruct Htyped as [[? ?] _]. done.
    + intros cb0 Hcb0. apply Hwf. by right.
    + rewrite length_app. simpl in *. lia.
Qed.

Lemma above_base_reset allocs :
  above_base (reset_available_addresses <$> allocs) [].
Proof.
  split.
  - intros c a. rewrite lookup_fmap.
    destruct (allocs !! c) as [a0|]; simpl; [|done]. intros [= <-].
    exists L1_UNRESERVED_BASE. by split.
  - intros cb Hcb. by apply elem_of_nil in Hcb.
Qed.

(** The layout facts of a program the interface builds, once its allocation
    is complete. *)
Lemma reachable_layout p :
  reachable p →
  is_u32 L1_UNRESERVED_BASE →
  Z.of_nat (length (circular_buffers_ p)) + 1 ≤ 2 ^ 32 →
  circular_buffer_allocation_needed_ p = false →
  layout_invariant (per_core_cb_allocator_ p) (circular_buffers_ p) ∧
  above_base (per_core_cb_allocator_ p) (circular_buffers_ p).
Proof.
  intros (_ & _ & Hwf & _ & _ & Hclean)%reachable_consistent Hbase Hcount Hflag.
  specialize (Hclean Hflag).
  eapply above_base_loop; [| |exact Hwf| |exact Hclean].
  - by apply layout_invariant_reset.
  - apply above_base_reset.
  - simpl. lia.
Qed.

(** In a program the interface builds, once the allocation is complete
    (with the reserved base a 32-bit address and fewer than [2^32 - 1]
    buffers), every circular buffer has an address, at or above
    [L1_UNRESERVED_BASE], and ends at or below the next candidate address of
    each of its cores. *)
Theorem allocated_buffers_lie_above_the_reserved_base (p : Program) :
  reachable p →
  is_u32 L1_UNRESERVED_BASE →
  Z.of_nat (length (circular_buffers_ p)) + 1 ≤ 2 ^ 32 →
  circular_buffer_allocation_needed_ p = false →
  ∀ cb, cb ∈ circular_buffers_ p →
    ∃ A, address cb = Some A ∧ L1_UNRESERVED_BASE ≤ A ∧
         ∀ core, is_on_logical_core cb core = true →
           ∃ a v, per_core_cb_allocator_ p !! core = Some a ∧
                  get_address_candidate a = Ok v ∧ A + size_of cb ≤ v.
Proof.
  intros Hreach Hbase Hcount Hflag cb Hcb.
  destruct (reachable_layout p Hreach Hbase Hcount Hflag)
    as [(_ & Hends & _) [_ Haddr]].
  destruct (Haddr cb Hcb) as (A & HA & HAbase). exists A. do 2 (split; [done|]).
  intros core Hc%bool_decide_eq_true.
  destruct (Hends cb core Hcb Hc) as (A0 & a & v & HA0 & _ & Ha & Hv & Hle).
  exists a, v. do 2 (split; [done|]). congruence.
Qed.

Lemma StronglySorted_filter_lookup {A : Type} (R : A → A → Prop) (P : A → Prop)
    `{∀ x, Decision (P x)} (l : list A) :
  (∀ i j x y, (i < j)%nat → l !! i = Some x → l !! j = Some y →
              P x → P y → R x y) →
  StronglySorted R (filter P l).
Proof.
  induction l as [|a l IH]; intros Hpairs; [constructor|].
  rewrite filter_cons. assert (StronglySorted R (filter P l)) as Htail.
  { apply IH. intros i j x y Hij Hi Hj. by apply (Hpairs (S i) (S j)); [lia|..]. }
  destruct (decide (P a)) as [Ha|Ha]; [|done]. constructor; [done|].
  apply Forall_forall. intros y [HPy Hy]%list_elem_of_filter.
  apply list_elem_of_lookup in Hy as [j Hj].
  by apply (Hpairs 0%nat (S j) a y); [lia|..].
Qed.

(** In a program the interface builds, once the allocation is complete, the
    circular buffers [circular_buffers_on_core] returns for a core are laid
    out in registration order: each ends at or below the start of every
    later one. *)
Theorem circular_buffers_on_core_in_address_order (p : Program)
    (core : CoreCoord) :
  reachable p →
  is_u32 L1_UNRESERVED_BASE →
  Z.of_nat (length (circular_buffers_ p)) + 1 ≤ 2 ^ 32 →
  circular_buffer_allocation_needed_ p = false →
  StronglySorted
    (λ cb1 cb2, ∃ a1 a2, address cb1 = Some a1 ∧ address cb2 = Some a2 ∧
                         a1 + size_of cb1 ≤ a2)
    (circular_buffers_on_core p core).
Proof.
  intros Hreach Hbase Hcount Hflag.
  destruct (reachable_layout p Hreach Hbase Hcount Hflag)
    as [(_ & Hends & Hpairs) _].
  unfold circular_buffers_on_core. apply StronglySorted_filter_lookup.
  intros i j cb1 cb2 Hij Hi Hj Hc1%bool_decide_eq_true Hc2%bool_decide_eq_true.
  destruct (Hends cb1 core) as (a1 & _ & _ & Ha1 & _);
    [by eapply list_elem_of_lookup_2|done|].
  destruct (Hends cb2 core) as (a2 & _ & _ & Ha2 & _);
    [by eapply list_elem_of_lookup_2|done|].
  exists a1, a2. do 2 (split; [done|]).
  by apply (Hpairs i j cb1 cb2 a1 a2 core).
Qed.

End Layout2.

(** ** Validation against the device *)

Section Validate.
Context `{HostDevConstants} `{Toolchain} `{DeviceMemory}.

Lemma validate_core_Ok p device core :
  validate_core p device core = Ok tt →
  ∃ cb_space bank,
    highest_cb_l1_region p core = Ok cb_space ∧
    cb_space.2 ≤ l1_size device ∧
    bank_ids_from_logical_core device core = [bank] ∧
    ∀ lowest, lowest_occupied_l1_address device bank = Some lowest →
              cb_space.2 ≤ lowest.
Proof.
  unfold validate_core, validate_cb_space_and_l1_buffer_space_disjoint.
  intros (cb_space & Hspace & Hv)%bind_Ok.
  destruct (l1_size device <? cb_space.2) eqn:Hsize; [done|].
  simpl in Hv.
  destruct (bank_ids_from_logical_core device core) as [|bank [|bank' banks]]
    eqn:Hbanks; simpl in Hv; [done| |done].
  exists cb_space, bank. do 2 (split; [done || lia|]). split; [done|].
  intros lowest Hlow. rewrite Hlow in Hv.
  destruct (lowest <? cb_space.2) eqn:Hlt; [done|lia].
Qed.

(** On a program the interface builds, once the allocation is complete, a
    successful [validate_circular_buffer_region] for a core means that every
    circular buffer placed on the core ends within the L1 of the device and
    at or below the lowest L1 buffer of the one bank of the core. *)
Theorem validate_circular_buffer_region_bounds_the_buffers (p : Program)
    (device : Device) (core : CoreCoord) :
  reachable p →
  is_u32 L1_UNRESERVED_BASE →
  Z.of_nat (length (circular_buffers_ p)) + 1 ≤ 2 ^ 32 →
  circular_buffer_allocation_needed_ p = false →
  validate_circular_buffer_region p device (Some core) = Ok tt →
  ∃ bank,
    bank_ids_from_logical_core device core = [bank] ∧
    ∀ cb, cb ∈ circular_buffers_on_core p core →
      ∃ A, address cb = Some A ∧ L1_UNRESERVED_BASE ≤ A ∧
           A + size_of cb ≤ l1_size device ∧
           ∀ lowest, lowest_occupied_l1_address device bank = Some lowest →
                     A + size_of cb ≤ lowest.
Proof.
  intros Hreach Hbase Hcount Hflag Hval. simpl in Hval.
  destruct (validate_core_Ok _ _ _ Hval) as (cb_space & bank & Hspace & Hsize & Hbank & Hlow).
  exists bank. split; [done|].
  intros cb [Hc%bool_decide_eq_true Hcb]%list_elem_of_filter.
  destruct (reachable_layout p Hreach Hbase Hcount Hflag)
    as [(_ & Hends & _) [_ Haddr]].
  destruct (Haddr cb Hcb) as (A & HA & HAbase).
  destruct (Hends cb core Hcb Hc) as (A0 & a & v & HA0 & _ & Ha & Hv & Hle).
  assert (A0 = A) as -> by congruence.
  exists A. do 2 (split; [done|]).
  unfold highest_cb_l1_region in Hspace. rewrite Ha in Hspace.
  unfold get_address_candidate in Hv.
  destruct (last (l1_regions a)) as [r|]; [|done].
  injection Hspace as <-. injection Hv as <-.
  split; [lia|]. intros lowest Hl. specialize (Hlow lowest Hl). lia.
Qed.

Lemma foldlM_unit_Ok {A : Type} (f : A → result unit) (l : list A) :
  foldlM (λ _ x, f x) l tt = Ok tt ↔ ∀ x, x ∈ l → f x = Ok tt.
Proof.
  induction l as [|a l IH]; simpl.
  - split; [|done]. intros _ x Hx. by apply elem_of_nil in Hx.
  - rewrite bind_Ok. split.
    + intros ([] & Ha & Hl) x [->|Hx]%elem_of_cons; [done|]. by apply IH.
    + intros Hall. exists tt. split; [apply Hall; by left|].
      apply IH. intros x Hx. apply Hall. by right.
Qed.

(** [validate_circular_buffer_region] without a core succeeds exactly when
    it succeeds for every core that has an allocator; a core without an
    allocator is checked against the reserved base alone. *)
Theorem validate_circular_buffer_region_all_cores (p : Program)
    (device : Device) :
  (validate_circular_buffer_region p device None = Ok tt ↔
   ∀ core, is_Some (per_core_cb_allocator_ p !! core) →
           validate_circular_buffer_region p device (Some core) = Ok tt) ∧
  (∀ core, per_core_cb_allocator_ p !! core = None →
     validate_circular_buffer_region p device (Some core)
     = validate_cb_space_and_l1_buffer_space_disjoint device core
         (L1_UNRESERVED_BASE, L1_UNRESERVED_BASE)).
Proof.
  split.
  - simpl.
    rewrite (foldlM_unit_Ok
               (λ entry : CoreCoord * CircularBufferAllocator,
                  validate_core p device entry.1)).
    split.
    + intros Hall core [a Ha]. apply (Hall (core, a)).
      by apply elem_of_map_to_list.
    + intros Hall [core a] Hin%elem_of_map_to_list. apply Hall. by exists a.
  - intros core Hnone. simpl. unfold validate_core, highest_cb_l1_region.
    by rewrite Hnone.
Qed.

End Validate.

(** ** Allocation is stable under registration *)

Section Stability.
Context `{HostDevConstants} `{Toolchain}.

Lemma regions_kept_refl allocs : regions_kept allocs allocs.
Proof. intros c a Ha. by exists a. Qed.

Lemma regions_kept_trans allocs1 allocs2 allocs3 :
  regions_kept allocs1 allocs2 → regions_kept allocs2 allocs3 →
  regions_kept allocs1 allocs3.
Proof.
  intros H12 H23 c a Ha. destruct (H12 c a Ha) as (b & Hb & Hr).
  destruct (H23 c b Hb) as (d & Hd & Hr'). exists d. split; [done|congruence].
Qed.

Lemma add_indices_on_cores_regions_kept cb cores allocs allocs' :
  foldlM (add_indices_on_core cb) cores allocs = Ok allocs' →
  regions_kept allocs allocs'.
Proof.
  revert allocs. induction cores as [|c0 cores IH]; intros allocs Hl;
    simpl in Hl.
  - injection Hl as <-. apply regions_kept_refl.
  - apply bind_Ok in Hl as (allocs1 & Hstep & Hl).
    eapply regions_kept_trans; [|by apply IH].
    apply add_indices_on_core_Ok in Hstep as (a1 & Ha1 & ->).
    apply add_indices_l1_regions in Ha1.
    intros c a Ha. destruct (decide (c = c0)) as [->|Hne].
    + exists a1. rewrite lookup_insert_eq. split; [done|].
      by rewrite Ha in Ha1.
    + exists a. by rewrite lookup_insert_ne.
Qed.

Lemma query_cores_regions_kept allocs1 allocs2 cores st r :
  regions_kept allocs1 allocs2 →
  foldlM (query_core allocs1) cores st = Ok r →
  foldlM (query_core allocs2) cores st = Ok r.
Proof.
  intros Hkept. revert st. induction cores as [|c cores IH]; intros st Hl;
    simpl in *; [done|].
  apply bind_Ok in Hl as (st1 & Hq & Hl). apply IH in Hl.
  enough (query_core allocs2 st c = Ok st1) as -> by done.
  unfold query_core in *. destruct (allocs1 !! c) as [a|] eqn:Ha; [|done].
  destruct (Hkept c a Ha) as (b & -> & Hr).
  unfold get_address_candidate in *. by rewrite Hr.
Qed.

Lemma mark_address_regions_kept a b address size a' :
  l1_regions b = l1_regions a →
  mark_address a address size = Ok a' →
  ∃ b', mark_address b address size = Ok b' ∧ l1_regions b' = l1_regions a'.
Proof.
  intros Hr. unfold mark_address. rewrite Hr.
  destruct (last (l1_regions a)) as [r|]; [|done].
  destruct (log_assert (r.2 <=? address)); simpl; [|done].
  destruct (address =? r.2); intros [= <-]; by eexists.
Qed.

Lemma mark_cores_regions_kept addr size cores allocs1 allocs2 allocs1' :
  regions_kept allocs1 allocs2 →
  foldlM (mark_core addr size) cores allocs1 = Ok allocs1' →
  ∃ allocs2',
    foldlM (mark_core addr size) cores allocs2 = Ok allocs2' ∧
    regions_kept allocs1' allocs2'.
Proof.
  revert allocs1 allocs2. induction cores as [|c cores IH];
    intros allocs1 allocs2 Hkept Hl; simpl in *.
  - injection Hl as <-. by exists allocs2.
  - apply bind_Ok in Hl as (allocs1m & Hm & Hl).
    apply mark_core_Ok in Hm as (address & a & a' & -> & Ha & Hmark & ->).
    destruct (Hkept c a Ha) as (b & Hb & Hr).
    destruct (mark_address_regions_kept _ _ _ _ _ Hr Hmark) as (b' & Hmark' & Hr').
    destruct (IH (<[c := a']> allocs1) (<[c := b']> allocs2)) as (allocs2' & Hl2 & Hk2).
    + intros c1 a1. destruct (decide (c1 = c)) as [->|Hne].
      * rewrite !lookup_insert_eq. intros [= <-]. by exists b'.
      * rewrite !lookup_insert_ne by done. apply Hkept.
    + done.
    + exists allocs2'. split; [|done].
      assert (mark_core (Some address) size allocs2 c = Ok (<[c := b']> allocs2))
        as ->; [|done].
      unfold mark_core. simpl. rewrite Hb. simpl. by rewrite Hmark'.
Qed.

Lemma allocate_circular_buffer_regions_kept allocs1 allocs2 cb allocs1' cb' :
  regions_kept allocs1 allocs2 →
  allocate_circular_buffer allocs1 cb = Ok (allocs1', cb') →
  ∃ allocs2',
    allocate_circular_buffer allocs2 cb = Ok (allocs2', cb') ∧
    regions_kept allocs1' allocs2'.
Proof.
  intros Hkept Halloc.
  destruct (allocate_circular_buffer_parts _ _ _ _ Halloc)
    as (o & A & Hq & Hreq & Hmark & ->).
  destruct (mark_cores_regions_kept _ _ _ _ _ _ Hkept Hmark) as (allocs2' & Hmark2 & Hk2).
  exists allocs2'. split; [|done].
  pose proof (query_cores_regions_kept _ _ _ _ _ Hkept Hq) as Hq2.
  destruct (requested_address (config cb)) as [r|] eqn:Hr.
  - destruct Hreq as (M & -> & HM & ->).
    rewrite (allocate_circular_buffer_after_query _ _ _ Hq2), Hr.
    destruct (r <? M) eqn:Hlt; [lia|]. by rewrite Hmark2.
  - subst o.
    rewrite (allocate_circular_buffer_after_query _ _ _ Hq2), Hr.
    by rewrite Hmark2.
Qed.

Lemma allocate_loop_regions_kept cbs allocs1 allocs2 done allocs1' done' :
  regions_kept allocs1 allocs2 →
  foldlM allocate_step cbs (allocs1, done) = Ok (allocs1', done') →
  ∃ allocs2',
    foldlM allocate_step cbs (allocs2, done) = Ok (allocs2', done') ∧
    regions_kept allocs1' allocs2'.
Proof.
  revert allocs1 allocs2 done. induction cbs as [|cb cbs IH];
    intros allocs1 allocs2 done Hkept Hl; simpl in *.
  - injection Hl as <- <-. by exists allocs2.
  - apply bind_Ok in Hl as ([allocs1m done1] & Hstep & Hl).
    apply allocate_step_Ok in Hstep as (allocs1n & cb' & Halloc & [= -> ->]).
    destruct (allocate_circular_buffer_regions_kept _ _ _ _ _ Hkept Halloc)
      as (allocs2n & Halloc2 & Hk2).
    destruct (IH _ _ _ Hk2 Hl) as (allocs2' & Hl2 & Hk').
    exists allocs2'. split; [|done].
    assert (allocate_step (allocs2, done) cb = Ok (allocs2n, done ++ [cb']))
      as -> by (apply allocate_step_Ok; eauto).
    done.
Qed.

(** On a program the interface builds whose allocation is complete,
    registering one more circular buffer and allocating again leaves every
    buffer registered before at the address it had; the new buffer is placed
    after them. *)
Theorem add_circular_buffer_keeps_earlier_addresses (p p1 p2 : Program)
    (crs : CoreRangeSet) (cfg : CircularBufferConfig) (id : CircularBufferID) :
  reachable p →
  circular_buffer_allocation_needed_ p = false →
  add_circular_buffer p crs cfg id = Ok (p1, id) →
  allocate_circular_buffers p1 = Ok p2 →
  ∃ A, circular_buffers_ p2
       = circular_buffers_ p ++ [mkCB id crs cfg (Some A)].
Proof.
  intros (_ & _ & _ & _ & _ & Hclean)%reachable_consistent Hflag Hadd Halloc.
  specialize (Hclean Hflag).
  apply add_circular_buffer_program in Hadd as (allocs1 & Hidx & ->).
  rewrite allocate_circular_buffers_loop in Halloc
    by (simpl; apply invalidate_circular_buffer_allocation_needed).
  simpl in Halloc.
  apply bind_Ok in Halloc as ([allocs2 cbs2] & Hloop & [= <-]). simpl.
  rewrite foldlM_snoc in Hloop.
  apply bind_Ok in Hloop as ([allocsm cbsm] & Hpre & Hstep).
  assert (per_core_cb_allocator_
            (invalidate_circular_buffer_allocation (invalidate_compile p))
          = reset_available_addresses <$> per_core_cb_allocator_ p) as Hreset.
  { unfold invalidate_circular_buffer_allocation. simpl. by rewrite Hflag. }
  rewrite Hreset in Hidx.
  apply add_indices_on_cores_regions_kept in Hidx.
  destruct (allocate_loop_regions_kept _ _ _ _ _ _ Hidx Hclean) as (allocs' & Hpre' & _).
  rewrite Hpre' in Hpre. injection Hpre as <- <-.
  apply allocate_step_Ok in Hstep as (allocs3 & cb' & Hnew & [= -> ->]).
  apply allocate_circular_buffer_parts in Hnew as (o & A & _ & _ & _ & ->).
  by exists A.
Qed.

End Stability.


(** ** The compile pipeline: what a compiled program holds *)

Section Compiled.
Context `{HostDevConstants} `{Toolchain}.

Lemma compile_loop_paths device ids p w p' w' :
  foldlM (compile_kernel device) ids (p, w) = Ok (p', w') →
  ∀ id k', map_find id (kernel_by_id_ p') = Some k' →
    (id ∈ ids ∨ ∃ k, map_find id (kernel_by_id_ p) = Some k ∧
                     is_Some (binary_path k)) →
    is_Some (binary_path k').
Proof.
  revert p w. induction ids as [|id0 ids IH]; intros p w Hl id k' Hk' Hor;
    simpl in Hl.
  - injection Hl as <- <-. destruct Hor as [Hin|(k & Hk & Hpath)];
      [by apply elem_of_nil in Hin|congruence].
  - apply bind_Ok in Hl as ([p1 w1] & Hstep & Hl).
    apply compile_kernel_program in Hstep as (k0 & hash & Hk0 & ->).
    eapply IH; [exact Hl|exact Hk'|]. simpl. rewrite map_find_assign.
    destruct (decide (id = id0)) as [->|Hne].
    + right. eexists. split; [done|]. by eexists.
    + destruct Hor as [[?|Hin]%elem_of_cons|Hold]; [done|by left|by right].
Qed.

Lemma read_loop_binaries device ids p w p' w' :
  foldlM (read_kernel_binaries device) ids (p, w) = Ok (p', w') →
  ∀ id k', map_find id (kernel_by_id_ p') = Some k' →
    (∃ k, map_find id (kernel_by_id_ p) = Some k ∧
          binary_path k' = binary_path k ∧
          (binaries_read k = true → binaries_read k' = true)) ∧
    (id ∈ ids → binaries_read k' = true).
Proof.
  revert p w. induction ids as [|id0 ids IH]; intros p w Hl id k' Hk';
    simpl in Hl.
  - injection Hl as <- <-. split; [by exists k'|].
    intros Hin. by apply elem_of_nil in Hin.
  - apply bind_Ok in Hl as ([p1 w1] & Hstep & Hl).
    apply read_kernel_binaries_program in Hstep as (k0 & Hk0 & ->).
    destruct (IH _ _ Hl id k' Hk') as [(k1 & Hk1 & Hpath & Hread) Hin].
    simpl in Hk1. rewrite map_find_assign in Hk1.
    destruct (decide (id = id0)) as [->|Hne].
    + injection Hk1 as <-. split.
      * exists k0. split; [done|]. split; [done|]. intros _. by apply Hread.
      * intros _. by apply Hread.
    + split; [by exists k1|]. intros [?|Hin']%elem_of_cons; [done|by apply Hin].
Qed.

Lemma add_blank_kernels_unchanged p ids p' :
  add_blank_kernels p ids = Ok p' → compile_needed_ p' = false →
  compile_needed_ p = false ∧ kernel_by_id_ p' = kernel_by_id_ p.
Proof.
  unfold add_blank_kernels. intros ([p0 groups] & Hg & Hp)%bind_Ok.
  apply core_to_kernel_group_program in Hg as ->. injection Hp as <-.
  unfold CreateKernel. by repeat case_decide.
Qed.

Lemma compiled_after_compile p device w ids p' w' :
  kernel_ids_consistent p → fresh_blank_ids p ids →
  compile_needed_ p = true →
  compile p device w ids = Ok (p', w') →
  ∀ id k, map_find id (kernel_by_id_ p') = Some k →
    is_Some (binary_path k) ∧ binaries_read k = true.
Proof.
  intros Hcons Hfresh Hflag Hcompile.
  destruct (compile_stages _ _ _ _ _ _ Hflag Hcompile)
    as (p1 & p2 & w2 & p3 & w3 & crs & _ & Hblank & Hcomp & Hread & -> & _).
  pose proof (add_blank_kernels_ids_consistent _ _ _ Hcons Hfresh Hblank) as Hc1.
  destruct (kernel_loop_ids_consistent _ _ _ _ _ _
              (compile_kernel_ids_consistent device) Hc1 Hcomp) as [Hc2 Hids2].
  destruct (kernel_loop_ids_consistent _ _ _ _ _ _
              (read_kernel_binaries_ids_consistent device) Hc2 Hread) as [Hc3 Hids3].
  simpl. intros id k Hk.
  destruct (read_loop_binaries _ _ _ _ _ _ Hread id k Hk)
    as [(k2 & Hk2 & Hpath & _) Hin].
  assert (id ∈ kernel_ids_ p2) as Hid.
  { destruct Hc2 as (_ & Hiff & _). apply Hiff. by eexists. }
  split; [|by apply Hin]. rewrite Hpath.
  eapply (compile_loop_paths _ _ _ _ _ _ Hcomp); [exact Hk2|].
  left. by rewrite <- Hids2.
Qed.

Lemma reachable_compiled p :
  reachable p → compile_needed_ p = false →
  ∀ id k, map_find id (kernel_by_id_ p) = Some k →
    is_Some (binary_path k) ∧ binaries_read k = true.
Proof.
  induction 1 as [n | p kernel _ IH Hfresh | p p' groups _ IH Hg
                 | p ids p' _ IH Hfresh Hblank
                 | p crs cfg id p' _ IH Hvalid Htyped Hadd
                 | p _ IH | p p' _ IH Halloc
                 | p device w ids p' w' Hreach IH Hfresh Hcompile].
  - done.
  - done.
  - by apply core_to_kernel_group_program in Hg as ->.
  - intros Hflag.
    destruct (add_blank_kernels_unchanged _ _ _ Hblank Hflag) as [Hflag0 ->].
    by apply IH.
  - apply add_circular_buffer_program in Hadd as (allocs & _ & ->). simpl.
    destruct (invalidate_circular_buffer_allocation_kernels (invalidate_compile p))
      as (_ & _ & ->). done.
  - destruct (invalidate_circular_buffer_allocation_kernels p) as (_ & -> & ->).
    done.
  - apply allocate_circular_buffers_kernels in Halloc as (_ & -> & ->). done.
  - intros _.
    destruct (compile_needed_cases _ _ _ _ _ _ Hcompile)
      as [(Hflag & -> & _)|Hflag]; [by apply IH|].
    eapply compiled_after_compile; [|done..]. by apply reachable_kernel_ids.
Qed.

(** In a program the interface builds whose compile flag is clear, every
    registered kernel, the blank ones included, has its binary path set and
    its binaries read. *)
Theorem compiled_program_has_all_binaries (p : Program) :
  reachable p → compile_needed_ p = false →
  ∀ entry, entry ∈ kernel_by_id_ p →
    is_Some (binary_path entry.2) ∧ binaries_read entry.2 = true.
Proof.
  intros Hreach Hflag [id k] Hin. simpl.
  apply (reachable_compiled p Hreach Hflag id).
  apply reachable_consistent in Hreach as (_ & Hsorted & _).
  by apply (elem_of_sorted_map_find _ (id, k)).
Qed.

Lemma covered_same kernels1 kernels2 core :
  Forall2 (λ e1 e2 : KernelID * Kernel, e1.1 = e2.1 ∧ same_kernel e1.2 e2.2)
          kernels1 kernels2 →
  covered kernels2 core → covered kernels1 core.
Proof.
  intros Hsame (e2 & [i Hi]%list_elem_of_lookup & Hc).
  destruct (Forall2_lookup_r _ _ _ _ _ Hsame Hi) as (e1 & He1 & _ & _ & _ & Hcrs).
  exists e1. split; [by eapply list_elem_of_lookup_2|].
  unfold logical_cores in *. by rewrite Hcrs.
Qed.

Lemma reachable_all_roles p :
  reachable p → compile_needed_ p = false →
  ∃ groups,
    build_kernel_groups (kernel_by_id_ p) = Ok groups ∧
    ∀ core, covered (kernel_by_id_ p) core →
      ∃ g, groups !! core = Some g ∧
           ∀ role, supported role → is_Some (role_slot role g).
Proof.
  induction 1 as [n | p kernel _ IH Hfresh | p p' groups _ IH Hg
                 | p ids p' _ IH Hfresh Hblank
                 | p crs cfg id p' _ IH Hvalid Htyped Hadd
                 | p _ IH | p p' _ IH Halloc
                 | p device w ids p' w' Hreach IH Hfresh Hcompile].
  - intros _. exists ∅. split; [done|].
    intros core (e & He & _). by apply elem_of_nil in He.
  - done.
  - by apply core_to_kernel_group_program in Hg as ->.
  - intros Hflag.
    destruct (add_blank_kernels_unchanged _ _ _ Hblank Hflag) as [Hflag0 ->].
    by apply IH.
  - apply add_circular_buffer_program in Hadd as (allocs & _ & ->). simpl.
    destruct (invalidate_circular_buffer_allocation_kernels (invalidate_compile p))
      as (_ & _ & ->). done.
  - destruct (invalidate_circular_buffer_allocation_kernels p) as (_ & -> & ->).
    done.
  - apply allocate_circular_buffers_kernels in Halloc as (_ & -> & ->). done.
  - intros _.
    destruct (compile_needed_cases _ _ _ _ _ _ Hcompile)
      as [(Hflag & -> & _)|Hflag]; [by apply IH|].
    pose proof (reachable_consistent _ Hreach) as (Hc & Hs & _).
    destruct (compile_kept _ _ _ _ _ _ Hc Hs Hcompile)
      as [->|(p1 & Hblank & Hkept & _)];
      [pose proof (compile_clears_flag _ _ _ _ _ _ Hcompile); congruence|].
    destruct (add_blank_kernels_all_roles _ _ _ Hc Hfresh Hblank)
      as (_ & _ & groups & Hb & Hroles).
    exists groups. split.
    + rewrite <- Hb. symmetry. by apply build_kernel_groups_same.
    + intros core Hcov. apply Hroles. by eapply covered_same.
Qed.

(** In a program the interface builds whose compile flag is clear,
    [core_to_kernel_group] succeeds, and every kernel group it returns has a
    kernel for each of the three processors: the blank kernels that
    [compile] adds fill every role left empty. *)
Theorem compiled_program_fills_every_role (p : Program) :
  reachable p → compile_needed_ p = false →
  ∃ p' groups,
    core_to_kernel_group p = Ok (p', groups) ∧
    ∀ core g, groups !! core = Some g →
      is_Some (riscv0_id g) ∧ is_Some (riscv1_id g) ∧ is_Some (compute_id g).
Proof.
  intros Hreach Hflag.
  destruct (reachable_all_roles p Hreach Hflag) as (groups & Hb & Hroles).
  apply reachable_consistent in Hreach as (Hc & _ & _).
  rewrite core_to_kernel_group_spec, Hb by done. simpl.
  eexists _, groups. split; [done|]. intros core g Hg.
  destruct (Program_logical_cores_spec p) as [_ Hcov].
  destruct (decide (core ∈ Program_logical_cores p)) as [Hin|Hnin].
  - destruct (Hroles core) as (g' & Hg' & Hall); [by apply Hcov|].
    assert (g' = g) as -> by congruence.
    split; [|split].
    + apply (Hall BRISC). by left.
    + apply (Hall NCRISC). right. by left.
    + apply (Hall COMPUTE). right. by right.
  - unfold build_kernel_groups in Hb.
    destruct (update_kernels_lookup _ _ _ core Hb) as [Hnone _].
    rewrite Hcov in Hnin. rewrite lookup_empty in Hnone.
    assert (groups !! core = None) as Hn by (by apply Hnone). congruence.
Qed.

End Compiled.

(** ** The compile pipeline: the work it does *)

Section CompileWork.
Context `{HostDevConstants} `{Toolchain}.

Lemma generated_hashes_app log1 log2 :
  generated_hashes (log1 ++ log2) = generated_hashes log1 ++ generated_hashes log2.
Proof. apply omap_app. Qed.

Lemma blank_generations_app log1 log2 :
  blank_generations (log1 ++ log2) = blank_generations log1 ++ blank_generations log2.
Proof. apply omap_app. Qed.

(** What one step of the first loop of [compile] does to the process
    state. *)
Lemma compile_kernel_work device p w id p' w' :
  compile_kernel device (p, w) id = Ok (p', w') →
  ∃ new,
    work_log w' = work_log w ++ new ∧
    blank_compiled w' = blank_compiled w ∧
    enable_persistent_kernel_cache w' = enable_persistent_kernel_cache w ∧
    blank_generations new = [] ∧
    hash_lookup w ⊆ hash_lookup w' ∧
    (generated_hashes new = [] ∨
     ∃ h, generated_hashes new = [h] ∧ (h ∉ hash_lookup w) ∧ h ∈ hash_lookup w').
Proof.
  unfold compile_kernel. intros (k & _ & Hc)%bind_Ok.
  apply bind_Ok in Hc as ([cache_hit w1] & Hw1 & [= _ <-]).
  set (bo := set_cb_data_fmt p k
               (kernel_set_build_options k
                  (mkBuildOptions (device_id device) (kernel_name k) ∅))) in *.
  set (h := KernelCompileHash k bo (device_id device)) in *.
  assert (∃ new1,
            work_log w1 = work_log w ++ new1 ∧
            blank_compiled w1 = blank_compiled w ∧
            enable_persistent_kernel_cache w1 = enable_persistent_kernel_cache w ∧
            blank_generations new1 = [] ∧
            hash_lookup w ⊆ hash_lookup w1 ∧
            (generated_hashes new1 = [] ∨
             ∃ h, generated_hashes new1 = [h] ∧ (h ∉ hash_lookup w) ∧
                  h ∈ hash_lookup w1)) as (new1 & Hlog & Hblank & Hpers & Hbg & Hsub & Hgen).
  { destruct (enable_persistent_kernel_cache w
              && bool_decide ((kernel_name k, h) ∈ disk w)).
    - destruct (bool_decide (h ∈ hash_lookup w)); injection Hw1 as _ <-;
        exists []; rewrite app_nil_r; simpl;
        (do 4 (split; [done|])); (split; [set_solver|by left]).
    - destruct (bool_decide (h ∈ hash_lookup w)) eqn:Hh; simpl in Hw1.
      + injection Hw1 as _ <-. exists []. rewrite app_nil_r.
        do 4 (split; [done|]). split; [done|by left].
      + apply bind_Ok in Hw1 as (w2 & Hgenb & [= _ <-]).
        unfold GenerateBinaries in Hgenb.
        destruct (generate_binaries_throws k bo); [done|].
        injection Hgenb as <-. eexists [_]. simpl.
        do 4 (split; [done|]). split; [set_solver|].
        right. exists h. split; [done|].
        apply bool_decide_eq_false in Hh. split; [done|set_solver]. }
  destruct (compilation_reporter_enabled w1).
  - exists (new1 ++ [reported_kernel_compile id cache_hit h]).
    unfold log_work. simpl. rewrite Hlog, <- app_assoc.
    rewrite generated_hashes_app, blank_generations_app, Hbg. simpl.
    rewrite app_nil_r. by repeat split.
  - by exists new1.
Qed.

Lemma read_kernel_binaries_work device p w id p' w' :
  read_kernel_binaries device (p, w) id = Ok (p', w') →
  work_log w' = work_log w ++ [read_kernel id (device_id device)] ∧
  blank_compiled w' = blank_compiled w ∧
  enable_persistent_kernel_cache w' = enable_persistent_kernel_cache w ∧
  hash_lookup w' = hash_lookup w.
Proof.
  unfold read_kernel_binaries. by intros (k & _ & [= _ <-])%bind_Ok.
Qed.

Lemma compile_loop_work device ids p w p' w' :
  foldlM (compile_kernel device) ids (p, w) = Ok (p', w') →
  ∃ new,
    work_log w' = work_log w ++ new ∧
    blank_compiled w' = blank_compiled w ∧
    enable_persistent_kernel_cache w' = enable_persistent_kernel_cache w ∧
    blank_generations new = [] ∧
    hash_lookup w ⊆ hash_lookup w' ∧
    NoDup (generated_hashes new) ∧
    ∀ h, h ∈ generated_hashes new → (h ∉ hash_lookup w) ∧ h ∈ hash_lookup w'.
Proof.
  revert p w. induction ids as [|id ids IH]; intros p w Hl; simpl in Hl.
  - injection Hl as <- <-. exists []. rewrite app_nil_r.
    do 5 (split; [done|]). split; [apply NoDup_nil_2|].
    intros h Hh. by apply elem_of_nil in Hh.
  - apply bind_Ok in Hl as ([p1 w1] & Hstep & Hl).
    destruct (compile_kernel_work _ _ _ _ _ _ Hstep)
      as (new1 & Hlog1 & Hb1 & Hp1 & Hbg1 & Hsub1 & Hgen1).
    destruct (IH _ _ Hl) as (new2 & Hlog2 & Hb2 & Hp2 & Hbg2 & Hsub2 & Hnd2 & Hgen2).
    exists (new1 ++ new2).
    rewrite Hlog2, Hlog1, <- app_assoc, blank_generations_app,
      generated_hashes_app, Hbg1, Hbg2.
    split; [done|]. split; [congruence|]. split; [congruence|]. split; [done|].
    split; [set_solver|].
    destruct Hgen1 as [->|(h1 & -> & Hh1 & Hh1')]; simpl.
    + split; [done|]. intros h Hh. destruct (Hgen2 h Hh). set_solver.
    + split.
      * apply NoDup_cons. split; [|done]. intros Hin.
        destruct (Hgen2 h1 Hin). done.
      * intros h [->|Hh]%elem_of_cons; [set_solver|].
        destruct (Hgen2 h Hh). set_solver.
Qed.

Lemma read_loop_work device ids p w p' w' :
  foldlM (read_kernel_binaries device) ids (p, w) = Ok (p', w') →
  ∃ new,
    work_log w' = work_log w ++ new ∧
    blank_compiled w' = blank_compiled w ∧
    enable_persistent_kernel_cache w' = enable_persistent_kernel_cache w ∧
    hash_lookup w' = hash_lookup w ∧
    blank_generations new = [] ∧ generated_hashes new = [].
Proof.
  revert p w. induction ids as [|id ids IH]; intros p w Hl; simpl in Hl.
  - injection Hl as <- <-. exists []. by rewrite app_nil_r.
  - apply bind_Ok in Hl as ([p1 w1] & Hstep & Hl).
    destruct (read_kernel_binaries_work _ _ _ _ _ _ Hstep) as (Hlog1 & Hb1 & Hp1 & Hh1).
    destruct (IH _ _ Hl) as (new2 & Hlog2 & Hb2 & Hp2 & Hh2 & Hbg2 & Hgen2).
    exists (read_kernel id (device_id device) :: new2).
    rewrite Hlog2, Hlog1, <- app_assoc. simpl.
    split; [done|]. split; [congruence|]. split; [congruence|].
    split; [congruence|]. done.
Qed.

Lemma reports_not_generated reports :
  Forall (λ x, match x with
               | flushed_program_entry _ _
               | flushed_program_memory_usage _ _ => True
               | _ => False
               end) reports →
  generated_hashes reports = [] ∧ blank_generations reports = [].
Proof.
  induction 1 as [|x reports Hx _ [IH1 IH2]]; [done|].
  destruct x; try done; simpl; by rewrite ?IH1, ?IH2.
Qed.

(** What a compile that runs does to the process state. *)
Lemma compile_work p device w ids p' w' :
  compile_needed_ p = true →
  compile p device w ids = Ok (p', w') →
  ∃ new,
    work_log w' = work_log w ++ new ∧
    blank_compiled w' = true ∧
    blank_generations new
      = (if blank_compiled w then [] else [device_id device]) ∧
    hash_lookup w ⊆ hash_lookup w' ∧
    NoDup (generated_hashes new) ∧
    ∀ h, h ∈ generated_hashes new → (h ∉ hash_lookup w) ∧ h ∈ hash_lookup w'.
Proof.
  intros Hflag Hcompile.
  destruct (compile_stages _ _ _ _ _ _ Hflag Hcompile)
    as (p1 & p2 & w2 & p3 & w3 & crs & _ & _ & Hcomp & Hread & _ &
        reports & Hlog & Hreports & Hh & Hb).
  destruct (compile_loop_work _ _ _ _ _ _ Hcomp)
    as (new2 & Hlog2 & Hb2 & _ & Hbg2 & Hsub2 & Hnd2 & Hgen2).
  destruct (read_loop_work _ _ _ _ _ _ Hread)
    as (new3 & Hlog3 & Hb3 & _ & Hh3 & Hbg3 & Hgen3).
  destruct (reports_not_generated _ Hreports) as [Hgenr Hbgr].
  simpl in Hlog2, Hb2, Hsub2, Hgen2.
  exists ((if blank_compiled w then [] else [generated_blank (device_id device)])
          ++ new2 ++ new3 ++ reports).
  rewrite Hlog, Hlog3, Hlog2, Hb, Hb3, Hb2, Hh, Hh3.
  rewrite !blank_generations_app, !generated_hashes_app, Hbg2, Hbg3, Hbgr, Hgen3,
    Hgenr, !app_nil_r.
  unfold CompileBlankKernel in *.
  destruct (blank_compiled w) eqn:Hbw; simpl in *;
    rewrite <- !app_assoc; by do 5 (split; [done|]).
Qed.

(** A compile that runs generates kernel binaries only for hashes that were
    not in the hash ledger when it started, never twice for the same hash,
    and leaves every hash it generated, and every hash that was there, in
    the ledger. *)
Theorem compile_generates_each_hash_once (p p' : Program) (device : Device)
    (w w' : World) (ids : KernelID * KernelID * KernelID) :
  compile p device w ids = Ok (p', w') →
  ∃ new,
    work_log w' = work_log w ++ new ∧
    NoDup (generated_hashes new) ∧
    (∀ h, h ∈ generated_hashes new → (h ∉ hash_lookup w) ∧ h ∈ hash_lookup w') ∧
    hash_lookup w ⊆ hash_lookup w'.
Proof.
  intros Hcompile.
  destruct (compile_needed_cases _ _ _ _ _ _ Hcompile)
    as [(_ & _ & ->)|Hflag].
  - exists []. rewrite app_nil_r. split; [done|]. split; [apply NoDup_nil_2|].
    split; [|done]. intros h Hh. by apply elem_of_nil in Hh.
  - destruct (compile_work _ _ _ _ _ _ Hflag Hcompile)
      as (new & Hlog & _ & _ & Hsub & Hnd & Hgen).
    by exists new.
Qed.

(** The blank firmware is built at most once per process: a compile that
    runs builds it, as its first item of work, exactly when no earlier
    compile has, and leaves the flag set; a compile that does not run
    touches neither the flag nor the log. *)
Theorem compile_builds_blank_firmware_once (p p' : Program) (device : Device)
    (w w' : World) (ids : KernelID * KernelID * KernelID) :
  compile p device w ids = Ok (p', w') →
  ∃ new,
    work_log w' = work_log w ++ new ∧
    (compile_needed_ p = true →
     blank_compiled w' = true ∧
     if blank_compiled w then blank_generations new = []
     else blank_generations new = [device_id device] ∧
          head new = Some (generated_blank (device_id device))) ∧
    (compile_needed_ p = false → new = [] ∧ blank_compiled w' = blank_compiled w).
Proof.
  intros Hcompile.
  destruct (compile_needed_cases _ _ _ _ _ _ Hcompile)
    as [(Hflag & _ & ->)|Hflag].
  - exists []. rewrite app_nil_r. split; [done|]. split; [congruence|done].
  - destruct (compile_stages _ _ _ _ _ _ Hflag Hcompile)
      as (p1 & p2 & w2 & p3 & w3 & crs & _ & _ & Hcomp & Hread & _ &
          reports & Hlog & Hreports & Hh & Hb).
    destruct (compile_loop_work _ _ _ _ _ _ Hcomp)
      as (new2 & Hlog2 & Hb2 & _ & Hbg2 & _).
    destruct (read_loop_work _ _ _ _ _ _ Hread)
      as (new3 & Hlog3 & Hb3 & _ & _ & Hbg3 & _).
    destruct (reports_not_generated _ Hreports) as [_ Hbgr].
    simpl in Hlog2, Hb2.
    exists ((if blank_compiled w then [] else [generated_blank (device_id device)])
            ++ new2 ++ new3 ++ reports).
    rewrite Hlog, Hlog3, Hlog2, Hb, Hb3, Hb2.
    rewrite !blank_generations_app, Hbg2, Hbg3, Hbgr, !app_nil_r.
    unfold CompileBlankKernel in *.
    destruct (blank_compiled w) eqn:Hbw; simpl in *.
    + rewrite <- !app_assoc. split; [done|]. split; [done|congruence].
    + rewrite <- !app_assoc. split; [done|]. split; [done|congruence].
Qed.

End CompileWork.


(** ** Semaphores *)

Section SemaphoreProps.
Context `{SemaphorePlacement}.

(** [add_semaphore] appends: the new semaphore gets the next index, at
    which [semaphore_address] returns the address given; the addresses of
    the earlier semaphores are unchanged; an index at or past
    [num_semaphores()] throws; and the program has to be compiled again. *)
Theorem semaphore_address_after_add_semaphore (ps : ProgramSemaphores)
    (crs : CoreRangeSet) (address init_value : Z) (sem_idx : Z) :
  0 ≤ sem_idx →
  semaphore_address (add_semaphore ps crs address init_value) sem_idx
    = (if decide (sem_idx = Z.of_nat (num_semaphores ps)) then Ok address
       else semaphore_address ps sem_idx) ∧
  (semaphore_address ps sem_idx = Err OutOfRange ↔
   Z.of_nat (num_semaphores ps) ≤ sem_idx) ∧
  num_semaphores (add_semaphore ps crs address init_value)
    = S (num_semaphores ps) ∧
  compile_needed_ (sem_program (add_semaphore ps crs address init_value)) = true.
Proof.
  intros Hidx. unfold semaphore_address, num_semaphores. simpl.
  split; [|split; [|split; [|done]]].
  - destruct (decide (sem_idx = Z.of_nat (length (semaphores_ ps)))) as [->|Hne].
    + rewrite Nat2Z.id, list_lookup_middle; done.
    + destruct (decide (Z.to_nat sem_idx < length (semaphores_ ps))%nat) as [Hlt|Hge].
      * by rewrite lookup_app_l.
      * rewrite !lookup_ge_None_2; [done|lia|].
        rewrite length_app. simpl. lia.
  - destruct (semaphores_ ps !! Z.to_nat sem_idx) as [s|] eqn:Hs.
    + apply lookup_lt_Some in Hs. split; [done|lia].
    + apply lookup_ge_None in Hs. split; [lia|done].
  - rewrite length_app. simpl. lia.
Qed.

End SemaphoreProps.


(** ** The dispatch executor: buffer reads *)

#[local] Arguments bank_after : simpl never.
#[local] Arguments pages_in : simpl never.
#[local] Arguments wrap32 : simpl never.

Section ReadBuffer.
Context `{HostDevConstants} `{NocAddressing}.

(** The page loop of [read_buffer] is the page loop of [write_buffer] with
    every transfer turned around. *)
Lemma fetch_pages_mirror fuel addr_gen size page_size padded_page_size :
  ∀ i bank_id local_addr,
    fetch_pages fuel addr_gen size page_size padded_page_size i bank_id local_addr
    = (λ r : Z * list noc_event, (r.1, mirror <$> r.2))
        <$> send_pages fuel addr_gen size page_size padded_page_size
                       i bank_id local_addr.
Proof.
  induction fuel as [|fuel IH]; intros i bank_id local_addr; simpl; [done|].
  destruct (i <? size); [|done]. rewrite IH.
  by destruct (send_pages fuel _ _ _ _ _ _ _) as [[b evs]|].
Qed.

Lemma mirror_page_writes addr_gen page_size padded_page_size n :
  ∀ bank_id local_addr,
    mirror <$> page_writes addr_gen page_size padded_page_size n bank_id local_addr
    = page_reads addr_gen page_size padded_page_size n bank_id local_addr.
Proof.
  induction n as [|n IH]; intros bank_id local_addr; simpl; [done|].
  by rewrite IH.
Qed.

Lemma fetch_pages_spec addr_gen write_size page_size padded_page_size n :
  0 < padded_page_size → write_size + padded_page_size ≤ 2 ^ 32 →
  ∀ i bank_id local_addr fuel,
    0 ≤ i < write_size + padded_page_size →
    Z.of_nat n = (write_size - i + padded_page_size - 1) / padded_page_size →
    (n < fuel)%nat →
    fetch_pages fuel addr_gen write_size page_size padded_page_size i bank_id local_addr
    = Some (bank_after n bank_id,
            page_reads addr_gen page_size padded_page_size n bank_id local_addr).
Proof.
  intros Hpps Hfit i bank_id local_addr fuel Hi Hn Hfuel.
  rewrite fetch_pages_mirror.
  rewrite (send_pages_spec addr_gen write_size page_size padded_page_size n) by done.
  simpl. by rewrite mirror_page_writes.
Qed.

(** The burst loop, with a positive burst size, runs once per burst. *)
Lemma read_buffer_loop_spec addr_gen dst_noc burst_size page_size
    padded_page_size m :
  0 < burst_size → 0 < padded_page_size →
  burst_size + padded_page_size ≤ 2 ^ 32 →
  ∀ remaining dst_addr bank_id fuel,
    0 ≤ remaining < 2 ^ 32 →
    Z.of_nat m = (remaining + burst_size - 1) / burst_size →
    (m + pages_in padded_page_size burst_size < fuel)%nat →
    ∃ evs,
      read_buffer_loop fuel addr_gen dst_noc burst_size page_size
                       padded_page_size dst_addr remaining bank_id = Some evs ∧
      read_burst_trace addr_gen dst_noc burst_size page_size padded_page_size
                       remaining dst_addr bank_id evs.
Proof.
  intros Hburst Hpps Hfit.
  induction m as [|m IH]; intros remaining dst_addr bank_id fuel Hrem Hm Hfuel;
    (destruct fuel as [|fuel]; [lia|]); simpl.
  - assert (remaining = 0) as ->.
    { symmetry in Hm. apply Z.div_small_iff in Hm; lia. }
    simpl. eexists. split; [done|]. constructor.
  - assert (0 < remaining) as Hpos.
    { destruct (decide (0 < remaining)) as [|Hz]; [done|].
      assert ((remaining + burst_size - 1) / burst_size = 0)
        by (apply Z.div_small; lia). lia. }
    rewrite (proj2 (Z.ltb_lt _ _) Hpos).
    set (r := Z.min burst_size remaining).
    assert (0 < r ≤ burst_size ∧ r ≤ remaining) as (Hr0 & Hrb) by (unfold r; lia).
    rewrite (fetch_pages_spec addr_gen r page_size padded_page_size
               (pages_in padded_page_size r)); [|lia..| | ].
    2:{ apply pages_in_spec; lia. }
    2:{ pose proof (pages_in_mono padded_page_size r burst_size). lia. }
    simpl.
    assert (wrap32 (remaining - r) = remaining - r) as ->
      by (unfold wrap32; apply Z.mod_small; lia).
    destruct (IH (remaining - r) (wrap32 (dst_addr + r))
                 (bank_after (pages_in padded_page_size r) bank_id) fuel)
      as (rest & -> & Hrest); [lia| |lia|].
    { destruct (decide (remaining ≤ burst_size)) as [Hle|Hgt].
      - assert (r = remaining) as -> by (unfold r; lia).
        assert ((remaining + burst_size - 1) / burst_size = 1) as Hone.
        { symmetry. apply (Z.div_unique _ _ 1 (remaining - 1)); lia. }
        replace (remaining - remaining + burst_size - 1) with (burst_size - 1)
          by lia.
        rewrite Z.div_small by lia. lia.
      - assert (r = burst_size) as -> by (unfold r; lia).
        replace (remaining - burst_size + burst_size - 1)
          with (remaining + burst_size - 1 + (-1) * burst_size) by lia.
        rewrite Z.div_add by lia. lia. }
    simpl. eexists. split; [done|]. by constructor.
Qed.

Lemma write_sizes_app evs1 evs2 :
  write_sizes (evs1 ++ evs2) = write_sizes evs1 ++ write_sizes evs2.
Proof. apply omap_app. Qed.

Lemma write_sizes_page_reads addr_gen page_size padded_page_size n bank_id local_addr :
  write_sizes (page_reads addr_gen page_size padded_page_size n bank_id local_addr) = [].
Proof.
  revert bank_id local_addr. induction n as [|n IH]; intros bank_id local_addr;
    [done|]. apply IH.
Qed.

Lemma read_burst_trace_writes addr_gen dst_noc burst_size page_size
    padded_page_size remaining dst_addr bank_id evs :
  0 < burst_size →
  read_burst_trace addr_gen dst_noc burst_size page_size padded_page_size
                   remaining dst_addr bank_id evs →
  foldr Z.add 0 (write_sizes evs) = remaining ∧
  Forall (λ size, 0 < size ≤ burst_size) (write_sizes evs).
Proof.
  intros Hburst. induction 1 as [|remaining dst_addr bank_id rest Hpos _ [IHsum IHall]].
  - done.
  - rewrite write_sizes_app, write_sizes_page_reads. simpl. split.
    + rewrite IHsum. lia.
    + constructor; [lia|done].
Qed.

(** For a buffer-read record whose burst size and padded page size are
    positive (and small enough for the page counter not to wrap),
    [read_buffer] returns.  Its trace is a sequence of bursts: each fetches
    one transfer per padded page into the staging region and then writes
    [min burst_size remaining] bytes back to the host, until nothing
    remains.  The sizes of the writes add up to the padded buffer size, and
    none exceeds the burst size. *)
Theorem read_buffer_streams_in_bursts (addr_gen : InterleavedAddrGen)
    (dst_addr dst_noc src_addr padded_buf_size burst_size page_size
     padded_page_size : Z) :
  0 < burst_size → 0 < padded_page_size →
  burst_size + padded_page_size ≤ 2 ^ 32 →
  0 ≤ padded_buf_size < 2 ^ 32 →
  ∃ fuel evs,
    read_buffer fuel addr_gen dst_addr dst_noc src_addr padded_buf_size
                burst_size page_size padded_page_size
    = Some (mkAddrGen (DRAM addr_gen) src_addr padded_page_size, evs) ∧
    read_burst_trace (mkAddrGen (DRAM addr_gen) src_addr padded_page_size)
                     dst_noc burst_size page_size padded_page_size
                     padded_buf_size dst_addr 0 evs ∧
    foldr Z.add 0 (write_sizes evs) = padded_buf_size ∧
    Forall (λ size, 0 < size ≤ burst_size) (write_sizes evs).
Proof.
  intros Hburst Hpps Hfit Hpadded.
  set (m := Z.to_nat ((padded_buf_size + burst_size - 1) / burst_size)).
  destruct (read_buffer_loop_spec
              (mkAddrGen (DRAM addr_gen) src_addr padded_page_size)
              dst_noc burst_size page_size padded_page_size m Hburst Hpps Hfit
              padded_buf_size dst_addr 0
              (S (m + pages_in padded_page_size burst_size)))
    as (evs & Hrun & Htrace); [done| |lia|].
  { unfold m. apply Z2Nat.id. apply Z.div_pos; lia. }
  exists (S (m + pages_in padded_page_size burst_size)), evs.
  split; [|split; [done|by eapply read_burst_trace_writes]].
  unfold read_buffer. by rewrite Hrun.
Qed.

(** *** Reading back what was written *)

Lemma send_pages_writes fuel addr_gen size page_size padded_page_size :
  ∀ i bank_id local_addr bank_id' evs,
    send_pages fuel addr_gen size page_size padded_page_size i bank_id local_addr
      = Some (bank_id', evs) →
    Forall (λ e, ∃ src dst sz, e = noc_async_write src dst sz) evs.
Proof.
  induction fuel as [|fuel IH]; intros i bank_id local_addr bank_id' evs;
    simpl; [done|].
  destruct (i <? size); [|by intros [= <- <-]].
  destruct (send_pages fuel _ _ _ _ _ _ _) as [[b evs0]|] eqn:Hs; simpl; [|done].
  intros [= <- <-]. constructor; [by eexists _, _, _|by eapply IH].
Qed.

Lemma filter_reads_of_writes (evs : list noc_event) :
  Forall (λ e, ∃ src dst sz, e = noc_async_write src dst sz) evs →
  filter (λ e, is_noc_read e = true) (mirror <$> evs) = mirror <$> evs ∧
  filter (λ e, is_noc_write e = true) (mirror <$> evs) = [].
Proof.
  induction 1 as [|e evs (src & dst & sz & ->) _ [IH1 IH2]]; [done|].
  rewrite fmap_cons. split.
  - rewrite filter_cons_True by done. by rewrite IH1.
  - by rewrite filter_cons_False.
Qed.

Lemma burst_filters (pages written read : list noc_event) host size staging :
  Forall (λ e, ∃ src dst sz, e = noc_async_write src dst sz) pages →
  filter (λ e, is_noc_read e = true) read
    = filter (λ e, is_noc_read e = true) (mirror <$> written) →
  filter (λ e, is_noc_write e = true) read
    = filter (λ e, is_noc_write e = true) (mirror <$> written) →
  filter (λ e, is_noc_read e = true)
         ((mirror <$> pages) ++ noc_async_read_barrier
          :: noc_async_write staging host size :: noc_async_write_barrier :: read)
    = filter (λ e, is_noc_read e = true)
        (mirror <$> (noc_async_read host staging size :: noc_async_read_barrier
                     :: pages ++ noc_async_write_barrier :: written)) ∧
  filter (λ e, is_noc_write e = true)
         ((mirror <$> pages) ++ noc_async_read_barrier
          :: noc_async_write staging host size :: noc_async_write_barrier :: read)
    = filter (λ e, is_noc_write e = true)
        (mirror <$> (noc_async_read host staging size :: noc_async_read_barrier
                     :: pages ++ noc_async_write_barrier :: written)).
Proof.
  intros [Hpr Hpw]%filter_reads_of_writes IHr IHw.
  rewrite !fmap_cons, fmap_app, fmap_cons. cbn [mirror].
  split;
    repeat first
      [ rewrite filter_app
      | rewrite filter_cons_True by done
      | rewrite filter_cons_False by done
      | rewrite Hpr
      | rewrite Hpw ].
  - by rewrite IHr.
  - by rewrite IHw.
Qed.

Lemma read_write_loops fuel addr_gen noc burst_size page_size padded_page_size :
  ∀ addr remaining bank_id,
    match write_buffer_loop fuel addr_gen noc burst_size page_size
                            padded_page_size addr remaining bank_id,
          read_buffer_loop fuel addr_gen noc burst_size page_size
                           padded_page_size addr remaining bank_id with
    | Some written, Some read =>
        filter (λ e, is_noc_read e = true) read
          = filter (λ e, is_noc_read e = true) (mirror <$> written) ∧
        filter (λ e, is_noc_write e = true) read
          = filter (λ e, is_noc_write e = true) (mirror <$> written)
    | None, None => True
    | _, _ => False
    end.
Proof.
  induction fuel as [|fuel IH]; intros addr remaining bank_id; simpl; [done|].
  destruct (0 <? remaining); [|done].
  rewrite fetch_pages_mirror.
  destruct (send_pages fuel _ _ _ _ _ _ _) as [[b pages]|] eqn:Hs; simpl; [|done].
  specialize (IH (wrap32 (addr + Z.min burst_size remaining))
                 (wrap32 (remaining - Z.min burst_size remaining)) b).
  destruct (write_buffer_loop fuel _ _ _ _ _ _ _ _) as [written|];
    destruct (read_buffer_loop fuel _ _ _ _ _ _ _ _) as [read|]; simpl;
    [|done..].
  destruct IH as [IHr IHw].
  apply burst_filters; [|done..]. by eapply send_pages_writes.
Qed.

(** [read_buffer] undoes [write_buffer]: called with the words of the same
    record and the same fuel, one returns exactly when the other does, both
    leave the same fields in the address generator, and the read-back makes
    the transfers of the write in the opposite direction: the same pages,
    between the same bank addresses and places of the staging region, in the
    same order, and the same chunks, from and to the same host addresses. *)
Theorem read_buffer_mirrors_write_buffer (fuel : nat)
    (addr_gen : InterleavedAddrGen)
    (host_addr host_noc bank_addr padded_buf_size burst_size page_size
     padded_page_size : Z) :
  match write_buffer fuel addr_gen host_addr host_noc bank_addr padded_buf_size
                     burst_size page_size padded_page_size,
        read_buffer fuel addr_gen host_addr host_noc bank_addr padded_buf_size
                    burst_size page_size padded_page_size with
  | Some (gen_w, written), Some (gen_r, read) =>
      gen_r = gen_w ∧
      filter (λ e, is_noc_read e = true) read
        = filter (λ e, is_noc_read e = true) (mirror <$> written) ∧
      filter (λ e, is_noc_write e = true) read
        = filter (λ e, is_noc_write e = true) (mirror <$> written)
  | None, None => True
  | _, _ => False
  end.
Proof.
  unfold write_buffer, read_buffer.
  pose proof (read_write_loops fuel
                (mkAddrGen (DRAM addr_gen) bank_addr padded_page_size)
                host_noc burst_size page_size padded_page_size
                host_addr padded_buf_size 0) as Hloops.
  destruct (write_buffer_loop fuel _ _ _ _ _ _ _ _) as [written|];
    destruct (read_buffer_loop fuel _ _ _ _ _ _ _ _) as [read|]; simpl; try done.
Qed.

End ReadBuffer.

(** ** The dispatch executor: barriers *)

Section Fences.
Context `{HostDevConstants} `{NocAddressing}.

Lemma in_flight_app evs1 evs2 st :
  in_flight (evs1 ++ evs2) st = in_flight evs1 st ≫= in_flight evs2.
Proof.
  revert st. induction evs1 as [|e evs1 IH]; intros st; simpl; [done|].
  destruct (in_flight_step st e) as [st1|]; simpl; [apply IH|done].
Qed.

Lemma fenced_app evs1 evs2 : fenced evs1 → fenced evs2 → fenced (evs1 ++ evs2).
Proof. unfold fenced. intros H1 H2. by rewrite in_flight_app, H1. Qed.

Lemma in_flight_writes (evs rest : list noc_event) w :
  Forall (λ e, is_noc_write e = true) evs →
  in_flight (evs ++ noc_async_write_barrier :: rest) (false, w)
  = in_flight rest (false, false).
Proof.
  intros Hev. revert w. induction Hev as [|e evs He _ IH]; intros w; [done|].
  destruct e; try done; simpl; apply IH.
Qed.

Lemma in_flight_reads (evs rest : list noc_event) r :
  Forall (λ e, is_noc_read e = true) evs →
  in_flight (evs ++ noc_async_read_barrier :: rest) (r, false)
  = in_flight rest (false, false).
Proof.
  intros Hev. revert r. induction Hev as [|e evs He _ IH]; intros r; [done|].
  destruct e; try done; simpl; apply IH.
Qed.

Lemma in_flight_neutral (evs : list noc_event) st :
  Forall (λ e, match e with
               | store_word _ _ | load_word _ _ | DEBUG_STATUS _ _ => True
               | _ => False
               end) evs →
  in_flight evs st = Some st.
Proof.
  induction 1 as [|e evs He _ IH]; [done|]. destruct e; try done; apply IH.
Qed.

Lemma send_pages_are_writes fuel addr_gen size page_size padded_page_size
    i bank_id local_addr bank_id' evs :
  send_pages fuel addr_gen size page_size padded_page_size i bank_id local_addr
    = Some (bank_id', evs) →
  Forall (λ e, is_noc_write e = true) evs.
Proof.
  intros Hs%send_pages_writes. eapply Forall_impl; [exact Hs|].
  by intros e (src & dst & sz & ->).
Qed.

Lemma fetch_pages_are_reads fuel addr_gen size page_size padded_page_size
    i bank_id local_addr bank_id' evs :
  fetch_pages fuel addr_gen size page_size padded_page_size i bank_id local_addr
    = Some (bank_id', evs) →
  Forall (λ e, is_noc_read e = true) evs.
Proof.
  rewrite fetch_pages_mirror.
  destruct (send_pages fuel _ _ _ _ _ _ _) as [[b pages]|] eqn:Hs; simpl; [|done].
  intros [= <- <-]. apply send_pages_writes in Hs.
  induction Hs as [|e pages (src & dst & sz & ->) _ IH]; by constructor.
Qed.

Lemma write_buffer_loop_fenced fuel addr_gen noc burst_size page_size
    padded_page_size :
  ∀ addr remaining bank_id evs,
    write_buffer_loop fuel addr_gen noc burst_size page_size padded_page_size
                      addr remaining bank_id = Some evs →
    fenced evs.
Proof.
  induction fuel as [|fuel IH]; intros addr remaining bank_id evs; simpl; [done|].
  destruct (0 <? remaining); [|by intros [= <-]].
  destruct (send_pages fuel _ _ _ _ _ _ _) as [[b pages]|] eqn:Hs; simpl; [|done].
  destruct (write_buffer_loop fuel _ _ _ _ _ _ _ _) as [rest|] eqn:Hrest;
    simpl; [|done].
  intros [= <-]. unfold fenced. simpl.
  rewrite in_flight_writes by (by eapply send_pages_are_writes).
  by eapply IH.
Qed.

Lemma read_buffer_loop_fenced fuel addr_gen noc burst_size page_size
    padded_page_size :
  ∀ addr remaining bank_id evs,
    read_buffer_loop fuel addr_gen noc burst_size page_size padded_page_size
                     addr remaining bank_id = Some evs →
    fenced evs.
Proof.
  induction fuel as [|fuel IH]; intros addr remaining bank_id evs; simpl; [done|].
  destruct (0 <? remaining); [|by intros [= <-]].
  destruct (fetch_pages fuel _ _ _ _ _ _ _) as [[b pages]|] eqn:Hs; simpl; [|done].
  destruct (read_buffer_loop fuel _ _ _ _ _ _ _ _) as [rest|] eqn:Hrest;
    simpl; [|done].
  intros [= <-]. unfold fenced.
  rewrite in_flight_reads by (by eapply fetch_pages_are_reads). simpl.
  by eapply IH.
Qed.

Lemma write_buffer_fenced fuel addr_gen a b c d e f g r :
  write_buffer fuel addr_gen a b c d e f g = Some r → fenced r.2.
Proof.
  unfold write_buffer.
  destruct (write_buffer_loop fuel _ _ _ _ _ _ _ _) as [evs|] eqn:Hl; simpl;
    [|done].
  intros [= <-]. by eapply write_buffer_loop_fenced.
Qed.

Lemma read_buffer_fenced fuel addr_gen a b c d e f g r :
  read_buffer fuel addr_gen a b c d e f g = Some r → fenced r.2.
Proof.
  unfold read_buffer.
  destruct (read_buffer_loop fuel _ _ _ _ _ _ _ _) as [evs|] eqn:Hl; simpl;
    [|done].
  intros [= <-]. by eapply read_buffer_loop_fenced.
Qed.

Lemma write_buffers_loop_spec fuel n command :
  ∀ command_ptr dram_addr_gen l1_addr_gen r,
    write_buffers_loop fuel n command command_ptr dram_addr_gen l1_addr_gen
      = Some r →
    r.1.1.1 = command_ptr + 8 * Z.of_nat n ∧ fenced r.2.
Proof.
  induction n as [|n IH]; intros command_ptr g1 g2 r; simpl.
  - intros [= <-]. simpl. split; [lia|done].
  - intros Hr.
    assert (∃ g1' g2' evs rest,
              fenced evs ∧
              write_buffers_loop fuel n command (command_ptr + 8) g1' g2' = Some rest ∧
              r = (rest.1.1.1, rest.1.1.2, rest.1.2, evs ++ rest.2))
      as (g1' & g2' & evs & rest & Hevs & Hrest & ->).
    { destruct (command (command_ptr + 7) =? 0).
      - destruct (write_buffer fuel g1 _ _ _ _ _ _ _) as [[g evs]|] eqn:Hw;
          simpl in Hr; [|done].
        destruct (write_buffers_loop fuel n command _ _ _)
          as [[[[p' a'] b'] rest]|] eqn:Hl; simpl in Hr; [|done].
        injection Hr as <-. eexists _, _, evs, _.
        split; [by apply (write_buffer_fenced _ _ _ _ _ _ _ _ _ _ Hw)|done].
      - destruct (command (command_ptr + 7) =? 1).
        + destruct (write_buffer fuel g2 _ _ _ _ _ _ _) as [[g evs]|] eqn:Hw;
            simpl in Hr; [|done].
          destruct (write_buffers_loop fuel n command _ _ _)
            as [[[[p' a'] b'] rest]|] eqn:Hl; simpl in Hr; [|done].
          injection Hr as <-. eexists _, _, evs, _.
          split; [by apply (write_buffer_fenced _ _ _ _ _ _ _ _ _ _ Hw)|done].
        + simpl in Hr.
          destruct (write_buffers_loop fuel n command _ _ _)
            as [[[[p' a'] b'] rest]|] eqn:Hl; simpl in Hr; [|done].
          injection Hr as <-. by eexists _, _, [], _. }
    destruct (IH _ _ _ _ Hrest) as [Hptr Hf]. simpl. split; [lia|].
    by apply fenced_app.
Qed.

Lemma read_buffers_loop_spec fuel n command :
  ∀ command_ptr dram_addr_gen l1_addr_gen r,
    read_buffers_loop fuel n command command_ptr dram_addr_gen l1_addr_gen
      = Some r →
    r.1.1.1 = command_ptr + 8 * Z.of_nat n ∧ fenced r.2.
Proof.
  induction n as [|n IH]; intros command_ptr g1 g2 r; simpl.
  - intros [= <-]. simpl. split; [lia|done].
  - intros Hr.
    assert (∃ g1' g2' evs rest,
              fenced evs ∧
              read_buffers_loop fuel n command (command_ptr + 8) g1' g2' = Some rest ∧
              r = (rest.1.1.1, rest.1.1.2, rest.1.2, evs ++ rest.2))
      as (g1' & g2' & evs & rest & Hevs & Hrest & ->).
    { destruct (command (command_ptr + 7) =? 0).
      - destruct (read_buffer fuel g1 _ _ _ _ _ _ _) as [[g evs]|] eqn:Hw;
          simpl in Hr; [|done].
        destruct (read_buffers_loop fuel n command _ _ _)
          as [[[[p' a'] b'] rest]|] eqn:Hl; simpl in Hr; [|done].
        injection Hr as <-. eexists _, _, evs, _.
        split; [by apply (read_buffer_fenced _ _ _ _ _ _ _ _ _ _ Hw)|done].
      - destruct (command (command_ptr + 7) =? 1).
        + destruct (read_buffer fuel g2 _ _ _ _ _ _ _) as [[g evs]|] eqn:Hw;
            simpl in Hr; [|done].
          destruct (read_buffers_loop fuel n command _ _ _)
            as [[[[p' a'] b'] rest]|] eqn:Hl; simpl in Hr; [|done].
          injection Hr as <-. eexists _, _, evs, _.
          split; [by apply (read_buffer_fenced _ _ _ _ _ _ _ _ _ _ Hw)|done].
        + simpl in Hr.
          destruct (read_buffers_loop fuel n command _ _ _)
            as [[[[p' a'] b'] rest]|] eqn:Hl; simpl in Hr; [|done].
          injection Hr as <-. by eexists _, _, [], _. }
    destruct (IH _ _ _ _ Hrest) as [Hptr Hf]. simpl. split; [lia|].
    by apply fenced_app.
Qed.

Lemma buffers_loop_skipped fuel n command :
  ∀ command_ptr dram_addr_gen l1_addr_gen,
    (∀ i, (i < n)%nat →
       command (command_ptr + 8 * Z.of_nat i + 7) ≠ 0 ∧
       command (command_ptr + 8 * Z.of_nat i + 7) ≠ 1) →
    write_buffers_loop fuel n command command_ptr dram_addr_gen l1_addr_gen
      = Some (command_ptr + 8 * Z.of_nat n, dram_addr_gen, l1_addr_gen, []) ∧
    read_buffers_loop fuel n command command_ptr dram_addr_gen l1_addr_gen
      = Some (command_ptr + 8 * Z.of_nat n, dram_addr_gen, l1_addr_gen, []).
Proof.
  induction n as [|n IH]; intros command_ptr g1 g2 Hkinds; simpl.
  - by rewrite Z.add_0_r.
  - destruct (Hkinds 0%nat) as [Hk0 Hk1]; [lia|].
    replace (command_ptr + 8 * Z.of_nat 0 + 7) with (command_ptr + 7) in * by lia.
    rewrite (proj2 (Z.eqb_neq _ _) Hk0), (proj2 (Z.eqb_neq _ _) Hk1). simpl.
    destruct (IH (command_ptr + 8) g1 g2) as [-> ->].
    { intros i Hi. specialize (Hkinds (S i)).
      replace (command_ptr + 8 + 8 * Z.of_nat i + 7)
        with (command_ptr + 8 * Z.of_nat (S i) + 7) by lia.
      apply Hkinds. lia. }
    simpl.
    by replace (command_ptr + 8 + 8 * Z.of_nat n)
         with (command_ptr + 8 * Z.of_nat (S n)) by lia.
Qed.

Lemma write_buffer_total src_addr src_noc dst_addr padded_buf_size
    burst_size page_size padded_page_size :
  0 < burst_size → 0 < padded_page_size →
  burst_size + padded_page_size ≤ 2 ^ 32 →
  0 ≤ padded_buf_size < 2 ^ 32 →
  ∃ F, ∀ addr_gen fuel, (F ≤ fuel)%nat →
    ∃ r, write_buffer fuel addr_gen src_addr src_noc dst_addr padded_buf_size
                      burst_size page_size padded_page_size = Some r.
Proof.
  intros Hburst Hpps Hfit Hpadded.
  set (m := Z.to_nat ((padded_buf_size + burst_size - 1) / burst_size)).
  exists (S (m + pages_in padded_page_size burst_size)). intros addr_gen fuel Hfuel.
  destruct (write_buffer_loop_spec
              (mkAddrGen (DRAM addr_gen) dst_addr padded_page_size)
              src_noc burst_size page_size padded_page_size m Hburst Hpps Hfit
              padded_buf_size src_addr 0 fuel)
    as (evs & Hrun & _); [done| |lia|].
  { unfold m. apply Z2Nat.id. apply Z.div_pos; lia. }
  unfold write_buffer. rewrite Hrun. by eexists.
Qed.

Lemma read_buffer_total dst_addr dst_noc src_addr padded_buf_size
    burst_size page_size padded_page_size :
  0 < burst_size → 0 < padded_page_size →
  burst_size + padded_page_size ≤ 2 ^ 32 →
  0 ≤ padded_buf_size < 2 ^ 32 →
  ∃ F, ∀ addr_gen fuel, (F ≤ fuel)%nat →
    ∃ r, read_buffer fuel addr_gen dst_addr dst_noc src_addr padded_buf_size
                      burst_size page_size padded_page_size = Some r.
Proof.
  intros Hburst Hpps Hfit Hpadded.
  set (m := Z.to_nat ((padded_buf_size + burst_size - 1) / burst_size)).
  exists (S (m + pages_in padded_page_size burst_size)). intros addr_gen fuel Hfuel.
  destruct (read_buffer_loop_spec
              (mkAddrGen (DRAM addr_gen) src_addr padded_page_size)
              dst_noc burst_size page_size padded_page_size m Hburst Hpps Hfit
              padded_buf_size dst_addr 0 fuel)
    as (evs & Hrun & _); [done| |lia|].
  { unfold m. apply Z2Nat.id. apply Z.div_pos; lia. }
  unfold read_buffer. rewrite Hrun. by eexists.
Qed.

Lemma record_streams_first command command_ptr :
  record_streams command command_ptr 0 →
  command (command_ptr + 7) = 0 ∨ command (command_ptr + 7) = 1 →
  0 < command (command_ptr + 4) ∧ 0 < command (command_ptr + 6) ∧
  command (command_ptr + 4) + command (command_ptr + 6) ≤ 2 ^ 32 ∧
  0 ≤ command (command_ptr + 3) < 2 ^ 32.
Proof.
  unfold record_streams.
  by replace (command_ptr + 8 * 0 + 7) with (command_ptr + 7);
    replace (command_ptr + 8 * 0 + 4) with (command_ptr + 4);
    replace (command_ptr + 8 * 0 + 6) with (command_ptr + 6);
    replace (command_ptr + 8 * 0 + 3) with (command_ptr + 3); try lia.
Qed.

Lemma record_streams_next command command_ptr (n : nat) :
  (∀ i, (i < S n)%nat → record_streams command command_ptr (Z.of_nat i)) →
  ∀ i, (i < n)%nat → record_streams command (command_ptr + 8) (Z.of_nat i).
Proof.
  intros Hall i Hi. specialize (Hall (S i)). unfold record_streams in *.
  replace (command_ptr + 8 + 8 * Z.of_nat i + 7)
    with (command_ptr + 8 * Z.of_nat (S i) + 7) by lia.
  replace (command_ptr + 8 + 8 * Z.of_nat i + 4)
    with (command_ptr + 8 * Z.of_nat (S i) + 4) by lia.
  replace (command_ptr + 8 + 8 * Z.of_nat i + 6)
    with (command_ptr + 8 * Z.of_nat (S i) + 6) by lia.
  replace (command_ptr + 8 + 8 * Z.of_nat i + 3)
    with (command_ptr + 8 * Z.of_nat (S i) + 3) by lia.
  apply Hall. lia.
Qed.

Lemma write_buffers_loop_total n command :
  ∀ command_ptr,
    (∀ i, (i < n)%nat → record_streams command command_ptr (Z.of_nat i)) →
    ∃ F, ∀ dram_addr_gen l1_addr_gen fuel, (F ≤ fuel)%nat →
      ∃ r, write_buffers_loop fuel n command command_ptr dram_addr_gen
                              l1_addr_gen = Some r.
Proof.
  induction n as [|n IH]; intros ptr Hall.
  { exists 0%nat. intros ? ? fuel _. by eexists. }
  pose proof (record_streams_first _ _ (Hall 0%nat ltac:(lia))) as Hrec.
  destruct (IH _ (record_streams_next _ _ _ Hall)) as (Frest & Hrest).
  assert (∃ F, ∀ g fuel, (F ≤ fuel)%nat →
            command (ptr + 7) = 0 ∨ command (ptr + 7) = 1 →
            ∃ r, write_buffer fuel g (command ptr) (command (ptr + 1))
                   (command (ptr + 2)) (command (ptr + 3)) (command (ptr + 4))
                   (command (ptr + 5)) (command (ptr + 6)) = Some r)
    as (Fw & Hw).
  { destruct (decide (command (ptr + 7) = 0 ∨ command (ptr + 7) = 1)) as [Hkind|Hkind].
    - destruct (Hrec Hkind) as (Hb & Hp & Hfit & Hsz).
      destruct (write_buffer_total (command ptr) (command (ptr + 1))
                  (command (ptr + 2)) (command (ptr + 3)) (command (ptr + 4))
                  (command (ptr + 5)) (command (ptr + 6)) Hb Hp Hfit Hsz)
        as (F & HF).
      exists F. intros g fuel Hfuel _. by apply HF.
    - exists 0%nat. by intros g fuel _ ?. }
  exists (Fw `max` Frest)%nat. intros g1 g2 fuel Hfuel. simpl.
  destruct (command (ptr + 7) =? 0) eqn:Hk0.
  - apply Z.eqb_eq in Hk0.
    destruct (Hw g1 fuel ltac:(lia) ltac:(by left)) as ([g evs] & ->). simpl.
    destruct (Hrest g g2 fuel ltac:(lia)) as ([[[? ?] ?] ?] & ->).
    by eexists.
  - destruct (command (ptr + 7) =? 1) eqn:Hk1.
    + apply Z.eqb_eq in Hk1.
      destruct (Hw g2 fuel ltac:(lia) ltac:(by right)) as ([g evs] & ->). simpl.
      destruct (Hrest g1 g fuel ltac:(lia)) as ([[[? ?] ?] ?] & ->).
      by eexists.
    + simpl. destruct (Hrest g1 g2 fuel ltac:(lia)) as ([[[? ?] ?] ?] & ->).
      by eexists.
Qed.

Lemma read_buffers_loop_total n command :
  ∀ command_ptr,
    (∀ i, (i < n)%nat → record_streams command command_ptr (Z.of_nat i)) →
    ∃ F, ∀ dram_addr_gen l1_addr_gen fuel, (F ≤ fuel)%nat →
      ∃ r, read_buffers_loop fuel n command command_ptr dram_addr_gen
                              l1_addr_gen = Some r.
Proof.
  induction n as [|n IH]; intros ptr Hall.
  { exists 0%nat. intros ? ? fuel _. by eexists. }
  pose proof (record_streams_first _ _ (Hall 0%nat ltac:(lia))) as Hrec.
  destruct (IH _ (record_streams_next _ _ _ Hall)) as (Frest & Hrest).
  assert (∃ F, ∀ g fuel, (F ≤ fuel)%nat →
            command (ptr + 7) = 0 ∨ command (ptr + 7) = 1 →
            ∃ r, read_buffer fuel g (command ptr) (command (ptr + 1))
                   (command (ptr + 2)) (command (ptr + 3)) (command (ptr + 4))
                   (command (ptr + 5)) (command (ptr + 6)) = Some r)
    as (Fw & Hw).
  { destruct (decide (command (ptr + 7) = 0 ∨ command (ptr + 7) = 1)) as [Hkind|Hkind].
    - destruct (Hrec Hkind) as (Hb & Hp & Hfit & Hsz).
      destruct (read_buffer_total (command ptr) (command (ptr + 1))
                  (command (ptr + 2)) (command (ptr + 3)) (command (ptr + 4))
                  (command (ptr + 5)) (command (ptr + 6)) Hb Hp Hfit Hsz)
        as (F & HF).
      exists F. intros g fuel Hfuel _. by apply HF.
    - exists 0%nat. by intros g fuel _ ?. }
  exists (Fw `max` Frest)%nat. intros g1 g2 fuel Hfuel. simpl.
  destruct (command (ptr + 7) =? 0) eqn:Hk0.
  - apply Z.eqb_eq in Hk0.
    destruct (Hw g1 fuel ltac:(lia) ltac:(by left)) as ([g evs] & ->). simpl.
    destruct (Hrest g g2 fuel ltac:(lia)) as ([[[? ?] ?] ?] & ->).
    by eexists.
  - destruct (command (ptr + 7) =? 1) eqn:Hk1.
    + apply Z.eqb_eq in Hk1.
      destruct (Hw g2 fuel ltac:(lia) ltac:(by right)) as ([g evs] & ->). simpl.
      destruct (Hrest g1 g fuel ltac:(lia)) as ([[[? ?] ?] ?] & ->).
      by eexists.
    + simpl. destruct (Hrest g1 g2 fuel ltac:(lia)) as ([[[? ?] ?] ?] & ->).
      by eexists.
Qed.

(** When every record that asks for a transfer can be streamed (a buffer
    type of 0 or 1, with positive burst and padded page sizes that do not
    make the page counter wrap), [write_buffers] and [read_buffers] return,
    and they leave the command pointer eight words further per record.  A
    record whose buffer type is neither 0 (DRAM) nor 1 (L1) is passed over,
    whatever its other words hold: when all are of that sort no transfer is
    made and the address generators are as they were. *)
Theorem buffer_records_take_eight_words (n : Z) (command : Z → Z)
    (command_ptr : Z) (dram_addr_gen l1_addr_gen : InterleavedAddrGen) :
  (∀ i, 0 ≤ i < n → record_streams command command_ptr i) →
  ∃ fuel dram_w l1_w written dram_r l1_r read,
    write_buffers fuel n command command_ptr dram_addr_gen l1_addr_gen
      = Some (command_ptr + 8 * Z.of_nat (Z.to_nat n), dram_w, l1_w, written) ∧
    read_buffers fuel n command command_ptr dram_addr_gen l1_addr_gen
      = Some (command_ptr + 8 * Z.of_nat (Z.to_nat n), dram_r, l1_r, read) ∧
    ((∀ i, 0 ≤ i < n → command (command_ptr + 8 * i + 7) ≠ 0 ∧
                       command (command_ptr + 8 * i + 7) ≠ 1) →
     written = [] ∧ read = [] ∧
     dram_w = dram_addr_gen ∧ l1_w = l1_addr_gen ∧
     dram_r = dram_addr_gen ∧ l1_r = l1_addr_gen).
Proof.
  intros Hall. unfold write_buffers, read_buffers.
  assert (∀ i, (i < Z.to_nat n)%nat →
            record_streams command command_ptr (Z.of_nat i)) as Hall'
    by (intros i Hi; apply Hall; lia).
  destruct (write_buffers_loop_total _ _ _ Hall') as (Fw & Hw).
  destruct (read_buffers_loop_total _ _ _ Hall') as (Fr & Hr).
  destruct (Hw dram_addr_gen l1_addr_gen (Fw `max` Fr)%nat ltac:(lia))
    as ([[[pw dw] lw] written] & Hwritten).
  destruct (Hr dram_addr_gen l1_addr_gen (Fw `max` Fr)%nat ltac:(lia))
    as ([[[pr dr] lr] read] & Hread).
  pose proof (write_buffers_loop_spec _ _ _ _ _ _ _ Hwritten) as [Hpw _].
  pose proof (read_buffers_loop_spec _ _ _ _ _ _ _ Hread) as [Hpr _].
  simpl in Hpw, Hpr. subst pw pr.
  exists (Fw `max` Fr)%nat, dw, lw, written, dr, lr, read.
  split; [done|]. split; [done|]. intros Hkinds.
  destruct (buffers_loop_skipped (Fw `max` Fr)%nat (Z.to_nat n) command
              command_ptr dram_addr_gen l1_addr_gen) as [Hsw Hsr].
  { intros i Hi. apply Hkinds. lia. }
  rewrite Hsw in Hwritten. rewrite Hsr in Hread.
  injection Hwritten as <- <- <-. injection Hread as <- <- <-. done.
Qed.

(** Whenever [write_buffers] or [read_buffers] returns, its transfers are
    fenced: no read into the staging region starts while a write from it is
    in flight, no write starts while a read is, and nothing is in flight at
    the return. *)
Theorem buffer_transfers_are_fenced (fuel : nat) (n : Z) (command : Z → Z)
    (command_ptr : Z) (dram_addr_gen l1_addr_gen : InterleavedAddrGen) :
  (∀ r, write_buffers fuel n command command_ptr dram_addr_gen l1_addr_gen = Some r →
        fenced r.2) ∧
  (∀ r, read_buffers fuel n command command_ptr dram_addr_gen l1_addr_gen = Some r →
        fenced r.2).
Proof.
  unfold write_buffers, read_buffers. split.
  - intros r Hr. by apply write_buffers_loop_spec in Hr as [_ ?].
  - intros r Hr. by apply read_buffers_loop_spec in Hr as [_ ?].
Qed.

End Fences.

(** ** The dispatch executor: program relays, launch and finish *)

Section Relays.
Context `{HostDevConstants} `{NocAddressing}.

Lemma program_section_writes_spec fuel n command :
  ∀ command_ptr r,
    program_section_writes fuel n command command_ptr = Some r →
    r.1 = command_ptr + 5 * Z.of_nat n ∧
    Forall (λ e, is_noc_write e = true) r.2 ∧
    (if TT_METAL_DISPATCH_MAP_DUMP then r.2 = [] else length r.2 = n).
Proof.
  induction n as [|n IH]; intros command_ptr r; simpl.
  - intros [= <-]. simpl. split; [lia|]. split; [done|].
    by destruct TT_METAL_DISPATCH_MAP_DUMP.
  - intros Hr.
    destruct (program_section_writes fuel n command (command_ptr + 5))
      as [[ptr' rest]|] eqn:Hrest.
    2:{ destruct TT_METAL_DISPATCH_MAP_DUMP; [|done].
        by destruct (dump_chunk fuel _ 0). }
    destruct (IH _ _ Hrest) as (Hptr & Hall & Hlen). simpl in *.
    destruct TT_METAL_DISPATCH_MAP_DUMP.
    + destruct (dump_chunk fuel _ 0); simpl in Hr; [|done].
      injection Hr as <-. simpl. split; [lia|done].
    + simpl in Hr. injection Hr as <-. simpl. split; [lia|].
      split; [by constructor|lia].
Qed.

Lemma program_section_writes_total fuel n command :
  TT_METAL_DISPATCH_MAP_DUMP = false →
  ∀ command_ptr, is_Some (program_section_writes fuel n command command_ptr).
Proof.
  intros Hdump. induction n as [|n IH]; intros command_ptr; simpl; [done|].
  rewrite Hdump. simpl. destruct (IH (command_ptr + 5)) as [[ptr' rest] ->].
  done.
Qed.

Lemma write_program_section_spec fuel src src_noc transfer_size num_writes
    command command_ptr r :
  write_program_section fuel src src_noc transfer_size num_writes command
                        command_ptr = Some r →
  r.1 = command_ptr + 5 * Z.of_nat (Z.to_nat num_writes) ∧
  fenced r.2 ∧
  length (filter (λ e, is_noc_read e = true) r.2) = 1%nat ∧
  (if TT_METAL_DISPATCH_MAP_DUMP
   then filter (λ e, is_noc_write e = true) r.2 = [] ∧
        noc_async_write_barrier ∉ r.2
   else length (filter (λ e, is_noc_write e = true) r.2) = Z.to_nat num_writes).
Proof.
  unfold write_program_section.
  destruct (program_section_writes fuel _ command command_ptr)
    as [[ptr' writes]|] eqn:Hw; simpl; [|done].
  intros [= <-].
  destruct (program_section_writes_spec _ _ _ _ _ Hw) as (Hptr & Hall & Hlen).
  simpl in Hptr, Hall, Hlen. cbn [fst snd]. split; [done|].
  assert (filter (λ e, is_noc_read e = true) writes = []) as Hnoreads.
  { clear Hlen Hw. induction Hall as [|e evs He _ IH]; [done|].
    rewrite filter_cons_False; [done|]. by destruct e. }
  assert (filter (λ e, is_noc_write e = true) writes = writes) as Hwrites.
  { clear Hlen Hw Hnoreads. induction Hall as [|e evs He _ IH]; [done|].
    by rewrite filter_cons_True, IH. }
  destruct TT_METAL_DISPATCH_MAP_DUMP.
  - subst writes. cbn [app]. do 3 (split; [done|]).
    rewrite !not_elem_of_cons. do 2 (split; [done|]). apply not_elem_of_nil.
  - split; [|split].
    + unfold fenced. cbn [in_flight in_flight_step mbind option_bind fst snd].
      by rewrite in_flight_writes.
    + repeat first
        [ rewrite filter_app
        | rewrite filter_cons_True by done
        | rewrite filter_cons_False by done
        | rewrite Hnoreads
        | rewrite filter_nil ].
      done.
    + repeat first
        [ rewrite filter_app
        | rewrite filter_cons_True by done
        | rewrite filter_cons_False by done
        | rewrite Hwrites
        | rewrite filter_nil ].
      by rewrite app_nil_r.
Qed.

Lemma write_program_loop_spec fuel n command :
  ∀ command_ptr r,
    write_program_loop fuel n command command_ptr = Some r →
    r.1 = relays_end n command command_ptr ∧
    fenced r.2 ∧
    length (filter (λ e, is_noc_read e = true) r.2) = n ∧
    (if TT_METAL_DISPATCH_MAP_DUMP
     then filter (λ e, is_noc_write e = true) r.2 = [] ∧
          noc_async_write_barrier ∉ r.2
     else length (filter (λ e, is_noc_write e = true) r.2)
          = relays_writes n command command_ptr).
Proof.
  induction n as [|n IH]; intros command_ptr r; simpl.
  - intros [= <-]. simpl. do 3 (split; [done|]).
    destruct TT_METAL_DISPATCH_MAP_DUMP; [|done].
    split; [done|]. apply not_elem_of_nil.
  - destruct (write_program_section fuel _ _ _ _ command (command_ptr + 4))
      as [[ptr1 evs]|] eqn:Hsec; simpl; [|done].
    destruct (write_program_loop fuel n command ptr1) as [[ptr2 rest]|] eqn:Hrest;
      simpl; [|done].
    intros [= <-]. simpl.
    destruct (write_program_section_spec _ _ _ _ _ _ _ _ Hsec)
      as (Hptr1 & Hf1 & Hr1 & Hw1).
    destruct (IH _ _ Hrest) as (Hptr2 & Hf2 & Hr2 & Hw2). simpl in *.
    subst ptr1. rewrite <- Z.add_assoc in *.
    split; [done|]. split; [by apply fenced_app|].
    rewrite !filter_app, !length_app, Hr1, Hr2. split; [done|].
    destruct TT_METAL_DISPATCH_MAP_DUMP.
    + destruct Hw1 as [-> Hb1], Hw2 as [-> Hb2]. split; [done|].
      rewrite elem_of_app. naive_solver.
    + by rewrite Hw1, Hw2.
Qed.

Lemma write_program_loop_total fuel n command :
  TT_METAL_DISPATCH_MAP_DUMP = false →
  ∀ command_ptr, is_Some (write_program_loop fuel n command command_ptr).
Proof.
  intros Hdump. induction n as [|n IH]; intros command_ptr; simpl; [done|].
  unfold write_program_section.
  destruct (program_section_writes_total fuel
              (Z.to_nat (command (command_ptr + 3))) command Hdump
              (command_ptr + 4)) as [[ptr1 writes] ->].
  simpl. destruct (IH ptr1) as [[ptr2 rest] ->]. done.
Qed.

(** [write_program] consumes the command stream relay by relay, four words
    and then five words per write, whichever way the kernel is built.  In
    the normal build it always returns; it reads each program section into
    the staging region once and issues exactly the multicasts the relays ask
    for, each section fenced by its barriers. *)
Theorem write_program_consumes_whole_relays (fuel : nat)
    (num_program_relays : Z) (command : Z → Z) (command_ptr : Z) :
  (∀ r, write_program fuel num_program_relays command command_ptr = Some r →
        r.1 = relays_end (Z.to_nat num_program_relays) command command_ptr ∧
        fenced r.2) ∧
  (TT_METAL_DISPATCH_MAP_DUMP = false →
   ∃ evs,
     write_program fuel num_program_relays command command_ptr
       = Some (relays_end (Z.to_nat num_program_relays) command command_ptr, evs) ∧
     length (filter (λ e, is_noc_read e = true) evs)
       = Z.to_nat num_program_relays ∧
     length (filter (λ e, is_noc_write e = true) evs)
       = relays_writes (Z.to_nat num_program_relays) command command_ptr).
Proof.
  unfold write_program. split.
  - intros r Hr. by apply write_program_loop_spec in Hr as (? & ? & _).
  - intros Hdump.
    destruct (write_program_loop_total fuel (Z.to_nat num_program_relays)
                command Hdump command_ptr) as [[ptr evs] Hr].
    destruct (write_program_loop_spec _ _ _ _ _ Hr) as (Hptr & _ & Hreads & Hwrites).
    rewrite Hdump in Hwrites. simpl in *. subst ptr. by exists evs.
Qed.

(** When the kernel is built to dump the dispatch map, nothing is sent to
    the worker cores: [write_program] reads the program sections into the
    staging region but issues no write, no multicast and no write barrier,
    and [launch_program] returns at once, whatever the launch record says. *)
Theorem dispatch_map_dump_sends_nothing (fuel : nat)
    (num_program_relays : Z) (command : Z → Z) (command_ptr : Z) :
  TT_METAL_DISPATCH_MAP_DUMP = true →
  (∀ r, write_program fuel num_program_relays command command_ptr = Some r →
        filter (λ e, is_noc_write e = true) r.2 = [] ∧
        (noc_async_write_barrier ∉ r.2) ∧
        length (filter (λ e, is_noc_read e = true) r.2)
          = Z.to_nat num_program_relays) ∧
  (∀ num_workers num_multicast_messages observed,
     launch_program fuel num_workers num_multicast_messages command command_ptr
                    observed = Some []).
Proof.
  intros Hdump. split.
  - unfold write_program. intros r Hr.
    apply write_program_loop_spec in Hr as (_ & _ & Hreads & Hwrites).
    rewrite Hdump in Hwrites. by destruct Hwrites.
  - intros num_workers n observed. unfold launch_program. by rewrite Hdump.
Qed.

End Relays.

Section LaunchEdges.
Context `{HostDevConstants} `{NocAddressing} `{FinishConstants}.

Lemma launch_multicasts_wrap num_multicast_messages command command_ptr :
  0 ≤ num_multicast_messages →
  launch_multicasts num_multicast_messages command command_ptr
  = launch_multicast command command_ptr
      <$> seqZ 0 (num_multicast_messages mod 2 ^ 31).
Proof.
  intros Hn. unfold launch_multicasts, launch_multicast, wrap32.
  replace (num_multicast_messages * 2) with (2 * num_multicast_messages) by lia.
  change (2 ^ 32) with (2 * 2 ^ 31).
  rewrite Z.mul_mod_distr_l by lia.
  replace (2 * (num_multicast_messages mod 2 ^ 31) / 2)
    with (num_multicast_messages mod 2 ^ 31).
  2:{ symmetry. rewrite Z.mul_comm. apply Z.div_mul. lia. }
  apply list_fmap_ext. intros _ j _. f_equal; f_equal; lia.
Qed.

Lemma filter_writes_multicasts command command_ptr (l : list Z) :
  filter (λ e, is_noc_write e = true) (launch_multicast command command_ptr <$> l)
  = launch_multicast command command_ptr <$> l.
Proof.
  induction l as [|j l IH]; [done|].
  rewrite fmap_cons, filter_cons_True by done. by rewrite IH.
Qed.

Lemma filter_writes_neutral (evs : list noc_event) :
  Forall (λ e, match e with
               | store_word _ _ | load_word _ _ | DEBUG_STATUS _ _ => True
               | _ => False
               end) evs →
  filter (λ e, is_noc_write e = true) evs = [].
Proof.
  induction 1 as [|e evs He _ IH]; [done|].
  rewrite filter_cons_False; [done|]. by destruct e.
Qed.

Lemma busy_wait_loads fuel observed k num_workers evs :
  busy_wait fuel observed k num_workers = Some evs →
  Forall (λ e, match e with
               | store_word _ _ | load_word _ _ | DEBUG_STATUS _ _ => True
               | _ => False
               end) evs.
Proof.
  intros (n & _ & -> & _)%busy_wait_Some. apply Forall_fmap, Forall_forall. done.
Qed.

(** Edge cases of [launch_program].  With no worker to wait for it returns
    at once and sends nothing, even if the record lists multicast groups.
    Otherwise the launch messages it multicasts before it waits are those of
    the first [num_multicast_messages mod 2^31] groups of the record: the
    loop bound [num_multicast_messages * 2] is computed on 32 bits.  Its
    trace is fenced, and so is the trace of [finish_program], which writes
    to the host only when the finish flag is set. *)
Theorem launch_program_edge_cases (fuel : nat)
    (num_workers num_multicast_messages : Z) (command : Z → Z)
    (command_ptr : Z) (observed : nat → Z) :
  0 ≤ num_multicast_messages →
  (num_workers = 0 →
   launch_program fuel num_workers num_multicast_messages command command_ptr
                  observed = Some []) ∧
  (∀ evs,
     launch_program fuel num_workers num_multicast_messages command command_ptr
                    observed = Some evs →
     fenced evs ∧
     (TT_METAL_DISPATCH_MAP_DUMP = false → num_workers ≠ 0 →
      filter (λ e, is_noc_write e = true) evs
      = launch_multicast command command_ptr
          <$> seqZ 0 (num_multicast_messages mod 2 ^ 31))) ∧
  (∀ finish, fenced (finish_program finish) ∧
             (finish = 0 → finish_program finish = [])).
Proof.
  intros Hn. split; [|split].
  - intros ->. unfold launch_program. by destruct TT_METAL_DISPATCH_MAP_DUMP.
  - intros evs. unfold launch_program.
    destruct TT_METAL_DISPATCH_MAP_DUMP; [by intros [= <-]|].
    destruct (num_workers =? 0) eqn:Hw.
    { intros [= <-]. split; [done|]. intros _ Hne. apply Z.eqb_eq in Hw. done. }
    destruct (busy_wait fuel observed 0 num_workers) as [waited|] eqn:Hwait;
      simpl; [|done].
    intros [= <-]. pose proof (busy_wait_loads _ _ _ _ _ Hwait) as Hloads.
    rewrite launch_multicasts_wrap by done. split.
    + unfold fenced. simpl. rewrite in_flight_writes.
      * simpl. apply in_flight_neutral. apply Forall_app. split; [done|].
        by constructor.
      * apply Forall_fmap, Forall_forall. done.
    + intros _ _. rewrite filter_cons_False by done.
      rewrite filter_app, filter_writes_multicasts.
      rewrite !filter_cons_False by done.
      rewrite filter_app, (filter_writes_neutral waited Hloads).
      rewrite filter_cons_False by done. by rewrite filter_nil, !app_nil_r.
  - intros finish. unfold finish_program.
    destruct (finish =? 0) eqn:Hf; [done|]. split; [done|]. lia.
Qed.

End LaunchEdges.


(** ** The further properties on concrete programs *)

#[local] Existing Instance example_constants.
#[local] Existing Instance example_toolchain.
#[local] Existing Instance example_noc.
#[local] Existing Instance example_device_memory.
#[local] Existing Instance example_finish_constants.

Lemma two_kernel_program_reachable :
  reachable two_kernel_program.
Proof.
  apply reach_add_kernel; [apply reach_add_kernel; [apply reach_new|]|];
    reflexivity.
Qed.

Lemma one_compute_program_reachable :
  reachable one_compute_program.
Proof. apply reach_add_kernel; [apply reach_new|reflexivity]. Qed.

Lemma one_compute_program_fresh_blank_ids :
  fresh_blank_ids one_compute_program (100, 101, 102).
Proof. split; [|by repeat split]. apply (bool_decide_unpack _). by vm_compute. Qed.

Lemma one_compute_program_compiled_reachable :
  reachable one_compute_program_compiled.1.
Proof.
  eapply (reach_compile one_compute_program example_device example_world
            (100, 101, 102) _ one_compute_program_compiled.2).
  - apply one_compute_program_reachable.
  - apply one_compute_program_fresh_blank_ids.
  - by vm_compute.
Qed.

Lemma three_buffer_program_reachable :
  reachable three_buffer_program.
Proof.
  eapply (reach_add_circular_buffer two_buffer_program_allocated
            [mkCoreRange (1%nat, 1%nat) (1%nat, 1%nat)] (example_config 30 2 None) 3000).
  - apply two_buffer_program_allocated_reachable.
  - apply (bool_decide_unpack _). by vm_compute.
  - split; [|done]. unfold is_u32. simpl. lia.
  - by vm_compute.
Qed.

(** [kernel_ids_] and [kernel_by_id_] of [two_kernel_program]. *)
Lemma reachable_kernel_ids_resolve_witness :
  NoDup (kernel_ids_ two_kernel_program) ∧
  (∀ id, id ∈ kernel_ids_ two_kernel_program ↔
         is_Some (map_find id (kernel_by_id_ two_kernel_program))) ∧
  (∀ id, id ∈ kernel_ids_ two_kernel_program →
     ∃ kernel, get_kernel two_kernel_program id = Ok kernel ∧
               kernel_id kernel = id).
Proof.
  apply (reachable_kernel_ids_resolve
           two_kernel_program).
  apply two_kernel_program_reachable.
Defined.

(** The operations of [two_kernel_program]: the reader on both cores, the
    matmul on the second. *)
Lemma cores_to_ops_names_the_placed_kernels_witness :
  ∃ ops,
    cores_to_ops two_kernel_program = Ok ops ∧
    ∀ name, name ∈ ops ↔
      ∃ entry, entry ∈ kernel_by_id_ two_kernel_program ∧
               kernel_name entry.2 = name ∧ logical_cores entry.2 ≠ [].
Proof.
  apply (cores_to_ops_names_the_placed_kernels two_kernel_program).
  apply two_kernel_program_reachable.
Defined.

Example cores_to_ops_two_kernels :
  cores_to_ops two_kernel_program = Ok ["reader"; "reader"; "matmul"] ∧
  Program_logical_cores two_kernel_program = [(0%nat, 0%nat); (0%nat, 1%nat)].
Proof. split; reflexivity. Qed.

(** The group of core (0, 1) of [two_kernel_program]: a BRISC and a compute
    kernel, and no NCRISC kernel. *)
Lemma core_to_kernel_group_enables_the_placed_kernels_witness :
  run (launch_msg (default new_KernelGroup (two_kernel_groups !! (0%nat, 1%nat))))
    = RUN_MSG_GO ∧
  (is_Some (riscv0_id (default new_KernelGroup
                         (two_kernel_groups !! (0%nat, 1%nat)))) →
   enable_brisc (launch_msg (default new_KernelGroup
                               (two_kernel_groups !! (0%nat, 1%nat)))) = true) ∧
  (is_Some (riscv1_id (default new_KernelGroup
                         (two_kernel_groups !! (0%nat, 1%nat)))) →
   enable_ncrisc (launch_msg (default new_KernelGroup
                                (two_kernel_groups !! (0%nat, 1%nat)))) = true) ∧
  (is_Some (compute_id (default new_KernelGroup
                          (two_kernel_groups !! (0%nat, 1%nat)))) →
   enable_triscs (launch_msg (default new_KernelGroup
                                (two_kernel_groups !! (0%nat, 1%nat)))) = true) ∧
  (riscv0_id (default new_KernelGroup (two_kernel_groups !! (0%nat, 1%nat))) = None →
   enable_brisc (launch_msg (default new_KernelGroup
                               (two_kernel_groups !! (0%nat, 1%nat))))
   = enable_brisc KernelGroup_launch_msg) ∧
  (riscv1_id (default new_KernelGroup (two_kernel_groups !! (0%nat, 1%nat))) = None →
   enable_ncrisc (launch_msg (default new_KernelGroup
                                (two_kernel_groups !! (0%nat, 1%nat))))
   = enable_ncrisc KernelGroup_launch_msg) ∧
  (compute_id (default new_KernelGroup (two_kernel_groups !! (0%nat, 1%nat))) = None →
   enable_triscs (launch_msg (default new_KernelGroup
                                (two_kernel_groups !! (0%nat, 1%nat))))
   = enable_triscs KernelGroup_launch_msg).
Proof.
  apply (core_to_kernel_group_enables_the_placed_kernels two_kernel_program
           (with_core_to_kernel_group two_kernel_program two_kernel_groups)
           two_kernel_groups
           two_kernel_program_reachable
           eq_refl (0%nat, 1%nat)).
  reflexivity.
Defined.

(** The two buffers of [two_buffer_program] share core (0, 1) and use the
    indices 0 and 1. *)
Lemma circular_buffers_never_share_an_index_witness :
  (∀ i j cb1 cb2 core index,
     i ≠ j →
     circular_buffers_ two_buffer_program !! i = Some cb1 →
     circular_buffers_ two_buffer_program !! j = Some cb2 →
     is_on_logical_core cb1 core = true →
     is_on_logical_core cb2 core = true →
     index ∈ buffer_indices cb1 → index ∈ buffer_indices cb2 →
     0 ≤ index → False) ∧
  (∀ cb core index,
     cb ∈ circular_buffers_ two_buffer_program →
     is_on_logical_core cb core = true →
     index ∈ buffer_indices cb → 0 ≤ index →
     index < NUM_CIRCULAR_BUFFERS ∧
     ∃ a, per_core_cb_allocator_ two_buffer_program !! core = Some a ∧
          Z.testbit (indices a) index = true).
Proof.
  apply (circular_buffers_never_share_an_index two_buffer_program).
  apply two_buffer_program_reachable.
Defined.

(** A second buffer with index 0 on core (0, 1), where the buffer of
    [one_buffer_program] already uses it. *)
Lemma add_circular_buffer_rejects_index_in_use_witness :
  (∃ e, add_circular_buffer one_buffer_program
          [mkCoreRange (0%nat, 1%nat) (1%nat, 1%nat)] (example_config 50 0 None)
          2000 = Err e) ∧
  (NUM_CIRCULAR_BUFFERS ≤ 32 →
   Forall (λ k, 0 ≤ k < NUM_CIRCULAR_BUFFERS)
          (buffer_indices_ (example_config 50 0 None)) →
   add_circular_buffer one_buffer_program
     [mkCoreRange (0%nat, 1%nat) (1%nat, 1%nat)] (example_config 50 0 None) 2000
   = Err Fatal).
Proof.
  apply (add_circular_buffer_rejects_index_in_use one_buffer_program
           [mkCoreRange (0%nat, 1%nat) (1%nat, 1%nat)] (example_config 50 0 None)
           2000
           (mkCB 1000 [mkCoreRange (0%nat, 0%nat) (0%nat, 1%nat)]
                 (example_config 100 0 None) None)
           (0%nat, 1%nat) 0).
  - apply one_buffer_program_reachable.
  - vm_compute. by left.
  - reflexivity.
  - apply (bool_decide_unpack _). by vm_compute.
  - vm_compute. by left.
  - vm_compute. by left.
  - lia.
Defined.

(** A buffer registered with no core range at all. *)
Lemma circular_buffer_without_cores_breaks_allocation_witness :
  (∀ allocs address,
     allocate_circular_buffer allocs
       (mkCB 1 [] (example_config 100 0 None) address)
     = Err BadOptionalAccess) ∧
  ∃ p', add_circular_buffer (new_Program 0) []
          (example_config 100 0 None) 1 = Ok (p', 1) ∧
        circular_buffers_ p'
        = circular_buffers_ (new_Program 0)
          ++ [mkCB 1 [] (example_config 100 0 None) None] ∧
        ∃ e, allocate_circular_buffers p' = Err e.
Proof.
  apply (circular_buffer_without_cores_breaks_allocation
           (new_Program 0) [] (example_config 100 0 None) 1).
  reflexivity.
Defined.

(** The second buffer of [two_buffer_program_allocated]. *)
Lemma allocated_buffers_lie_above_the_reserved_base_witness :
  ∃ A,
    address (mkCB 2000 [mkCoreRange (0%nat, 1%nat) (1%nat, 1%nat)]
                  (example_config 50 1 None) (Some 122980)) = Some A ∧
    L1_UNRESERVED_BASE ≤ A ∧
    ∀ core,
      is_on_logical_core
        (mkCB 2000 [mkCoreRange (0%nat, 1%nat) (1%nat, 1%nat)]
              (example_config 50 1 None) (Some 122980)) core = true →
      ∃ a v, per_core_cb_allocator_ two_buffer_program_allocated !! core = Some a ∧
             get_address_candidate a = Ok v ∧
             A + size_of (mkCB 2000 [mkCoreRange (0%nat, 1%nat) (1%nat, 1%nat)]
                               (example_config 50 1 None) (Some 122980)) ≤ v.
Proof.
  apply (allocated_buffers_lie_above_the_reserved_base two_buffer_program_allocated).
  - apply two_buffer_program_allocated_reachable.
  - unfold is_u32. simpl. lia.
  - vm_compute. discriminate.
  - reflexivity.
  - vm_compute. right. by left.
Defined.

(** The buffers on core (0, 1) of [two_buffer_program_allocated]. *)
Lemma circular_buffers_on_core_in_address_order_witness :
  StronglySorted
    (λ cb1 cb2, ∃ a1 a2, address cb1 = Some a1 ∧ address cb2 = Some a2 ∧
                         a1 + size_of cb1 ≤ a2)
    (circular_buffers_on_core two_buffer_program_allocated (0%nat, 1%nat)).
Proof.
  apply (circular_buffers_on_core_in_address_order two_buffer_program_allocated (0%nat, 1%nat)).
  - apply two_buffer_program_allocated_reachable.
  - unfold is_u32. simpl. lia.
  - vm_compute. discriminate.
  - reflexivity.
Defined.

(** Core (0, 1) of [two_buffer_program_allocated] on a device with 1 MiB of
    L1 and an L1 buffer at 512 KiB. *)
Lemma validate_circular_buffer_region_bounds_the_buffers_witness :
  ∃ bank,
    bank_ids_from_logical_core example_device
      (0%nat, 1%nat) = [bank] ∧
    ∀ cb, cb ∈ circular_buffers_on_core two_buffer_program_allocated (0%nat, 1%nat) →
      ∃ A, address cb = Some A ∧ L1_UNRESERVED_BASE ≤ A ∧
           A + size_of cb ≤ l1_size example_device ∧
           ∀ lowest,
             lowest_occupied_l1_address example_device bank
               = Some lowest →
             A + size_of cb ≤ lowest.
Proof.
  apply (validate_circular_buffer_region_bounds_the_buffers two_buffer_program_allocated
           example_device (0%nat, 1%nat)).
  - apply two_buffer_program_allocated_reachable.
  - unfold is_u32. simpl. lia.
  - vm_compute. discriminate.
  - reflexivity.
  - reflexivity.
Defined.

(** A third buffer added to [two_buffer_program_allocated]: the first two
    keep their addresses. *)
Lemma add_circular_buffer_keeps_earlier_addresses_witness :
  ∃ A, circular_buffers_ three_buffer_program_allocated
       = circular_buffers_ two_buffer_program_allocated
         ++ [mkCB 3000 [mkCoreRange (1%nat, 1%nat) (1%nat, 1%nat)]
                  (example_config 30 2 None) (Some A)].
Proof.
  apply (add_circular_buffer_keeps_earlier_addresses two_buffer_program_allocated three_buffer_program
           three_buffer_program_allocated).
  - apply two_buffer_program_allocated_reachable.
  - reflexivity.
  - by vm_compute.
  - by vm_compute.
Defined.

Example three_buffer_program_addresses :
  address <$> circular_buffers_ three_buffer_program_allocated
  = [Some 122880; Some 122980; Some 123030].
Proof. by vm_compute. Qed.

(** The compute kernel of [one_compute_program], once compiled. *)
Lemma compiled_program_has_all_binaries_witness :
  is_Some (binary_path
             (7, mkKernel 7 "kernel" COMPUTE
                   [mkCoreRange (0%nat, 0%nat) (0%nat, 1%nat)]
                   (Some ("kernel"%string, 6)) true).2) ∧
  binaries_read
    (7, mkKernel 7 "kernel" COMPUTE
          [mkCoreRange (0%nat, 0%nat) (0%nat, 1%nat)]
          (Some ("kernel"%string, 6)) true).2 = true.
Proof.
  apply (compiled_program_has_all_binaries
           one_compute_program_compiled.1).
  - apply one_compute_program_compiled_reachable.
  - reflexivity.
  - vm_compute. by left.
Defined.

(** The kernel groups of [one_compute_program], once compiled. *)
Lemma compiled_program_fills_every_role_witness :
  ∃ p' groups,
    core_to_kernel_group one_compute_program_compiled.1
      = Ok (p', groups) ∧
    ∀ core g, groups !! core = Some g →
      is_Some (riscv0_id g) ∧ is_Some (riscv1_id g) ∧ is_Some (compute_id g).
Proof.
  apply (compiled_program_fills_every_role
           one_compute_program_compiled.1).
  - apply one_compute_program_compiled_reachable.
  - reflexivity.
Defined.

(** The compile of [one_compute_program] in a fresh process. *)
Lemma compile_generates_each_hash_once_witness :
  ∃ new,
    work_log one_compute_program_compiled.2 = work_log example_world ++ new ∧
    NoDup (generated_hashes new) ∧
    (∀ h, h ∈ generated_hashes new →
          (h ∉ hash_lookup example_world) ∧
          h ∈ hash_lookup one_compute_program_compiled.2) ∧
    hash_lookup example_world ⊆ hash_lookup one_compute_program_compiled.2.
Proof.
  apply (compile_generates_each_hash_once
           one_compute_program one_compute_program_compiled.1 example_device
           example_world one_compute_program_compiled.2 (100, 101, 102)).
  by vm_compute.
Defined.

Lemma compile_builds_blank_firmware_once_witness :
  ∃ new,
    work_log one_compute_program_compiled.2 = work_log example_world ++ new ∧
    (compile_needed_ one_compute_program = true →
     blank_compiled one_compute_program_compiled.2 = true ∧
     if blank_compiled example_world then blank_generations new = []
     else blank_generations new = [device_id example_device] ∧
          head new = Some (generated_blank (device_id example_device))) ∧
    (compile_needed_ one_compute_program = false →
     new = [] ∧
     blank_compiled one_compute_program_compiled.2 = blank_compiled example_world).
Proof.
  apply (compile_builds_blank_firmware_once
           one_compute_program one_compute_program_compiled.1 example_device
           example_world one_compute_program_compiled.2 (100, 101, 102)).
  by vm_compute.
Defined.

(** The two blank kernels of the compiled program have the same name and
    hash: one generation serves both. *)
Example one_compute_program_generated :
  generated_hashes (work_log one_compute_program_compiled.2) = [6; 35] ∧
  blank_generations (work_log one_compute_program_compiled.2) = [0].
Proof. split; reflexivity. Qed.

(** The first semaphore of a program. *)
Lemma semaphore_address_after_add_semaphore_witness :
  semaphore_address
    (add_semaphore (mkProgramSemaphores (new_Program 0) [])
                   [mkCoreRange (0%nat, 0%nat) (0%nat, 0%nat)] 4096 1) 0
    = (if decide (0 = Z.of_nat (num_semaphores
                                  (mkProgramSemaphores (new_Program 0) [])))
       then Ok 4096
       else semaphore_address (mkProgramSemaphores (new_Program 0) []) 0) ∧
  (semaphore_address (mkProgramSemaphores (new_Program 0) []) 0 = Err OutOfRange ↔
   Z.of_nat (num_semaphores (mkProgramSemaphores (new_Program 0) [])) ≤ 0) ∧
  num_semaphores
    (add_semaphore (mkProgramSemaphores (new_Program 0) [])
                   [mkCoreRange (0%nat, 0%nat) (0%nat, 0%nat)] 4096 1)
    = S (num_semaphores (mkProgramSemaphores (new_Program 0) [])) ∧
  compile_needed_
    (sem_program
       (add_semaphore (mkProgramSemaphores (new_Program 0) [])
                      [mkCoreRange (0%nat, 0%nat) (0%nat, 0%nat)] 4096 1)) = true.
Proof.
  apply (semaphore_address_after_add_semaphore
           (mkProgramSemaphores (new_Program 0) [])
           [mkCoreRange (0%nat, 0%nat) (0%nat, 0%nat)] 4096 1 0).
  lia.
Defined.

(** A read-back of 96 bytes in bursts of 64, pages of 32. *)
Lemma read_buffer_streams_in_bursts_witness :
  ∃ fuel evs,
    read_buffer fuel (mkAddrGen false 0 0)
                 4096 3 8192 96 64 24 32
    = Some (mkAddrGen (DRAM (mkAddrGen false 0 0)) 8192 32, evs) ∧
    read_burst_trace
                      (mkAddrGen (DRAM (mkAddrGen false 0 0)) 8192 32)
                      3 64 24 32 96 4096 0 evs ∧
    foldr Z.add 0 (write_sizes evs) = 96 ∧
    Forall (λ size, 0 < size ≤ 64) (write_sizes evs).
Proof.
  apply (read_buffer_streams_in_bursts
           (mkAddrGen false 0 0) 4096 3 8192 96 64 24 32); lia.
Defined.

(** The same transfer, run in both directions. *)
Example read_buffer_two_bursts :
  write_sizes
    (default []
       (snd <$> read_buffer 10 (mkAddrGen false 0 0)
                             4096 3 8192 96 64 24 32))
  = [64; 32] ∧
  (snd <$> read_buffer 10 (mkAddrGen false 0 0)
                        4096 3 8192 96 64 24 32)
  = Some [noc_async_read 8192 151552 24; noc_async_read 8224 151584 24;
          noc_async_read_barrier;
          noc_async_write 151552 (Z.lor (Z.shiftl 3 32) 4096) 64;
          noc_async_write_barrier;
          noc_async_read 8256 151552 24;
          noc_async_read_barrier;
          noc_async_write 151552 (Z.lor (Z.shiftl 3 32) 4160) 32;
          noc_async_write_barrier] ∧
  (snd <$> write_buffer 10 (mkAddrGen false 0 0)
                         4096 3 8192 96 64 24 32)
  = Some [noc_async_read (Z.lor (Z.shiftl 3 32) 4096) 151552 64;
          noc_async_read_barrier;
          noc_async_write 151552 8192 24; noc_async_write 151584 8224 24;
          noc_async_write_barrier;
          noc_async_read (Z.lor (Z.shiftl 3 32) 4160) 151552 32;
          noc_async_read_barrier;
          noc_async_write 151552 8256 24;
          noc_async_write_barrier].
Proof. repeat split; reflexivity. Qed.

(** A transfer record for an L1 buffer followed by a record of an unknown
    buffer type. *)
Lemma buffer_records_take_eight_words_witness :
  ∃ fuel dram_w l1_w written dram_r l1_r read,
    write_buffers fuel 2 example_two_record_command 0
                  (mkAddrGen true 0 0) (mkAddrGen false 0 0)
      = Some (0 + 8 * Z.of_nat (Z.to_nat 2), dram_w, l1_w, written) ∧
    read_buffers fuel 2 example_two_record_command 0
                 (mkAddrGen true 0 0) (mkAddrGen false 0 0)
      = Some (0 + 8 * Z.of_nat (Z.to_nat 2), dram_r, l1_r, read) ∧
    ((∀ i, 0 ≤ i < 2 → example_two_record_command (0 + 8 * i + 7) ≠ 0 ∧
                       example_two_record_command (0 + 8 * i + 7) ≠ 1) →
     written = [] ∧ read = [] ∧
     dram_w = mkAddrGen true 0 0 ∧ l1_w = mkAddrGen false 0 0 ∧
     dram_r = mkAddrGen true 0 0 ∧ l1_r = mkAddrGen false 0 0).
Proof.
  apply (buffer_records_take_eight_words 2 example_two_record_command 0
           (mkAddrGen true 0 0) (mkAddrGen false 0 0)).
  intros i Hi. assert (i = 0 ∨ i = 1) as [-> | ->] by lia.
  - intros _. vm_compute. by repeat split.
  - intros [Hk|Hk]; vm_compute in Hk; discriminate.
Defined.

Example write_buffers_two_records :
  write_buffers 10 2 example_two_record_command 0
                (mkAddrGen true 0 0) (mkAddrGen false 0 0)
  = Some (16, mkAddrGen true 0 0, mkAddrGen false 8192 32,
          [noc_async_read (Z.lor (Z.shiftl 3 32) 4096) 151552 64;
           noc_async_read_barrier;
           noc_async_write 151552 8192 24; noc_async_write 151584 8224 24;
           noc_async_write_barrier;
           noc_async_read (Z.lor (Z.shiftl 3 32) 4160) 151552 32;
           noc_async_read_barrier;
           noc_async_write 151552 8256 24;
           noc_async_write_barrier]).
Proof. reflexivity. Qed.

(** Two program relays, in the normal build and in the build that dumps the
    dispatch map. *)
Example write_program_two_relays :
  write_program 0 2 example_relay_command 0
  = Some (18,
          [noc_async_read (Z.lor (Z.shiftl 3 32) 4096) 151552 256;
           noc_async_read_barrier;
           noc_async_write_multicast 151552 (Z.lor (Z.shiftl 257 32) 1024) 128 4;
           noc_async_write_multicast 151680 (Z.lor (Z.shiftl 514 32) 2048) 128 6;
           noc_async_write_barrier;
           noc_async_read (Z.lor (Z.shiftl 3 32) 8192) 151552 64;
           noc_async_read_barrier; noc_async_write_barrier]) ∧
  @write_program example_dump_constants 100 2 example_relay_command 0
  = Some (18,
          [noc_async_read (Z.lor (Z.shiftl 3 32) 4096) 151552 256;
           noc_async_read_barrier;
           noc_async_read (Z.lor (Z.shiftl 3 32) 8192) 151552 64;
           noc_async_read_barrier]) ∧
  @write_program example_dump_constants 32 2 example_relay_command 0 = None.
Proof. repeat split; reflexivity. Qed.

Lemma dispatch_map_dump_sends_nothing_witness :
  (∀ r, @write_program example_dump_constants 100 2 example_relay_command 0
          = Some r →
        filter (λ e, is_noc_write e = true) r.2 = [] ∧
        (noc_async_write_barrier ∉ r.2) ∧
        length (filter (λ e, is_noc_read e = true) r.2) = Z.to_nat 2) ∧
  (∀ num_workers num_multicast_messages observed,
     @launch_program example_dump_constants 100 num_workers
                     num_multicast_messages example_relay_command 0 observed
     = Some []).
Proof.
  apply (@dispatch_map_dump_sends_nothing example_dump_constants 100 2
           example_relay_command 0).
  reflexivity.
Defined.

(** A launch record with two groups, launched for 8 workers. *)
Lemma launch_program_edge_cases_witness :
  (8 = 0 →
   launch_program 9 8 2 example_launch_command 0
                   example_counter = Some []) ∧
  (∀ evs,
     launch_program 9 8 2 example_launch_command 0
                     example_counter = Some evs →
     fenced evs ∧
     (TT_METAL_DISPATCH_MAP_DUMP = false → 8 ≠ 0 →
      filter (λ e, is_noc_write e = true) evs
      = launch_multicast example_launch_command 0
          <$> seqZ 0 (2 mod 2 ^ 31))) ∧
  (∀ finish, fenced (finish_program finish) ∧
             (finish = 0 → finish_program finish = [])).
Proof.
  apply (launch_program_edge_cases
           9 8 2 example_launch_command 0 example_counter).
  lia.
Defined.

(** A record that lists [2^31 + 1] groups launches one: the loop bound wraps
    to 2. *)
Example launch_program_wrapped_bound :
  length (launch_multicasts (2 ^ 31 + 1)
            example_launch_command 0) = 1%nat.
Proof. reflexivity. Qed.
